(** * The repair parser of [src/regular/jsonrepair.ts]

    A shallow embedding of [jsonrepair] and of the recognizers nested in
    it.  A JavaScript string is a sequence of UTF-16 code units, here a
    [list N]; the closure variables [i] and [output] of [jsonrepair] are
    the fields of a [State] record threaded through every recognizer; a
    [throw] is the [Throw] outcome.  The mutually recursive recognizers
    take a fuel argument, and the facts on what [jsonrepair] returns are
    stated for every large enough fuel. *)

From Stdlib Require Import String Ascii List NArith Arith Bool Lia.
Import ListNotations.

(** ** JavaScript strings *)

Definition jsstring := list N.

(** The code units of an ASCII literal. *)
Definition lit (s : string) : jsstring := map N_of_ascii (list_ascii_of_string s).

(** [text.charCodeAt(k)], [text.charAt(k)] and [text[k]]: [None] stands for
    [NaN], for the empty string and for [undefined], on which every
    classifier below answers [false]. *)
Definition charCodeAt (text : jsstring) (k : nat) : option N := nth_error text k.

(** [text.charCodeAt(k - 1)], where [k - 1] may be [-1]. *)
Definition charCodeBefore (text : jsstring) (k : nat) : option N :=
  match k with 0 => None | S k' => nth_error text k' end.

(** A classifier applied to a code that may be missing. *)
Definition test (p : N -> bool) (c : option N) : bool :=
  match c with Some x => p x | None => false end.

(** [text.charCodeAt(k) === code]. *)
Definition is_code (code : N) (c : option N) : bool := test (N.eqb code) c.

(** [text.slice(a, b)] for [a <= b]. *)
Definition slice (text : jsstring) (a b : nat) : jsstring := firstn (b - a) (skipn a text).

(** [text.substring(0, k)]. *)
Definition substring0 (text : jsstring) (k : nat) : jsstring := firstn k text.

(** The length of the longest prefix whose elements satisfy [p]: the number
    of rounds of a loop [while (p(text.charCodeAt(i))) i++]. *)
Fixpoint span (p : N -> bool) (l : jsstring) : nat :=
  match l with
  | c :: l' => if p c then S (span p l') else 0
  | [] => 0
  end.

(** ** [utils/stringUtils]: character classifiers and output back-patching *)

Module StringUtils.

Definition codeBackslash : N := 0x5c.
Definition codeSlash : N := 0x2f.
Definition codeAsterisk : N := 0x2a.
Definition codeOpeningBrace : N := 0x7b.
Definition codeClosingBrace : N := 0x7d.
Definition codeOpeningBracket : N := 0x5b.
Definition codeClosingBracket : N := 0x5d.
Definition codeOpenParenthesis : N := 0x28.
Definition codeCloseParenthesis : N := 0x29.
Definition codeSpace : N := 0x20.
Definition codeNewline : N := 0xa.
Definition codeTab : N := 0x9.
Definition codeReturn : N := 0xd.
Definition codeBackspace : N := 0x8.
Definition codeFormFeed : N := 0xc.
Definition codeDoubleQuote : N := 0x22.
Definition codePlus : N := 0x2b.
Definition codeMinus : N := 0x2d.
Definition codeQuote : N := 0x27.
Definition codeZero : N := 0x30.
Definition codeNine : N := 0x39.
Definition codeComma : N := 0x2c.
Definition codeDot : N := 0x2e.
Definition codeColon : N := 0x3a.
Definition codeSemicolon : N := 0x3b.
Definition codeUppercaseA : N := 0x41.
Definition codeLowercaseA : N := 0x61.
Definition codeUppercaseE : N := 0x45.
Definition codeLowercaseE : N := 0x65.
Definition codeUppercaseF : N := 0x46.
Definition codeLowercaseF : N := 0x66.
Definition codeUppercaseZ : N := 0x5a.
Definition codeLowercaseZ : N := 0x7a.
Definition codeLowercaseU : N := 0x75.
Definition codeUnderscore : N := 0x5f.

Definition between (lo hi code : N) : bool := (lo <=? code)%N && (code <=? hi)%N.

(** Modelled from the spec: [isHex] is missing from src/; "Hex digit:
    0-9A-Fa-f". *)
Definition isHex (code : N) : bool :=
  between codeZero codeNine code
  || between codeUppercaseA codeUppercaseF code
  || between codeLowercaseA codeLowercaseF code.

(** Modelled from the spec: [isDigit] is missing from src/; the digits of
    the number grammar of section 4.6. *)
Definition isDigit (code : N) : bool := between codeZero codeNine code.

(** Modelled from the spec: [isValidStringCharacter] is missing from src/;
    "not a valid JSON string character (anything < U+0020 ...)". *)
Definition isValidStringCharacter (code : N) : bool := (0x20 <=? code)%N.

(** Modelled from the spec: [isWhitespace] is missing from src/;
    "Whitespace: space, tab, CR, LF". *)
Definition isWhitespace (code : N) : bool :=
  (code =? codeSpace)%N || (code =? codeNewline)%N
  || (code =? codeTab)%N || (code =? codeReturn)%N.

(** Modelled from the spec: [isSpecialWhitespace] is missing from src/;
    "NBSP (U+00A0), en/em spaces (U+2000-U+200A), line/paragraph separator
    (U+2028/U+2029), narrow no-break (U+202F), medium mathematical space
    (U+205F), ideographic space (U+3000)". *)
Definition isSpecialWhitespace (code : N) : bool :=
  (code =? 0xa0)%N || between 0x2000 0x200a code
  || (code =? 0x2028)%N || (code =? 0x2029)%N
  || (code =? 0x202f)%N || (code =? 0x205f)%N || (code =? 0x3000)%N.

(** Modelled from the spec: [isDoubleQuoteLike] is missing from src/;
    "Double-quote-like: U+0022, U+201C, U+201D, U+201F, U+2033, U+2036". *)
Definition isDoubleQuoteLike (code : N) : bool :=
  (code =? codeDoubleQuote)%N || (code =? 0x201c)%N || (code =? 0x201d)%N
  || (code =? 0x201f)%N || (code =? 0x2033)%N || (code =? 0x2036)%N.

(** Modelled from the spec: [isDoubleQuote] is missing from src/; the ASCII
    double quote. *)
Definition isDoubleQuote (code : N) : bool := (code =? codeDoubleQuote)%N.

(** Modelled from the spec: [isSingleQuoteLike] is missing from src/;
    "Single-quote-like: U+0027, U+2018, U+2019, U+201B, U+2032, U+2035,
    U+0060 (backtick), U+00B4 (acute)". *)
Definition isSingleQuoteLike (code : N) : bool :=
  (code =? codeQuote)%N || (code =? 0x2018)%N || (code =? 0x2019)%N
  || (code =? 0x201b)%N || (code =? 0x2032)%N || (code =? 0x2035)%N
  || (code =? 0x60)%N || (code =? 0xb4)%N.

(** Modelled from the spec: [isSingleQuote] is missing from src/; the ASCII
    single quote. *)
Definition isSingleQuote (code : N) : bool := (code =? codeQuote)%N.

(** Modelled from the spec: [isQuote] is missing from src/; a quote-like
    character of either family. *)
Definition isQuote (code : N) : bool := isDoubleQuoteLike code || isSingleQuoteLike code.

(** Modelled from the spec: [isDelimiter] is missing from src/; "Delimiter:
    any of [,:[]{}()\n+] plus quote-likes".  The slash is a delimiter too:
    the source has [isDelimiterExceptSlash] for the one place that lets a
    slash through. *)
Definition isDelimiter (code : N) : bool :=
  (code =? codeComma)%N || (code =? codeColon)%N
  || (code =? codeOpeningBracket)%N || (code =? codeClosingBracket)%N
  || (code =? codeSlash)%N
  || (code =? codeOpeningBrace)%N || (code =? codeClosingBrace)%N
  || (code =? codeOpenParenthesis)%N || (code =? codeCloseParenthesis)%N
  || (code =? codeNewline)%N || (code =? codePlus)%N
  || isQuote code.

(** Modelled from the spec: [isDelimiterExceptSlash] is missing from src/;
    the delimiters but the slash, "so regex-like unquoted tokens may
    include /". *)
Definition isDelimiterExceptSlash (code : N) : bool :=
  isDelimiter code && negb (code =? codeSlash)%N.

(** A character of the class [\w]: a letter, a digit or the underscore. *)
Definition isWordCharacter (code : N) : bool :=
  between codeLowercaseA codeLowercaseZ code
  || between codeUppercaseA codeUppercaseZ code
  || isDigit code || (code =? codeUnderscore)%N.

(** Modelled from the spec: [isStartOfValue] is missing from src/; a
    "value-start character": what an object, an array, a string, a number,
    a keyword or an identifier begins with. *)
Definition isStartOfValue (code : N) : bool :=
  (code =? codeOpeningBracket)%N || (code =? codeOpeningBrace)%N
  || isWordCharacter code || (code =? codeMinus)%N || isQuote code.

(** Modelled from the spec: [isControlCharacter] is missing from src/; the
    control characters that have a named JSON escape, the ones of the
    [controlCharacters] table of the source ("the implementation MAY
    restrict to the named set"); the source rejects every other code below
    U+0020 through [isValidStringCharacter]. *)
Definition isControlCharacter (code : N) : bool :=
  (code =? codeNewline)%N || (code =? codeReturn)%N || (code =? codeTab)%N
  || (code =? codeBackspace)%N || (code =? codeFormFeed)%N.

(** Modelled from the spec: [isFunctionName] is missing from src/; the
    MongoDB names of the spec "plus any identifier accepted as a JSONP
    callback": a non-empty run of word characters. *)
Definition isFunctionName (name : jsstring) : bool :=
  negb (length name =? 0) && forallb isWordCharacter name.

(** [text.lastIndexOf(c)] for a one-character [c]. *)
Fixpoint lastIndexOf (c : N) (text : jsstring) : option nat :=
  match text with
  | [] => None
  | x :: text' =>
      match lastIndexOf c text' with
      | Some k => Some (S k)
      | None => if (x =? c)%N then Some 0 else None
      end
  end.

(** Modelled from the spec: [stripLastOccurrence] is missing from src/;
    "strip last occurrence of char"; with the third argument set, the text
    after the occurrence (the whitespace that follows the closing quote of
    a left string) goes as well. *)
Definition stripLastOccurrence (text : jsstring) (textToStrip : N)
    (stripRemainingText : bool) : jsstring :=
  match lastIndexOf textToStrip text with
  | Some index =>
      substring0 text index
      ++ (if stripRemainingText then [] else skipn (index + 1) text)
  | None => text
  end.

(** Modelled from the spec: [insertBeforeLastWhitespace] is missing from
    src/; "insert-before-last-whitespace": the insertion goes before the
    trailing run of whitespace of the text. *)
Definition insertBeforeLastWhitespace (text textToInsert : jsstring) : jsstring :=
  let index := length text - span isWhitespace (rev text) in
  substring0 text index ++ textToInsert ++ skipn index text.

(** Modelled from the spec: [removeAtIndex] is missing from src/;
    "remove-at-index". *)
Definition removeAtIndex (text : jsstring) (start count : nat) : jsstring :=
  substring0 text start ++ skipn (start + count) text.

(** Modelled from the spec: [endsWithCommaOrNewline] is missing from src/;
    "the current output ends (ignoring trailing whitespace) with [,] or
    newline": after the trailing blanks, tabs and carriage returns. *)
Definition endsWithCommaOrNewline (text : jsstring) : bool :=
  let blank c := (c =? codeSpace)%N || (c =? codeTab)%N || (c =? codeReturn)%N in
  match skipn (span blank (rev text)) (rev text) with
  | c :: _ => (c =? codeComma)%N || (c =? codeNewline)%N
  | [] => false
  end.

End StringUtils.

Import StringUtils.

(** ** Built-ins of the language used by the source *)

Fixpoint eqb_jsstring (a b : jsstring) : bool :=
  match a, b with
  | [], [] => true
  | x :: a', y :: b' => (x =? y)%N && eqb_jsstring a' b'
  | _, _ => false
  end.

(** The characters [String.prototype.trim] removes: the white space and the
    line terminators of ECMAScript. *)
Definition isTrimSpace (code : N) : bool :=
  between 0x9 0xd code || (code =? 0x20)%N || (code =? 0xa0)%N
  || (code =? 0x1680)%N || between 0x2000 0x200a code
  || (code =? 0x2028)%N || (code =? 0x2029)%N || (code =? 0x202f)%N
  || (code =? 0x205f)%N || (code =? 0x3000)%N || (code =? 0xfeff)%N.

Definition trimStart (s : jsstring) : jsstring := skipn (span isTrimSpace s) s.

(** [s.trim()]. *)
Definition trim (s : jsstring) : jsstring := rev (trimStart (rev (trimStart s))).

Definition hexDigit (d : N) : N :=
  if (d <? 10)%N then (codeZero + d)%N else (codeLowercaseA + (d - 10))%N.

Definition unicodeEscape (c : N) : jsstring :=
  [codeBackslash; codeLowercaseU; hexDigit ((c / 4096) mod 16);
   hexDigit ((c / 256) mod 16); hexDigit ((c / 16) mod 16); hexDigit (c mod 16)].

Definition quoteCharacter (c : N) : jsstring :=
  if (c =? codeDoubleQuote)%N then [codeBackslash; codeDoubleQuote]
  else if (c =? codeBackslash)%N then [codeBackslash; codeBackslash]
  else if (c =? codeBackspace)%N then [codeBackslash; 0x62%N]
  else if (c =? codeFormFeed)%N then [codeBackslash; 0x66%N]
  else if (c =? codeNewline)%N then [codeBackslash; 0x6e%N]
  else if (c =? codeReturn)%N then [codeBackslash; 0x72%N]
  else if (c =? codeTab)%N then [codeBackslash; 0x74%N]
  else if (c <? 0x20)%N then unicodeEscape c
  else [c].

Fixpoint quoteCharacters (s : jsstring) : jsstring :=
  match s with
  | [] => []
  | c :: s' =>
      if between 0xd800 0xdbff c then
        match s' with
        | d :: s'' =>
            if between 0xdc00 0xdfff d then c :: d :: quoteCharacters s''
            else unicodeEscape c ++ quoteCharacters s'
        | [] => unicodeEscape c
        end
      else if between 0xdc00 0xdfff c then unicodeEscape c ++ quoteCharacters s'
      else quoteCharacter c ++ quoteCharacters s'
  end.

(** [JSON.stringify(s)] for a string [s]. *)
Definition JSON_stringify (s : jsstring) : jsstring :=
  [codeDoubleQuote] ++ quoteCharacters s ++ [codeDoubleQuote].

(** ** The state of a parse *)

(** The recognizers, to name the one that writes the cursor. *)
Inductive recognizer : Type :=
| Driver | Whitespace | Comment | Character | Ellipsis | Object | Array
| StringR | Concatenated | Number | Keyword | Unquoted.

(** A write of the cursor that moves it backward: by whom, from where, to
    where. *)
Record rewind : Type := { rw_who : recognizer; rw_from : nat; rw_to : nat }.

(** [i] and [output] are the two variables of [jsonrepair]; [rewinds] is a
    ghost field that records the backward moves of [i] in the order they
    happen.  No recognizer reads it. *)
Record State : Type := { i : nat; output : jsstring; rewinds : list rewind }.

Inductive message : Type :=
| InvalidCharacter (char : option N)
| UnexpectedCharacter (char : option N)
| UnexpectedEnd
| ObjectKeyExpected
| ColonExpected
| InvalidUnicodeCharacter (chars : jsstring).

Record JSONRepairError : Type := { err_message : message; position : nat }.

(** What a recognizer does: it returns, it throws, or the fuel of the model
    ran out. *)
Inductive result (A : Type) : Type :=
| Ret (a : A) (st : State)
| Throw (e : JSONRepairError) (st : State)
| OutOfFuel.

Arguments Ret {A} a st.
Arguments Throw {A} e st.
Arguments OutOfFuel {A}.

Definition bind {A B : Type} (m : result A) (k : A -> State -> result B) : result B :=
  match m with
  | Ret a st => k a st
  | Throw e st => Throw e st
  | OutOfFuel => OutOfFuel
  end.

Notation "'let*' ( x , s ) := m 'in' k" := (bind m (fun x s => k))
  (at level 10, x name, s name, m at level 100, k at level 200).

(** [a() || b()] on recognizers that cannot throw. *)
Definition orElse (r : bool * State) (k : State -> bool * State) : bool * State :=
  let '(b, st) := r in if b then (true, st) else k st.

(** [a() || b()] on recognizers that can. *)
Definition orElseM (m : result bool) (k : State -> result bool) : result bool :=
  let* (b, st) := m in if b then Ret true st else k st.

Definition lift (r : bool * State) : result bool := Ret (fst r) (snd r).

(** [i = j], written by the recognizer [w]. *)
Definition set_i (w : recognizer) (j : nat) (st : State) : State :=
  {| i := j; output := output st;
     rewinds := if j <? i st
                then rewinds st ++ [{| rw_who := w; rw_from := i st; rw_to := j |}]
                else rewinds st |}.

(** [i += k]. *)
Definition advance (w : recognizer) (k : nat) (st : State) : State := set_i w (i st + k) st.

(** [output = o]. *)
Definition set_output (o : jsstring) (st : State) : State :=
  {| i := i st; output := o; rewinds := rewinds st |}.

(** [output += s]. *)
Definition emit (s : jsstring) (st : State) : State := set_output (output st ++ s) st.

Definition throw {A : Type} (m : message) (pos : nat) (st : State) : result A :=
  Throw {| err_message := m; position := pos |} st.

(** ** The recognizers of [jsonrepair] *)

Section Recognizers.

Variable text : jsstring.

(** The code unit under the cursor, [text.charCodeAt(i)]. *)
Definition cur (st : State) : option N := charCodeAt text (i st).

(** The input from the cursor on. *)
Definition rest (st : State) : jsstring := skipn (i st) text.

(** [i >= text.length]. *)
Definition atEnd (st : State) : bool := length text <=? i st.

(** The loop of [parseWhitespace] on the input ahead: what it appends to
    [whitespace], one character for each character read. *)
Fixpoint whitespaceRun (l : jsstring) : jsstring :=
  match l with
  | c :: l' =>
      if isWhitespace c then c :: whitespaceRun l'
      else if isSpecialWhitespace c then codeSpace :: whitespaceRun l'
      else []
  | [] => []
  end.

Definition parseWhitespace (st : State) : bool * State :=
  let whitespace := whitespaceRun (rest st) in
  let st := advance Whitespace (length whitespace) st in
  if 0 <? length whitespace then (true, emit whitespace st) else (false, st).

(** The block that called [parseComment] is commented out in the source:
    only the whitespace is parsed. *)
Definition parseWhitespaceAndSkipComments (st : State) : bool * State :=
  let start := i st in
  let '(_, st) := parseWhitespace st in
  (start <? i st, st).

Definition atEndOfBlockComment (k : nat) : bool :=
  is_code codeAsterisk (charCodeAt text k) && is_code codeSlash (charCodeAt text (k + 1)).

(** The rounds of [while (i < text.length && !atEndOfBlockComment(text, i))]. *)
Fixpoint blockCommentRun (l : jsstring) : nat :=
  match l with
  | c :: l' =>
      if (c =? codeAsterisk)%N && is_code codeSlash (hd_error l') then 0
      else S (blockCommentRun l')
  | [] => 0
  end.

(** Defined in the source, and called from nowhere. *)
Definition parseComment (st : State) : bool * State :=
  if is_code codeSlash (cur st) && is_code codeAsterisk (charCodeAt text (i st + 1)) then
    let st := advance Comment (blockCommentRun (rest st)) st in
    (true, advance Comment 2 st)
  else if is_code codeSlash (cur st) && is_code codeSlash (charCodeAt text (i st + 1)) then
    (true, advance Comment (span (fun c => negb (c =? codeNewline)%N) (rest st)) st)
  else (false, st).

Definition parseCharacter (code : N) (st : State) : bool * State :=
  match cur st with
  | Some c => if (c =? code)%N then (true, advance Character 1 (emit [c] st)) else (false, st)
  | None => (false, st)
  end.

Definition skipCharacter (code : N) (st : State) : bool * State :=
  if is_code code (cur st) then (true, advance Character 1 st) else (false, st).

Definition skipEscapeCharacter (st : State) : bool * State := skipCharacter codeBackslash st.

Definition skipEllipsis (st : State) : bool * State :=
  let '(_, st) := parseWhitespaceAndSkipComments st in
  if is_code codeDot (cur st)
     && is_code codeDot (charCodeAt text (i st + 1))
     && is_code codeDot (charCodeAt text (i st + 2))
  then
    let st := advance Ellipsis 3 st in
    let '(_, st) := parseWhitespaceAndSkipComments st in
    let '(_, st) := skipCharacter codeComma st in
    (true, st)
  else (false, st).

(** [prevNonWhitespaceIndex(start)] for [start >= 0]; the source calls it at
    [i - 1] and [iQuote - 1] with [i] and [iQuote] past an opening quote. *)
Fixpoint prevNonWhitespaceIndex (start : nat) : nat :=
  match start with
  | 0 => 0
  | S prev => if test isWhitespace (charCodeAt text start) then prevNonWhitespaceIndex prev else start
  end.

Definition atEndOfNumber (st : State) : bool :=
  atEnd st || test isDelimiter (cur st) || test isWhitespace (cur st).

Definition repairNumberEndingWithNumericSymbol (start : nat) (st : State) : State :=
  emit (slice text start (i st) ++ [codeZero]) st.

(** [/^0\d/.test(num)]. *)
Definition hasInvalidLeadingZero (num : jsstring) : bool :=
  match num with
  | c0 :: c1 :: _ => (c0 =? codeZero)%N && isDigit c1
  | _ => false
  end.

(** [while (isDigit(text.charCodeAt(i))) i++]. *)
Definition skipDigits (st : State) : State := advance Number (span isDigit (rest st)) st.

(** The sign of [parseNumber]: [inl] is a [return], [inr] goes on. *)
Definition numberSign (start : nat) (st : State) : (bool * State) + State :=
  if is_code codeMinus (cur st) then
    let st := advance Number 1 st in
    if atEndOfNumber st then inl (true, repairNumberEndingWithNumericSymbol start st)
    else if negb (test isDigit (cur st)) then inl (false, set_i Number start st)
    else inr st
  else inr st.

Definition numberFraction (start : nat) (st : State) : (bool * State) + State :=
  if is_code codeDot (cur st) then
    let st := advance Number 1 st in
    if atEndOfNumber st then inl (true, repairNumberEndingWithNumericSymbol start st)
    else if negb (test isDigit (cur st)) then inl (false, set_i Number start st)
    else inr (skipDigits st)
  else inr st.

Definition numberExponent (start : nat) (st : State) : (bool * State) + State :=
  if is_code codeLowercaseE (cur st) || is_code codeUppercaseE (cur st) then
    let st := advance Number 1 st in
    let st := if is_code codeMinus (cur st) || is_code codePlus (cur st)
              then advance Number 1 st else st in
    if atEndOfNumber st then inl (true, repairNumberEndingWithNumericSymbol start st)
    else if negb (test isDigit (cur st)) then inl (false, set_i Number start st)
    else inr (skipDigits st)
  else inr st.

Definition numberEnd (start : nat) (st : State) : bool * State :=
  if negb (atEndOfNumber st) then (false, set_i Number start st)
  else if start <? i st then
    let num := slice text start (i st) in
    (true, emit (if hasInvalidLeadingZero num
                 then [codeDoubleQuote] ++ num ++ [codeDoubleQuote] else num) st)
  else (false, st).

Definition andThen {R : Type} (x : R + State) (k : State -> R + State) : R + State :=
  match x with inl r => inl r | inr st => k st end.

Definition parseNumber (st : State) : bool * State :=
  let start := i st in
  match andThen (andThen (andThen (numberSign start st)
                                  (fun st => inr (skipDigits st)))
                         (numberFraction start))
                (numberExponent start)
  with
  | inl r => r
  | inr st => numberEnd start st
  end.

Definition parseKeyword (name value : jsstring) (st : State) : bool * State :=
  if eqb_jsstring (slice text (i st) (i st + length name)) name
  then (true, advance Keyword (length name) (emit value st))
  else (false, st).

Definition parseKeywords (st : State) : bool * State :=
  orElse (parseKeyword (lit "true") (lit "true") st) (fun st =>
  orElse (parseKeyword (lit "false") (lit "false") st) (fun st =>
  orElse (parseKeyword (lit "null") (lit "null") st) (fun st =>
  orElse (parseKeyword (lit "True") (lit "true") st) (fun st =>
  orElse (parseKeyword (lit "False") (lit "false") st) (fun st =>
  parseKeyword (lit "None") (lit "null") st))))).

(** [while (isWhitespace(text.charCodeAt(i - 1)) && i > 0) i--], from [k]. *)
Fixpoint trimmedEnd (k : nat) : nat :=
  match k with
  | 0 => 0
  | S k' => if test isWhitespace (charCodeAt text k') then trimmedEnd k' else k
  end.

(** The table [escapeCharacters]: whether it has the key [char]. *)
Definition isEscapeCharacter (char : N) : bool :=
  (char =? codeDoubleQuote)%N || (char =? codeBackslash)%N || (char =? codeSlash)%N
  || (char =? 0x62)%N || (char =? 0x66)%N || (char =? 0x6e)%N
  || (char =? 0x72)%N || (char =? 0x74)%N.

(** The table [controlCharacters]; [None] is [undefined]. *)
Definition controlCharacters (char : N) : option jsstring :=
  if (char =? codeBackspace)%N then Some [codeBackslash; 0x62%N]
  else if (char =? codeFormFeed)%N then Some [codeBackslash; 0x66%N]
  else if (char =? codeNewline)%N then Some [codeBackslash; 0x6e%N]
  else if (char =? codeReturn)%N then Some [codeBackslash; 0x72%N]
  else if (char =? codeTab)%N then Some [codeBackslash; 0x74%N]
  else None.

(** [str += v] where [v] may be [undefined]. *)
Definition appendOrUndefined (str : jsstring) (v : option jsstring) : jsstring :=
  str ++ match v with Some s => s | None => lit "undefined" end.

(** The end quote that goes with an opening quote. *)
Definition endQuoteOf (opening : option N) : N -> bool :=
  if test isDoubleQuote opening then isDoubleQuote
  else if test isSingleQuote opening then isSingleQuote
  else if test isSingleQuoteLike opening then isSingleQuoteLike
  else isDoubleQuoteLike.

(** [i = iBefore; output = output.substring(0, oBefore)]. *)
Definition restart (iBefore oBefore : nat) (st : State) : State :=
  set_output (substring0 (output st) oBefore) (set_i StringR iBefore st).

(** The number of hex digits among the (at most four) characters from
    [text[i + 2]] on: the loop [while (j < 6 && isHex(...)) j++] ends with
    [j] at 2 plus this number. *)
Definition hexRun (st : State) : nat := span isHex (firstn 4 (skipn (i st + 2) text)).

Definition lbrace : jsstring := [codeOpeningBrace].
Definition rbrace : jsstring := [codeClosingBrace].
Definition lbracket : jsstring := [codeOpeningBracket].
Definition rbracket : jsstring := [codeClosingBracket].
Definition comma : jsstring := [codeComma].
Definition colon : jsstring := [codeColon].
Definition dquote : jsstring := [codeDoubleQuote].
Definition newline : jsstring := [codeNewline].

(** The recognizers that call each other, the string recognizers first.
    Every call and every round of a loop takes one unit of fuel. *)
Fixpoint parseString (fuel : nat) (stopAtDelimiter : bool) (st : State) {struct fuel}
    : result bool :=
  match fuel with
  | 0 => OutOfFuel
  | S n =>
      let skipEscapeChars := is_code codeBackslash (cur st) in
      let st := if skipEscapeChars then advance StringR 1 st else st in
      if test isQuote (cur st) then
        let isEndQuote := endQuoteOf (cur st) in
        let iBefore := i st in
        let oBefore := length (output st) in
        stringLoop n stopAtDelimiter skipEscapeChars isEndQuote iBefore oBefore
                   dquote (advance StringR 1 st)
      else Ret false st
  end

(** [while (true)] of [parseString], with its local [str]. *)
with stringLoop (fuel : nat) (stopAtDelimiter skipEscapeChars : bool)
    (isEndQuote : N -> bool) (iBefore oBefore : nat) (str : jsstring) (st : State)
    {struct fuel} : result bool :=
  match fuel with
  | 0 => OutOfFuel
  | S n =>
      let next str st :=
        stringLoop n stopAtDelimiter skipEscapeChars isEndQuote iBefore oBefore str
                   (if skipEscapeChars then snd (skipEscapeCharacter st) else st) in
      if atEnd st then
        let iPrev := prevNonWhitespaceIndex (i st - 1) in
        if negb stopAtDelimiter && test isDelimiter (charCodeAt text iPrev) then
          parseString n true (restart iBefore oBefore st)
        else
          Ret true (emit (insertBeforeLastWhitespace str dquote) st)
      else if test isEndQuote (cur st) then
        let iQuote := i st in
        let oQuote := length str in
        let str := str ++ dquote in
        let st := emit str (advance StringR 1 st) in
        let '(_, st) := parseWhitespaceAndSkipComments st in
        if stopAtDelimiter || atEnd st || test isDelimiter (cur st)
           || test isQuote (cur st) || test isDigit (cur st)
        then
          let* (_b, st) := parseConcatenatedString n st in
          Ret true st
        else if test isDelimiter (charCodeAt text (prevNonWhitespaceIndex (iQuote - 1))) then
          parseString n true (restart iBefore oBefore st)
        else
          let st := set_i StringR (iQuote + 1) (set_output (substring0 (output st) oBefore) st) in
          next (substring0 str oQuote ++ [codeBackslash] ++ skipn oQuote str) st
      else if stopAtDelimiter && test isDelimiter (cur st) then
        let st := emit (insertBeforeLastWhitespace str dquote) st in
        let* (_b, st) := parseConcatenatedString n st in
        Ret true st
      else if is_code codeBackslash (cur st) then
        let char := charCodeAt text (i st + 1) in
        if test isEscapeCharacter char then
          next (str ++ slice text (i st) (i st + 2)) (advance StringR 2 st)
        else if is_code codeLowercaseU char then
          let j := 2 + hexRun st in
          if j =? 6 then
            next (str ++ slice text (i st) (i st + 6)) (advance StringR 6 st)
          else if length text <=? i st + j then
            next str (set_i StringR (length text) st)
          else
            throw (InvalidUnicodeCharacter (slice text (i st) (i st + 6))) (i st) st
        else
          next (str ++ match char with Some c => [c] | None => [] end) (advance StringR 2 st)
      else
        match cur st with
        | None => throw (InvalidCharacter None) (i st) st
        | Some code =>
            if (code =? codeDoubleQuote)%N
               && negb (is_code codeBackslash (charCodeBefore text (i st)))
            then next (str ++ [codeBackslash; code]) (advance StringR 1 st)
            else if isControlCharacter code then
              next (appendOrUndefined str (controlCharacters code)) (advance StringR 1 st)
            else if negb (isValidStringCharacter code) then
              throw (InvalidCharacter (Some code)) (i st) st
            else next (str ++ [code]) (advance StringR 1 st)
        end
  end

with parseConcatenatedString (fuel : nat) (st : State) {struct fuel} : result bool :=
  match fuel with
  | 0 => OutOfFuel
  | S n =>
      let '(_, st) := parseWhitespaceAndSkipComments st in
      concatenationLoop n false st
  end

(** [while (text.charCodeAt(i) === codePlus)] of [parseConcatenatedString]. *)
with concatenationLoop (fuel : nat) (processed : bool) (st : State) {struct fuel}
    : result bool :=
  match fuel with
  | 0 => OutOfFuel
  | S n =>
      if is_code codePlus (cur st) then
        let st := advance Concatenated 1 st in
        let '(_, st) := parseWhitespaceAndSkipComments st in
        let st := set_output (stripLastOccurrence (output st) codeDoubleQuote true) st in
        let start := length (output st) in
        let* (parsedStr, st) := parseString n false st in
        let st :=
          if parsedStr then set_output (removeAtIndex (output st) start 1) st
          else set_output (insertBeforeLastWhitespace (output st) dquote) st in
        concatenationLoop n true st
      else Ret processed st
  end.

Fixpoint parseValue (fuel : nat) (st : State) {struct fuel} : result bool :=
  match fuel with
  | 0 => OutOfFuel
  | S n =>
      let '(_, st) := parseWhitespaceAndSkipComments st in
      let* (processed, st) :=
        orElseM (parseObject n st) (fun st =>
        orElseM (parseArray n st) (fun st =>
        orElseM (parseString n false st) (fun st =>
        orElseM (lift (parseNumber st)) (fun st =>
        orElseM (lift (parseKeywords st)) (fun st =>
        parseUnquotedString n st))))) in
      let '(_, st) := parseWhitespaceAndSkipComments st in
      Ret processed st
  end

with parseObject (fuel : nat) (st : State) {struct fuel} : result bool :=
  match fuel with
  | 0 => OutOfFuel
  | S n =>
      if is_code codeOpeningBrace (cur st) then
        let st := advance Object 1 (emit lbrace st) in
        let '(_, st) := parseWhitespaceAndSkipComments st in
        let st := let '(skipped, st1) := skipCharacter codeComma st in
                  if skipped then snd (parseWhitespaceAndSkipComments st1) else st1 in
        let* (_u, st) := objectLoop n true st in
        if is_code codeClosingBrace (cur st)
        then Ret true (advance Object 1 (emit rbrace st))
        else Ret true (set_output (insertBeforeLastWhitespace (output st) rbrace) st)
      else Ret false st
  end

(** [while (i < text.length && text.charCodeAt(i) !== codeClosingBrace)]
    of [parseObject]. *)
with objectLoop (fuel : nat) (initial : bool) (st : State) {struct fuel} : result unit :=
  match fuel with
  | 0 => OutOfFuel
  | S n =>
      if negb (atEnd st) && negb (is_code codeClosingBrace (cur st)) then
        let st :=
          if negb initial then
            let '(processedComma, st) := parseCharacter codeComma st in
            let st := if negb processedComma
                      then set_output (insertBeforeLastWhitespace (output st) comma) st
                      else st in
            snd (parseWhitespaceAndSkipComments st)
          else st in
        let '(_, st) := skipEllipsis st in
        let* (processedKey, st) :=
          orElseM (parseString n false st) (fun st => parseUnquotedString n st) in
        if negb processedKey then
          if is_code codeClosingBrace (cur st) || is_code codeOpeningBrace (cur st)
             || is_code codeClosingBracket (cur st) || is_code codeOpeningBracket (cur st)
             || atEnd st
          then Ret tt (set_output (stripLastOccurrence (output st) codeComma false) st)
          else throw ObjectKeyExpected (i st) st
        else
          let '(_, st) := parseWhitespaceAndSkipComments st in
          let '(processedColon, st) := parseCharacter codeColon st in
          let truncatedText := atEnd st in
          let* (_u, st) :=
            if negb processedColon then
              if test isStartOfValue (cur st) || truncatedText
              then Ret tt (set_output (insertBeforeLastWhitespace (output st) colon) st)
              else throw ColonExpected (i st) st
            else Ret tt st in
          let* (processedValue, st) := parseValue n st in
          let* (_u, st) :=
            if negb processedValue then
              if processedColon || truncatedText
              then Ret tt (emit (lit "null") st)
              else throw ColonExpected (i st) st
            else Ret tt st in
          objectLoop n false st
      else Ret tt st
  end

with parseArray (fuel : nat) (st : State) {struct fuel} : result bool :=
  match fuel with
  | 0 => OutOfFuel
  | S n =>
      if is_code codeOpeningBracket (cur st) then
        let st := advance Array 1 (emit lbracket st) in
        let '(_, st) := parseWhitespaceAndSkipComments st in
        let st := let '(skipped, st1) := skipCharacter codeComma st in
                  if skipped then snd (parseWhitespaceAndSkipComments st1) else st1 in
        let* (_u, st) := arrayLoop n true st in
        if is_code codeClosingBracket (cur st)
        then Ret true (advance Array 1 (emit rbracket st))
        else Ret true (set_output (insertBeforeLastWhitespace (output st) rbracket) st)
      else Ret false st
  end

(** [while (i < text.length && text.charCodeAt(i) !== codeClosingBracket)]
    of [parseArray]. *)
with arrayLoop (fuel : nat) (initial : bool) (st : State) {struct fuel} : result unit :=
  match fuel with
  | 0 => OutOfFuel
  | S n =>
      if negb (atEnd st) && negb (is_code codeClosingBracket (cur st)) then
        let st :=
          if negb initial then
            let '(processedComma, st) := parseCharacter codeComma st in
            if negb processedComma
            then set_output (insertBeforeLastWhitespace (output st) comma) st
            else st
          else st in
        let '(_, st) := skipEllipsis st in
        let* (processedValue, st) := parseValue n st in
        if negb processedValue
        then Ret tt (set_output (stripLastOccurrence (output st) codeComma false) st)
        else arrayLoop n false st
      else Ret tt st
  end

with parseUnquotedString (fuel : nat) (st : State) {struct fuel} : result bool :=
  match fuel with
  | 0 => OutOfFuel
  | S n =>
      let start := i st in
      let st := advance Unquoted
                  (span (fun c => negb (isDelimiterExceptSlash c) && negb (isQuote c)) (rest st))
                  st in
      if start <? i st then
        if is_code codeOpenParenthesis (cur st)
           && isFunctionName (trim (slice text start (i st)))
        then
          let st := advance Unquoted 1 st in
          let* (_b, st) := parseValue n st in
          let st :=
            if is_code codeCloseParenthesis (cur st) then
              let st := advance Unquoted 1 st in
              if is_code codeSemicolon (cur st) then advance Unquoted 1 st else st
            else st in
          Ret true st
        else
          let st := set_i Unquoted (trimmedEnd (i st)) st in
          let symbol := slice text start (i st) in
          let st := emit (if eqb_jsstring symbol (lit "undefined")
                          then lit "null" else JSON_stringify symbol) st in
          let st := if is_code codeDoubleQuote (cur st) then advance Unquoted 1 st else st in
          Ret true st
      else Ret false st
  end.

(** [while (processedValue)] of [parseNewlineDelimitedJSON]. *)
Fixpoint newlineDelimitedLoop (fuel : nat) (initial : bool) (st : State) : result unit :=
  match fuel with
  | 0 => OutOfFuel
  | S n =>
      let st :=
        if negb initial then
          let '(processedComma, st) := parseCharacter codeComma st in
          if negb processedComma
          then set_output (insertBeforeLastWhitespace (output st) comma) st
          else st
        else st in
      let* (processedValue, st) := parseValue n st in
      if processedValue then newlineDelimitedLoop n false st else Ret tt st
  end.

Definition parseNewlineDelimitedJSON (fuel : nat) (st : State) : result unit :=
  let* (_u, st) := newlineDelimitedLoop fuel true st in
  let st := set_output (stripLastOccurrence (output st) codeComma false) st in
  Ret tt (set_output (lbracket ++ newline ++ output st ++ newline ++ rbracket) st).

(** The loop that skips redundant closing braces and brackets; each round
    reads a character, so [rounds = text.length] rounds are never used up. *)
Fixpoint skipRedundantEnds (rounds : nat) (st : State) : State :=
  match rounds with
  | 0 => st
  | S k =>
      if is_code codeClosingBrace (cur st) || is_code codeClosingBracket (cur st)
      then skipRedundantEnds k (snd (parseWhitespaceAndSkipComments (advance Driver 1 st)))
      else st
  end.

Definition initialState : State := {| i := 0; output := []; rewinds := [] |}.

(** The body of [jsonrepair]; the state is kept next to the result. *)
Definition run (fuel : nat) : result jsstring :=
  let* (processed, st) := parseValue fuel initialState in
  if negb processed then throw UnexpectedEnd (length text) st
  else
    let '(processedComma, st) := parseCharacter codeComma st in
    let st := if processedComma then snd (parseWhitespaceAndSkipComments st) else st in
    let* (_u, st) :=
      if test isStartOfValue (cur st) && endsWithCommaOrNewline (output st) then
        let st := if negb processedComma
                  then set_output (insertBeforeLastWhitespace (output st) comma) st
                  else st in
        parseNewlineDelimitedJSON fuel st
      else if processedComma
      then Ret tt (set_output (stripLastOccurrence (output st) codeComma false) st)
      else Ret tt st in
    let st := skipRedundantEnds (length text) st in
    if atEnd st then Ret (output st) st
    else throw (UnexpectedCharacter (cur st)) (i st) st.

End Recognizers.

(** What a call of [jsonrepair] comes to. *)
Inductive outcome : Type :=
| Repaired (out : jsstring)
| Failed (e : JSONRepairError)
| Unfinished.

Definition jsonrepair (fuel : nat) (text : jsstring) : outcome :=
  match run text fuel with
  | Ret out _ => Repaired out
  | Throw e _ => Failed e
  | OutOfFuel => Unfinished
  end.

(** [jsonrepair(text)] returns [out]: every large enough fuel gives it. *)
Definition repairs_to (text out : jsstring) : Prop :=
  exists n0, forall n, n0 <= n -> jsonrepair n text = Repaired out.

(** [jsonrepair(text)] throws [e]. *)
Definition fails_with (text : jsstring) (e : JSONRepairError) : Prop :=
  exists n0, forall n, n0 <= n -> jsonrepair n text = Failed e.

(** ** A strict JSON parser (RFC 8259), to judge the output *)

Module StrictJSON.

(** [ws = *( space / tab / line feed / carriage return )]. *)
Definition skipWs (l : jsstring) : jsstring := skipn (span isWhitespace l) l.

(** The characters of a string after its opening quote, up to and with the
    closing quote; what follows is returned. *)
Fixpoint stringBody (l : jsstring) : option jsstring :=
  match l with
  | [] => None
  | c :: l' =>
      if (c =? codeDoubleQuote)%N then Some l'
      else if (c =? codeBackslash)%N then
        match l' with
        | e :: l'' =>
            if isEscapeCharacter e then stringBody l''
            else if (e =? codeLowercaseU)%N then
              match l'' with
              | h1 :: h2 :: h3 :: h4 :: l3 =>
                  if isHex h1 && isHex h2 && isHex h3 && isHex h4 then stringBody l3 else None
              | _ => None
              end
            else None
        | [] => None
        end
      else if (c <? 0x20)%N then None
      else stringBody l'
  end.

(** One digit at least. *)
Definition digits1 (l : jsstring) : option jsstring :=
  match span isDigit l with 0 => None | k => Some (skipn k l) end.

(** [int = zero / ( digit1-9 *DIGIT )]. *)
Definition intPart (l : jsstring) : option jsstring :=
  match l with
  | c :: l' =>
      if (c =? codeZero)%N then Some l'
      else if isDigit c then Some (skipn (span isDigit l') l')
      else None
  | [] => None
  end.

Definition fracPart (l : jsstring) : option jsstring :=
  match l with
  | c :: l' => if (c =? codeDot)%N then digits1 l' else Some l
  | [] => Some l
  end.

Definition expPart (l : jsstring) : option jsstring :=
  match l with
  | c :: l' =>
      if (c =? codeLowercaseE)%N || (c =? codeUppercaseE)%N then
        match l' with
        | s :: l'' => if (s =? codePlus)%N || (s =? codeMinus)%N then digits1 l'' else digits1 l'
        | [] => None
        end
      else Some l
  | [] => Some l
  end.

(** [number = [ minus ] int [ frac ] [ exp ]]. *)
Definition number (l : jsstring) : option jsstring :=
  let l := match l with c :: l' => if (c =? codeMinus)%N then l' else l | [] => l end in
  match intPart l with
  | Some l => match fracPart l with Some l => expPart l | None => None end
  | None => None
  end.

Definition literal (name l : jsstring) : option jsstring :=
  if eqb_jsstring (firstn (length name) l) name then Some (skipn (length name) l) else None.

(** [value], and after an opening bracket or brace the elements and the
    members up to and with the closing one. *)
Fixpoint value (fuel : nat) (l : jsstring) {struct fuel} : option jsstring :=
  match fuel with
  | 0 => None
  | S n =>
      match l with
      | [] => None
      | c :: l' =>
          if (c =? codeOpeningBrace)%N then
            match skipWs l' with
            | d :: l'' => if (d =? codeClosingBrace)%N then Some l'' else members n (d :: l'')
            | [] => None
            end
          else if (c =? codeOpeningBracket)%N then
            match skipWs l' with
            | d :: l'' => if (d =? codeClosingBracket)%N then Some l'' else elements n (d :: l'')
            | [] => None
            end
          else if (c =? codeDoubleQuote)%N then stringBody l'
          else if (c =? codeMinus)%N || isDigit c then number l
          else
            match literal (lit "true") l with
            | Some r => Some r
            | None =>
                match literal (lit "false") l with
                | Some r => Some r
                | None => literal (lit "null") l
                end
            end
      end
  end

with elements (fuel : nat) (l : jsstring) {struct fuel} : option jsstring :=
  match fuel with
  | 0 => None
  | S n =>
      match value n l with
      | Some r =>
          match skipWs r with
          | c :: r' =>
              if (c =? codeClosingBracket)%N then Some r'
              else if (c =? codeComma)%N then elements n (skipWs r')
              else None
          | [] => None
          end
      | None => None
      end
  end

with members (fuel : nat) (l : jsstring) {struct fuel} : option jsstring :=
  match fuel with
  | 0 => None
  | S n =>
      match l with
      | q :: l' =>
          if (q =? codeDoubleQuote)%N then
            match stringBody l' with
            | Some r =>
                match skipWs r with
                | c :: r' =>
                    if (c =? codeColon)%N then
                      match value n (skipWs r') with
                      | Some r2 =>
                          match skipWs r2 with
                          | d :: r3 =>
                              if (d =? codeClosingBrace)%N then Some r3
                              else if (d =? codeComma)%N then members n (skipWs r3)
                              else None
                          | [] => None
                          end
                      | None => None
                      end
                    else None
                | [] => None
                end
            | None => None
            end
          else None
      | [] => None
      end
  end.

(** [JSON-text = ws value ws]: the whole text is one value.  Every call
    reads a character before the next one, so the length of the text bounds
    the depth of the calls. *)
Definition accepts (l : jsstring) : bool :=
  match value (S (length l)) (skipWs l) with
  | Some r => match skipWs r with [] => true | _ :: _ => false end
  | None => false
  end.

End StrictJSON.

(** ** Texts used in the statements *)

(** A string literal: the characters of [s] between double quotes. *)
Definition quoted (s : jsstring) : jsstring := dquote ++ s ++ dquote.

(** Whitespace, plain or special: what [parseWhitespace] reads. *)
Definition blank (c : N) : bool := isWhitespace c || isSpecialWhitespace c.





(** The state [k] characters further in the input, with [s] appended to
    the output. *)
Definition forward (k : nat) (s : jsstring) (st : State) : State :=
  {| i := i st + k; output := output st ++ s; rewinds := rewinds st |}.

(** The state after [l] was read and written as it is. *)
Definition copy (l : jsstring) (st : State) : State := forward (length l) l st.

(** ** Number runs *)

(** What may follow a number: the end of the input, a delimiter or
    whitespace; [atEndOfNumber] on the input ahead. *)
Definition endOfNumber (r : jsstring) : bool :=
  match r with [] => true | c :: _ => isDelimiter c || isWhitespace c end.

Definition isExponentMark (c : N) : bool := (c =? codeLowercaseE)%N || (c =? codeUppercaseE)%N.
Definition isSign (c : N) : bool := (c =? codeMinus)%N || (c =? codePlus)%N.

(** The optional sign of an exponent: [sg] is empty only when no sign
    follows. *)
Definition signOf (sg r : jsstring) : Prop :=
  (sg = [] /\ test isSign (hd_error r) = false) \/ (exists s, sg = [s] /\ isSign s = true).

(** A minus sign stands before a digit. *)
Definition optSign (sign ds : jsstring) : Prop :=
  sign = [] \/ (sign = [codeMinus] /\ ds <> []).

(** A fraction, if any, has a digit. *)
Definition fraction (frac : jsstring) : Prop :=
  frac = [] \/ exists d ds, frac = codeDot :: d :: ds /\ forallb isDigit (d :: ds) = true.

(** [truncatedNumber run r]: the run [run], followed in the input by [r],
    ends just after a minus sign, after a dot, or after an exponent mark
    and its optional sign. *)
Inductive truncatedNumber : jsstring -> jsstring -> Prop :=
| truncated_minus r : truncatedNumber [codeMinus] r
| truncated_dot sign ds r :
    optSign sign ds -> forallb isDigit ds = true ->
    truncatedNumber (sign ++ ds ++ [codeDot]) r
| truncated_exponent sign ds frac e sg r :
    optSign sign ds -> forallb isDigit ds = true -> fraction frac ->
    isExponentMark e = true -> signOf sg r ->
    truncatedNumber (sign ++ ds ++ frac ++ e :: sg) r.

(** The characters after which a number run may be cut off. *)
Definition numericSymbol (c : N) : bool := isSign c || (c =? codeDot)%N || isExponentMark c.

(** From [st0] to [st] the cursor went forward and nothing was written. *)
Definition passed (st0 st : State) : Prop :=
  i st0 <= i st /\ output st = output st0 /\ rewinds st = rewinds st0.

(** ** The texts of JSON values *)

Definition integerPart (int : jsstring) : Prop :=
  int = [codeZero]
  \/ exists d ds, int = d :: ds /\ isDigit d = true /\ d <> codeZero
                  /\ forallb isDigit ds = true.

Definition exponentPart (exp : jsstring) : Prop :=
  exp = []
  \/ exists e sg d ds,
       exp = e :: sg ++ d :: ds /\ isExponentMark e = true
       /\ (sg = [] \/ exists s, sg = [s] /\ isSign s = true)
       /\ forallb isDigit (d :: ds) = true.

(** [number = [ minus ] int [ frac ] [ exp ]]. *)
Definition numberText (num : jsstring) : Prop :=
  exists sign int frac exp,
    num = sign ++ int ++ frac ++ exp
    /\ (sign = [] \/ sign = [codeMinus])
    /\ integerPart int /\ fraction frac /\ exponentPart exp.

(** The characters between the quotes of a string. *)
Inductive stringChars : jsstring -> Prop :=
| chars_nil : stringChars []
| chars_plain c s :
    (c =? codeDoubleQuote)%N = false -> (c =? codeBackslash)%N = false ->
    (c <? 0x20)%N = false -> stringChars s -> stringChars (c :: s)
| chars_escape e s :
    isEscapeCharacter e = true -> stringChars s -> stringChars (codeBackslash :: e :: s)
| chars_unicode h1 h2 h3 h4 s :
    isHex h1 && isHex h2 && isHex h3 && isHex h4 = true -> stringChars s ->
    stringChars (codeBackslash :: codeLowercaseU :: h1 :: h2 :: h3 :: h4 :: s).

Definition whitespace (w : jsstring) : bool := forallb isWhitespace w.

(** What comes behind a value and its whitespace: the end of the input, or
    a delimiter that is no whitespace and no plus sign. *)
Definition follow (tail : jsstring) : bool :=
  match tail with
  | [] => true
  | c :: _ => isDelimiter c && negb (isWhitespace c) && negb (c =? codePlus)%N
  end.

(** The first character of a JSON value. *)
Definition isValueStart (c : N) : bool :=
  (c =? codeOpeningBrace)%N || (c =? codeOpeningBracket)%N || (c =? codeDoubleQuote)%N
  || (c =? codeMinus)%N || isDigit c
  || (c =? 0x74)%N || (c =? 0x66)%N || (c =? 0x6e)%N.

(** [kept v]: wherever the text [v] stands in the input, between
    whitespace and before a [follow] tail, [parseValue] reads it with the
    whitespace around it and writes all of it as it is. *)
Definition keptWithin (k : nat) (v : jsstring) : Prop :=
  forall text st w0 w tail m,
    rest text st = w0 ++ v ++ w ++ tail ->
    whitespace w0 = true -> whitespace w = true -> follow tail = true -> k <= m ->
    parseValue text m st = Ret true (copy (w0 ++ v ++ w) st).

Definition kept (v : jsstring) : Prop := exists k, keptWithin k v.

(** The alternatives of [parseValue], in the order they are tried. *)
Definition valueChain (text : jsstring) (n : nat) (st : State) : result bool :=
  orElseM (parseObject text n st) (fun st =>
  orElseM (parseArray text n st) (fun st =>
  orElseM (parseString text n false st) (fun st =>
  orElseM (lift (parseNumber text st)) (fun st =>
  orElseM (lift (parseKeywords text st)) (fun st =>
  parseUnquotedString text n st))))).

(** A text that is kept, begins like a value and ends on a character that
    is no whitespace. *)
Definition valueText (v : jsstring) : Prop :=
  kept v
  /\ (exists c v', v = c :: v' /\ isValueStart c = true)
  /\ (exists v' c, v = v' ++ [c] /\ isWhitespace c = false).

(** In front of an element or a member: nothing before the first one, a
    comma and whitespace before the others. *)
Definition separator (initial : bool) (pre : jsstring) : Prop :=
  if initial then pre = [] else exists w, pre = comma ++ w /\ whitespace w = true.

(** The elements of an array: [arrayLoop] reads them up to the closing
    bracket and writes them as they are. *)
Definition keptElements (body : jsstring) : Prop :=
  exists k, forall text st tail m initial pre,
    rest text st = pre ++ body ++ rbracket ++ tail ->
    separator initial pre -> k <= m ->
    arrayLoop text m initial st = Ret tt (copy (pre ++ body) st).

(** The members of an object, likewise. *)
Definition keptMembers (body : jsstring) : Prop :=
  exists k, forall text st tail m initial pre,
    rest text st = pre ++ body ++ rbrace ++ tail ->
    separator initial pre -> k <= m ->
    objectLoop text m initial st = Ret tt (copy (pre ++ body) st).

(** ** Newline-delimited JSON *)

(** One JSON value, with no whitespace around it. *)
Definition isJSONValue (v : jsstring) : bool :=
  match StrictJSON.value (S (length v)) v with
  | Some [] => true
  | _ => false
  end.

(** A line that is a JSON object, array or string. *)
Definition isLine (v : jsstring) : bool := isJSONValue v && test isDelimiter (hd_error v).

(** The last character is no whitespace. *)
Definition endsNonWhitespace (v : jsstring) : Prop :=
  exists v' c, v = v' ++ [c] /\ isWhitespace c = false.


(** ** Concatenated strings *)

(** A string that comes behind a plus sign: the whitespace before the
    sign, the whitespace behind it, and the characters of the string. *)
Record added : Type := { before_plus : jsstring; after_plus : jsstring; chars_of : jsstring }.

Definition addedOk (a : added) : Prop :=
  whitespace (before_plus a) = true /\ whitespace (after_plus a) = true
  /\ stringChars (chars_of a).




(** A [return true] from one of the three phases of [parseNumber], entered
    at [st0]: the repair of a run that ends after a numeric symbol. *)
Definition fabricated (text : jsstring) (st0 : State) (r : bool * State) : Prop :=
  fst r = true ->
  exists st2,
    snd r = repairNumberEndingWithNumericSymbol text (i st0) st2
    /\ passed st0 st2 /\ i st0 < i st2 /\ atEndOfNumber text st2 = true
    /\ test numericSymbol (charCodeBefore text (i st2)) = true.

Definition phase_ok (text : jsstring) (st0 : State) (x : (bool * State) + State) : Prop :=
  match x with inl r => fabricated text st0 r | inr st2 => passed st0 st2 end.

(** A member of an object: key, colon and value, with their whitespace. *)
Definition memberText (key wk wc v wv : jsstring) : jsstring :=
  quoted key ++ wk ++ colon ++ wc ++ v ++ wv.

(** ** The backward moves of the cursor *)

(** The rewinds of a run, whether it returns or throws. *)
Definition rewindsOf {A : Type} (r : result A) : list rewind :=
  match r with
  | Ret _ st => rewinds st
  | Throw _ st => rewinds st
  | OutOfFuel => []
  end.

(** The claim on the cursor: it goes back in the string recognizer only,
    and there to the checkpoint [iBefore], which is the place of an opening
    quote. *)
Definition rewindsInStringOnly (text : jsstring) (n : nat) : Prop :=
  Forall (fun r => rw_who r = StringR /\ test isQuote (charCodeAt text (rw_to r)) = true)
         (rewindsOf (run text n)).

(** Where a rewind of the string recognizer goes: to [iBefore], the place of
    the opening quote of the attempt, or to [iQuote + 1], the place behind a
    quote inside the string, back over the whitespace that follows that
    quote. *)
Definition stringTarget (text : jsstring) (r : rewind) : Prop :=
  test isQuote (charCodeAt text (rw_to r)) = true
  \/ (test isQuote (charCodeBefore text (rw_to r)) = true
      /\ forallb blank (slice text (rw_to r) (rw_from r)) = true).

(** Where a rewind of the unquoted-string recognizer goes: back over the
    whitespace before the cursor, all of it. *)
Definition unquotedTarget (text : jsstring) (r : rewind) : Prop :=
  forallb isWhitespace (slice text (rw_to r) (rw_from r)) = true
  /\ test isWhitespace (charCodeBefore text (rw_to r)) = false.

(** What does hold of a rewind: it goes back, and it is one of the string
    recognizer, to one of its two targets, of the number recognizer, or of the
    unquoted-string recognizer, over whitespace. *)
Definition allowedRewind (text : jsstring) (r : rewind) : Prop :=
  rw_to r < rw_from r
  /\ match rw_who r with
     | StringR => stringTarget text r
     | Number => True
     | Unquoted => unquotedTarget text r
     | _ => False
     end.

(** The place [a] of the opening quote of a string that is added to another
    one: a plus sign stands before it, with nothing but whitespace and a
    backslash between them. *)
Definition behindPlus (text : jsstring) (a : nat) : Prop :=
  exists p, p < a /\ charCodeAt text p = Some codePlus
            /\ forallb (fun c => blank c || (c =? codeBackslash)%N) (slice text (p + 1) a)
               = true.

(** The checkpoints [iBefore] of a call of [parseString] whose opening quote
    stands at [ib0]: [ib0] itself, and the places of the opening quotes of
    the strings that are added behind plus signs. *)
Definition checkpoint (text : jsstring) (ib0 a : nat) : Prop :=
  a = ib0 \/ behindPlus text a.

(** A rewind made in a call of [parseString] that began at [lo] and has its
    opening quote at [ib0]: it is one of the string recognizer, it does not
    go to before [lo], and it goes to a checkpoint [iBefore], where a quote
    stands, or to [iQuote + 1], behind a quote and over the whitespace that
    follows that quote. *)
Definition stringRewind (text : jsstring) (ib0 lo : nat) (r : rewind) : Prop :=
  rw_who r = StringR /\ lo <= rw_to r /\ rw_to r < rw_from r
  /\ ((checkpoint text ib0 (rw_to r) /\ test isQuote (charCodeAt text (rw_to r)) = true)
      \/ (test isQuote (charCodeBefore text (rw_to r)) = true
          /\ forallb blank (slice text (rw_to r) (rw_from r)) = true)).

(** From [st0] to [st] only rewinds that [P] holds of were recorded. *)
Definition extends (P : rewind -> Prop) (st0 st : State) : Prop :=
  exists l, rewinds st = rewinds st0 ++ l /\ Forall P l.

Definition result_ok {A : Type} (P : rewind -> Prop) (st0 : State) (r : result A) : Prop :=
  match r with
  | Ret _ st => extends P st0 st
  | Throw _ st => extends P st0 st
  | OutOfFuel => True
  end.

(** What a recognizer of strings has done when it comes back to a caller
    whose attempt began at [lo]: the rewinds are those of a string attempt,
    and the cursor is not before [lo]. *)
Definition string_ok {A : Type} (text : jsstring) (ib0 lo : nat) (st0 : State)
    (r : result A) : Prop :=
  match r with
  | Ret _ st => extends (stringRewind text ib0 lo) st0 st /\ lo <= i st
  | Throw _ st => extends (stringRewind text ib0 lo) st0 st
  | OutOfFuel => True
  end.

(** What the number recognizer, entered at [st0], returns as to the
    cursor: it is not before its start, it is at its start when the result is
    false, and at most one rewind was recorded, to the start and with the
    result false. *)
Definition numberReturn (st0 : State) (r : bool * State) : Prop :=
  i st0 <= i (snd r)
  /\ (fst r = false -> i (snd r) = i st0)
  /\ (rewinds (snd r) = rewinds st0
      \/ fst r = false
         /\ exists j, rewinds (snd r)
                      = rewinds st0 ++ [{| rw_who := Number; rw_from := j; rw_to := i st0 |}]).

(** ** Repairs *)

(** What [parseWhitespace] writes for a character it reads. *)
Definition normalWhitespace (c : N) : N := if isWhitespace c then c else codeSpace.

(** What stands behind a value and its whitespace where a value is read:
    the end of the input, a comma, a colon, or a closing bracket, brace or
    parenthesis. *)
Definition closes (tail : jsstring) : bool :=
  match tail with
  | [] => true
  | c :: _ =>
      (c =? codeComma)%N || (c =? codeColon)%N || (c =? codeClosingBracket)%N
      || (c =? codeClosingBrace)%N || (c =? codeCloseParenthesis)%N
  end.

(** From [st] to [st'] the cursor went [k] characters forward and [o] was
    appended to the output. *)
Definition reaches (st st' : State) (k : nat) (o : jsstring) : Prop :=
  i st' = i st + k /\ output st' = output st ++ o.

(** [repaired v o]: wherever the text [v] stands in the input, between
    whitespace and before a tail that [closes], [parseValue] reads it with
    the whitespace around it and writes [o] for it. *)
Definition repairedWithin (k : nat) (v o : jsstring) : Prop :=
  forall text st w0 w tail m,
    rest text st = w0 ++ v ++ w ++ tail ->
    whitespace w0 = true -> whitespace w = true -> closes tail = true -> k <= m ->
    exists st', parseValue text m st = Ret true st'
                /\ reaches st st' (length (w0 ++ v ++ w)) (w0 ++ o ++ w).

Definition repaired (v o : jsstring) : Prop := exists k, repairedWithin k v o.

(** The first character of an element or a member: no whitespace, no
    comma, no dot, no closing bracket and no closing brace. *)
Definition startsElement (c : N) : bool :=
  negb (blank c) && negb (c =? codeComma)%N && negb (c =? codeDot)%N
  && negb (c =? codeClosingBracket)%N && negb (c =? codeClosingBrace)%N.

(** A repair of a text that begins like an element, to a text that ends on
    a character that is no whitespace. *)
Definition properRepair (v o : jsstring) : Prop :=
  repaired v o
  /\ test startsElement (hd_error v) = true
  /\ endsNonWhitespace o.

(** A character between quotes that needs no look around: it is not the
    end quote and not a backslash, and it is a valid character of a string or
    a control character with an escape of its own. *)
Definition ordinary (isEndQuote : N -> bool) (c : N) : bool :=
  negb (isEndQuote c) && negb (c =? codeBackslash)%N
  && (isValidStringCharacter c || isControlCharacter c).

(** What the string recognizer writes for an ordinary character. *)
Definition escapeChar (c : N) : jsstring :=
  if (c =? codeDoubleQuote)%N then [codeBackslash; codeDoubleQuote]
  else match controlCharacters c with Some e => e | None => [c] end.

Definition escapeChars (s : jsstring) : jsstring := flat_map escapeChar s.

(** The names that [parseKeywords] knows, each with its value. *)
Definition keywords : list (jsstring * jsstring) :=
  [(lit "true", lit "true"); (lit "false", lit "false"); (lit "null", lit "null");
   (lit "True", lit "true"); (lit "False", lit "false"); (lit "None", lit "null")].

(** [s] begins with [name]. *)
Definition startsWith (name s : jsstring) : bool :=
  eqb_jsstring (firstn (length name) s) name.

(** A character of the run that [parseUnquotedString] reads. *)
Definition isSymbolCharacter (c : N) : bool :=
  negb (isDelimiterExceptSlash c) && negb (isQuote c).

(** A first character that leaves the run to [parseUnquotedString]: the
    number recognizer does not begin on it, and it is no backslash and no
    whitespace. *)
Definition isSymbolStart (c : N) : bool :=
  isSymbolCharacter c && negb (blank c) && negb (isDigit c) && negb (numericSymbol c)
  && negb (c =? codeBackslash)%N.

(** An unquoted symbol: a run that begins with such a character, ends on a
    character that is no whitespace, and begins with none of the keywords. *)
Definition isSymbol (s : jsstring) : bool :=
  test isSymbolStart (hd_error s)
  && forallb isSymbolCharacter s
  && negb (test isWhitespace (hd_error (rev s)))
  && forallb (fun kw => negb (startsWith (fst kw) s)) keywords.

(** What [parseUnquotedString] writes for the symbol [s]. *)
Definition symbolOutput (s : jsstring) : jsstring :=
  if eqb_jsstring s (lit "undefined") then lit "null" else JSON_stringify s.

(** The name of a function in a call: word characters, the first one no
    digit and no exponent mark, and no keyword at its head. *)
Definition isCallName (name : jsstring) : bool :=
  isFunctionName name
  && test (fun c => negb (isDigit c) && negb (isExponentMark c)) (hd_error name)
  && forallb (fun kw => negb (startsWith (fst kw) name)) keywords.

(** An element of an array: the whitespace before it, the text of the
    value, what is written for it, and the whitespace behind it. *)
Record element : Type :=
  { el_before : jsstring; el_in : jsstring; el_out : jsstring; el_after : jsstring }.

Definition elementOk (e : element) : Prop :=
  whitespace (el_before e) = true /\ whitespace (el_after e) = true
  /\ properRepair (el_in e) (el_out e).

(** The elements behind the first one, each behind a comma: the input and
    what is written for it. *)
Fixpoint moreInput (l : list element) : jsstring :=
  match l with
  | [] => []
  | e :: l' => comma ++ el_before e ++ el_in e ++ el_after e ++ moreInput l'
  end.

Fixpoint moreOutput (l : list element) : jsstring :=
  match l with
  | [] => []
  | e :: l' => comma ++ el_before e ++ el_out e ++ el_after e ++ moreOutput l'
  end.

Definition elementsInput (e : element) (l : list element) : jsstring :=
  el_before e ++ el_in e ++ el_after e ++ moreInput l.

Definition elementsOutput (e : element) (l : list element) : jsstring :=
  el_before e ++ el_out e ++ el_after e ++ moreOutput l.

(** Fuel for the elements. *)
Definition withinAll (k : nat) (l : list element) : Prop :=
  Forall (fun e => repairedWithin k (el_in e) (el_out e)) l.

(** An unquoted key: it begins like a member, with no backslash, it is made
    of the characters of an unquoted run, and it ends on a character that is
    no whitespace. *)
Definition isKeySymbol (s : jsstring) : bool :=
  test (fun c => startsElement c && negb (c =? codeBackslash)%N) (hd_error s)
  && forallb isSymbolCharacter s
  && negb (test isWhitespace (hd_error (rev s))).

(** A key and what is written for it: a JSON string as it is, a string in
    other quotes or with characters to escape, or an unquoted key. *)
Definition keyRepair (key out : jsstring) : Prop :=
  (exists body, stringChars body /\ key = quoted body /\ out = quoted body)
  \/ (exists q q' body,
         isQuote q = true /\ endQuoteOf (Some q) q' = true
         /\ forallb (ordinary (endQuoteOf (Some q))) body = true
         /\ key = q :: body ++ [q'] /\ out = quoted (escapeChars body))
  \/ (isKeySymbol key = true /\ out = symbolOutput key).

(** A member of an object: key, colon and value, with the whitespace before
    the key, behind it, behind the colon and behind the value. *)
Record member : Type :=
  { m_before : jsstring; m_key : jsstring; m_key_out : jsstring; m_wk : jsstring;
    m_wc : jsstring; m_in : jsstring; m_out : jsstring; m_after : jsstring }.

(** The value of a member and what is written for it: a value that is
    repaired, or no value at all behind the colon and its whitespace, for
    which [null] is written. *)
Definition memberValue (v o after : jsstring) : Prop :=
  repaired v o \/ (v = [] /\ o = lit "null" /\ after = []).

Definition memberValueWithin (k : nat) (v o after : jsstring) : Prop :=
  repairedWithin k v o \/ (v = [] /\ o = lit "null" /\ after = []).

Definition memberOk (m : member) : Prop :=
  whitespace (m_before m) = true /\ keyRepair (m_key m) (m_key_out m)
  /\ whitespace (m_wk m) = true /\ whitespace (m_wc m) = true
  /\ memberValue (m_in m) (m_out m) (m_after m) /\ whitespace (m_after m) = true.

Definition memberInput (m : member) : jsstring :=
  m_key m ++ m_wk m ++ colon ++ m_wc m ++ m_in m ++ m_after m.

Definition memberOutput (m : member) : jsstring :=
  m_key_out m ++ m_wk m ++ colon ++ m_wc m ++ m_out m ++ m_after m.

Fixpoint moreMembersInput (l : list member) : jsstring :=
  match l with
  | [] => []
  | m :: l' => comma ++ m_before m ++ memberInput m ++ moreMembersInput l'
  end.

Fixpoint moreMembersOutput (l : list member) : jsstring :=
  match l with
  | [] => []
  | m :: l' => comma ++ m_before m ++ memberOutput m ++ moreMembersOutput l'
  end.

Definition membersInput (m : member) (l : list member) : jsstring :=
  m_before m ++ memberInput m ++ moreMembersInput l.

Definition membersOutput (m : member) (l : list member) : jsstring :=
  m_before m ++ memberOutput m ++ moreMembersOutput l.

(** The closing braces and brackets that stand behind the root value, each
    with the whitespace behind it: the input, and what is written for it. *)
Definition isCloser (c : N) : bool :=
  (c =? codeClosingBrace)%N || (c =? codeClosingBracket)%N.

Fixpoint closersInput (l : list (N * jsstring)) : jsstring :=
  match l with
  | [] => []
  | (c, w) :: l' => c :: w ++ closersInput l'
  end.

Fixpoint closersOutput (l : list (N * jsstring)) : jsstring :=
  match l with
  | [] => []
  | (_, w) :: l' => w ++ closersOutput l'
  end.

Definition closersOk (l : list (N * jsstring)) : bool :=
  forallb (fun p => isCloser (fst p) && whitespace (snd p)) l.

(** Fuel for the members: for each value and each key. *)
Definition membersWithin (k : nat) (l : list member) : Prop :=
  Forall (fun mem => memberValueWithin k (m_in mem) (m_out mem) (m_after mem)
                     /\ length (m_key mem) + 4 <= k) l.

(** What may stand before the closing bracket or brace: nothing, or a
    comma and whitespace. *)
Definition trailingComma (t : jsstring) (w : jsstring) : Prop :=
  (t = [] /\ w = []) \/ (t = comma ++ w /\ whitespace w = true).

(** The three dots of an ellipsis. *)
Definition dots : jsstring := [codeDot; codeDot; codeDot].

(** What may stand before the first element or member: nothing, or
    whitespace and a comma; the whitespace is what is written for it. *)
Definition leadingComma (lead : jsstring) (w : jsstring) : Prop :=
  (lead = [] /\ w = []) \/ (lead = w ++ comma /\ whitespace w = true).

(** A character that begins no value and no symbol: a comma, a colon, a
    closing bracket or brace, a parenthesis or a plus sign. *)
Definition stray (c : N) : bool :=
  (c =? codeComma)%N || (c =? codeColon)%N || (c =? codeClosingBracket)%N
  || (c =? codeClosingBrace)%N || (c =? codeOpenParenthesis)%N
  || (c =? codeCloseParenthesis)%N || (c =? codePlus)%N.

(** ** Members and items without commas *)

(** A member of a JSON object: key, colon and value, with the whitespace
    behind the key, behind the colon and behind the value. *)
Record pair : Type :=
  { p_key : jsstring; p_wk : jsstring; p_wc : jsstring; p_value : jsstring;
    p_after : jsstring }.

Definition pairOk (p : pair) : Prop :=
  stringChars (p_key p) /\ whitespace (p_wk p) = true /\ whitespace (p_wc p) = true
  /\ isJSONValue (p_value p) = true /\ whitespace (p_after p) = true.

(** The member up to the end of its value. *)
Definition pairText (p : pair) : jsstring :=
  quoted (p_key p) ++ p_wk p ++ colon ++ p_wc p ++ p_value p.

(** Members that follow one another with no comma between them. *)
Fixpoint gluedPairs (l : list pair) : jsstring :=
  match l with
  | [] => []
  | p :: l' => pairText p ++ p_after p ++ gluedPairs l'
  end.

(** What is written for them behind a member that has the whitespace [w]
    behind its value: a comma before [w] for each member that follows. *)
Fixpoint separatedPairs (w : jsstring) (l : list pair) : jsstring :=
  match l with
  | [] => w
  | p :: l' => comma ++ w ++ pairText p ++ separatedPairs (p_after p) l'
  end.

(** Values that follow one another with no comma between them, each with
    the whitespace behind it, and what is written for them. *)
Fixpoint gluedItems (l : list (jsstring * jsstring)) : jsstring :=
  match l with
  | [] => []
  | (v, w) :: l' => v ++ w ++ gluedItems l'
  end.

Fixpoint separatedItems (w : jsstring) (l : list (jsstring * jsstring)) : jsstring :=
  match l with
  | [] => w
  | (v, w') :: l' => comma ++ w ++ v ++ separatedItems w' l'
  end.

(** Fuel for the members and the items. *)
Definition pairWithin (k : nat) (p : pair) : Prop :=
  keptWithin k (p_value p) /\ length (p_key p) + 4 <= k.

(** ** Members without colons *)

(** A member written without its colon: the whitespace before the key, the
    key, the whitespace between key and value, the value and the
    whitespace behind it. *)
Record bare : Type :=
  { b_before : jsstring; b_key : jsstring; b_gap : jsstring; b_value : jsstring;
    b_after : jsstring }.

(** The value begins with a quote, a bracket or a brace. *)
Definition bareOk (b : bare) : Prop :=
  whitespace (b_before b) = true /\ stringChars (b_key b) /\ whitespace (b_gap b) = true
  /\ isLine (b_value b) = true /\ whitespace (b_after b) = true.

Definition bareInput (b : bare) : jsstring :=
  b_before b ++ quoted (b_key b) ++ b_gap b ++ b_value b ++ b_after b.

Definition bareOutput (b : bare) : jsstring :=
  b_before b ++ quoted (b_key b) ++ colon ++ b_gap b ++ b_value b ++ b_after b.

(** The members behind the first one, each after a comma. *)
Definition baresInput (l : list bare) : jsstring :=
  concat (map (fun b => comma ++ bareInput b) l).

Definition baresOutput (l : list bare) : jsstring :=
  concat (map (fun b => comma ++ bareOutput b) l).

Definition bareWithin (k : nat) (b : bare) : Prop :=
  keptWithin k (b_value b) /\ length (b_key b) + 4 <= k.

(** ** The lines of newline-delimited JSON *)









(** ** What a run comes to *)

(** The recognizer [f], given fuel enough, comes to a result that [P] holds
    of, and to the same one with any more fuel. *)
Definition settles {A : Type} (f : nat -> result A) (P : result A -> Prop) : Prop :=
  exists r n0, P r /\ forall n, n0 <= n -> f n = r.

(** An error of a recognizer: it points at a character of the text. *)
Definition within (text : jsstring) (e : JSONRepairError) : Prop :=
  position e < length text /\ err_message e <> UnexpectedEnd.

(** What a recognizer that was called in the state [st] has done when it
    comes back: the cursor is not before the place of the call, and it is
    behind it when the recognizer answers yes, which it only does with input
    ahead. *)
Definition moved {A : Type} (text : jsstring) (st : State) (yes : A -> bool)
    (r : result A) : Prop :=
  match r with
  | Ret a st' => i st <= i st' /\ (yes a = true -> i st < i st' /\ i st < length text)
  | Throw e _ => within text e
  | OutOfFuel => False
  end.

Definition never {A : Type} (a : A) : bool := false.

(** The state after the first lines of [parseString]: a backslash under the
    cursor is skipped. *)
Definition skipped (text : jsstring) (st : State) : State :=
  if is_code codeBackslash (cur text st) then advance StringR 1 st else st.

(** What [parseString] has done when it comes back: without a string, it has
    skipped a backslash at most and no quote follows. *)
Definition stringDone (text : jsstring) (st : State) (r : result bool) : Prop :=
  moved text st (fun b => b) r
  /\ match r with
     | Ret false st' => st' = skipped text st /\ test isQuote (cur text st') = false
     | _ => True
     end.

(** What the loop of [parseString] has done: it ends with a string, behind
    the opening quote. *)
Definition loopDone (text : jsstring) (iBefore : nat) (r : result bool) : Prop :=
  match r with
  | Ret b st' => b = true /\ iBefore < i st'
  | Throw e _ => within text e
  | OutOfFuel => False
  end.

(** The state [parseUnquotedString] is called in: under the cursor or before
    it stands a character that is no whitespace, so that the symbol is not
    trimmed to before its start. *)
Definition anchored (text : jsstring) (st : State) : Prop :=
  test isWhitespace (cur text st) = false
  \/ test isWhitespace (charCodeBefore text (i st)) = false.

(** What [parseUnquotedString] has done: a symbol that begins with a
    character that is no whitespace moves the cursor, and no symbol is found
    only where no character of a symbol stands. *)
Definition unquotedDone (text : jsstring) (st : State) (r : result bool) : Prop :=
  match r with
  | Ret b st' =>
      i st <= i st'
      /\ (b = true -> i st < length text
                      /\ (test isWhitespace (cur text st) = false -> i st < i st'))
      /\ (b = false -> st' = st /\ test isSymbolCharacter (cur text st) = false)
  | Throw e _ => within text e
  | OutOfFuel => False
  end.

(** What [parseObject] and [parseArray] have done: without the opening
    character [c] under the cursor they leave the state as it is. *)
Definition openedDone (text : jsstring) (c : N) (st : State) (r : result bool) : Prop :=
  moved text st (fun b => b) r
  /\ match r with
     | Ret false st' => st' = st /\ is_code c (cur text st) = false
     | _ => True
     end.

(** What [parseValue] has done: it finds a value wherever a character that
    starts one stands behind the whitespace. *)
Definition valueDone (text : jsstring) (st : State) (r : result bool) : Prop :=
  moved text st (fun b => b) r
  /\ match r with
     | Ret false _ =>
         test isStartOfValue
           (cur text (snd (parseWhitespaceAndSkipComments text st))) = false
     | _ => True
     end.

(** What [jsonrepair] has done at its end: an error gives a position in the
    text, the unexpected end the length of the text. *)
Definition runDone (text : jsstring) (r : result jsstring) : Prop :=
  match r with
  | Ret _ _ => True
  | Throw e _ =>
      position e <= length text
      /\ (position e = length text <-> err_message e = UnexpectedEnd)
  | OutOfFuel => False
  end.

(** * Properties *)

(** ** Cursor, input ahead and state *)

Lemma advance_eq w k st :
  advance w k st = {| i := i st + k; output := output st; rewinds := rewinds st |}.
Proof.
  unfold advance, set_i. replace (i st + k <? i st) with false; [reflexivity|].
  symmetry. apply Nat.ltb_ge. lia.
Qed.

Lemma advance_0 w st : advance w 0 st = st.
Proof. rewrite advance_eq. destruct st; simpl. now rewrite Nat.add_0_r. Qed.

Lemma cur_rest text st : cur text st = hd_error (rest text st).
Proof.
  unfold cur, rest, charCodeAt. generalize (i st). intro k. revert text.
  induction k; intros [|c t]; simpl; auto.
Qed.

Lemma rest_at_end text st : atEnd text st = true -> rest text st = [].
Proof. unfold atEnd, rest. intros H. apply Nat.leb_le in H. now apply skipn_all2. Qed.

Lemma cur_at_end text st : atEnd text st = true -> cur text st = None.
Proof. intros H. rewrite cur_rest, rest_at_end; auto. Qed.

Lemma span_all p l : forallb p l = true -> span p l = length l.
Proof.
  induction l as [|c l IH]; simpl; auto. destruct (p c); simpl; [|discriminate].
  intros H. now rewrite IH.
Qed.

Lemma whitespaceRun_length l : length (whitespaceRun l) = span blank l.
Proof.
  induction l as [|c l IH]; simpl; auto. unfold blank.
  destruct (isWhitespace c); simpl; [now rewrite IH|].
  destruct (isSpecialWhitespace c); simpl; [now rewrite IH|reflexivity].
Qed.

(** A scenario: the definitions are run with [n0] units of fuel and more. *)
Ltac run_with n0 :=
  exists n0; intros n Hn; replace n with (n0 + (n - n0)) by lia;
  generalize (n - n0); intro; vm_compute; reflexivity.

Lemma repairs_to_inj text out1 out2 :
  repairs_to text out1 -> repairs_to text out2 -> out1 = out2.
Proof.
  intros [n1 H1] [n2 H2].
  specialize (H1 (n1 + n2) ltac:(lia)). specialize (H2 (n1 + n2) ltac:(lia)). congruence.
Qed.

Lemma fails_not_repairs text e out : fails_with text e -> ~ repairs_to text out.
Proof.
  intros [n1 H1] [n2 H2].
  specialize (H1 (n1 + n2) ltac:(lia)). specialize (H2 (n1 + n2) ltac:(lia)). congruence.
Qed.

(** ** At the end of the input no recognizer finds anything *)

Section AtEnd.

Variable text : jsstring.
Variable st : State.
Hypothesis He : atEnd text st = true.

Lemma parseWhitespace_at_end : parseWhitespace text st = (false, st).
Proof. unfold parseWhitespace. rewrite (rest_at_end _ _ He). simpl. now rewrite advance_0. Qed.

Lemma parseWSC_at_end : parseWhitespaceAndSkipComments text st = (false, st).
Proof.
  unfold parseWhitespaceAndSkipComments. rewrite parseWhitespace_at_end.
  now rewrite Nat.ltb_irrefl.
Qed.

Lemma parseObject_at_end n : parseObject text (S n) st = Ret false st.
Proof. cbn [parseObject]. rewrite (cur_at_end _ _ He). reflexivity. Qed.

Lemma parseArray_at_end n : parseArray text (S n) st = Ret false st.
Proof. cbn [parseArray]. rewrite (cur_at_end _ _ He). reflexivity. Qed.

Lemma parseString_at_end n b : parseString text (S n) b st = Ret false st.
Proof.
  cbn [parseString]. rewrite (cur_at_end _ _ He). cbn [is_code test].
  rewrite (cur_at_end _ _ He). reflexivity.
Qed.

Lemma parseNumber_at_end : parseNumber text st = (false, st).
Proof.
  pose proof (cur_at_end _ _ He) as Hc.
  unfold parseNumber.
  assert (H1 : numberSign text (i st) st = inr st) by (unfold numberSign; now rewrite Hc).
  assert (H2 : skipDigits text st = st)
    by (unfold skipDigits; rewrite (rest_at_end _ _ He); apply advance_0).
  assert (H3 : numberFraction text (i st) st = inr st) by (unfold numberFraction; now rewrite Hc).
  assert (H4 : numberExponent text (i st) st = inr st) by (unfold numberExponent; now rewrite Hc).
  rewrite H1. cbn [andThen]. rewrite H2, H3. cbn [andThen]. rewrite H4.
  unfold numberEnd, atEndOfNumber. rewrite He. cbn [orb negb]. now rewrite Nat.ltb_irrefl.
Qed.

Lemma parseKeyword_at_end name value :
  name <> [] -> parseKeyword text name value st = (false, st).
Proof.
  intros Hn. unfold parseKeyword, slice. fold (rest text st). rewrite (rest_at_end _ _ He).
  rewrite firstn_nil. destruct name; [congruence|reflexivity].
Qed.

Lemma parseKeywords_at_end : parseKeywords text st = (false, st).
Proof.
  unfold parseKeywords, orElse. rewrite !parseKeyword_at_end by discriminate. reflexivity.
Qed.

Lemma parseUnquotedString_at_end n : parseUnquotedString text (S n) st = Ret false st.
Proof.
  cbn [parseUnquotedString]. rewrite (rest_at_end _ _ He). cbn [span].
  rewrite advance_0. now rewrite Nat.ltb_irrefl.
Qed.

End AtEnd.

(** A value is looked for behind the whitespace; when the input ends there,
    none is found. *)
Lemma parseValue_nothing text n st :
  atEnd text (snd (parseWhitespaceAndSkipComments text st)) = true ->
  parseValue text (S (S n)) st = Ret false (snd (parseWhitespaceAndSkipComments text st)).
Proof.
  intros He. cbn [parseValue].
  destruct (parseWhitespaceAndSkipComments text st) as [b st1]. cbn [snd] in *.
  rewrite parseObject_at_end by exact He. cbn [orElseM bind].
  rewrite parseArray_at_end by exact He. cbn [orElseM bind].
  rewrite parseString_at_end by exact He. cbn [orElseM bind].
  rewrite parseNumber_at_end by exact He. cbn [orElseM bind lift fst snd].
  rewrite parseKeywords_at_end by exact He. cbn [orElseM bind lift fst snd].
  rewrite parseUnquotedString_at_end by exact He. cbn [orElseM bind lift fst snd].
  now rewrite parseWSC_at_end by exact He.
Qed.

Lemma parseWSC_i text st :
  i (snd (parseWhitespaceAndSkipComments text st)) = i st + span blank (rest text st).
Proof.
  unfold parseWhitespaceAndSkipComments, parseWhitespace.
  rewrite advance_eq, whitespaceRun_length.
  destruct (0 <? span blank (rest text st)); reflexivity.
Qed.

Lemma parseWSC_blank_input text st :
  forallb blank (rest text st) = true ->
  atEnd text (snd (parseWhitespaceAndSkipComments text st)) = true.
Proof.
  intros Hb. unfold atEnd. rewrite parseWSC_i, (span_all _ _ Hb).
  unfold rest. rewrite length_skipn. apply Nat.leb_le. lia.
Qed.

(** ** Claims *)

(** C5, as amended: an input that is empty or holds whitespace only (plain
    or special) makes [jsonrepair] throw the unexpected-end error, at the
    position [text.length]. *)
Theorem C5_blank_input_unexpected_end (text : jsstring) :
  forallb blank text = true ->
  fails_with text {| err_message := UnexpectedEnd; position := length text |}.
Proof.
  intros Hb. exists 2. intros n Hn.
  destruct n as [|[|n]]; try lia.
  unfold jsonrepair, run.
  rewrite parseValue_nothing by (apply parseWSC_blank_input; exact Hb).
  reflexivity.
Qed.

Lemma C5_blank_input_witness :
  forallb blank (lit " " ++ [0xa0%N; codeNewline]) = true
  /\ fails_with (lit " " ++ [0xa0%N; codeNewline])
       {| err_message := UnexpectedEnd; position := 3 |}.
Proof.
  split; [reflexivity|].
  apply (C5_blank_input_unexpected_end (lit " " ++ [0xa0%N; codeNewline])). reflexivity.
Defined.

(** C5 fails on an input that holds a comment only: the comment is read as
    an unquoted string and [jsonrepair] returns. *)
Lemma C5_comment_only_returns :
  repairs_to (lit "/* c */") (quoted (lit "/* c */"))
  /\ ~ fails_with (lit "/* c */")
         {| err_message := UnexpectedEnd; position := length (lit "/* c */") |}.
Proof.
  assert (H : repairs_to (lit "/* c */") (quoted (lit "/* c */"))) by run_with 10.
  split; [exact H|]. intros Hf. exact (fails_not_repairs _ _ _ Hf H).
Qed.





(** C1 fails: the call of a function without an argument leaves an empty
    output, and an ellipsis that is all a nested array holds takes the comma
    of the enclosing array away; no strict parser accepts either output. *)
Theorem C1_output_not_json :
  repairs_to (lit "NumberLong()") []
  /\ StrictJSON.accepts [] = false
  /\ repairs_to (lit "[1,[...]]") (lit "[1[]]")
  /\ StrictJSON.accepts (lit "[1[]]") = false.
Proof.
  split; [run_with 10|]. split; [reflexivity|]. split; [run_with 20|reflexivity].
Qed.

(** C3 fails: the repair of [[1,[...]]] is [[1[]]], and the repair of that is
    [[1,[]]]; the repair of [NumberLong()] is empty, and the repair of the
    empty text throws. *)
Theorem C3_not_idempotent :
  repairs_to (lit "[1,[...]]") (lit "[1[]]")
  /\ repairs_to (lit "[1[]]") (lit "[1,[]]")
  /\ lit "[1,[]]" <> lit "[1[]]"
  /\ repairs_to (lit "NumberLong()") []
  /\ fails_with [] {| err_message := UnexpectedEnd; position := 0 |}.
Proof.
  split; [run_with 20|]. split; [run_with 20|]. split; [discriminate|].
  split; [run_with 10|run_with 10].
Qed.

(** C10: a backslash that no quote follows makes [parseString] return
    [false] with the cursor one past the backslash and the output as it
    was; the recognizers that come next start behind the backslash, and
    [\foo] is repaired to the string [foo]. *)
Theorem C10_backslash_dropped :
  (forall text n stopAtDelimiter st,
     is_code codeBackslash (cur text st) = true ->
     test isQuote (charCodeAt text (i st + 1)) = false ->
     parseString text (S n) stopAtDelimiter st
     = Ret false {| i := i st + 1; output := output st; rewinds := rewinds st |})
  /\ repairs_to (lit "\foo") (quoted (lit "foo")).
Proof.
  split; [|run_with 10].
  intros text n b st Hb Hq. cbn [parseString]. rewrite Hb.
  rewrite advance_eq. unfold cur at 1. cbn [i]. rewrite Hq. reflexivity.
Qed.

Lemma C10_backslash_dropped_witness :
  parseString (lit "\foo") 1 false initialState
  = Ret false {| i := 1; output := []; rewinds := [] |}.
Proof.
  apply (proj1 C10_backslash_dropped (lit "\foo") 0 false initialState); reflexivity.
Defined.

(** ** Reading the input ahead of the cursor *)

Lemma skipn_length_app (l r : jsstring) : skipn (length l) (l ++ r) = r.
Proof. induction l; cbn; auto. Qed.

Lemma firstn_length_app (l r : jsstring) : firstn (length l) (l ++ r) = l.
Proof. induction l; cbn; congruence. Qed.

Lemma skipn_add_app (l r : jsstring) k : skipn (length l + k) (l ++ r) = skipn k r.
Proof. induction l; cbn; auto. Qed.

(** Lengths of lists that are spelled out. *)
Ltac lens :=
  repeat (rewrite ?length_app;
          cbn [length lbracket rbracket lbrace rbrace comma colon dquote newline]);
  try lia.

(** Lists that differ in their brackets only. *)
Ltac lists := repeat (rewrite <- ?app_assoc, ?app_nil_r; cbn [app]); try reflexivity.

(** Counting off a prefix that is spelled out. *)
Ltac peel :=
  rewrite <- ?app_assoc; rewrite ?length_app; cbn [length app];
  rewrite <- ?Nat.add_assoc;
  repeat first [ rewrite skipn_add_app | rewrite skipn_length_app
               | rewrite firstn_app_2 | rewrite firstn_length_app
               | progress cbn [skipn firstn Nat.add app] ].

Lemma forward_forward k1 s1 k2 s2 st : forward k2 s2 (forward k1 s1 st) = forward (k1 + k2) (s1 ++ s2) st.
Proof. unfold forward. cbn [i output rewinds]. now rewrite Nat.add_assoc, app_assoc. Qed.

Lemma copy_copy l1 l2 st : copy l2 (copy l1 st) = copy (l1 ++ l2) st.
Proof. unfold copy. now rewrite forward_forward, length_app. Qed.

Lemma copy_nil st : copy [] st = st.
Proof. unfold copy, forward. destruct st; cbn. now rewrite Nat.add_0_r, app_nil_r. Qed.

Lemma forward_0_nil st : forward 0 [] st = st.
Proof. exact (copy_nil st). Qed.

Lemma forward_eq k1 s1 k2 s2 st : k1 = k2 -> s1 = s2 -> forward k1 s1 st = forward k2 s2 st.
Proof. now intros -> ->. Qed.

(** Two states reached from the same one. *)
Ltac same_state :=
  rewrite ?forward_forward; unfold copy; rewrite ?forward_forward;
  apply forward_eq;
  [ lens | cbn [app]; rewrite ?app_nil_r, <- ?app_assoc; cbn [app]; try reflexivity ].

Lemma advance_forward w k st : advance w k st = forward k [] st.
Proof. rewrite advance_eq. unfold forward. now rewrite app_nil_r. Qed.

Lemma emit_forward s st : emit s st = forward 0 s st.
Proof. unfold emit, set_output, forward. now rewrite Nat.add_0_r. Qed.

Lemma rest_forward text k s st : rest text (forward k s st) = skipn k (rest text st).
Proof. unfold rest, forward. cbn [i]. now rewrite Nat.add_comm, skipn_skipn. Qed.

Lemma rest_copy text l r st : rest text st = l ++ r -> rest text (copy l st) = r.
Proof. intros H. unfold copy. rewrite rest_forward, H. apply skipn_length_app. Qed.

Lemma rest_set_output text o st : rest text (set_output o st) = rest text st.
Proof. reflexivity. Qed.

Lemma charCodeAt_ahead text st k : charCodeAt text (i st + k) = nth_error (rest text st) k.
Proof. unfold charCodeAt, rest. now rewrite nth_error_skipn. Qed.

Lemma slice_ahead text st k : slice text (i st) (i st + k) = firstn k (rest text st).
Proof. unfold slice, rest. f_equal. lia. Qed.

Lemma atEnd_rest text st : atEnd text st = match rest text st with [] => true | _ :: _ => false end.
Proof.
  unfold atEnd, rest. destruct (length text <=? i st) eqn:E.
  - apply Nat.leb_le in E. now rewrite skipn_all2.
  - apply Nat.leb_gt in E. destruct (skipn (i st) text) eqn:E2; [|reflexivity].
    apply (f_equal (@length N)) in E2. rewrite length_skipn in E2. cbn in E2. lia.
Qed.

Lemma cur_cons text st c r : rest text st = c :: r -> cur text st = Some c.
Proof. intros H. now rewrite cur_rest, H. Qed.

Lemma atEnd_cons text st c r : rest text st = c :: r -> atEnd text st = false.
Proof. intros H. now rewrite atEnd_rest, H. Qed.

Lemma atEnd_nil text st : rest text st = [] -> atEnd text st = true.
Proof. intros H. now rewrite atEnd_rest, H. Qed.

(** ** The leaf recognizers on the input ahead *)

Lemma set_i_same w st : set_i w (i st) st = st.
Proof. unfold set_i. rewrite Nat.ltb_irrefl. now destruct st. Qed.

Lemma whitespaceRun_plain w r :
  forallb isWhitespace w = true -> test blank (hd_error r) = false ->
  whitespaceRun (w ++ r) = w.
Proof.
  intros Hw Hr. induction w as [|c w IH]; cbn [app whitespaceRun].
  - destruct r as [|c r]; [reflexivity|]. cbn [test hd_error] in Hr. unfold blank in Hr.
    cbn [whitespaceRun]. apply orb_false_iff in Hr as [-> ->]. reflexivity.
  - cbn [forallb] in Hw. apply andb_true_iff in Hw as [-> Hw]. now rewrite IH.
Qed.

Lemma parseWSC_copy text st w r :
  rest text st = w ++ r -> forallb isWhitespace w = true -> test blank (hd_error r) = false ->
  parseWhitespaceAndSkipComments text st = (0 <? length w, copy w st).
Proof.
  intros Hr Hw Hb. unfold parseWhitespaceAndSkipComments, parseWhitespace.
  rewrite Hr, (whitespaceRun_plain _ _ Hw Hb), advance_forward, emit_forward, forward_forward.
  rewrite Nat.add_0_r. cbn [app]. fold (copy w st).
  destruct w as [|c w].
  - rewrite copy_nil. cbn [length]. rewrite Nat.ltb_irrefl, forward_0_nil.
    now rewrite Nat.ltb_irrefl.
  - cbn [length]. change (0 <? S (length w)) with true. cbv iota.
    unfold copy, forward. cbn [i length]. f_equal. apply Nat.ltb_lt. lia.
Qed.

Lemma parseWSC_none text st :
  test blank (hd_error (rest text st)) = false ->
  parseWhitespaceAndSkipComments text st = (false, st).
Proof.
  intros Hb. rewrite (@parseWSC_copy text st [] (rest text st)); auto.
  now rewrite copy_nil.
Qed.

Lemma parseCharacter_copy text st c r :
  rest text st = c :: r -> parseCharacter text c st = (true, copy [c] st).
Proof.
  intros Hr. unfold parseCharacter. rewrite (cur_cons _ _ _ _ Hr), N.eqb_refl.
  now rewrite emit_forward, advance_forward, forward_forward.
Qed.

Lemma parseCharacter_other text st code :
  is_code code (cur text st) = false -> parseCharacter text code st = (false, st).
Proof.
  unfold parseCharacter, is_code, test. destruct (cur text st) as [c|]; [|reflexivity].
  rewrite N.eqb_sym. now intros ->.
Qed.

Lemma skipCharacter_other text st code :
  is_code code (cur text st) = false -> skipCharacter text code st = (false, st).
Proof. unfold skipCharacter. now intros ->. Qed.

Lemma parseObject_other text n st :
  is_code codeOpeningBrace (cur text st) = false -> parseObject text (S n) st = Ret false st.
Proof. intros H. cbn [parseObject]. now rewrite H. Qed.

Lemma parseArray_other text n st :
  is_code codeOpeningBracket (cur text st) = false -> parseArray text (S n) st = Ret false st.
Proof. intros H. cbn [parseArray]. now rewrite H. Qed.

Lemma parseString_other text n b st :
  is_code codeBackslash (cur text st) = false -> test isQuote (cur text st) = false ->
  parseString text (S n) b st = Ret false st.
Proof. intros H1 H2. cbn [parseString]. rewrite H1. cbv iota. now rewrite H2. Qed.

Lemma skipEllipsis_none text st :
  test blank (cur text st) = false -> is_code codeDot (cur text st) = false ->
  skipEllipsis text st = (false, st).
Proof.
  intros Hb Hd. unfold skipEllipsis. rewrite cur_rest in Hb. rewrite (parseWSC_none _ _ Hb).
  now rewrite Hd.
Qed.

(** *** Numbers *)

Lemma atEndOfNumber_rest text st : atEndOfNumber text st = endOfNumber (rest text st).
Proof.
  unfold atEndOfNumber. rewrite atEnd_rest, cur_rest.
  destruct (rest text st); reflexivity.
Qed.

Lemma span_app_stop p ds r :
  forallb p ds = true -> test p (hd_error r) = false -> span p (ds ++ r) = length ds.
Proof.
  intros Hd Hr. induction ds as [|c ds IH]; cbn [app span length].
  - destruct r as [|c r]; [reflexivity|]. cbn [test hd_error] in Hr. cbn [span]. now rewrite Hr.
  - cbn [forallb] in Hd. apply andb_true_iff in Hd as [-> Hd]. now rewrite IH.
Qed.

Lemma skipDigits_forward text st ds r :
  rest text st = ds ++ r -> forallb isDigit ds = true -> test isDigit (hd_error r) = false ->
  skipDigits text st = forward (length ds) [] st.
Proof.
  intros Hr Hd Hn. unfold skipDigits. now rewrite Hr, (span_app_stop _ _ _ Hd Hn), advance_forward.
Qed.

Lemma repair_forward text st k :
  repairNumberEndingWithNumericSymbol text (i st) (forward k [] st)
  = forward k (firstn k (rest text st) ++ [codeZero]) st.
Proof.
  unfold repairNumberEndingWithNumericSymbol. change (i (forward k [] st)) with (i st + k).
  rewrite slice_ahead, emit_forward, forward_forward. now rewrite Nat.add_0_r.
Qed.

(** Facts on character classes, by arithmetic on the codes. *)
Ltac chars :=
  unfold follow, isValueStart, numericSymbol, isExponentMark, isSign,
    is_code, test, blank, endOfNumber, isDelimiterExceptSlash, isStartOfValue,
    isWordCharacter, isFunctionName,
    isDelimiter, isQuote, isDoubleQuoteLike, isSingleQuoteLike, isDoubleQuote, isSingleQuote,
    isWhitespace, isSpecialWhitespace, isControlCharacter, isValidStringCharacter,
    isEscapeCharacter, isDigit, isHex, between,
    codeBackslash, codeSlash, codeAsterisk, codeOpeningBrace, codeClosingBrace,
    codeOpeningBracket, codeClosingBracket, codeOpenParenthesis, codeCloseParenthesis,
    codeSpace, codeNewline, codeTab, codeReturn, codeBackspace, codeFormFeed,
    codeDoubleQuote, codePlus, codeMinus, codeQuote, codeZero, codeNine, codeComma,
    codeDot, codeColon, codeSemicolon, codeUppercaseA, codeLowercaseA, codeUppercaseE,
    codeLowercaseE, codeUppercaseF, codeLowercaseF, codeUppercaseZ, codeLowercaseZ,
    codeLowercaseU, codeUnderscore in *;
  repeat match goal with
  | H : Some _ = Some _ |- _ => injection H as H
  end;
  repeat (progress (rewrite ?andb_true_iff, ?orb_true_iff, ?negb_true_iff,
                      ?andb_false_iff, ?orb_false_iff, ?negb_false_iff,
                      ?N.eqb_eq, ?N.eqb_neq, ?N.leb_le, ?N.leb_gt, ?N.ltb_lt, ?N.ltb_ge in *));
  try lia.

Lemma digit_not_end d : isDigit d = true -> isDelimiter d || isWhitespace d = false.
Proof. intros H. chars. Qed.

Lemma digit_not_minus d : isDigit d = true -> is_code codeMinus (Some d) = false.
Proof. intros H. chars. Qed.

Ltac look Hr :=
  rewrite ?advance_forward, ?atEndOfNumber_rest, ?cur_rest, ?rest_forward, ?Hr;
  cbn [skipn hd_error app].

Section NumberPhases.

Variable text : jsstring.
Variable start : nat.
Variable st : State.

Lemma numberSign_none :
  is_code codeMinus (cur text st) = false -> numberSign text start st = inr st.
Proof. intros H. unfold numberSign. now rewrite H. Qed.

Lemma numberSign_end r :
  rest text st = codeMinus :: r -> endOfNumber r = true ->
  numberSign text start st
  = inl (true, repairNumberEndingWithNumericSymbol text start (forward 1 [] st)).
Proof.
  intros Hr He. unfold numberSign. look Hr. rewrite He. reflexivity.
Qed.

Lemma numberSign_digit d r :
  rest text st = codeMinus :: d :: r -> isDigit d = true ->
  numberSign text start st = inr (forward 1 [] st).
Proof.
  intros Hr Hd. unfold numberSign. look Hr.
  cbn [endOfNumber test]. rewrite (digit_not_end _ Hd), Hd. reflexivity.
Qed.

Lemma numberFraction_none :
  is_code codeDot (cur text st) = false -> numberFraction text start st = inr st.
Proof. intros H. unfold numberFraction. now rewrite H. Qed.

Lemma numberFraction_end r :
  rest text st = codeDot :: r -> endOfNumber r = true ->
  numberFraction text start st
  = inl (true, repairNumberEndingWithNumericSymbol text start (forward 1 [] st)).
Proof.
  intros Hr He. unfold numberFraction. look Hr. rewrite He. reflexivity.
Qed.

Lemma numberFraction_digits d ds r :
  rest text st = codeDot :: (d :: ds) ++ r ->
  forallb isDigit (d :: ds) = true -> test isDigit (hd_error r) = false ->
  numberFraction text start st = inr (forward (S (length (d :: ds))) [] st).
Proof.
  intros Hr Hd Hn. unfold numberFraction. look Hr.
  pose proof Hd as Hd'. cbn [forallb] in Hd'. apply andb_true_iff in Hd' as [Hd1 _].
  cbn [endOfNumber test]. rewrite (digit_not_end _ Hd1), Hd1. cbn [negb].
  rewrite (skipDigits_forward text (forward 1 [] st) (d :: ds) r); auto.
  - now rewrite forward_forward.
  - now rewrite rest_forward, Hr.
Qed.

Lemma exponent_mark c : 
  is_code codeLowercaseE (Some c) || is_code codeUppercaseE (Some c) = isExponentMark c.
Proof. unfold is_code, test, isExponentMark. now rewrite !(N.eqb_sym c). Qed.

Lemma sign_mark c : 
  is_code codeMinus (Some c) || is_code codePlus (Some c) = isSign c.
Proof. unfold is_code, test, isSign. now rewrite !(N.eqb_sym c). Qed.

Lemma numberExponent_none :
  test isExponentMark (cur text st) = false -> numberExponent text start st = inr st.
Proof.
  intros H. unfold numberExponent. destruct (cur text st) as [c|]; [|reflexivity].
  rewrite exponent_mark. cbn [test] in H. now rewrite H.
Qed.

Lemma exponent_sign e sg r :
  rest text st = e :: sg ++ r -> signOf sg r ->
  (if is_code codeMinus (cur text (forward 1 [] st))
      || is_code codePlus (cur text (forward 1 [] st))
   then advance Number 1 (forward 1 [] st) else forward 1 [] st)
  = forward (S (length sg)) [] st.
Proof.
  intros Hr [[-> Hs]|[s [-> Hs]]]; look Hr.
  - destruct r as [|c r]; [reflexivity|]. cbn [hd_error test] in Hs |- *.
    rewrite sign_mark, Hs. reflexivity.
  - rewrite sign_mark, Hs. now rewrite forward_forward.
Qed.

Lemma numberExponent_end e sg r :
  rest text st = e :: sg ++ r -> isExponentMark e = true -> signOf sg r ->
  endOfNumber r = true ->
  numberExponent text start st
  = inl (true, repairNumberEndingWithNumericSymbol text start (forward (S (length sg)) [] st)).
Proof.
  intros Hr He Hs Hn. unfold numberExponent. rewrite (cur_cons _ _ _ _ Hr), exponent_mark, He.
  rewrite advance_forward, (exponent_sign _ _ _ Hr Hs).
  rewrite atEndOfNumber_rest, rest_forward, Hr. cbn [skipn]. rewrite skipn_length_app, Hn.
  reflexivity.
Qed.

Lemma numberExponent_digits e sg d ds r :
  rest text st = e :: sg ++ (d :: ds) ++ r -> isExponentMark e = true ->
  signOf sg (d :: ds ++ r) ->
  forallb isDigit (d :: ds) = true -> test isDigit (hd_error r) = false ->
  numberExponent text start st = inr (forward (S (length sg) + length (d :: ds)) [] st).
Proof.
  intros Hr He Hs Hd Hn. unfold numberExponent. rewrite (cur_cons _ _ _ _ Hr), exponent_mark, He.
  rewrite advance_forward, (exponent_sign _ _ _ Hr Hs).
  assert (Hr' : rest text (forward (S (length sg)) [] st) = (d :: ds) ++ r).
  { rewrite rest_forward, Hr. cbn [skipn]. now rewrite skipn_length_app. }
  pose proof Hd as Hd'. cbn [forallb] in Hd'. apply andb_true_iff in Hd' as [Hd1 _].
  rewrite atEndOfNumber_rest, cur_rest, Hr'. cbn [app endOfNumber hd_error test].
  rewrite (digit_not_end _ Hd1), Hd1. cbn [negb].
  rewrite (skipDigits_forward text _ (d :: ds) r Hr' Hd Hn).
  now rewrite forward_forward.
Qed.

End NumberPhases.

Section NumberRuns.

Variable text : jsstring.
Variable start : nat.

Lemma number_sign_digits st sign ds r :
  rest text st = sign ++ ds ++ r -> optSign sign ds -> forallb isDigit ds = true ->
  test isDigit (hd_error r) = false ->
  (ds = [] -> is_code codeMinus (hd_error r) = false) ->
  andThen (numberSign text start st) (fun st => inr (skipDigits text st))
  = inr (forward (length (sign ++ ds)) [] st).
Proof.
  intros Hr [->|[-> Hne]] Hd Hn Hm.
  - cbn [app] in *. rewrite numberSign_none.
    + cbn [andThen]. now rewrite (skipDigits_forward _ _ _ _ Hr Hd Hn).
    + rewrite cur_rest, Hr. destruct ds as [|d ds]; [now apply Hm|].
      cbn [forallb] in Hd. apply andb_true_iff in Hd as [Hd _].
      now apply digit_not_minus.
  - destruct ds as [|d ds]; [congruence|]. cbn [app] in Hr.
    pose proof Hd as Hd'. cbn [forallb] in Hd'. apply andb_true_iff in Hd' as [Hd1 _].
    rewrite (numberSign_digit _ _ _ _ _ Hr Hd1). cbn [andThen].
    rewrite (skipDigits_forward text _ (d :: ds) r); auto.
    + now rewrite forward_forward.
    + now rewrite rest_forward, Hr.
Qed.

Lemma number_fraction st frac r :
  rest text st = frac ++ r -> fraction frac ->
  (frac = [] -> is_code codeDot (hd_error r) = false) ->
  test isDigit (hd_error r) = false ->
  numberFraction text start st = inr (forward (length frac) [] st).
Proof.
  intros Hr [->|[d [ds [-> Hd]]]] Hdot Hn.
  - cbn [app length] in *. rewrite forward_0_nil. apply numberFraction_none.
    rewrite cur_rest, Hr. now apply Hdot.
  - apply (numberFraction_digits _ _ _ _ _ _ Hr Hd Hn).
Qed.

End NumberRuns.

Lemma firstn_app_exact (l r : jsstring) k : k = length l -> firstn k (l ++ r) = l.
Proof. intros ->. apply firstn_length_app. Qed.

Lemma skipn_app_exact (l r : jsstring) k : k = length l -> skipn k (l ++ r) = r.
Proof. intros ->. apply skipn_length_app. Qed.

Lemma fraction_head frac r :
  fraction frac -> test isDigit (hd_error (frac ++ r)) = test isDigit (hd_error r) \/ 
                   hd_error (frac ++ r) = Some codeDot.
Proof. intros [->|[d [ds [-> _]]]]; [now left|now right]. Qed.

(** A run that is cut off after a numeric symbol is written with a zero
    behind it. *)
Lemma parseNumber_truncated text st run r :
  rest text st = run ++ r -> truncatedNumber run r -> endOfNumber r = true ->
  parseNumber text st = (true, forward (length run) (run ++ [codeZero]) st).
Proof.
  intros Hr Ht He. unfold parseNumber.
  destruct Ht as [r|sign ds r Hs Hd|sign ds frac e sg r Hs Hd Hf Hm Hg].
  - cbn [app] in Hr. rewrite (numberSign_end _ _ _ _ Hr He). cbn [andThen].
    rewrite repair_forward, Hr. reflexivity.
  - rewrite <- !app_assoc in Hr.
    rewrite (number_sign_digits _ _ _ _ _ _ Hr Hs Hd); try reflexivity.
    cbn [andThen].
    assert (Hr' : rest text (forward (length (sign ++ ds)) [] st) = codeDot :: r).
    { rewrite rest_forward, Hr. now peel. }
    rewrite (numberFraction_end _ _ _ _ Hr' He). cbn [andThen].
    rewrite forward_forward, repair_forward, Hr. do 2 f_equal.
    + lens.
    + f_equal. now peel.
  - rewrite <- !app_assoc in Hr.
    assert (Hfe : test isDigit (hd_error (frac ++ e :: sg ++ r)) = false
                  /\ is_code codeMinus (hd_error (frac ++ e :: sg ++ r)) = false).
    { destruct Hf as [->|[d [fs [-> _]]]]; cbn [app hd_error]; split; chars. }
    destruct Hfe as [Hfe1 Hfe2].
    rewrite (number_sign_digits _ _ _ _ _ _ Hr Hs Hd Hfe1 (fun _ => Hfe2)).
    cbn [andThen].
    assert (Hr1 : rest text (forward (length (sign ++ ds)) [] st) = frac ++ e :: sg ++ r).
    { rewrite rest_forward, Hr. now peel. }
    rewrite (number_fraction _ _ _ _ _ Hr1 Hf);
      [|intros _; cbn [hd_error]; chars|cbn [hd_error]; chars].
    cbn [andThen]. rewrite forward_forward.
    assert (Hr2 : rest text (forward (length (sign ++ ds) + length frac) [] st) = e :: sg ++ r).
    { rewrite rest_forward, Hr. now peel. }
    rewrite (numberExponent_end _ _ _ _ _ _ Hr2 Hm Hg He).
    rewrite forward_forward, repair_forward, Hr. do 2 f_equal.
    + lens.
    + f_equal. rewrite <- Nat.add_assoc. now peel.
Qed.

(** *** What [parseNumber] writes *)

Lemma charCodeBefore_next text k : charCodeBefore text (k + 1) = charCodeAt text k.
Proof. rewrite Nat.add_1_r. reflexivity. Qed.

Lemma firstn_snoc (l : jsstring) k c :
  nth_error l k = Some c -> firstn (S k) l = firstn k l ++ [c].
Proof.
  revert l. induction k as [|k IH]; intros [|x l] H; try discriminate.
  - cbn in H. injection H as ->. reflexivity.
  - cbn [nth_error] in H. rewrite (firstn_cons (S k)), (firstn_cons k).
    now rewrite (IH _ H).
Qed.

Lemma slice_snoc text a b c :
  a < b -> charCodeBefore text b = Some c ->
  slice text a b = slice text a (b - 1) ++ [c].
Proof.
  intros Hab Hc. destruct b as [|b]; [lia|]. cbn [charCodeBefore] in Hc.
  unfold slice. replace (S b - a) with (S (b - a)) by lia.
  replace (S b - 1 - a) with (b - a) by lia.
  apply firstn_snoc. rewrite nth_error_skipn. now replace (a + (b - a)) with b by lia.
Qed.

Lemma atEndOfNumber_i text st1 st2 :
  i st1 = i st2 -> atEndOfNumber text st1 = atEndOfNumber text st2.
Proof. unfold atEndOfNumber, atEnd, cur. now intros ->. Qed.

Section NumberWrites.

Variable text : jsstring.
Variable st0 : State.

Lemma passed_advance w k st : passed st0 st -> passed st0 (advance w k st).
Proof. intros [H1 [H2 H3]]. rewrite advance_eq. unfold passed. cbn; repeat split; auto; lia. Qed.

Lemma passed_skipDigits st : passed st0 st -> passed st0 (skipDigits text st).
Proof. apply passed_advance. Qed.

Lemma fabricated_here w st c :
  passed st0 st -> cur text st = Some c -> numericSymbol c = true ->
  atEndOfNumber text (advance w 1 st) = true ->
  fabricated text st0 (true, repairNumberEndingWithNumericSymbol text (i st0) (advance w 1 st)).
Proof.
  intros Hp Hc Hs He _. exists (advance w 1 st). split; [reflexivity|].
  split; [now apply passed_advance|]. destruct Hp as [Hi _].
  rewrite advance_eq in *. cbn [i]. split; [lia|]. split; [exact He|].
  rewrite charCodeBefore_next. unfold cur in Hc. now rewrite Hc.
Qed.

Lemma numberSign_ok st : passed st0 st -> phase_ok text st0 (numberSign text (i st0) st).
Proof.
  intros Hp. unfold numberSign.
  destruct (is_code codeMinus (cur text st)) eqn:Hm; [|exact Hp].
  destruct (atEndOfNumber text (advance Number 1 st)) eqn:He.
  - destruct (cur text st) as [c|] eqn:Hc; [|discriminate].
    apply (fabricated_here Number st c Hp Hc); [chars|exact He].
  - destruct (test isDigit (cur text (advance Number 1 st))); cbn [negb phase_ok].
    + now apply passed_advance.
    + intros H. discriminate H.
Qed.

Lemma numberFraction_ok st : passed st0 st -> phase_ok text st0 (numberFraction text (i st0) st).
Proof.
  intros Hp. unfold numberFraction.
  destruct (is_code codeDot (cur text st)) eqn:Hm; [|exact Hp].
  destruct (atEndOfNumber text (advance Number 1 st)) eqn:He.
  - destruct (cur text st) as [c|] eqn:Hc; [|discriminate].
    apply (fabricated_here Number st c Hp Hc); [chars|exact He].
  - destruct (test isDigit (cur text (advance Number 1 st))); cbn [negb phase_ok].
    + now apply passed_skipDigits, passed_advance.
    + intros H. discriminate H.
Qed.

Lemma numberExponent_ok st : passed st0 st -> phase_ok text st0 (numberExponent text (i st0) st).
Proof.
  intros Hp. unfold numberExponent.
  destruct (is_code codeLowercaseE (cur text st) || is_code codeUppercaseE (cur text st))
    eqn:Hm; [|exact Hp].
  destruct (cur text st) as [e|] eqn:Hc; [|discriminate].
  set (st1 := advance Number 1 st).
  assert (Hp1 : passed st0 st1) by now apply passed_advance.
  destruct (is_code codeMinus (cur text st1) || is_code codePlus (cur text st1)) eqn:Hs.
  - destruct (atEndOfNumber text (advance Number 1 st1)) eqn:He.
    + destruct (cur text st1) as [c|] eqn:Hc1; [|discriminate].
      apply (fabricated_here Number st1 c Hp1 Hc1); [chars|exact He].
    + destruct (test isDigit (cur text (advance Number 1 st1))); cbn [negb phase_ok].
      * now apply passed_skipDigits, passed_advance.
      * intros H. discriminate H.
  - destruct (atEndOfNumber text st1) eqn:He.
    + apply (fabricated_here Number st e Hp Hc); [chars|exact He].
    + destruct (test isDigit (cur text st1)); cbn [negb phase_ok].
      * now apply passed_skipDigits.
      * intros H. discriminate H.
Qed.

End NumberWrites.

(** [parseNumber] writes the characters it read: as they are, between
    quotes, or with a zero behind them, and this only at the end of a
    number and just after a numeric symbol. *)
Lemma parseNumber_writes text st st' :
  parseNumber text st = (true, st') ->
  let num := slice text (i st) (i st') in
  output st' = output st ++ num
  \/ output st' = output st ++ quoted num
  \/ (output st' = output st ++ num ++ [codeZero]
      /\ atEndOfNumber text st' = true
      /\ exists pre c, num = pre ++ [c] /\ numericSymbol c = true).
Proof.
  unfold parseNumber. intros H.
  assert (Hp0 : passed st st) by (unfold passed; auto).
  pose proof (numberSign_ok text st st Hp0) as H1.
  destruct (numberSign text (i st) st) as [r1|st1]; cbn [andThen phase_ok] in *.
  2: apply (passed_skipDigits text) in H1;
     pose proof (numberFraction_ok text st _ H1) as H2;
     destruct (numberFraction text (i st) (skipDigits text st1)) as [r2|st2];
     cbn [andThen phase_ok] in *.
  3: pose proof (numberExponent_ok text st _ H2) as H3;
     destruct (numberExponent text (i st) st2) as [r3|st3]; cbn [andThen phase_ok] in *.
  4: { unfold numberEnd in H. cbv zeta.
       destruct (atEndOfNumber text st3); cbn [negb] in H; [|discriminate].
       destruct (i st <? i st3); [|discriminate].
       injection H as <-. destruct H3 as [_ [Ho _]].
       rewrite emit_forward. unfold forward. cbn [i output]. rewrite Nat.add_0_r, Ho.
       destruct (hasInvalidLeadingZero (slice text (i st) (i st3))); auto. }
  all: match goal with Hf : fabricated _ _ ?r |- _ =>
         subst r; destruct (Hf eq_refl) as [st2' [Hs [[_ [Ho _]] [Hlt [He Hn]]]]] end;
       cbn [snd] in Hs; subst st'; cbv zeta;
       unfold repairNumberEndingWithNumericSymbol; rewrite emit_forward;
       unfold forward; cbn [i output]; rewrite Nat.add_0_r, Ho;
       right; right; split; [now rewrite app_assoc|]; split;
       [rewrite <- He; now apply atEndOfNumber_i|];
       destruct (charCodeBefore text (i st2')) as [c|] eqn:Hc; [|discriminate];
       exists (slice text (i st) (i st2' - 1)), c; split;
       [now apply slice_snoc|exact Hn].
Qed.

(** C9: a run that ends just after a minus sign, a dot, or an exponent
    mark and its optional sign, at the end of the input or before
    whitespace or a delimiter, is written with a zero behind it; whenever
    [parseNumber] returns [true] it has written the characters it read, as
    they are or between quotes, or with that zero, and the zero comes only
    in the case above; [-], [1.] and [1e] give [-0], [1.0] and [1e0], and
    the scenario gives [["x", 1.0]]. *)
Theorem C9_number_truncation :
  (forall text st run r,
     rest text st = run ++ r -> truncatedNumber run r -> endOfNumber r = true ->
     parseNumber text st = (true, forward (length run) (run ++ [codeZero]) st))
  /\ (forall text st st',
        parseNumber text st = (true, st') ->
        let num := slice text (i st) (i st') in
        output st' = output st ++ num
        \/ output st' = output st ++ quoted num
        \/ (output st' = output st ++ num ++ [codeZero]
            /\ atEndOfNumber text st' = true
            /\ exists pre c, num = pre ++ [c] /\ numericSymbol c = true))
  /\ repairs_to (lit "-") (lit "-0")
  /\ repairs_to (lit "1.") (lit "1.0")
  /\ repairs_to (lit "1e") (lit "1e0")
  /\ repairs_to (lit "[" ++ quoted (lit "x") ++ lit ", 1.]")
                (lit "[" ++ quoted (lit "x") ++ lit ", 1.0]").
Proof.
  split; [exact parseNumber_truncated|]. split; [exact parseNumber_writes|].
  repeat split; run_with 20.
Qed.

Lemma C9_number_truncation_witness :
  parseNumber (lit "-1.5e+") initialState
  = (true, forward 6 (lit "-1.5e+" ++ [codeZero]) initialState).
Proof.
  apply (proj1 C9_number_truncation (lit "-1.5e+") initialState (lit "-1.5e+") []).
  - reflexivity.
  - apply (truncated_exponent [codeMinus] (lit "1") (lit ".5") codeLowercaseE [codePlus] []).
    + right. split; [reflexivity|discriminate].
    + reflexivity.
    + right. exists 0x35%N, []. split; reflexivity.
    + reflexivity.
    + right. exists codePlus. split; reflexivity.
  - reflexivity.
Defined.

(** ** Valid JSON is kept as it is *)

(** *** Numbers *)

Lemma integerPart_digits int :
  integerPart int -> int <> [] /\ forallb isDigit int = true.
Proof.
  intros [->|[d [ds [-> [Hd [_ Hds]]]]]]; split; try discriminate; [reflexivity|].
  cbn [forallb]. now rewrite Hd, Hds.
Qed.

Lemma numberText_no_leading_zero sign int frac exp :
  (sign = [] \/ sign = [codeMinus]) -> integerPart int -> fraction frac -> exponentPart exp ->
  hasInvalidLeadingZero (sign ++ int ++ frac ++ exp) = false.
Proof.
  intros Hs Hi Hf He.
  destruct Hs as [->| ->];
    [|cbn [app hasInvalidLeadingZero]; destruct (int ++ frac ++ exp); reflexivity].
  cbn [app].
  destruct Hi as [->|[d [ds [-> [Hd [Hz _]]]]]].
  - cbn [app hasInvalidLeadingZero].
    destruct Hf as [->|[d [ds [-> _]]]]; [|reflexivity]. cbn [app].
    destruct He as [->|[e [sg [d [ds [-> [He _]]]]]]]; [reflexivity|].
    rewrite N.eqb_refl. cbn [andb]. chars.
  - cbn [app hasInvalidLeadingZero]. destruct (ds ++ frac ++ exp); [reflexivity|].
    apply N.eqb_neq in Hz. now rewrite Hz.
Qed.

Lemma parseNumber_kept text st num r :
  numberText num -> rest text st = num ++ r -> endOfNumber r = true ->
  parseNumber text st = (true, copy num st).
Proof.
  intros [sign [int [frac [exp [-> [Hs [Hi [Hf He]]]]]]]] Hr Hn.
  destruct (integerPart_digits _ Hi) as [Hne Hd].
  rewrite <- !app_assoc in Hr. unfold parseNumber.
  assert (Hx : test isDigit (hd_error (exp ++ r)) = false
               /\ is_code codeDot (hd_error (exp ++ r)) = false).
  { destruct He as [->|[e [sg [d [ds [-> [He _]]]]]]]; cbn [app hd_error].
    - destruct r; cbn [hd_error]; split; chars.
    - split; chars. }
  destruct Hx as [Hx1 Hx2].
  assert (Hfx : test isDigit (hd_error (frac ++ exp ++ r)) = false).
  { destruct Hf as [->|[d [ds [-> _]]]]; [exact Hx1|reflexivity]. }
  rewrite (number_sign_digits text (i st) st sign int (frac ++ exp ++ r) Hr); auto.
  2: { destruct Hs as [->| ->]; [now left|right; split; auto]. }
  2: { intros E. now destruct Hne. }
  cbn [andThen].
  assert (Hr1 : rest text (forward (length (sign ++ int)) [] st) = frac ++ exp ++ r).
  { rewrite rest_forward, Hr. now peel. }
  rewrite (number_fraction text (i st) _ frac (exp ++ r) Hr1 Hf (fun _ => Hx2) Hx1).
  cbn [andThen]. rewrite forward_forward. cbn [app].
  assert (Hr2 : rest text (forward (length (sign ++ int) + length frac) [] st) = exp ++ r).
  { rewrite rest_forward, Hr. now peel. }
  assert (Hexp : numberExponent text (i st)
                   (forward (length (sign ++ int) + length frac) [] st)
                 = inr (forward (length (sign ++ int ++ frac ++ exp)) [] st)).
  { destruct He as [->|[e [sg [d [ds [-> [He [Hsg Hds]]]]]]]].
    - rewrite numberExponent_none.
      + f_equal. rewrite <- (forward_0_nil (forward _ _ st)). same_state.
      + rewrite cur_rest, Hr2. cbn [app]. destruct r; cbn [hd_error]; chars.
    - cbn [app] in Hr2. rewrite <- app_assoc in Hr2.
      rewrite (numberExponent_digits text (i st) _ e sg d ds r Hr2 He); auto.
      + f_equal. same_state.
      + destruct Hsg as [->|[s [-> Hsg]]]; [left|right].
        * split; [reflexivity|]. cbn [forallb] in Hds. cbn [app hd_error]. chars.
        * exists s. now split.
      + destruct r; cbn [hd_error]; chars. }
  rewrite Hexp. unfold numberEnd.
  rewrite atEndOfNumber_rest, rest_forward, Hr.
  replace (skipn (length (sign ++ int ++ frac ++ exp)) (sign ++ int ++ frac ++ exp ++ r))
    with r by (now peel).
  rewrite Hn. cbn [negb].
  change (i (forward (length (sign ++ int ++ frac ++ exp)) [] st))
    with (i st + length (sign ++ int ++ frac ++ exp)).
  replace (i st <? i st + length (sign ++ int ++ frac ++ exp)) with true.
  2: { symmetry. apply Nat.ltb_lt. destruct int; [congruence|]. lens. }
  rewrite slice_ahead, Hr.
  replace (firstn (length (sign ++ int ++ frac ++ exp)) (sign ++ int ++ frac ++ exp ++ r))
    with (sign ++ int ++ frac ++ exp) by (now peel).
  rewrite (numberText_no_leading_zero _ _ _ _ Hs Hi Hf He).
  f_equal. rewrite emit_forward. same_state.
Qed.

Lemma span_split p (l : jsstring) :
  l = firstn (span p l) l ++ skipn (span p l) l /\ forallb p (firstn (span p l) l) = true.
Proof.
  induction l as [|c l [IH1 IH2]]; [now split|]. cbn [span].
  destruct (p c) eqn:E; [|now split].
  cbn [firstn skipn app forallb]. rewrite E, IH2. split; [now rewrite <- IH1|reflexivity].
Qed.

Lemma digits1_inv l r :
  StrictJSON.digits1 l = Some r ->
  exists d ds, l = (d :: ds) ++ r /\ forallb isDigit (d :: ds) = true.
Proof.
  unfold StrictJSON.digits1. destruct (span_split isDigit l) as [H1 H2].
  destruct (span isDigit l) as [|k] eqn:E; [discriminate|]. intros [= <-].
  destruct l as [|d l]; [discriminate|]. cbn [firstn] in *.
  exists d, (firstn k l). split; [exact H1|exact H2].
Qed.

Lemma intPart_inv l r :
  StrictJSON.intPart l = Some r -> exists int, l = int ++ r /\ integerPart int.
Proof.
  unfold StrictJSON.intPart. destruct l as [|c l]; [discriminate|].
  destruct (c =? codeZero)%N eqn:Ez.
  - intros [= <-]. apply N.eqb_eq in Ez. subst c. exists [codeZero]. split; [reflexivity|now left].
  - destruct (isDigit c) eqn:Ed; [|discriminate]. intros [= <-].
    destruct (span_split isDigit l) as [H1 H2].
    exists (c :: firstn (span isDigit l) l). split.
    + cbn [app]. now rewrite <- H1.
    + right. exists c, (firstn (span isDigit l) l). apply N.eqb_neq in Ez. auto.
Qed.

Lemma fracPart_inv l r :
  StrictJSON.fracPart l = Some r -> exists frac, l = frac ++ r /\ fraction frac.
Proof.
  unfold StrictJSON.fracPart. destruct l as [|c l].
  - intros [= <-]. exists []. split; [reflexivity|now left].
  - destruct (c =? codeDot)%N eqn:E.
    + intros H. destruct (digits1_inv _ _ H) as [d [ds [-> Hd]]].
      apply N.eqb_eq in E. subst c. exists (codeDot :: d :: ds). split; [reflexivity|].
      right. now exists d, ds.
    + intros [= <-]. exists []. split; [reflexivity|now left].
Qed.

Lemma expPart_inv l r :
  StrictJSON.expPart l = Some r -> exists exp, l = exp ++ r /\ exponentPart exp.
Proof.
  unfold StrictJSON.expPart. destruct l as [|c l].
  - intros [= <-]. exists []. split; [reflexivity|now left].
  - fold (isExponentMark c). destruct (isExponentMark c) eqn:E.
    + destruct l as [|s l]; [discriminate|].
      replace ((s =? codePlus)%N || (s =? codeMinus)%N) with (isSign s)
        by (unfold isSign; apply orb_comm).
      destruct (isSign s) eqn:Es; intros H;
        destruct (digits1_inv _ _ H) as [d [ds [Hl Hd]]].
      * rewrite Hl. exists (c :: [s] ++ d :: ds). split; [reflexivity|].
        right. exists c, [s], d, ds. repeat split; auto. right. now exists s.
      * rewrite Hl. exists (c :: [] ++ d :: ds). split; [reflexivity|].
        right. exists c, [], d, ds. repeat split; auto.
    + intros [= <-]. exists []. split; [reflexivity|now left].
Qed.

Lemma number_unsigned_inv l1 r :
  match StrictJSON.intPart l1 with
  | Some l => match StrictJSON.fracPart l with
              | Some l => StrictJSON.expPart l
              | None => None
              end
  | None => None
  end = Some r ->
  exists int frac exp,
    l1 = int ++ frac ++ exp ++ r /\ integerPart int /\ fraction frac /\ exponentPart exp.
Proof.
  destruct (StrictJSON.intPart l1) as [l2|] eqn:E1; [|discriminate].
  destruct (StrictJSON.fracPart l2) as [l3|] eqn:E2; [|discriminate].
  intros E3.
  destruct (intPart_inv _ _ E1) as [int [-> Hi]].
  destruct (fracPart_inv _ _ E2) as [frac [-> Hf]].
  destruct (expPart_inv _ _ E3) as [exp [-> He]].
  now exists int, frac, exp.
Qed.

Lemma number_inv l r :
  StrictJSON.number l = Some r -> exists num, l = num ++ r /\ numberText num.
Proof.
  unfold StrictJSON.number. intros H.
  assert (Hc : exists sign l1, l = sign ++ l1 /\ (sign = [] \/ sign = [codeMinus]) /\
               match l with c :: l' => if (c =? codeMinus)%N then l' else l | [] => l end = l1).
  { destruct l as [|c l]; [exists [], []; auto|].
    destruct (c =? codeMinus)%N eqn:E; [|exists [], (c :: l); auto].
    apply N.eqb_eq in E. subst c. exists [codeMinus], l. auto. }
  destruct Hc as [sign [l1 [Hl [Hs Hm]]]]. rewrite Hm in H.
  destruct (number_unsigned_inv _ _ H) as [int [frac [exp [-> [Hi [Hf He]]]]]].
  exists (sign ++ int ++ frac ++ exp). split; [now rewrite Hl, <- !app_assoc|].
  now exists sign, int, frac, exp.
Qed.

(** *** Strings *)

Lemma follow_not_blank tail : follow tail = true -> test blank (hd_error tail) = false.
Proof. destruct tail as [|c tail]; [reflexivity|]. cbn [hd_error]. intros H. chars. Qed.

Lemma follow_not_plus tail : follow tail = true -> is_code codePlus (hd_error tail) = false.
Proof. destruct tail as [|c tail]; [reflexivity|]. cbn [hd_error]. intros H. chars. Qed.

Lemma follow_end_or_delimiter text st tail :
  rest text st = tail -> follow tail = true ->
  atEnd text st || test isDelimiter (cur text st) = true.
Proof.
  intros Hr H. rewrite atEnd_rest, cur_rest, Hr. destruct tail as [|c tail]; [reflexivity|].
  cbn [hd_error test orb]. unfold follow in H.
  apply andb_true_iff in H as [H _]. now apply andb_true_iff in H as [H _].
Qed.

Lemma follow_endOfNumber w tail :
  whitespace w = true -> follow tail = true -> endOfNumber (w ++ tail) = true.
Proof.
  intros Hw Hf. destruct w as [|c w]; cbn [app endOfNumber].
  - destruct tail as [|c tail]; [reflexivity|]. chars.
  - unfold whitespace in Hw. cbn [forallb] in Hw. apply andb_true_iff in Hw as [-> _].
    apply orb_true_r.
Qed.

Lemma parseConcatenatedString_none text n st :
  follow (rest text st) = true ->
  parseConcatenatedString text (S (S n)) st = Ret false st.
Proof.
  intros Hf. cbn [parseConcatenatedString concatenationLoop].
  rewrite (parseWSC_none _ _ (follow_not_blank _ Hf)).
  rewrite cur_rest, (follow_not_plus _ Hf). reflexivity.
Qed.

Lemma stringLoop_kept text body :
  stringChars body ->
  forall st n iBefore oBefore str w tail,
    rest text st = body ++ codeDoubleQuote :: w ++ tail ->
    whitespace w = true -> follow tail = true -> length body + 3 <= n ->
    stringLoop text n false false isDoubleQuote iBefore oBefore str st
    = Ret true (forward (length body + 1 + length w) (str ++ body ++ dquote ++ w) st).
Proof.
  induction 1 as [|c s Hq Hb Hc Hs IH|e s He Hs IH|h1 h2 h3 h4 s Hh Hs IH];
    intros st n iB oB str w tail Hr Hw Hf Hn;
    (destruct n as [|n]; [lia|]); cbn [length] in Hn;
    cbn [stringLoop]; rewrite (atEnd_cons _ _ _ _ Hr), (cur_cons _ _ _ _ Hr); cbn [app] in Hr.
  - (* the closing quote *)
    change (test isDoubleQuote (Some codeDoubleQuote)) with true. cbv iota.
    rewrite advance_forward, emit_forward, forward_forward.
    set (st1 := forward (1 + 0) ([] ++ str ++ dquote) st).
    assert (Hr1 : rest text st1 = w ++ tail).
    { unfold st1. now rewrite rest_forward, Hr. }
    rewrite (parseWSC_copy _ _ _ _ Hr1 Hw (follow_not_blank _ Hf)).
    assert (Hr2 : rest text (copy w st1) = tail) by now apply rest_copy.
    cbn [orb]. rewrite (follow_end_or_delimiter _ _ _ Hr2 Hf). cbn [orb].
    destruct n as [|[|n]]; try lia.
    rewrite parseConcatenatedString_none by now rewrite Hr2.
    cbn [bind]. f_equal. unfold st1. same_state.
  - (* a character as it is *)
    change (test isDoubleQuote (Some c)) with (c =? codeDoubleQuote)%N.
    rewrite Hq. cbn [andb].
    unfold is_code. cbn [test]. rewrite (N.eqb_sym codeBackslash), Hb.
    replace (isControlCharacter c) with false by (symmetry; chars).
    replace (isValidStringCharacter c) with true by (symmetry; chars).
    cbn [negb]. rewrite advance_forward.
    rewrite (IH _ n iB oB _ w tail); auto; [|now rewrite rest_forward, Hr|lia].
    f_equal. same_state.
  - (* an escape *)
    replace (test isDoubleQuote (Some codeBackslash)) with false by reflexivity.
    cbn [andb]. replace (is_code codeBackslash (Some codeBackslash)) with true by reflexivity.
    rewrite charCodeAt_ahead, Hr. cbn [nth_error test]. rewrite He.
    rewrite slice_ahead, Hr, advance_forward. cbn [firstn].
    rewrite (IH _ n iB oB _ w tail); auto; [|now rewrite rest_forward, Hr|lia].
    f_equal. same_state.
  - (* a unicode escape *)
    replace (test isDoubleQuote (Some codeBackslash)) with false by reflexivity.
    cbn [andb]. replace (is_code codeBackslash (Some codeBackslash)) with true by reflexivity.
    rewrite charCodeAt_ahead, Hr. cbn [nth_error].
    replace (test isEscapeCharacter (Some codeLowercaseU)) with false by reflexivity.
    replace (is_code codeLowercaseU (Some codeLowercaseU)) with true by reflexivity.
    assert (Hx : hexRun text st = 4).
    { unfold hexRun. change (skipn (i st + 2) text) with (rest text (forward 2 [] st)).
      rewrite rest_forward, Hr.
      cbn [skipn firstn span].
      apply andb_true_iff in Hh as [Hh ->]. apply andb_true_iff in Hh as [Hh ->].
      apply andb_true_iff in Hh as [-> ->]. reflexivity. }
    rewrite Hx. cbn [Nat.add Nat.eqb].
    rewrite slice_ahead, Hr, advance_forward. cbn [firstn].
    rewrite (IH _ n iB oB _ w tail); auto; [|now rewrite rest_forward, Hr|lia].
    f_equal. same_state.
Qed.

Lemma parseString_kept text body st n w tail :
  stringChars body ->
  rest text st = quoted body ++ w ++ tail ->
  whitespace w = true -> follow tail = true -> length body + 4 <= n ->
  parseString text n false st = Ret true (copy (quoted body ++ w) st).
Proof.
  intros Hb Hr Hw Hf Hn. destruct n as [|n]; [lia|].
  unfold quoted, dquote in Hr. cbn [app] in Hr. rewrite <- app_assoc in Hr. cbn [app] in Hr.
  cbn [parseString]. rewrite (cur_cons _ _ _ _ Hr).
  replace (is_code codeBackslash (Some codeDoubleQuote)) with false by reflexivity.
  cbv iota. rewrite (cur_cons _ _ _ _ Hr).
  replace (test isQuote (Some codeDoubleQuote)) with true by reflexivity.
  replace (endQuoteOf (Some codeDoubleQuote)) with isDoubleQuote by reflexivity.
  rewrite advance_forward.
  rewrite (stringLoop_kept text body Hb _ n _ _ dquote w tail); auto;
    [|now rewrite rest_forward, Hr|lia].
  f_equal. unfold quoted, dquote. same_state.
Qed.

Lemma stringBody_inv n :
  forall l r, length l <= n -> StrictJSON.stringBody l = Some r ->
  exists body, l = body ++ codeDoubleQuote :: r /\ stringChars body.
Proof.
  induction n as [|n IH]; intros l r Hn; destruct l as [|c l]; try discriminate;
    cbn [length] in Hn; [lia|].
  cbn [StrictJSON.stringBody].
  destruct (c =? codeDoubleQuote)%N eqn:Eq.
  { intros [= <-]. apply N.eqb_eq in Eq. subst c. exists []. split; [reflexivity|constructor]. }
  destruct (c =? codeBackslash)%N eqn:Eb.
  - apply N.eqb_eq in Eb. subst c. destruct l as [|e l]; [discriminate|].
    destruct (isEscapeCharacter e) eqn:Ee.
    + intros H. cbn [length] in Hn. destruct (IH l r ltac:(lia) H) as [body [-> Hb]].
      exists (codeBackslash :: e :: body). split; [reflexivity|now constructor].
    + destruct (e =? codeLowercaseU)%N eqn:Eu; [|discriminate].
      apply N.eqb_eq in Eu. subst e.
      destruct l as [|h1 [|h2 [|h3 [|h4 l]]]]; try discriminate.
      destruct (isHex h1 && isHex h2 && isHex h3 && isHex h4) eqn:Eh; [|discriminate].
      intros H. cbn [length] in Hn. destruct (IH l r ltac:(lia) H) as [body [-> Hb]].
      exists (codeBackslash :: codeLowercaseU :: h1 :: h2 :: h3 :: h4 :: body).
      split; [reflexivity|now constructor].
  - destruct (c <? 32)%N eqn:Ec; [discriminate|].
    intros H. destruct (IH l r ltac:(lia) H) as [body [-> Hb]].
    exists (c :: body). split; [reflexivity|now constructor].
Qed.

(** *** Keywords *)

Lemma parseNumber_letter text st c r :
  rest text st = c :: r ->
  (c =? 0x74)%N || (c =? 0x66)%N || (c =? 0x6e)%N = true ->
  parseNumber text st = (false, st).
Proof.
  intros Hr Hc. unfold parseNumber.
  rewrite numberSign_none by (rewrite (cur_cons _ _ _ _ Hr); chars).
  cbn [andThen]. unfold skipDigits. rewrite Hr. cbn [span].
  replace (isDigit c) with false by (symmetry; chars). rewrite advance_0.
  rewrite numberFraction_none by (rewrite (cur_cons _ _ _ _ Hr); chars).
  cbn [andThen].
  rewrite numberExponent_none by (rewrite (cur_cons _ _ _ _ Hr); cbn [test]; chars).
  unfold numberEnd. rewrite atEndOfNumber_rest, Hr. cbn [endOfNumber].
  replace (isDelimiter c || isWhitespace c) with false by (symmetry; chars).
  cbn [negb]. now rewrite set_i_same.
Qed.

Lemma parseKeyword_copy text st name r :
  rest text st = name ++ r -> parseKeyword text name name st = (true, copy name st).
Proof.
  intros Hr. unfold parseKeyword. rewrite slice_ahead, Hr, firstn_length_app.
  assert (H : forall l, eqb_jsstring l l = true)
    by (induction l as [|x l IH]; cbn; [reflexivity|now rewrite N.eqb_refl]).
  rewrite H, emit_forward, advance_forward. f_equal. same_state.
Qed.

Lemma parseKeywords_kept text st name r :
  name = lit "true" \/ name = lit "false" \/ name = lit "null" ->
  rest text st = name ++ r -> parseKeywords text st = (true, copy name st).
Proof.
  intros Hn Hr. unfold parseKeywords.
  destruct Hn as [->|[->| ->]].
  - now rewrite (parseKeyword_copy _ _ _ _ Hr).
  - replace (parseKeyword text (lit "true") (lit "true") st) with (false, st).
    + cbn [orElse]. now rewrite (parseKeyword_copy _ _ _ _ Hr).
    + unfold parseKeyword. now rewrite slice_ahead, Hr.
  - replace (parseKeyword text (lit "true") (lit "true") st) with (false, st).
    + cbn [orElse]. replace (parseKeyword text (lit "false") (lit "false") st) with (false, st).
      * cbn [orElse]. now rewrite (parseKeyword_copy _ _ _ _ Hr).
      * unfold parseKeyword. now rewrite slice_ahead, Hr.
    + unfold parseKeyword. now rewrite slice_ahead, Hr.
Qed.

(** *** [parseValue] around one alternative *)

Lemma parseValue_chain text n st :
  parseValue text (S n) st
  = let '(_, st1) := parseWhitespaceAndSkipComments text st in
    let* (processed, st2) := valueChain text n st1 in
    let '(_, st3) := parseWhitespaceAndSkipComments text st2 in
    Ret processed st3.
Proof. reflexivity. Qed.

Lemma valueStart_not_blank c : isValueStart c = true -> blank c = false.
Proof. intros H. chars. Qed.

Lemma parseValue_frame text n st w0 v w1 w2 tail :
  rest text st = w0 ++ v ++ w1 ++ w2 ++ tail ->
  whitespace w0 = true -> test isValueStart (hd_error v) = true ->
  whitespace w2 = true -> follow tail = true ->
  valueChain text n (copy w0 st) = Ret true (copy (v ++ w1) (copy w0 st)) ->
  parseValue text (S n) st = Ret true (copy (w0 ++ v ++ w1 ++ w2) st).
Proof.
  intros Hr Hw0 Hv Hw2 Hf Hc. rewrite parseValue_chain.
  rewrite (parseWSC_copy text st w0 (v ++ w1 ++ w2 ++ tail) Hr Hw0).
  2: { destruct v as [|c v]; [discriminate|]. cbn [app hd_error test] in *.
       now apply valueStart_not_blank. }
  rewrite Hc. cbn [bind].
  assert (Hr2 : rest text (copy (v ++ w1) (copy w0 st)) = w2 ++ tail).
  { apply rest_copy. rewrite <- app_assoc. now apply rest_copy. }
  rewrite (parseWSC_copy _ _ w2 tail Hr2 Hw2 (follow_not_blank _ Hf)).
  f_equal. rewrite !copy_copy. now rewrite <- !app_assoc.
Qed.

Section Chain.

Variable text : jsstring.
Variable n : nat.
Variable st st' : State.

Lemma chain_object : parseObject text n st = Ret true st' -> valueChain text n st = Ret true st'.
Proof. intros H. unfold valueChain. now rewrite H. Qed.

Lemma chain_array :
  is_code codeOpeningBrace (cur text st) = false ->
  parseArray text (S n) st = Ret true st' -> valueChain text (S n) st = Ret true st'.
Proof.
  intros H1 H. unfold valueChain. rewrite (parseObject_other _ _ _ H1). cbn [orElseM bind].
  now rewrite H.
Qed.

Lemma chain_string :
  is_code codeOpeningBrace (cur text st) = false ->
  is_code codeOpeningBracket (cur text st) = false ->
  parseString text (S n) false st = Ret true st' -> valueChain text (S n) st = Ret true st'.
Proof.
  intros H1 H2 H. unfold valueChain.
  rewrite (parseObject_other _ _ _ H1). cbn [orElseM bind].
  rewrite (parseArray_other _ _ _ H2). cbn [orElseM bind]. now rewrite H.
Qed.

Lemma chain_number :
  is_code codeOpeningBrace (cur text st) = false ->
  is_code codeOpeningBracket (cur text st) = false ->
  is_code codeBackslash (cur text st) = false ->
  test isQuote (cur text st) = false ->
  parseNumber text st = (true, st') -> valueChain text (S n) st = Ret true st'.
Proof.
  intros H1 H2 H3 H4 H. unfold valueChain.
  rewrite (parseObject_other _ _ _ H1). cbn [orElseM bind].
  rewrite (parseArray_other _ _ _ H2). cbn [orElseM bind].
  rewrite (parseString_other _ _ _ _ H3 H4). cbn [orElseM bind].
  now rewrite H.
Qed.

Lemma chain_keywords :
  is_code codeOpeningBrace (cur text st) = false ->
  is_code codeOpeningBracket (cur text st) = false ->
  is_code codeBackslash (cur text st) = false ->
  test isQuote (cur text st) = false ->
  parseNumber text st = (false, st) ->
  parseKeywords text st = (true, st') -> valueChain text (S n) st = Ret true st'.
Proof.
  intros H1 H2 H3 H4 H5 H. unfold valueChain.
  rewrite (parseObject_other _ _ _ H1). cbn [orElseM bind].
  rewrite (parseArray_other _ _ _ H2). cbn [orElseM bind].
  rewrite (parseString_other _ _ _ _ H3 H4). cbn [orElseM bind].
  rewrite H5. cbn [lift fst snd orElseM bind]. now rewrite H.
Qed.

End Chain.

(** *** The values without parts *)

Lemma kept_string body : stringChars body -> valueText (quoted body).
Proof.
  intros Hb. split; [|split].
  - exists (length body + 6). intros text st w0 w tail m Hr Hw0 Hw Hf Hm.
    destruct m as [|[|n]]; try lia.
    replace (w0 ++ quoted body ++ w) with (w0 ++ quoted body ++ w ++ []) 
      by now rewrite app_nil_r.
    assert (Hr1 : rest text (copy w0 st) = quoted body ++ w ++ tail) by now apply rest_copy.
    apply (parseValue_frame text (S n) st w0 (quoted body) w [] tail); auto.
    apply chain_string; try (rewrite (cur_cons _ _ _ _ Hr1); reflexivity).
    apply (parseString_kept text body _ (S n) w tail Hb Hr1 Hw Hf). lia.
  - exists codeDoubleQuote, (body ++ dquote). split; reflexivity.
  - exists (dquote ++ body), codeDoubleQuote. split; [|reflexivity].
    unfold quoted, dquote. now rewrite <- app_assoc.
Qed.

Lemma numberText_start num :
  numberText num -> exists c v', num = c :: v' /\ ((c =? codeMinus)%N || isDigit c = true).
Proof.
  intros [sign [int [frac [exp [-> [Hs [Hi [Hf He]]]]]]]].
  destruct Hs as [->| ->].
  - destruct Hi as [->|[d [ds [-> [Hd _]]]]]; cbn [app].
    + eexists _, _. split; [reflexivity|reflexivity].
    + eexists _, _. split; [reflexivity|]. rewrite Hd. apply orb_true_r.
  - eexists _, _. split; [reflexivity|reflexivity].
Qed.

Lemma digits_last d ds :
  forallb isDigit (d :: ds) = true -> exists l c, d :: ds = l ++ [c] /\ isDigit c = true.
Proof.
  revert d. induction ds as [|x ds IH]; intros d H; cbn [forallb] in H.
  - exists [], d. split; [reflexivity|]. now apply andb_true_iff in H as [H _].
  - apply andb_true_iff in H as [_ H]. destruct (IH x H) as [l [c [E Hc]]].
    exists (d :: l), c. split; [cbn [app]; now rewrite <- E|exact Hc].
Qed.

Lemma numberText_end num :
  numberText num -> exists v' c, num = v' ++ [c] /\ isDigit c = true.
Proof.
  intros [sign [int [frac [exp [-> [Hs [Hi [Hf He]]]]]]]].
  destruct He as [->|[e [sg [d [ds [-> [_ [_ Hd]]]]]]]].
  - rewrite app_nil_r. destruct Hf as [->|[d [ds [-> Hd]]]].
    + rewrite app_nil_r. destruct (integerPart_digits _ Hi) as [Hne Hd].
      destruct int as [|d ds]; [congruence|].
      destruct (digits_last d ds Hd) as [l [c [-> Hc]]].
      exists (sign ++ l), c. split; [lists|exact Hc].
    + destruct (digits_last d ds Hd) as [l [c [-> Hc]]].
      exists (sign ++ int ++ codeDot :: l), c. split; [lists|exact Hc].
  - destruct (digits_last d ds Hd) as [l [c [-> Hc]]].
    exists (sign ++ int ++ frac ++ e :: sg ++ l), c. split; [lists|exact Hc].
Qed.

Lemma kept_number num : numberText num -> valueText num.
Proof.
  intros Hn. destruct (numberText_start _ Hn) as [c [v' [E Hc]]].
  split; [|split].
  - exists 2. intros text st w0 w tail m Hr Hw0 Hw Hf Hm.
    destruct m as [|[|n]]; try lia.
    assert (Hr1 : rest text (copy w0 st) = num ++ w ++ tail) by now apply rest_copy.
    replace (w0 ++ num ++ w) with (w0 ++ num ++ [] ++ w) by reflexivity.
    apply (parseValue_frame text (S n) st w0 num [] w tail); auto.
    { rewrite E. cbn [hd_error test]. chars. }
    rewrite app_nil_r.
    assert (Hcur : cur text (copy w0 st) = Some c) by (rewrite cur_rest, Hr1, E; reflexivity).
    apply chain_number; try (rewrite Hcur; chars).
    apply (parseNumber_kept text _ num (w ++ tail) Hn Hr1).
    now apply follow_endOfNumber.
  - exists c, v'. split; [exact E|]. chars.
  - destruct (numberText_end _ Hn) as [l [d [-> Hd]]]. exists l, d. split; [reflexivity|]. chars.
Qed.

Lemma kept_keyword name :
  name = lit "true" \/ name = lit "false" \/ name = lit "null" -> valueText name.
Proof.
  intros Hn. split; [|split].
  - exists 2. intros text st w0 w tail m Hr Hw0 Hw Hf Hm.
    destruct m as [|[|n]]; try lia.
    assert (Hr1 : rest text (copy w0 st) = name ++ w ++ tail) by now apply rest_copy.
    replace (w0 ++ name ++ w) with (w0 ++ name ++ [] ++ w) by reflexivity.
    apply (parseValue_frame text (S n) st w0 name [] w tail); auto.
    { destruct Hn as [->|[->| ->]]; reflexivity. }
    rewrite app_nil_r.
    assert (Hcur : exists c r, rest text (copy w0 st) = c :: r
                   /\ (c =? 0x74)%N || (c =? 0x66)%N || (c =? 0x6e)%N = true).
    { rewrite Hr1. destruct Hn as [->|[->| ->]]; eexists _, _; split; reflexivity. }
    destruct Hcur as [c [r [Hrc Hc]]].
    apply chain_keywords; try (rewrite (cur_cons _ _ _ _ Hrc); chars).
    + apply (parseNumber_letter _ _ _ _ Hrc Hc).
    + apply (parseKeywords_kept _ _ _ _ Hn Hr1).
  - destruct Hn as [->|[->| ->]]; eexists _, _; split; reflexivity.
  - destruct Hn as [->|[->| ->]].
    + exists (lit "tru"), 0x65%N. split; reflexivity.
    + exists (lit "fals"), 0x65%N. split; reflexivity.
    + exists (lit "nul"), 0x6c%N. split; reflexivity.
Qed.

(** *** Arrays *)

Lemma skipEllipsis_ws text st w l :
  rest text st = w ++ l -> whitespace w = true -> test isValueStart (hd_error l) = true ->
  skipEllipsis text st = (false, copy w st).
Proof.
  intros Hr Hw Hv. unfold skipEllipsis.
  destruct l as [|c l]; [discriminate|]. cbn [hd_error test] in Hv.
  rewrite (parseWSC_copy text st w (c :: l) Hr Hw) by (now apply valueStart_not_blank).
  rewrite (cur_cons text (copy w st) c l) by (now apply rest_copy).
  replace (is_code codeDot (Some c)) with false by (symmetry; chars). reflexivity.
Qed.

Lemma separator_head initial pre l c :
  separator initial pre -> test isValueStart (hd_error l) = true ->
  hd_error (pre ++ l) = Some c -> (c =? codeComma)%N || isValueStart c = true.
Proof.
  intros Hs Hv Hc. destruct initial; cbn [separator] in Hs.
  - subst pre. cbn [app] in Hc. rewrite Hc in Hv. cbn [test] in Hv. rewrite Hv. apply orb_true_r.
  - destruct Hs as [w [-> _]]. cbn in Hc. injection Hc as <-. reflexivity.
Qed.

Lemma comma_read text initial pre l st :
  rest text st = pre ++ l -> separator initial pre ->
  test isValueStart (hd_error l) = true ->
  exists w, whitespace w = true
    /\ rest text (if negb initial then
                    let '(processedComma, st) := parseCharacter text codeComma st in
                    if negb processedComma
                    then set_output (insertBeforeLastWhitespace (output st) comma) st
                    else st
                  else st) = w ++ l
    /\ copy w (if negb initial then
                 let '(processedComma, st) := parseCharacter text codeComma st in
                 if negb processedComma
                 then set_output (insertBeforeLastWhitespace (output st) comma) st
                 else st
               else st) = copy pre st.
Proof.
  intros Hr Hs Hv. destruct initial; cbn [separator negb] in *.
  - subst pre. exists []. repeat split; auto.
  - destruct Hs as [w [-> Hw]]. exists w. unfold comma in *. cbn [app] in Hr.
    rewrite (parseCharacter_copy _ _ _ _ Hr). cbn [negb].
    split; [exact Hw|]. split.
    + apply (rest_copy text [codeComma]). exact Hr.
    + now rewrite copy_copy.
Qed.

Lemma arrayLoop_step text m initial st pre l :
  rest text st = pre ++ l -> separator initial pre ->
  test isValueStart (hd_error l) = true ->
  arrayLoop text (S m) initial st
  = let* (processedValue, st) := parseValue text m (copy pre st) in
    if negb processedValue
    then Ret tt (set_output (stripLastOccurrence (output st) codeComma false) st)
    else arrayLoop text m false st.
Proof.
  intros Hr Hs Hv. cbn [arrayLoop].
  assert (Hh : exists c, hd_error (pre ++ l) = Some c).
  { destruct (pre ++ l) eqn:E; [|eexists; reflexivity].
    apply app_eq_nil in E as [_ ->]. discriminate. }
  destruct Hh as [c Hc]. pose proof (separator_head _ _ _ _ Hs Hv Hc) as Hk.
  rewrite atEnd_rest, cur_rest, Hr. destruct (pre ++ l) as [|c' pl] eqn:E; [discriminate|].
  cbn [hd_error] in Hc |- *. injection Hc as ->.
  replace (is_code codeClosingBracket (Some c)) with false by (symmetry; chars).
  cbn [negb andb]. rewrite <- E in Hr.
  destruct (comma_read text initial pre l st Hr Hs Hv) as [w [Hw [Hr1 Hc1]]].
  rewrite (skipEllipsis_ws text _ w l Hr1 Hw Hv). now rewrite Hc1.
Qed.

Lemma arrayLoop_stop text m initial st tail :
  rest text st = codeClosingBracket :: tail -> arrayLoop text (S m) initial st = Ret tt st.
Proof.
  intros Hr. cbn [arrayLoop]. rewrite (cur_cons _ _ _ _ Hr).
  replace (is_code codeClosingBracket (Some codeClosingBracket)) with true by reflexivity.
  now rewrite andb_false_r.
Qed.

Lemma valueText_head v : valueText v -> test isValueStart (hd_error v) = true.
Proof. intros [_ [[c [v' [-> Hc]]] _]]. exact Hc. Qed.

Lemma keptElements_last v w1 :
  valueText v -> whitespace w1 = true -> keptElements (v ++ w1).
Proof.
  intros Hv Hw. pose proof (valueText_head _ Hv) as Hh. destruct Hv as [[k Hk] _].
  exists (S (S k)). intros text st tail m initial pre Hr Hs Hm.
  destruct m as [|[|m]]; try lia.
  rewrite <- !app_assoc in Hr.
  rewrite (arrayLoop_step text (S m) initial st pre _ Hr Hs)
    by (destruct v; [discriminate|exact Hh]).
  assert (Hr1 : rest text (copy pre st) = [] ++ v ++ w1 ++ rbracket ++ tail)
    by now apply rest_copy.
  rewrite (Hk text _ [] w1 (rbracket ++ tail) (S m) Hr1); auto; [|lia].
  cbn [bind negb app].
  rewrite (arrayLoop_stop text m false _ tail).
  - now rewrite copy_copy.
  - apply (rest_copy text (v ++ w1)). now rewrite <- app_assoc.
Qed.

Lemma keptElements_cons v w1 w2 body :
  valueText v -> whitespace w1 = true -> whitespace w2 = true ->
  keptElements body -> test isValueStart (hd_error body) = true ->
  keptElements (v ++ w1 ++ comma ++ w2 ++ body).
Proof.
  intros Hv Hw1 Hw2 [k2 Hk2] Hb. pose proof (valueText_head _ Hv) as Hh.
  destruct Hv as [[k Hk] _].
  exists (S (k + k2)). intros text st tail m initial pre Hr Hs Hm.
  destruct m as [|m]; try lia.
  rewrite <- !app_assoc in Hr.
  rewrite (arrayLoop_step text m initial st pre _ Hr Hs)
    by (destruct v; [discriminate|exact Hh]).
  assert (Hr1 : rest text (copy pre st)
                = [] ++ v ++ w1 ++ comma ++ w2 ++ body ++ rbracket ++ tail)
    by now apply rest_copy.
  rewrite (Hk text _ [] w1 _ m Hr1); auto; [|lia].
  cbn [bind negb app].
  assert (Hr2 : rest text (copy (v ++ w1) (copy pre st))
                = (comma ++ w2) ++ body ++ rbracket ++ tail).
  { apply (rest_copy text (v ++ w1)). now rewrite <- !app_assoc. }
  rewrite (Hk2 text _ tail m false (comma ++ w2) Hr2); [| |lia].
  - f_equal. rewrite !copy_copy. f_equal. lists.
  - exists w2. now split.
Qed.

Lemma parseArray_kept text n st w body tail :
  rest text st = lbracket ++ w ++ body ++ rbracket ++ tail ->
  whitespace w = true ->
  test isValueStart (hd_error (body ++ rbracket)) || (length body =? 0) = true ->
  arrayLoop text n true (copy (lbracket ++ w) st) = Ret tt (copy (lbracket ++ w ++ body) st) ->
  parseArray text (S n) st = Ret true (copy (lbracket ++ w ++ body ++ rbracket) st).
Proof.
  intros Hr Hw Hb Hl. cbn [parseArray]. unfold lbracket in Hr. cbn [app] in Hr.
  rewrite (cur_cons _ _ _ _ Hr).
  replace (is_code codeOpeningBracket (Some codeOpeningBracket)) with true by reflexivity.
  replace (advance Array 1 (emit lbracket st)) with (copy lbracket st)
    by (rewrite emit_forward, advance_forward; same_state).
  assert (Hr1 : rest text (copy lbracket st) = w ++ body ++ rbracket ++ tail)
    by now apply (rest_copy text lbracket).
  assert (Hnb : exists c, hd_error (body ++ rbracket ++ tail) = Some c
                /\ blank c = false /\ (c =? codeComma)%N = false).
  { destruct body as [|c body]; cbn [app hd_error length Nat.eqb test orb] in *.
    - exists codeClosingBracket. repeat split.
    - exists c. rewrite orb_false_r in Hb. split; [reflexivity|]. split; chars. }
  destruct Hnb as [c [Hc [Hc1 Hc2]]].
  rewrite (parseWSC_copy text _ w _ Hr1 Hw) by (rewrite Hc; exact Hc1).
  rewrite copy_copy.
  assert (Hr2 : rest text (copy (lbracket ++ w) st) = body ++ rbracket ++ tail).
  { apply rest_copy. now rewrite <- app_assoc. }
  rewrite skipCharacter_other.
  2: { rewrite cur_rest, Hr2, Hc. unfold is_code. cbn [test]. now rewrite N.eqb_sym. }
  rewrite Hl. cbn [bind].
  assert (Hr3 : rest text (copy (lbracket ++ w ++ body) st) = rbracket ++ tail).
  { apply rest_copy. now rewrite <- !app_assoc. }
  rewrite (cur_cons _ _ _ _ Hr3).
  replace (is_code codeClosingBracket (Some codeClosingBracket)) with true by reflexivity.
  rewrite emit_forward, advance_forward. f_equal. same_state.
Qed.

Lemma kept_array w body :
  whitespace w = true ->
  body = [] \/ (keptElements body /\ test isValueStart (hd_error body) = true) ->
  valueText (lbracket ++ w ++ body ++ rbracket).
Proof.
  intros Hw Hb. split; [|split].
  - assert (Hk : exists k, forall text st tail m,
               rest text st = body ++ rbracket ++ tail -> k <= m ->
               arrayLoop text m true st = Ret tt (copy body st)).
    { destruct Hb as [->|[[k Hk] _]].
      - exists 1. intros text st tail m Hr Hm. destruct m; [lia|].
        rewrite copy_nil. apply (arrayLoop_stop text m true st tail Hr).
      - exists k. intros text st tail m Hr Hm.
        apply (Hk text st tail m true [] Hr); [reflexivity|exact Hm]. }
    destruct Hk as [k Hk].
    exists (S (S (S k))). intros text st w0 w' tail m Hr Hw0 Hw' Hf Hm.
    destruct m as [|[|n]]; try lia.
    set (v := lbracket ++ w ++ body ++ rbracket) in *.
    assert (Hr1 : rest text (copy w0 st) = v ++ w' ++ tail) by now apply rest_copy.
    replace (w0 ++ v ++ w') with (w0 ++ v ++ [] ++ w') by reflexivity.
    apply (parseValue_frame text (S n) st w0 v [] w' tail); auto.
    rewrite app_nil_r. apply chain_array; [now rewrite (cur_cons _ _ _ _ Hr1)|].
    unfold v in *. rewrite <- !app_assoc in Hr1.
    apply (parseArray_kept text n _ w body (w' ++ tail) Hr1 Hw).
    + destruct Hb as [->|[_ Hb]]; [reflexivity|].
      destruct body; [discriminate|]. cbn [app hd_error] in *. now rewrite Hb.
    + assert (Hr2 : rest text (copy (lbracket ++ w) (copy w0 st))
                    = body ++ rbracket ++ w' ++ tail).
      { apply rest_copy. now rewrite <- app_assoc. }
      rewrite (Hk text _ _ n Hr2) by lia. f_equal. rewrite !copy_copy. f_equal; lists.
  - exists codeOpeningBracket, (w ++ body ++ rbracket). split; reflexivity.
  - exists (lbracket ++ w ++ body), codeClosingBracket. split; [lists|reflexivity].
Qed.

(** *** Objects *)

Lemma object_comma_read text initial pre l st :
  rest text st = pre ++ l -> separator initial pre ->
  test isValueStart (hd_error l) = true ->
  (if negb initial then
     let '(processedComma, st) := parseCharacter text codeComma st in
     snd (parseWhitespaceAndSkipComments text
            (if negb processedComma
             then set_output (insertBeforeLastWhitespace (output st) comma) st
             else st))
   else st) = copy pre st.
Proof.
  intros Hr Hs Hv. destruct initial; cbn [separator negb] in *.
  - subst pre. now rewrite copy_nil.
  - destruct Hs as [w [-> Hw]]. unfold comma in *. cbn [app] in Hr.
    rewrite (parseCharacter_copy _ _ _ _ Hr). cbn [negb].
    assert (Hr1 : rest text (copy [codeComma] st) = w ++ l)
      by (apply (rest_copy text [codeComma]); exact Hr).
    rewrite (parseWSC_copy text _ w l Hr1 Hw).
    + cbn [snd]. now rewrite copy_copy.
    + destruct l as [|c l]; [discriminate|]. cbn [hd_error test] in *.
      now apply valueStart_not_blank.
Qed.

Lemma objectLoop_step text m initial st pre key wk wc v wv tail k :
  rest text st = pre ++ memberText key wk wc v wv ++ tail ->
  separator initial pre -> stringChars key ->
  whitespace wk = true -> whitespace wc = true -> whitespace wv = true ->
  test isValueStart (hd_error v) = true ->
  (forall text st w0 w tail m,
     rest text st = w0 ++ v ++ w ++ tail ->
     whitespace w0 = true -> whitespace w = true -> follow tail = true -> k <= m ->
     parseValue text m st = Ret true (copy (w0 ++ v ++ w) st)) ->
  follow tail = true -> k <= m -> length key + 4 <= m ->
  objectLoop text (S m) initial st
  = objectLoop text m false (copy (pre ++ memberText key wk wc v wv) st).
Proof.
  intros Hr Hs Hkey Hwk Hwc Hwv Hv Hk Hf Hkm Hm.
  unfold memberText in *. rewrite <- !app_assoc in Hr.
  assert (Hq : test isValueStart (hd_error (quoted key ++ wk ++ colon ++ wc ++ v ++ wv ++ tail))
               = true) by reflexivity.
  cbn [objectLoop].
  assert (Hh : exists c, hd_error (pre ++ quoted key ++ wk ++ colon ++ wc ++ v ++ wv ++ tail)
                         = Some c) by (destruct pre; eexists; reflexivity).
  destruct Hh as [c Hc]. pose proof (separator_head _ _ _ _ Hs Hq Hc) as Hcs.
  rewrite atEnd_rest, cur_rest, Hr.
  destruct (pre ++ quoted key ++ wk ++ colon ++ wc ++ v ++ wv ++ tail) as [|c' pl] eqn:E;
    [discriminate|].
  cbn [hd_error] in Hc |- *. injection Hc as ->.
  replace (is_code codeClosingBrace (Some c)) with false by (symmetry; chars).
  cbn [negb andb]. rewrite <- E in Hr. clear E pl Hcs c.
  rewrite (object_comma_read text initial pre _ st Hr Hs Hq).
  assert (Hr1 : rest text (copy pre st)
                = [] ++ quoted key ++ wk ++ colon ++ wc ++ v ++ wv ++ tail)
    by now apply rest_copy.
  rewrite (skipEllipsis_ws text _ [] _ Hr1) by auto. rewrite copy_nil. cbn [app] in Hr1.
  rewrite (parseString_kept text key _ m wk (colon ++ wc ++ v ++ wv ++ tail) Hkey Hr1)
    by (auto; try reflexivity; lia).
  cbn [orElseM bind negb].
  set (st1 := copy (quoted key ++ wk) (copy pre st)).
  assert (Hr2 : rest text st1 = colon ++ wc ++ v ++ wv ++ tail).
  { apply rest_copy. now rewrite <- !app_assoc. }
  rewrite (parseWSC_none text st1) by (now rewrite Hr2).
  unfold colon in Hr2. cbn [app] in Hr2.
  rewrite (parseCharacter_copy _ _ _ _ Hr2). cbn [negb bind].
  assert (Hr3 : rest text (copy [codeColon] st1) = wc ++ v ++ wv ++ tail)
    by (apply (rest_copy text [codeColon]); exact Hr2).
  rewrite (Hk text _ wc wv tail m Hr3); auto.
  cbn [bind negb]. f_equal. unfold st1. rewrite !copy_copy. f_equal. unfold colon. lists.
Qed.

Lemma objectLoop_stop text m initial st tail :
  rest text st = codeClosingBrace :: tail -> objectLoop text (S m) initial st = Ret tt st.
Proof.
  intros Hr. cbn [objectLoop]. rewrite (cur_cons _ _ _ _ Hr).
  replace (is_code codeClosingBrace (Some codeClosingBrace)) with true by reflexivity.
  now rewrite andb_false_r.
Qed.

Lemma follow_closing c tail :
  (c =? codeClosingBrace)%N || (c =? codeClosingBracket)%N || (c =? codeComma)%N
  || (c =? codeColon)%N = true ->
  follow (c :: tail) = true.
Proof. intros H. chars. Qed.

Lemma keptMembers_last key wk wc v wv :
  stringChars key -> whitespace wk = true -> whitespace wc = true ->
  valueText v -> whitespace wv = true ->
  keptMembers (memberText key wk wc v wv).
Proof.
  intros Hkey Hwk Hwc Hv Hwv. pose proof (valueText_head _ Hv) as Hh.
  destruct Hv as [[k Hk] _].
  exists (S (S (k + length key + 4))). intros text st tail m initial pre Hr Hs Hm.
  destruct m as [|[|m]]; try lia.
  rewrite (objectLoop_step text (S m) initial st pre key wk wc v wv (rbrace ++ tail) k);
    auto; try lia.
  apply objectLoop_stop with (tail := tail). apply rest_copy. now rewrite <- app_assoc.
Qed.

Lemma keptMembers_cons key wk wc v wv w2 body :
  stringChars key -> whitespace wk = true -> whitespace wc = true ->
  valueText v -> whitespace wv = true -> whitespace w2 = true ->
  keptMembers body -> test isValueStart (hd_error body) = true ->
  keptMembers (memberText key wk wc v wv ++ comma ++ w2 ++ body).
Proof.
  intros Hkey Hwk Hwc Hv Hwv Hw2 [k2 Hk2] Hb. pose proof (valueText_head _ Hv) as Hh.
  destruct Hv as [[k Hk] _].
  exists (S (k + k2 + length key + 4)). intros text st tail m initial pre Hr Hs Hm.
  destruct m as [|m]; try lia.
  rewrite <- !app_assoc in Hr.
  rewrite (objectLoop_step text m initial st pre key wk wc v wv
             (comma ++ w2 ++ body ++ rbrace ++ tail) k); auto; try lia.
  assert (Hr2 : rest text (copy (pre ++ memberText key wk wc v wv) st)
                = (comma ++ w2) ++ body ++ rbrace ++ tail).
  { apply rest_copy. now rewrite <- !app_assoc. }
  rewrite (Hk2 text _ tail m false (comma ++ w2) Hr2); [| |lia].
  - f_equal. rewrite !copy_copy. f_equal. lists.
  - exists w2. now split.
Qed.

Lemma parseObject_kept text n st w body tail :
  rest text st = lbrace ++ w ++ body ++ rbrace ++ tail ->
  whitespace w = true ->
  test isValueStart (hd_error (body ++ rbracket)) || (length body =? 0) = true ->
  objectLoop text n true (copy (lbrace ++ w) st) = Ret tt (copy (lbrace ++ w ++ body) st) ->
  parseObject text (S n) st = Ret true (copy (lbrace ++ w ++ body ++ rbrace) st).
Proof.
  intros Hr Hw Hb Hl. cbn [parseObject]. unfold lbrace in Hr. cbn [app] in Hr.
  rewrite (cur_cons _ _ _ _ Hr).
  replace (is_code codeOpeningBrace (Some codeOpeningBrace)) with true by reflexivity.
  replace (advance Object 1 (emit lbrace st)) with (copy lbrace st)
    by (rewrite emit_forward, advance_forward; same_state).
  assert (Hr1 : rest text (copy lbrace st) = w ++ body ++ rbrace ++ tail)
    by now apply (rest_copy text lbrace).
  assert (Hnb : exists c, hd_error (body ++ rbrace ++ tail) = Some c
                /\ blank c = false /\ (c =? codeComma)%N = false).
  { destruct body as [|c body]; cbn [app hd_error length Nat.eqb test orb] in *.
    - exists codeClosingBrace. repeat split.
    - exists c. rewrite orb_false_r in Hb. split; [reflexivity|]. split; chars. }
  destruct Hnb as [c [Hc [Hc1 Hc2]]].
  rewrite (parseWSC_copy text _ w _ Hr1 Hw) by (rewrite Hc; exact Hc1).
  rewrite copy_copy.
  assert (Hr2 : rest text (copy (lbrace ++ w) st) = body ++ rbrace ++ tail).
  { apply rest_copy. now rewrite <- app_assoc. }
  rewrite skipCharacter_other.
  2: { rewrite cur_rest, Hr2, Hc. unfold is_code. cbn [test]. now rewrite N.eqb_sym. }
  rewrite Hl. cbn [bind].
  assert (Hr3 : rest text (copy (lbrace ++ w ++ body) st) = rbrace ++ tail).
  { apply rest_copy. now rewrite <- !app_assoc. }
  rewrite (cur_cons _ _ _ _ Hr3).
  replace (is_code codeClosingBrace (Some codeClosingBrace)) with true by reflexivity.
  rewrite emit_forward, advance_forward. f_equal. same_state.
Qed.

Lemma kept_object w body :
  whitespace w = true ->
  body = [] \/ (keptMembers body /\ test isValueStart (hd_error body) = true) ->
  valueText (lbrace ++ w ++ body ++ rbrace).
Proof.
  intros Hw Hb. split; [|split].
  - assert (Hk : exists k, forall text st tail m,
               rest text st = body ++ rbrace ++ tail -> k <= m ->
               objectLoop text m true st = Ret tt (copy body st)).
    { destruct Hb as [->|[[k Hk] _]].
      - exists 1. intros text st tail m Hr Hm. destruct m; [lia|].
        rewrite copy_nil. apply (objectLoop_stop text m true st tail Hr).
      - exists k. intros text st tail m Hr Hm.
        apply (Hk text st tail m true [] Hr); [reflexivity|exact Hm]. }
    destruct Hk as [k Hk].
    exists (S (S (S k))). intros text st w0 w' tail m Hr Hw0 Hw' Hf Hm.
    destruct m as [|[|n]]; try lia.
    set (v := lbrace ++ w ++ body ++ rbrace) in *.
    assert (Hr1 : rest text (copy w0 st) = v ++ w' ++ tail) by now apply rest_copy.
    replace (w0 ++ v ++ w') with (w0 ++ v ++ [] ++ w') by reflexivity.
    apply (parseValue_frame text (S n) st w0 v [] w' tail); auto.
    rewrite app_nil_r. apply chain_object.
    unfold v in *. rewrite <- !app_assoc in Hr1.
    apply (parseObject_kept text n _ w body (w' ++ tail) Hr1 Hw).
    + destruct Hb as [->|[_ Hb]]; [reflexivity|].
      destruct body; [discriminate|]. cbn [app hd_error] in *. now rewrite Hb.
    + assert (Hr2 : rest text (copy (lbrace ++ w) (copy w0 st))
                    = body ++ rbrace ++ w' ++ tail).
      { apply rest_copy. now rewrite <- app_assoc. }
      rewrite (Hk text _ _ n Hr2) by lia. f_equal. rewrite !copy_copy. f_equal; lists.
  - exists codeOpeningBrace, (w ++ body ++ rbrace). split; reflexivity.
  - exists (lbrace ++ w ++ body), codeClosingBrace. split; [lists|reflexivity].
Qed.

(** *** What the strict parser accepts *)

Lemma skipWs_inv l :
  exists w, l = w ++ StrictJSON.skipWs l /\ whitespace w = true.
Proof.
  unfold StrictJSON.skipWs. destruct (span_split isWhitespace l) as [H1 H2].
  exists (firstn (span isWhitespace l) l). split; [exact H1|exact H2].
Qed.

Lemma eqb_jsstring_eq a b : eqb_jsstring a b = true -> a = b.
Proof.
  revert b. induction a as [|x a IH]; intros [|y b] H; try discriminate; [reflexivity|].
  cbn [eqb_jsstring] in H. apply andb_true_iff in H as [H1 H2].
  apply N.eqb_eq in H1. subst y. f_equal. now apply IH.
Qed.

Lemma literal_inv name l r : StrictJSON.literal name l = Some r -> l = name ++ r.
Proof.
  unfold StrictJSON.literal.
  destruct (eqb_jsstring (firstn (length name) l) name) eqn:E; [|discriminate].
  intros [= <-]. apply eqb_jsstring_eq in E. rewrite <- E at 1. now rewrite firstn_skipn.
Qed.

Lemma accepted_kept n :
  (forall l r, StrictJSON.value n l = Some r -> exists v, l = v ++ r /\ valueText v)
  /\ (forall l r, StrictJSON.elements n l = Some r ->
        exists body, l = body ++ rbracket ++ r /\ keptElements body
                     /\ test isValueStart (hd_error body) = true)
  /\ (forall l r, StrictJSON.members n l = Some r ->
        exists body, l = body ++ rbrace ++ r /\ keptMembers body
                     /\ test isValueStart (hd_error body) = true).
Proof.
  induction n as [|n [IHv [IHe IHm]]]; [repeat split; intros; discriminate|].
  split; [|split]; intros l r.
  - (* value *)
    cbn [StrictJSON.value]. destruct l as [|c l]; [discriminate|].
    destruct (c =? codeOpeningBrace)%N eqn:E1.
    { apply N.eqb_eq in E1. subst c. destruct (skipWs_inv l) as [w [Hl Hw]].
      destruct (StrictJSON.skipWs l) as [|d l2] eqn:E; [discriminate|].
      destruct (d =? codeClosingBrace)%N eqn:E2.
      - intros [= <-]. apply N.eqb_eq in E2. subst d.
        exists (lbrace ++ w ++ [] ++ rbrace). split; [rewrite Hl; lists|].
        apply kept_object; auto.
      - intros H. destruct (IHm _ _ H) as [body [Hb [Hk Hh]]].
        exists (lbrace ++ w ++ body ++ rbrace). split; [rewrite Hl, Hb; lists|].
        apply kept_object; auto. }
    destruct (c =? codeOpeningBracket)%N eqn:E2.
    { apply N.eqb_eq in E2. subst c. destruct (skipWs_inv l) as [w [Hl Hw]].
      destruct (StrictJSON.skipWs l) as [|d l2] eqn:E; [discriminate|].
      destruct (d =? codeClosingBracket)%N eqn:E3.
      - intros [= <-]. apply N.eqb_eq in E3. subst d.
        exists (lbracket ++ w ++ [] ++ rbracket). split; [rewrite Hl; lists|].
        apply kept_array; auto.
      - intros H. destruct (IHe _ _ H) as [body [Hb [Hk Hh]]].
        exists (lbracket ++ w ++ body ++ rbracket). split; [rewrite Hl, Hb; lists|].
        apply kept_array; auto. }
    destruct (c =? codeDoubleQuote)%N eqn:E3.
    { apply N.eqb_eq in E3. subst c. intros H.
      destruct (stringBody_inv (length l) l r (le_n _) H) as [body [-> Hb]].
      exists (quoted body). split; [unfold quoted, dquote; lists|]. now apply kept_string. }
    destruct ((c =? codeMinus)%N || isDigit c) eqn:E4.
    { intros H. destruct (number_inv _ _ H) as [num [-> Hn]].
      exists num. split; [reflexivity|]. now apply kept_number. }
    destruct (StrictJSON.literal (lit "true") (c :: l)) as [r1|] eqn:Et.
    { intros [= <-]. apply literal_inv in Et. exists (lit "true"). split; [exact Et|].
      apply kept_keyword. auto. }
    destruct (StrictJSON.literal (lit "false") (c :: l)) as [r1|] eqn:Ef.
    { intros [= <-]. apply literal_inv in Ef. exists (lit "false"). split; [exact Ef|].
      apply kept_keyword. auto. }
    intros H. apply literal_inv in H. exists (lit "null"). split; [exact H|].
    apply kept_keyword. auto.
  - (* elements *)
    cbn [StrictJSON.elements].
    destruct (StrictJSON.value n l) as [r1|] eqn:Ev; [|discriminate].
    destruct (IHv _ _ Ev) as [v [-> Hv]].
    destruct (skipWs_inv r1) as [w1 [Hr1 Hw1]].
    destruct (StrictJSON.skipWs r1) as [|c r'] eqn:E; [discriminate|].
    pose proof (valueText_head _ Hv) as Hh.
    assert (Hhd : forall x, test isValueStart (hd_error (v ++ x)) = true)
      by (intros x; destruct v; [discriminate|exact Hh]).
    destruct (c =? codeClosingBracket)%N eqn:E1.
    + intros [= <-]. apply N.eqb_eq in E1. subst c.
      exists (v ++ w1). split; [rewrite Hr1; lists|]. split; [|apply Hhd].
      now apply keptElements_last.
    + destruct (c =? codeComma)%N eqn:E2; [|discriminate].
      apply N.eqb_eq in E2. subst c. intros H.
      destruct (skipWs_inv r') as [w2 [Hr' Hw2]].
      destruct (IHe _ _ H) as [body [Hb [Hk Hbh]]].
      exists (v ++ w1 ++ comma ++ w2 ++ body).
      split; [rewrite Hr1, Hr', Hb; unfold comma; lists|]. split; [|apply Hhd].
      now apply keptElements_cons.
  - (* members *)
    cbn [StrictJSON.members]. destruct l as [|q l]; [discriminate|].
    destruct (q =? codeDoubleQuote)%N eqn:Eq; [|discriminate].
    apply N.eqb_eq in Eq. subst q.
    destruct (StrictJSON.stringBody l) as [r0|] eqn:Es; [|discriminate].
    destruct (stringBody_inv (length l) l r0 (le_n _) Es) as [key [-> Hkey]].
    destruct (skipWs_inv r0) as [wk [Hr0 Hwk]].
    destruct (StrictJSON.skipWs r0) as [|c r'] eqn:E; [discriminate|].
    destruct (c =? codeColon)%N eqn:Ec; [|discriminate].
    apply N.eqb_eq in Ec. subst c.
    destruct (skipWs_inv r') as [wc [Hr' Hwc]].
    destruct (StrictJSON.value n (StrictJSON.skipWs r')) as [r2|] eqn:Ev; [|discriminate].
    destruct (IHv _ _ Ev) as [v [Hlv Hv]].
    destruct (skipWs_inv r2) as [wv [Hr2 Hwv]].
    destruct (StrictJSON.skipWs r2) as [|d r3] eqn:E2; [discriminate|].
    destruct (d =? codeClosingBrace)%N eqn:E3.
    + intros [= <-]. apply N.eqb_eq in E3. subst d.
      exists (memberText key wk wc v wv).
      split; [rewrite Hr0, Hr', Hlv, Hr2; unfold memberText, quoted, dquote, colon; lists|].
      split; [|reflexivity]. now apply keptMembers_last.
    + destruct (d =? codeComma)%N eqn:E4; [|discriminate].
      apply N.eqb_eq in E4. subst d. intros H.
      destruct (skipWs_inv r3) as [w2 [Hr3 Hw2]].
      destruct (IHm _ _ H) as [body [Hb [Hk Hbh]]].
      exists (memberText key wk wc v wv ++ comma ++ w2 ++ body).
      split; [rewrite Hr0, Hr', Hlv, Hr2, Hr3, Hb;
              unfold memberText, quoted, dquote, colon, comma; lists|].
      split; [|reflexivity]. now apply keptMembers_cons.
Qed.

Lemma skipRedundantEnds_at_end text k st :
  cur text st = None -> skipRedundantEnds text k st = st.
Proof. intros H. destruct k; cbn [skipRedundantEnds]; [reflexivity|]. now rewrite H. Qed.

(** After a root value that ends the input, [jsonrepair] returns the
    output as it is. *)
Lemma run_root_only text n st :
  parseValue text n initialState = Ret true st -> rest text st = [] ->
  jsonrepair n text = Repaired (output st).
Proof.
  intros Hv Hr. unfold jsonrepair, run. rewrite Hv. cbn [bind negb].
  assert (Hc : cur text st = None) by (rewrite cur_rest, Hr; reflexivity).
  rewrite parseCharacter_other by (now rewrite Hc).
  rewrite Hc. cbn [test andb bind].
  rewrite (skipRedundantEnds_at_end _ _ _ Hc).
  now rewrite (atEnd_nil _ _ Hr).
Qed.

Lemma accepts_inv x :
  StrictJSON.accepts x = true ->
  exists w0 v w, x = w0 ++ v ++ w /\ whitespace w0 = true /\ whitespace w = true
                 /\ valueText v.
Proof.
  unfold StrictJSON.accepts. destruct (skipWs_inv x) as [w0 [Hx Hw0]].
  destruct (StrictJSON.value (S (length x)) (StrictJSON.skipWs x)) as [r|] eqn:E;
    [|discriminate].
  destruct (proj1 (accepted_kept _) _ _ E) as [v [Hv Hk]].
  destruct (skipWs_inv r) as [w [Hr Hw]].
  destruct (StrictJSON.skipWs r); [|discriminate]. intros _.
  exists w0, v, w. rewrite app_nil_r in Hr. subst r. rewrite Hv in Hx. auto.
Qed.

(** C4: a text that is valid JSON already, with no special whitespace in
    it, is repaired to itself.  (The second condition is not used: a valid
    JSON text has special whitespace inside its strings only, where it is
    kept.) *)
Theorem C4_valid_json_unchanged (x : jsstring) :
  StrictJSON.accepts x = true ->
  forallb (fun c => negb (isSpecialWhitespace c)) x = true ->
  repairs_to x x.
Proof.
  intros H _. destruct (accepts_inv x H) as [w0 [v [w [Hx [Hw0 [Hw [[k Hk] _]]]]]]].
  exists k. intros n Hn.
  assert (Hr : rest x initialState = w0 ++ v ++ w ++ []) by (rewrite app_nil_r; exact Hx).
  pose proof (Hk x initialState w0 w [] n Hr Hw0 Hw eq_refl Hn) as Hv.
  rewrite <- Hx in Hv.
  rewrite (run_root_only x n _ Hv).
  - unfold copy, forward. cbn [output initialState app]. reflexivity.
  - apply rest_copy. now rewrite app_nil_r.
Qed.

Lemma C4_valid_json_unchanged_witness :
  repairs_to
    (lit " {" ++ quoted (lit "a\nb") ++ lit " : [1.5e+3, -0, true, null, {}, [ ]] , "
     ++ quoted [] ++ lit ":false} ")
    (lit " {" ++ quoted (lit "a\nb") ++ lit " : [1.5e+3, -0, true, null, {}, [ ]] , "
     ++ quoted [] ++ lit ":false} ").
Proof.
  apply C4_valid_json_unchanged; reflexivity.
Defined.

(** ** Back-patching the output *)

Lemma forallb_rev (p : N -> bool) l : forallb p (rev l) = forallb p l.
Proof.
  induction l as [|c l IH]; [reflexivity|]. cbn [rev forallb].
  rewrite forallb_app, IH. cbn [forallb]. rewrite andb_true_r. apply andb_comm.
Qed.

Lemma insertBeforeLastWhitespace_after o c w s :
  isWhitespace c = false -> whitespace w = true ->
  insertBeforeLastWhitespace (o ++ c :: w) s = o ++ c :: s ++ w.
Proof.
  intros Hc Hw. unfold insertBeforeLastWhitespace, substring0.
  assert (Hs : span isWhitespace (rev (o ++ c :: w)) = length w).
  { rewrite rev_app_distr. cbn [rev]. rewrite <- !app_assoc.
    rewrite span_app_stop; [apply length_rev| |cbn [app hd_error test]; exact Hc].
    unfold whitespace in Hw. now rewrite forallb_rev. }
  rewrite Hs, length_app. cbn [length].
  replace (length o + S (length w) - length w) with (length o + 1) by lia.
  replace (o ++ c :: w) with (o ++ [c] ++ w) by reflexivity.
  peel. lists.
Qed.

Lemma insertBeforeLastWhitespace_end v s :
  (exists v' c, v = v' ++ [c] /\ isWhitespace c = false) ->
  forall o w, whitespace w = true ->
  insertBeforeLastWhitespace (o ++ v ++ w) s = o ++ v ++ s ++ w.
Proof.
  intros [v' [c [-> Hc]]] o w Hw.
  replace (o ++ (v' ++ [c]) ++ w) with ((o ++ v') ++ c :: w) by lists.
  rewrite (insertBeforeLastWhitespace_after _ _ _ _ Hc Hw). lists.
Qed.

Lemma lastIndexOf_last c o : lastIndexOf c (o ++ [c]) = Some (length o).
Proof.
  induction o as [|x o IH]; cbn [app lastIndexOf length].
  - now rewrite N.eqb_refl.
  - now rewrite IH.
Qed.

Lemma stripLastOccurrence_last o c : stripLastOccurrence (o ++ [c]) c false = o.
Proof.
  unfold stripLastOccurrence, substring0. rewrite lastIndexOf_last.
  peel. now rewrite app_nil_r.
Qed.

(** ** Newline-delimited JSON *)


Lemma line_follow v tail :
  test isDelimiter (hd_error v) = true -> test isValueStart (hd_error v) = true ->
  follow (v ++ tail) = true.
Proof. destruct v as [|c v]; [discriminate|]. cbn [hd_error test app]. intros H1 H2. chars. Qed.

Lemma keptWithin_more k k' v : keptWithin k v -> k <= k' -> keptWithin k' v.
Proof.
  intros H Hk text st w0 w tail m Hr Hw0 Hw Hf Hm. apply (H text st w0 w tail m); auto. lia.
Qed.

Lemma isJSONValue_valueText v : isJSONValue v = true -> valueText v.
Proof.
  unfold isJSONValue.
  destruct (StrictJSON.value (S (length v)) v) as [[|c r]|] eqn:E; try discriminate.
  intros _. destruct (proj1 (accepted_kept _) _ _ E) as [v' [Hv Hk]].
  rewrite app_nil_r in Hv. now subst v'.
Qed.

(** ** Concatenated strings *)

Lemma lastIndexOf_none c w :
  forallb (fun x => negb (x =? c)%N) w = true -> lastIndexOf c w = None.
Proof.
  induction w as [|x w IH]; [reflexivity|]. cbn [forallb lastIndexOf]. intros H.
  apply andb_true_iff in H as [H1 H2]. rewrite (IH H2).
  apply negb_true_iff in H1. now rewrite H1.
Qed.

Lemma lastIndexOf_app c o w :
  lastIndexOf c w = None -> lastIndexOf c (o ++ c :: w) = Some (length o).
Proof.
  intros Hw. induction o as [|x o IH]; cbn [app lastIndexOf length].
  - now rewrite Hw, N.eqb_refl.
  - now rewrite IH.
Qed.






Lemma addedInput_head a l x :
  addedOk a ->
  test blank (hd_error (codePlus :: x)) = false
  /\ (before_plus a ++ [codePlus] ++ after_plus a ++ quoted (chars_of a) ++ l
      = before_plus a ++ codePlus :: after_plus a ++ quoted (chars_of a) ++ l).
Proof. intros _. split; reflexivity. Qed.








(** ** The cursor of the number recognizer *)

Lemma numberReturn_repair text st0 st :
  passed st0 st -> numberReturn st0 (true, repairNumberEndingWithNumericSymbol text (i st0) st).
Proof.
  intros [H1 [H2 H3]]. unfold numberReturn, repairNumberEndingWithNumericSymbol.
  cbn [fst snd emit set_output i rewinds]. repeat split; [exact H1|discriminate|now left].
Qed.

Lemma numberReturn_back st0 st :
  passed st0 st -> numberReturn st0 (false, set_i Number (i st0) st).
Proof.
  intros [H1 [H2 H3]]. unfold numberReturn, set_i. cbn [fst snd i rewinds].
  repeat split; [lia|]. destruct (Nat.ltb_spec (i st0) (i st)).
  - right. split; [reflexivity|]. exists (i st). now rewrite H3.
  - now left.
Qed.

Lemma numberSign_cursor text st0 st :
  passed st0 st ->
  match numberSign text (i st0) st with
  | inl r => numberReturn st0 r
  | inr st' => passed st0 st'
  end.
Proof.
  intros H. unfold numberSign. destruct (is_code codeMinus (cur text st)); [|exact H].
  pose proof (passed_advance st0 Number 1 st H) as H1.
  destruct (atEndOfNumber text _); [now apply numberReturn_repair|].
  destruct (negb _); [now apply numberReturn_back|exact H1].
Qed.

Lemma numberFraction_cursor text st0 st :
  passed st0 st ->
  match numberFraction text (i st0) st with
  | inl r => numberReturn st0 r
  | inr st' => passed st0 st'
  end.
Proof.
  intros H. unfold numberFraction. destruct (is_code codeDot (cur text st)); [|exact H].
  pose proof (passed_advance st0 Number 1 st H) as H1.
  destruct (atEndOfNumber text _); [now apply numberReturn_repair|].
  destruct (negb _); [now apply numberReturn_back|now apply passed_skipDigits].
Qed.

Lemma numberExponent_cursor text st0 st :
  passed st0 st ->
  match numberExponent text (i st0) st with
  | inl r => numberReturn st0 r
  | inr st' => passed st0 st'
  end.
Proof.
  intros H. unfold numberExponent. destruct (_ || _); [|exact H].
  pose proof (passed_advance st0 Number 1 st H) as H1.
  assert (H2 : passed st0
                 (if is_code codeMinus (cur text (advance Number 1 st))
                     || is_code codePlus (cur text (advance Number 1 st))
                  then advance Number 1 (advance Number 1 st) else advance Number 1 st))
    by (destruct (_ || _); [now apply passed_advance|exact H1]).
  destruct (atEndOfNumber text _); [now apply numberReturn_repair|].
  destruct (negb _); [now apply numberReturn_back|now apply passed_skipDigits].
Qed.

Lemma numberEnd_cursor text st0 st :
  passed st0 st -> numberReturn st0 (numberEnd text (i st0) st).
Proof.
  intros H. unfold numberEnd. destruct (negb _); [now apply numberReturn_back|].
  destruct H as [H1 [H2 H3]]. destruct (Nat.ltb_spec (i st0) (i st)).
  - unfold numberReturn. cbn [fst snd emit set_output i rewinds].
    repeat split; [exact H1|discriminate|now left].
  - unfold numberReturn. cbn [fst snd]. repeat split; [exact H1|intros _; lia|now left].
Qed.

Lemma parseNumber_cursor text st : numberReturn st (parseNumber text st).
Proof.
  unfold parseNumber.
  assert (H0 : passed st st) by (unfold passed; auto).
  pose proof (numberSign_cursor text st st H0) as H1.
  destruct (numberSign text (i st) st) as [r1|st1]; cbn [andThen]; [exact H1|].
  pose proof (numberFraction_cursor text st _ (passed_skipDigits text st st1 H1)) as H2.
  destruct (numberFraction text (i st) (skipDigits text st1)) as [r2|st2];
    cbn [andThen]; [exact H2|].
  pose proof (numberExponent_cursor text st st2 H2) as H3.
  destruct (numberExponent text (i st) st2) as [r3|st3]; [exact H3|].
  now apply numberEnd_cursor.
Qed.

(** * More of the code *)

(** ** Whitespace *)

Lemma whitespaceRun_map l :
  whitespaceRun l = map normalWhitespace (firstn (span blank l) l).
Proof.
  induction l as [|c l IH]; [reflexivity|]. cbn [whitespaceRun span]. unfold blank at 1.
  destruct (isWhitespace c) eqn:E; cbn [orb firstn map].
  - unfold normalWhitespace at 1. now rewrite E, IH.
  - destruct (isSpecialWhitespace c); cbn [firstn map]; [|reflexivity].
    unfold normalWhitespace at 1. now rewrite E, IH.
Qed.

Lemma span_stop (p : N -> bool) l : test p (hd_error (skipn (span p l) l)) = false.
Proof.
  induction l as [|c l IH]; [reflexivity|]. cbn [span].
  destruct (p c) eqn:E; cbn [skipn]; [exact IH|]. cbn [hd_error test]. exact E.
Qed.

Lemma span_le (p : N -> bool) l : span p l <= length l.
Proof. induction l as [|c l IH]; cbn [span length]; [lia|]. destruct (p c); lia. Qed.

(** X1: [parseWhitespace] reads the longest run of whitespace, plain or
    special, that stands under the cursor, and writes one character for each
    one read: a plain whitespace character as it is, a space for a special
    one. It returns true exactly when the run is not empty; what it wrote is
    plain whitespace, and the character it stops at is no whitespace of either
    kind. *)
Theorem parseWhitespace_normalises text st :
  let k := span blank (rest text st) in
  let w := map normalWhitespace (firstn k (rest text st)) in
  parseWhitespace text st = (0 <? k, forward k w st)
  /\ length w = k
  /\ forallb isWhitespace w = true
  /\ test blank (cur text (forward k w st)) = false.
Proof.
  intros k w.
  assert (Hk : length w = k).
  { unfold w, k. rewrite length_map, length_firstn.
    pose proof (span_le blank (rest text st)). lia. }
  repeat split.
  - unfold parseWhitespace. rewrite whitespaceRun_map. fold k. fold w. rewrite Hk.
    rewrite advance_forward, emit_forward, forward_forward.
    destruct (Nat.ltb_spec 0 k) as [H|H].
    + f_equal. apply forward_eq; [lia|reflexivity].
    + f_equal. assert (k = 0) by lia. assert (E : w = []) by (destruct w; [reflexivity|cbn in Hk; lia]).
      rewrite E. subst k. replace (span blank (rest text st)) with 0 by lia. cbn [Nat.add].
      now rewrite forward_0_nil.
  - exact Hk.
  - unfold w. rewrite forallb_forall. intros x Hx. apply in_map_iff in Hx as [c [<- _]].
    unfold normalWhitespace. destruct (isWhitespace c) eqn:E; [exact E|reflexivity].
  - rewrite cur_rest, rest_forward. apply span_stop.
Qed.

(** ** Values that are repaired *)

Lemma closes_follow tail : closes tail = true -> follow tail = true.
Proof. destruct tail as [|c tail]; [reflexivity|]. cbn [closes follow]. intros H. chars. Qed.

Lemma closes_not_blank tail : closes tail = true -> test blank (hd_error tail) = false.
Proof. intros H. apply follow_not_blank. now apply closes_follow. Qed.

Lemma startsElement_not_blank l :
  test startsElement (hd_error l) = true -> test blank (hd_error l) = false.
Proof.
  destruct l as [|c l]; [discriminate|]. cbn [hd_error test]. unfold startsElement.
  intros H. repeat (apply andb_true_iff in H as [H _]).
  now apply negb_true_iff in H.
Qed.

Lemma hd_error_app (v l : jsstring) : v <> [] -> hd_error (v ++ l) = hd_error v.
Proof. destruct v; [congruence|reflexivity]. Qed.

(** [parseValue] around the value that one of its alternatives reads. *)
Lemma parseValue_around text n st w0 l w tail st2 :
  rest text st = w0 ++ l -> whitespace w0 = true -> test blank (hd_error l) = false ->
  valueChain text n (copy w0 st) = Ret true st2 ->
  rest text st2 = w ++ tail -> whitespace w = true -> test blank (hd_error tail) = false ->
  parseValue text (S n) st = Ret true (copy w st2).
Proof.
  intros Hr Hw0 Hl Hc Hr2 Hw Ht. rewrite parseValue_chain.
  rewrite (parseWSC_copy text st w0 l Hr Hw0 Hl), Hc. cbn [bind].
  now rewrite (parseWSC_copy _ _ w tail Hr2 Hw Ht).
Qed.

Lemma reaches_forward st k o : reaches st (forward k o st) k o.
Proof. split; reflexivity. Qed.

Lemma reaches_refl st : reaches st st 0 [].
Proof. split; [now rewrite Nat.add_0_r|now rewrite app_nil_r]. Qed.

Lemma reaches_trans st st1 st2 k1 o1 k2 o2 :
  reaches st st1 k1 o1 -> reaches st1 st2 k2 o2 -> reaches st st2 (k1 + k2) (o1 ++ o2).
Proof.
  intros [H1 H2] [H3 H4]. split; [rewrite H3, H1; lia|now rewrite H4, H2, app_assoc].
Qed.

Lemma reaches_eq st st' k o k' o' :
  reaches st st' k o -> k = k' -> o = o' -> reaches st st' k' o'.
Proof. now intros H <- <-. Qed.

Lemma reaches_rest text st st' k o :
  reaches st st' k o -> rest text st' = skipn k (rest text st).
Proof. intros [H _]. unfold rest. now rewrite H, Nat.add_comm, skipn_skipn. Qed.

Lemma reaches_rest_app text st st' l r o :
  reaches st st' (length l) o -> rest text st = l ++ r -> rest text st' = r.
Proof. intros H Hr. rewrite (reaches_rest text _ _ _ _ H), Hr. apply skipn_length_app. Qed.

Lemma kept_repaired v : valueText v -> properRepair v v.
Proof.
  intros [[k Hk] [[c [v' [E Hc]]] He]]. split; [|split].
  - exists k. intros text st w0 w tail m Hr Hw0 Hw Ht Hm. eexists. split.
    + apply (Hk text st w0 w tail m Hr Hw0 Hw (closes_follow _ Ht) Hm).
    + apply reaches_forward.
  - rewrite E. cbn [hd_error test]. unfold startsElement.
    rewrite (valueStart_not_blank _ Hc). cbn [negb andb]. chars.
  - exact He.
Qed.

(** A repaired value that is all of the input but whitespace. *)
Lemma repaired_root v o w0 w :
  repaired v o -> whitespace w0 = true -> whitespace w = true ->
  repairs_to (w0 ++ v ++ w) (w0 ++ o ++ w).
Proof.
  intros [k Hk] Hw0 Hw. exists k. intros n Hn.
  assert (Hr : rest (w0 ++ v ++ w) initialState = w0 ++ v ++ w ++ []) by now rewrite app_nil_r.
  destruct (Hk _ initialState w0 w [] n Hr Hw0 Hw eq_refl Hn) as [st' [Hv Hs]].
  rewrite (run_root_only _ n _ Hv).
  - destruct Hs as [_ ->]. reflexivity.
  - rewrite (reaches_rest _ _ _ _ _ Hs). apply skipn_all.
Qed.

(** ** Strings with other quotes and with characters to escape *)

Lemma controlCharacters_none c : isControlCharacter c = false -> controlCharacters c = None.
Proof.
  intros H. unfold controlCharacters.
  replace (c =? codeBackspace)%N with false by (symmetry; chars).
  replace (c =? codeFormFeed)%N with false by (symmetry; chars).
  replace (c =? codeNewline)%N with false by (symmetry; chars).
  replace (c =? codeReturn)%N with false by (symmetry; chars).
  replace (c =? codeTab)%N with false by (symmetry; chars). reflexivity.
Qed.

Lemma controlCharacters_some c :
  isControlCharacter c = true -> exists e, controlCharacters c = Some e.
Proof.
  unfold isControlCharacter, controlCharacters.
  destruct (c =? codeBackspace)%N; [eexists; reflexivity|].
  destruct (c =? codeFormFeed)%N; [eexists; reflexivity|].
  destruct (c =? codeNewline)%N; [eexists; reflexivity|].
  destruct (c =? codeReturn)%N; [eexists; reflexivity|].
  destruct (c =? codeTab)%N; [eexists; reflexivity|].
  discriminate.
Qed.

Lemma stringLoop_ordinary text isEndQuote q body :
  forallb (ordinary isEndQuote) body = true -> isEndQuote q = true ->
  forall st n iBefore oBefore str w tail,
    rest text st = body ++ q :: w ++ tail ->
    is_code codeBackslash (charCodeBefore text (i st)) = false ->
    whitespace w = true -> follow tail = true -> length body + 3 <= n ->
    stringLoop text n false false isEndQuote iBefore oBefore str st
    = Ret true (forward (length body + 1 + length w)
                        (str ++ escapeChars body ++ dquote ++ w) st).
Proof.
  intros Hb Hq. induction body as [|c s IH];
    intros st n iB oB str w tail Hr Hp Hw Hf Hn;
    (destruct n as [|n]; [lia|]); cbn [length] in Hn;
    cbn [stringLoop]; rewrite (atEnd_cons _ _ _ _ Hr), (cur_cons _ _ _ _ Hr); cbn [app] in Hr.
  - cbn [test]. rewrite Hq. cbv iota.
    rewrite advance_forward, emit_forward, forward_forward.
    set (st1 := forward (1 + 0) ([] ++ str ++ dquote) st).
    assert (Hr1 : rest text st1 = w ++ tail).
    { unfold st1. now rewrite rest_forward, Hr. }
    rewrite (parseWSC_copy _ _ _ _ Hr1 Hw (follow_not_blank _ Hf)).
    assert (Hr2 : rest text (copy w st1) = tail) by now apply rest_copy.
    cbn [orb]. rewrite (follow_end_or_delimiter _ _ _ Hr2 Hf). cbn [orb].
    destruct n as [|[|n]]; try lia.
    rewrite parseConcatenatedString_none by now rewrite Hr2.
    cbn [bind]. f_equal. unfold st1. cbn [escapeChars flat_map app]. same_state.
  - cbn [forallb] in Hb. apply andb_true_iff in Hb as [Hc Hs].
    unfold ordinary in Hc. apply andb_true_iff in Hc as [Hc Hv].
    apply andb_true_iff in Hc as [He Hbs].
    apply negb_true_iff in He, Hbs.
    cbn [test]. rewrite He. cbn [andb].
    unfold is_code at 1. cbn [test]. rewrite (N.eqb_sym codeBackslash), Hbs.
    rewrite Hp. cbn [negb]. rewrite andb_true_r.
    assert (Hnext : forall str',
               stringLoop text n false false isEndQuote iB oB str' (advance StringR 1 st)
               = Ret true (forward (length s + 1 + length w)
                                   (str' ++ escapeChars s ++ dquote ++ w)
                                   (advance StringR 1 st))).
    { intros str'. apply (IH Hs _ n iB oB str' w tail); auto; [| |lia].
      - now rewrite advance_forward, rest_forward, Hr.
      - rewrite advance_eq. cbn [i]. rewrite charCodeBefore_next.
        change (charCodeAt text (i st)) with (cur text st). rewrite (cur_cons _ _ _ _ Hr).
        unfold is_code. cbn [test]. now rewrite (N.eqb_sym codeBackslash). }
    cbn [escapeChars flat_map]. fold (escapeChars s). unfold escapeChar.
    destruct (c =? codeDoubleQuote)%N eqn:Eq.
    + apply N.eqb_eq in Eq. subst c. rewrite Hnext, advance_forward. f_equal. same_state.
    + destruct (isControlCharacter c) eqn:Ec.
      * destruct (controlCharacters_some c Ec) as [e Ee]. rewrite Ee. unfold appendOrUndefined.
        rewrite Hnext, advance_forward. f_equal. same_state.
      * rewrite (controlCharacters_none c Ec). rewrite orb_false_r in Hv. rewrite Hv. cbn [negb].
        rewrite Hnext, advance_forward. f_equal. same_state.
Qed.

Lemma parseString_ordinary text q q' body st n w tail :
  isQuote q = true -> endQuoteOf (Some q) q' = true ->
  forallb (ordinary (endQuoteOf (Some q))) body = true ->
  rest text st = q :: body ++ q' :: w ++ tail ->
  whitespace w = true -> follow tail = true -> length body + 4 <= n ->
  parseString text n false st
  = Ret true (forward (length (q :: body ++ [q']) + length w)
                      (quoted (escapeChars body) ++ w) st).
Proof.
  intros Hq Hq' Hb Hr Hw Hf Hn. destruct n as [|n]; [lia|].
  cbn [parseString]. rewrite (cur_cons _ _ _ _ Hr).
  replace (is_code codeBackslash (Some q)) with false by (symmetry; chars).
  cbv iota. rewrite (cur_cons _ _ _ _ Hr). cbn [test]. rewrite Hq.
  rewrite (stringLoop_ordinary text (endQuoteOf (Some q)) q' body Hb Hq'
             (advance StringR 1 st) n (i st) (length (output st)) dquote w tail).
  - rewrite advance_forward. f_equal. unfold quoted. same_state.
  - now rewrite advance_forward, rest_forward, Hr.
  - rewrite advance_eq. cbn [i]. rewrite charCodeBefore_next.
    change (charCodeAt text (i st)) with (cur text st). rewrite (cur_cons _ _ _ _ Hr). chars.
  - exact Hw.
  - exact Hf.
  - lia.
Qed.

Lemma repaired_string q q' body :
  isQuote q = true -> endQuoteOf (Some q) q' = true ->
  forallb (ordinary (endQuoteOf (Some q))) body = true ->
  properRepair (q :: body ++ [q']) (quoted (escapeChars body)).
Proof.
  intros Hq Hq' Hb. split; [|split].
  - exists (length body + 6). intros text st w0 w tail m Hr Hw0 Hw Ht Hm.
    destruct m as [|[|n]]; try lia.
    assert (Hr1 : rest text (copy w0 st) = q :: body ++ q' :: w ++ tail).
    { apply rest_copy. rewrite Hr. cbn [app]. now rewrite <- !app_assoc. }
    pose proof (parseString_ordinary text q q' body _ (S n) w tail Hq Hq' Hb Hr1 Hw
                  (closes_follow _ Ht) ltac:(lia)) as Hs.
    eexists. split.
    + apply (parseValue_around text (S n) st w0 ((q :: body ++ [q']) ++ w ++ tail) [] tail _
               Hr Hw0 ltac:(cbn [app hd_error test]; chars)
               (chain_string text n _ _ ltac:(rewrite (cur_cons _ _ _ _ Hr1); chars)
                  ltac:(rewrite (cur_cons _ _ _ _ Hr1); chars) Hs)).
      * rewrite rest_forward, Hr1. cbn [app]. 
        replace (q :: body ++ q' :: w ++ tail) with ((q :: body ++ [q']) ++ w ++ tail)
          by (cbn [app]; now rewrite <- app_assoc).
        rewrite <- length_app, app_assoc. apply skipn_length_app.
      * reflexivity.
      * now apply closes_not_blank.
    + rewrite copy_nil. unfold copy. rewrite forward_forward.
      eapply reaches_eq; [apply reaches_forward|lens|lists].
  - cbn [hd_error test]. unfold startsElement. chars.
  - exists (dquote ++ escapeChars body), codeDoubleQuote. split; [|reflexivity].
    unfold quoted. now rewrite <- app_assoc.
Qed.

(** X2: a string between an opening quote of any kind and an end quote that
    goes with it, made of characters that are no end quote and no backslash,
    is written between double quotes, with a backslash before every double
    quote inside and an escape for every control character; the whitespace
    around it is kept. *)
Theorem string_quotes_normalised q q' body w0 w :
  isQuote q = true -> endQuoteOf (Some q) q' = true ->
  forallb (ordinary (endQuoteOf (Some q))) body = true ->
  whitespace w0 = true -> whitespace w = true ->
  repairs_to (w0 ++ (q :: body ++ [q']) ++ w) (w0 ++ quoted (escapeChars body) ++ w).
Proof.
  intros Hq Hq' Hb Hw0 Hw.
  destruct (repaired_string q q' body Hq Hq' Hb) as [Hr _].
  now apply repaired_root.
Qed.

Lemma string_quotes_normalised_witness :
  repairs_to (lit " " ++ (codeQuote :: (lit "say " ++ [codeDoubleQuote; codeTab] ++ lit "hi") ++ [codeQuote])
              ++ newline)
             (lit " " ++ quoted (lit "say " ++ [codeBackslash; codeDoubleQuote; codeBackslash]
                                            ++ lit "thi") ++ newline).
Proof.
  apply (string_quotes_normalised codeQuote codeQuote
           (lit "say " ++ [codeDoubleQuote; codeTab] ++ lit "hi") (lit " ") newline);
    reflexivity.
Defined.

(** ** Strings without an end quote *)

Lemma prevNonWhitespaceIndex_back pre c w r :
  isWhitespace c = false -> whitespace w = true ->
  prevNonWhitespaceIndex (pre ++ c :: w ++ r) (length pre + length w) = length pre.
Proof.
  intros Hc. revert r. induction w as [|x w IH] using rev_ind; intros r Hw.
  - cbn [length]. rewrite Nat.add_0_r. destruct (length pre) as [|p] eqn:E; [reflexivity|].
    cbn [prevNonWhitespaceIndex]. unfold charCodeAt. rewrite <- E.
    rewrite nth_error_app2 by lia. rewrite Nat.sub_diag. cbn [nth_error test]. now rewrite Hc.
  - unfold whitespace in Hw. rewrite forallb_app in Hw. apply andb_true_iff in Hw as [Hw Hx].
    cbn [forallb] in Hx. rewrite andb_true_r in Hx.
    rewrite length_app. cbn [length]. replace (length pre + (length w + 1)) with (S (length pre + length w)) by lia.
    cbn [prevNonWhitespaceIndex]. unfold charCodeAt.
    replace (pre ++ c :: (w ++ [x]) ++ r) with ((pre ++ c :: w) ++ x :: r)
      by lists.
    rewrite nth_error_app2 by (rewrite length_app; cbn [length]; lia).
    replace (S (length pre + length w) - length (pre ++ c :: w)) with 0
      by (rewrite length_app; cbn [length]; lia).
    cbn [nth_error test]. rewrite Hx.
    replace ((pre ++ c :: w) ++ x :: r) with (pre ++ c :: w ++ x :: r) by lists.
    apply IH. exact Hw.
Qed.

Lemma stringLoop_unclosed text isEndQuote body :
  forallb (ordinary isEndQuote) body = true ->
  forall st n iBefore oBefore str,
    rest text st = body ->
    is_code codeBackslash (charCodeBefore text (i st)) = false ->
    test isDelimiter
         (charCodeAt text (prevNonWhitespaceIndex text (i st + length body - 1))) = false ->
    length body + 1 <= n ->
    stringLoop text n false false isEndQuote iBefore oBefore str st
    = Ret true (forward (length body)
                        (insertBeforeLastWhitespace (str ++ escapeChars body) dquote) st).
Proof.
  induction body as [|c s IH]; intros Hb st n iB oB str Hr Hp Hd Hn;
    (destruct n as [|n]; [cbn [length] in Hn; lia|]); cbn [length] in Hn; cbn [stringLoop].
  - rewrite (atEnd_nil _ _ Hr). cbn [length] in Hd. rewrite Nat.add_0_r in Hd.
    rewrite Hd. cbn [negb andb]. rewrite emit_forward. f_equal.
    cbn [escapeChars flat_map]. now rewrite app_nil_r.
  - rewrite (atEnd_cons _ _ _ _ Hr), (cur_cons _ _ _ _ Hr).
    cbn [forallb] in Hb. apply andb_true_iff in Hb as [Hc Hs].
    unfold ordinary in Hc. apply andb_true_iff in Hc as [Hc Hv].
    apply andb_true_iff in Hc as [He Hbs].
    apply negb_true_iff in He, Hbs.
    cbn [test]. rewrite He. cbn [andb].
    unfold is_code at 1. cbn [test]. rewrite (N.eqb_sym codeBackslash), Hbs.
    rewrite Hp. cbn [negb]. rewrite andb_true_r.
    assert (Hnext : forall str',
               stringLoop text n false false isEndQuote iB oB str' (advance StringR 1 st)
               = Ret true (forward (length s)
                                   (insertBeforeLastWhitespace (str' ++ escapeChars s) dquote)
                                   (advance StringR 1 st))).
    { intros str'. apply IH; auto; [| | |lia].
      - now rewrite advance_forward, rest_forward, Hr.
      - rewrite advance_eq. cbn [i]. rewrite charCodeBefore_next.
        change (charCodeAt text (i st)) with (cur text st). rewrite (cur_cons _ _ _ _ Hr).
        unfold is_code. cbn [test]. now rewrite (N.eqb_sym codeBackslash).
      - rewrite advance_eq. cbn [i]. cbn [length] in Hd.
        replace (i st + 1 + length s - 1) with (i st + S (length s) - 1) by lia. exact Hd. }
    cbn [escapeChars flat_map]. fold (escapeChars s). unfold escapeChar.
    destruct (c =? codeDoubleQuote)%N eqn:Eq.
    + apply N.eqb_eq in Eq. subst c. rewrite Hnext, advance_forward. f_equal. same_state.
    + destruct (isControlCharacter c) eqn:Ec.
      * destruct (controlCharacters_some c Ec) as [e Ee]. rewrite Ee. unfold appendOrUndefined.
        rewrite Hnext, advance_forward. f_equal. same_state.
      * rewrite (controlCharacters_none c Ec). rewrite orb_false_r in Hv. rewrite Hv. cbn [negb].
        rewrite Hnext, advance_forward. f_equal. same_state.
Qed.

Lemma parseValue_at_end text n st st2 :
  test blank (cur text st) = false ->
  valueChain text n st = Ret true st2 -> rest text st2 = [] ->
  parseValue text (S n) st = Ret true st2.
Proof.
  intros Hb Hc Hr. rewrite parseValue_chain, parseWSC_none by now rewrite <- cur_rest.
  rewrite Hc. cbn [bind]. rewrite parseWSC_none by now rewrite Hr. reflexivity.
Qed.

(** X3: a string whose end quote is missing, the input ending on a character
    that is no delimiter and on whitespace behind it, gets its end quote: it
    is inserted before the trailing whitespace of what the string recognizer
    has read. *)
Theorem string_end_quote_added q b c w w0 :
  isQuote q = true ->
  forallb (ordinary (endQuoteOf (Some q))) (b ++ c :: w) = true ->
  isWhitespace c = false -> isDelimiter c = false ->
  whitespace w = true -> whitespace w0 = true ->
  repairs_to (w0 ++ q :: b ++ c :: w)
             (w0 ++ insertBeforeLastWhitespace (dquote ++ escapeChars (b ++ c :: w)) dquote).
Proof.
  intros Hq Hb Hc Hd Hw Hw0. exists (length (b ++ c :: w) + 4). intros n Hn.
  destruct n as [|[|[|n]]]; try lia.
  set (text := w0 ++ q :: b ++ c :: w).
  assert (Hr0 : rest text initialState = w0 ++ q :: b ++ c :: w) by reflexivity.
  assert (Hr1 : rest text (copy w0 initialState) = q :: b ++ c :: w) by now apply rest_copy.
  set (st1 := copy w0 initialState) in *.
  assert (Hs : parseString text (S (S n)) false st1
               = Ret true (forward (S (length (b ++ c :: w)))
                             (insertBeforeLastWhitespace (dquote ++ escapeChars (b ++ c :: w))
                                                         dquote) st1)).
  { cbn [parseString]. rewrite (cur_cons _ _ _ _ Hr1).
    replace (is_code codeBackslash (Some q)) with false by (symmetry; chars).
    cbv iota. rewrite (cur_cons _ _ _ _ Hr1). cbn [test]. rewrite Hq.
    rewrite (stringLoop_unclosed text (endQuoteOf (Some q)) (b ++ c :: w) Hb
               (advance StringR 1 st1) (S n)).
    - rewrite advance_forward, forward_forward. reflexivity.
    - now rewrite advance_forward, rest_forward, Hr1.
    - rewrite advance_eq. cbn [i]. rewrite charCodeBefore_next.
      change (charCodeAt text (i st1)) with (cur text st1). rewrite (cur_cons _ _ _ _ Hr1). chars.
    - rewrite advance_eq. cbn [i]. unfold st1, copy, forward. cbn [i initialState].
      replace (0 + length w0 + 1 + length (b ++ c :: w) - 1)
        with (length (w0 ++ q :: b) + length w) by lens.
      unfold text.
      replace (w0 ++ q :: b ++ c :: w) with ((w0 ++ q :: b) ++ c :: w ++ [])
        by (rewrite app_nil_r, <- app_assoc; reflexivity).
      rewrite (prevNonWhitespaceIndex_back _ c w [] Hc Hw).
      unfold charCodeAt. rewrite nth_error_app2 by lia. rewrite Nat.sub_diag.
      cbn [nth_error test]. exact Hd.
    - lia. }
  assert (Hv : parseValue text (S (S (S n))) initialState
               = Ret true (forward (S (length (b ++ c :: w)))
                             (insertBeforeLastWhitespace (dquote ++ escapeChars (b ++ c :: w))
                                                         dquote) st1)).
  { rewrite parseValue_chain.
    rewrite (parseWSC_copy text initialState w0 (q :: b ++ c :: w) Hr0 Hw0)
      by (cbn [hd_error test]; chars).
    fold st1.
    rewrite (chain_string text (S n) st1 _
               ltac:(rewrite (cur_cons _ _ _ _ Hr1); chars)
               ltac:(rewrite (cur_cons _ _ _ _ Hr1); chars) Hs).
    cbn [bind]. rewrite parseWSC_none; [reflexivity|].
    rewrite rest_forward, Hr1. change (q :: b ++ c :: w) with ([q] ++ b ++ c :: w).
    rewrite skipn_all2; [reflexivity|]. cbn [length app]. lia. }
  rewrite (run_root_only _ _ _ Hv).
  - unfold st1, copy, forward. cbn [output initialState app]. reflexivity.
  - rewrite rest_forward, Hr1. apply skipn_all2. cbn [length]. lia.
Qed.

Lemma string_end_quote_added_witness :
  repairs_to (lit " " ++ codeDoubleQuote :: lit "ab" ++ 0x63%N :: lit "  ")
             (lit " " ++ quoted (lit "abc") ++ lit "  ").
Proof.
  apply (string_end_quote_added codeDoubleQuote (lit "ab") 0x63%N (lit "  ") (lit " "));
    reflexivity.
Defined.

(** ** An escaped string *)

Lemma stringLoop_endquote text isEndQuote q skip st n iB oB str w tail :
  isEndQuote q = true -> rest text st = q :: w ++ tail ->
  whitespace w = true -> follow tail = true ->
  stringLoop text (S (S (S n))) false skip isEndQuote iB oB str st
  = Ret true (forward (1 + length w) (str ++ dquote ++ w) st).
Proof.
  intros Hq Hr Hw Hf. remember (S (S n)) as m eqn:Em.
  cbn [stringLoop]. rewrite (atEnd_cons _ _ _ _ Hr), (cur_cons _ _ _ _ Hr).
  cbn [test]. rewrite Hq. cbv iota.
  rewrite advance_forward, emit_forward, forward_forward.
  set (st1 := forward (1 + 0) ([] ++ str ++ dquote) st).
  assert (Hr1 : rest text st1 = w ++ tail).
  { unfold st1. now rewrite rest_forward, Hr. }
  rewrite (parseWSC_copy _ _ _ _ Hr1 Hw (follow_not_blank _ Hf)).
  assert (Hr2 : rest text (copy w st1) = tail) by now apply rest_copy.
  cbn [orb]. rewrite (follow_end_or_delimiter _ _ _ Hr2 Hf). cbn [orb].
  subst m. rewrite parseConcatenatedString_none by now rewrite Hr2.
  cbn [bind]. f_equal. unfold st1. same_state.
Qed.

Lemma ordinary_not_backslash isEndQuote c :
  ordinary isEndQuote c = true -> (c =? codeBackslash)%N = false.
Proof.
  unfold ordinary. intros H. apply andb_true_iff in H as [H _].
  apply andb_true_iff in H as [_ H]. now apply negb_true_iff in H.
Qed.

Lemma stringLoop_escaped text isEndQuote q :
  isEndQuote q = true ->
  forall body, forallb (ordinary isEndQuote) body = true -> body <> [] ->
  forall st n iBefore oBefore str w tail,
    rest text st = body ++ codeBackslash :: q :: w ++ tail ->
    is_code codeBackslash (charCodeBefore text (i st)) = false ->
    whitespace w = true -> follow tail = true -> length body + 3 <= n ->
    stringLoop text n false true isEndQuote iBefore oBefore str st
    = Ret true (forward (length body + 2 + length w)
                        (str ++ escapeChars body ++ dquote ++ w) st).
Proof.
  intros Hq. induction body as [|c s IH]; intros Hb Hne; [congruence|].
  intros st n iB oB str w tail Hr Hp Hw Hf Hn.
  destruct n as [|n]; [cbn [length] in Hn; lia|]. cbn [length] in Hn.
  cbn [stringLoop]. rewrite (atEnd_cons _ _ _ _ Hr), (cur_cons _ _ _ _ Hr). cbn [app] in Hr.
  cbn [forallb] in Hb. apply andb_true_iff in Hb as [Hc Hs].
  pose proof (ordinary_not_backslash _ _ Hc) as Hbs.
  unfold ordinary in Hc. apply andb_true_iff in Hc as [Hc Hv].
  apply andb_true_iff in Hc as [He _]. apply negb_true_iff in He.
  cbn [test]. rewrite He. cbn [andb].
  unfold is_code at 1. cbn [test]. rewrite (N.eqb_sym codeBackslash), Hbs.
  rewrite Hp. cbn [negb]. rewrite andb_true_r.
  assert (Hr1 : rest text (advance StringR 1 st) = s ++ codeBackslash :: q :: w ++ tail)
    by now rewrite advance_forward, rest_forward, Hr.
  assert (Hnext : forall str',
             stringLoop text n false true isEndQuote iB oB str'
               (snd (skipEscapeCharacter text (advance StringR 1 st)))
             = Ret true (forward (length s + 2 + length w)
                                 (str' ++ escapeChars s ++ dquote ++ w)
                                 (advance StringR 1 st))).
  { intros str'. destruct s as [|c' s'].
    - cbn [app] in Hr1. unfold skipEscapeCharacter, skipCharacter.
      rewrite (cur_cons _ _ _ _ Hr1).
      replace (is_code codeBackslash (Some codeBackslash)) with true by reflexivity.
      cbn [snd]. destruct n as [|[|[|n]]]; try (cbn [length] in Hn; lia).
      rewrite (stringLoop_endquote text isEndQuote q true _ n iB oB str' w tail Hq); auto.
      + rewrite !advance_forward. f_equal. cbn [escapeChars flat_map length app]. same_state.
      + now rewrite advance_forward, rest_forward, Hr1.
    - unfold skipEscapeCharacter.
      rewrite skipCharacter_other.
      2: { cbn [app] in Hr1. rewrite (cur_cons _ _ _ _ Hr1). cbn [forallb] in Hs.
           apply andb_true_iff in Hs as [Hc' _].
           unfold is_code. cbn [test]. rewrite N.eqb_sym.
           exact (ordinary_not_backslash _ _ Hc'). }
      cbn [snd]. apply (IH Hs ltac:(discriminate) _ n iB oB str' w tail); auto; [|lia].
      rewrite advance_eq. cbn [i]. rewrite charCodeBefore_next.
      change (charCodeAt text (i st)) with (cur text st). rewrite (cur_cons _ _ _ _ Hr).
      unfold is_code. cbn [test]. now rewrite (N.eqb_sym codeBackslash). }
  cbn [escapeChars flat_map]. fold (escapeChars s). unfold escapeChar.
  destruct (c =? codeDoubleQuote)%N eqn:Eq.
  - apply N.eqb_eq in Eq. subst c. rewrite Hnext, advance_forward. f_equal. same_state.
  - destruct (isControlCharacter c) eqn:Ec.
    + destruct (controlCharacters_some c Ec) as [e Ee]. rewrite Ee. unfold appendOrUndefined.
      rewrite Hnext, advance_forward. f_equal. same_state.
    + rewrite (controlCharacters_none c Ec). rewrite orb_false_r in Hv. rewrite Hv. cbn [negb].
      rewrite Hnext, advance_forward. f_equal. same_state.
Qed.

(** The text of an escaped string: a backslash before each of its quotes. *)
Lemma parseString_escaped text q q' body st n w tail :
  isQuote q = true -> endQuoteOf (Some q) q' = true ->
  forallb (ordinary (endQuoteOf (Some q))) body = true -> body <> [] ->
  rest text st = codeBackslash :: q :: body ++ codeBackslash :: q' :: w ++ tail ->
  whitespace w = true -> follow tail = true -> length body + 4 <= n ->
  parseString text n false st
  = Ret true (forward (length body + 4 + length w) (quoted (escapeChars body) ++ w) st).
Proof.
  intros Hq Hq' Hb Hne Hr Hw Hf Hn. destruct n as [|n]; [lia|].
  cbn [parseString]. rewrite (cur_cons _ _ _ _ Hr).
  replace (is_code codeBackslash (Some codeBackslash)) with true by reflexivity.
  cbv iota.
  assert (Hr1 : rest text (advance StringR 1 st)
                = q :: body ++ codeBackslash :: q' :: w ++ tail)
    by now rewrite advance_forward, rest_forward, Hr.
  rewrite (cur_cons _ _ _ _ Hr1). cbn [test]. rewrite Hq.
  rewrite (stringLoop_escaped text (endQuoteOf (Some q)) q' Hq' body Hb Hne
             (advance StringR 1 (advance StringR 1 st)) n _ _ dquote w tail).
  - rewrite !advance_forward. f_equal. unfold quoted. same_state.
  - now rewrite advance_forward, rest_forward, Hr1.
  - rewrite advance_eq. cbn [i]. rewrite charCodeBefore_next.
    change (charCodeAt text (i (advance StringR 1 st))) with (cur text (advance StringR 1 st)).
    rewrite (cur_cons _ _ _ _ Hr1). chars.
  - exact Hw.
  - exact Hf.
  - lia.
Qed.

Lemma repaired_escaped_string q q' body :
  isQuote q = true -> endQuoteOf (Some q) q' = true ->
  forallb (ordinary (endQuoteOf (Some q))) body = true -> body <> [] ->
  properRepair (codeBackslash :: q :: body ++ [codeBackslash; q']) (quoted (escapeChars body)).
Proof.
  intros Hq Hq' Hb Hne. split; [|split].
  - exists (length body + 6). intros text st w0 w tail m Hr Hw0 Hw Ht Hm.
    destruct m as [|[|n]]; try lia.
    assert (Hr1 : rest text (copy w0 st)
                  = codeBackslash :: q :: body ++ codeBackslash :: q' :: w ++ tail).
    { apply rest_copy. rewrite Hr. cbn [app]. now rewrite <- !app_assoc. }
    pose proof (parseString_escaped text q q' body _ (S n) w tail Hq Hq' Hb Hne Hr1 Hw
                  (closes_follow _ Ht) ltac:(lia)) as Hs.
    eexists. split.
    + apply (parseValue_around text (S n) st w0
               ((codeBackslash :: q :: body ++ [codeBackslash; q']) ++ w ++ tail) [] tail _
               Hr Hw0 ltac:(cbn [app hd_error test]; chars)
               (chain_string text n _ _ ltac:(rewrite (cur_cons _ _ _ _ Hr1); chars)
                  ltac:(rewrite (cur_cons _ _ _ _ Hr1); chars) Hs)).
      * rewrite rest_forward, Hr1.
        replace (codeBackslash :: q :: body ++ codeBackslash :: q' :: w ++ tail)
          with ((codeBackslash :: q :: body ++ [codeBackslash; q']) ++ w ++ tail)
          by (cbn [app]; now rewrite <- app_assoc).
        replace (length body + 4 + length w)
          with (length ((codeBackslash :: q :: body ++ [codeBackslash; q']) ++ w))
          by (rewrite length_app; cbn [length]; rewrite length_app; cbn [length]; lia).
        rewrite app_assoc. apply skipn_length_app.
      * reflexivity.
      * now apply closes_not_blank.
    + rewrite copy_nil. unfold copy. rewrite forward_forward.
      eapply reaches_eq; [apply reaches_forward|lens|lists].
  - cbn [hd_error test]. unfold startsElement. chars.
  - exists (dquote ++ escapeChars body), codeDoubleQuote. split; [|reflexivity].
    unfold quoted. now rewrite <- app_assoc.
Qed.

(** X4: an escaped string, with a backslash before its opening quote and one
    before its end quote, is written as a string without them: [parseString]
    skips the first backslash, and the one it meets behind the last character
    of the body. *)
Theorem escaped_string_unescaped q q' body w0 w :
  isQuote q = true -> endQuoteOf (Some q) q' = true ->
  forallb (ordinary (endQuoteOf (Some q))) body = true -> body <> [] ->
  whitespace w0 = true -> whitespace w = true ->
  properRepair (codeBackslash :: q :: body ++ [codeBackslash; q']) (quoted (escapeChars body))
  /\ repairs_to (w0 ++ (codeBackslash :: q :: body ++ [codeBackslash; q']) ++ w)
                (w0 ++ quoted (escapeChars body) ++ w).
Proof.
  intros Hq Hq' Hb Hne Hw0 Hw.
  pose proof (repaired_escaped_string q q' body Hq Hq' Hb Hne) as Hp.
  split; [exact Hp|]. destruct Hp as [Hr _]. now apply repaired_root.
Qed.

Lemma escaped_string_unescaped_witness :
  repairs_to (lit " " ++ (codeBackslash :: codeDoubleQuote :: lit "hi" ++ [codeBackslash; codeDoubleQuote])
              ++ newline)
             (lit " " ++ quoted (lit "hi") ++ newline).
Proof.
  apply (escaped_string_unescaped codeDoubleQuote codeDoubleQuote (lit "hi") (lit " ") newline);
    try reflexivity. discriminate.
Defined.

(** ** Unquoted symbols *)

Lemma eqb_jsstring_refl a : eqb_jsstring a a = true.
Proof. induction a as [|x a IH]; [reflexivity|]. cbn [eqb_jsstring]. now rewrite N.eqb_refl. Qed.

Lemma startsWith_ahead (p : N -> bool) name s r :
  eqb_jsstring (firstn (length name) (s ++ r)) name = true ->
  forallb p name = true -> test p (hd_error r) = false ->
  startsWith name s = true.
Proof.
  intros He Hp Hr. apply eqb_jsstring_eq in He. unfold startsWith.
  destruct (Nat.le_gt_cases (length name) (length s)) as [Hl|Hl].
  - rewrite firstn_app in He. replace (length name - length s) with 0 in He by lia.
    cbn [firstn] in He. rewrite app_nil_r in He. rewrite He. apply eqb_jsstring_refl.
  - exfalso. rewrite firstn_app, firstn_all2 in He by lia.
    destruct r as [|x r].
    + rewrite firstn_nil, app_nil_r in He. rewrite He in Hl. lia.
    + destruct (length name - length s) as [|k] eqn:Ek; [lia|]. cbn [firstn] in He.
      rewrite <- He, forallb_app in Hp. apply andb_true_iff in Hp as [_ Hp].
      cbn [forallb] in Hp. apply andb_true_iff in Hp as [Hp _].
      cbn [hd_error test] in Hr. congruence.
Qed.

Lemma parseKeyword_other text st name value :
  eqb_jsstring (firstn (length name) (rest text st)) name = false ->
  parseKeyword text name value st = (false, st).
Proof. intros H. unfold parseKeyword. now rewrite slice_ahead, H. Qed.

Lemma parseKeywords_other text st s r :
  rest text st = s ++ r ->
  forallb (fun kw => negb (startsWith (fst kw) s)) keywords = true ->
  test isWordCharacter (hd_error r) = false ->
  parseKeywords text st = (false, st).
Proof.
  intros Hr Hk Ht.
  assert (H : forall name, In name (map fst keywords) ->
                eqb_jsstring (firstn (length name) (rest text st)) name = false).
  { intros name Hn. destruct (eqb_jsstring _ name) eqn:E; [|reflexivity]. exfalso.
    rewrite Hr in E. apply (startsWith_ahead isWordCharacter) in E; auto.
    - rewrite forallb_forall in Hk. apply in_map_iff in Hn as [kw [<- Hin]].
      specialize (Hk kw Hin). rewrite E in Hk. discriminate.
    - cbn [keywords map fst In] in Hn. 
      repeat (destruct Hn as [<-|Hn]; [reflexivity|]). destruct Hn. }
  unfold parseKeywords.
  repeat (rewrite parseKeyword_other
            by (apply H; cbn [keywords map fst In]; tauto); cbn [orElse]).
  reflexivity.
Qed.

Lemma parseNumber_other text st c r :
  rest text st = c :: r ->
  isDigit c = false -> numericSymbol c = false ->
  parseNumber text st = (false, st).
Proof.
  intros Hr Hd Hn. unfold parseNumber.
  rewrite numberSign_none by (rewrite (cur_cons _ _ _ _ Hr); chars).
  cbn [andThen].
  assert (Hs : skipDigits text st = st).
  { unfold skipDigits. rewrite Hr. cbn [span]. rewrite Hd. apply advance_0. }
  rewrite Hs.
  rewrite numberFraction_none by (rewrite (cur_cons _ _ _ _ Hr); chars).
  cbn [andThen].
  rewrite numberExponent_none by (rewrite (cur_cons _ _ _ _ Hr); chars).
  unfold numberEnd. destruct (atEndOfNumber text st); cbn [negb].
  - now rewrite Nat.ltb_irrefl.
  - now rewrite set_i_same.
Qed.

Lemma chain_unquoted text n st r :
  is_code codeOpeningBrace (cur text st) = false ->
  is_code codeOpeningBracket (cur text st) = false ->
  is_code codeBackslash (cur text st) = false ->
  test isQuote (cur text st) = false ->
  parseNumber text st = (false, st) ->
  parseKeywords text st = (false, st) ->
  parseUnquotedString text (S n) st = r -> valueChain text (S n) st = r.
Proof.
  intros H1 H2 H3 H4 H5 H6 H. unfold valueChain.
  rewrite (parseObject_other _ _ _ H1). cbn [orElseM bind].
  rewrite (parseArray_other _ _ _ H2). cbn [orElseM bind].
  rewrite (parseString_other _ _ _ _ H3 H4). cbn [orElseM bind].
  rewrite H5. cbn [lift fst snd orElseM bind]. rewrite H6. cbn [lift fst snd orElseM bind].
  exact H.
Qed.

Lemma span_app_all (p : N -> bool) l r :
  forallb p l = true -> span p (l ++ r) = length l + span p r.
Proof.
  induction l as [|c l IH]; [reflexivity|]. cbn [forallb app span length].
  intros H. apply andb_true_iff in H as [-> H]. now rewrite IH.
Qed.

Lemma span_within (p : N -> bool) w r :
  test p (hd_error r) = false -> span p (w ++ r) = span p w.
Proof.
  intros H. induction w as [|c w IH]; cbn [app span].
  - destruct r as [|x r]; [reflexivity|]. cbn [hd_error test] in H. cbn [span]. now rewrite H.
  - destruct (p c); [now rewrite IH|reflexivity].
Qed.

Lemma last_nonwhitespace s :
  s <> [] -> test isWhitespace (hd_error (rev s)) = false -> endsNonWhitespace s.
Proof.
  intros Hs H. destruct (rev s) as [|c l] eqn:E.
  - apply (f_equal (@rev N)) in E. rewrite rev_involutive in E. now destruct Hs.
  - exists (rev l), c. split; [|exact H].
    apply (f_equal (@rev N)) in E. rewrite rev_involutive in E. exact E.
Qed.

Lemma trimmedEnd_back text st s w r k :
  rest text st = s ++ w ++ r -> endsNonWhitespace s -> whitespace (firstn k w) = true ->
  k <= length w ->
  trimmedEnd text (i st + length s + k) = i st + length s.
Proof.
  intros Hr [s' [c [-> Hc]]]. induction k as [|k IH]; intros Hw Hk.
  - rewrite Nat.add_0_r, length_app. cbn [length].
    replace (i st + (length s' + 1)) with (S (i st + length s')) by lia.
    cbn [trimmedEnd]. rewrite charCodeAt_ahead, Hr, <- !app_assoc.
    rewrite nth_error_app2 by lia. rewrite Nat.sub_diag. cbn [app nth_error test].
    now rewrite Hc.
  - replace (i st + length (s' ++ [c]) + S k) with (S (i st + (length (s' ++ [c]) + k))) by lia.
    cbn [trimmedEnd]. rewrite charCodeAt_ahead, Hr.
    rewrite nth_error_app2 by lia.
    replace (length (s' ++ [c]) + k - length (s' ++ [c])) with k by lia.
    rewrite nth_error_app1 by lia.
    assert (Hx : exists x, nth_error w k = Some x /\ isWhitespace x = true).
    { destruct (nth_error w k) as [x|] eqn:E.
      - exists x. split; [reflexivity|].
        unfold whitespace in Hw. rewrite forallb_forall in Hw. apply Hw.
        rewrite <- (firstn_skipn k w) in E. 
        assert (Hin : In x (firstn (S k) w)).
        { apply nth_error_In with k. rewrite nth_error_firstn.
          replace (k <? S k) with true by (symmetry; apply Nat.ltb_lt; lia).
          now rewrite (firstn_skipn k w) in E. }
        exact Hin.
      - apply nth_error_None in E. lia. }
    destruct Hx as [x [-> Hx]]. cbn [test]. rewrite Hx.
    rewrite Nat.add_assoc. apply IH; [|lia].
    unfold whitespace in *. rewrite forallb_forall in *. intros y Hy. apply Hw.
    rewrite <- (firstn_skipn k (firstn (S k) w)), firstn_firstn.
    replace (Nat.min k (S k)) with k by lia. apply in_or_app. now left.
Qed.

Lemma symbol_parts s :
  isSymbol s = true ->
  exists c s', s = c :: s' /\ isSymbolStart c = true
               /\ forallb isSymbolCharacter s = true /\ endsNonWhitespace s
               /\ forallb (fun kw => negb (startsWith (fst kw) s)) keywords = true.
Proof.
  unfold isSymbol. intros H.
  apply andb_true_iff in H as [H Hk]. apply andb_true_iff in H as [H Hl].
  apply andb_true_iff in H as [Hs Hc]. apply negb_true_iff in Hl.
  destruct s as [|c s']; [discriminate|]. exists c, s'. repeat split; auto.
  apply last_nonwhitespace; [discriminate|exact Hl].
Qed.

Lemma whitespace_tail_head (p : N -> bool) w tail k :
  whitespace w = true -> (forall x, isWhitespace x = true -> p x = false) ->
  test p (hd_error tail) = false -> k <= length w ->
  test p (hd_error (skipn k (w ++ tail))) = false.
Proof.
  intros Hw Hp Ht Hk. rewrite skipn_app. replace (k - length w) with 0 by lia. cbn [skipn].
  destruct (skipn k w) as [|x l] eqn:E; [exact Ht|]. cbn [app hd_error test]. apply Hp.
  unfold whitespace in Hw. rewrite forallb_forall in Hw. apply Hw.
  rewrite <- (firstn_skipn k w), E. apply in_or_app. right. now left.
Qed.

Lemma whitespace_firstn w k : whitespace w = true -> whitespace (firstn k w) = true.
Proof.
  unfold whitespace. rewrite !forallb_forall. intros H x Hx. apply H.
  rewrite <- (firstn_skipn k w). apply in_or_app. now left.
Qed.

(** An unquoted symbol, the whitespace behind it, and a tail that closes:
    [parseUnquotedString] reads the symbol and writes it as a string. *)
Lemma parseUnquotedString_run text st s w tail n :
  s <> [] -> forallb isSymbolCharacter s = true -> endsNonWhitespace s ->
  rest text st = s ++ w ++ tail ->
  whitespace w = true -> closes tail = true ->
  exists st', parseUnquotedString text (S n) st = Ret true st'
              /\ reaches st st' (length s) (symbolOutput s).
Proof.
  intros E Ha He Hr Hw Ht.
  assert (Htail : test isSymbolCharacter (hd_error tail) = false).
  { destruct tail as [|x tail]; [reflexivity|]. cbn [closes] in Ht. cbn [hd_error test].
    unfold isSymbolCharacter, isDelimiterExceptSlash. chars. }
  set (k := span isSymbolCharacter w).
  assert (Hspan : span (fun c => negb (isDelimiterExceptSlash c) && negb (isQuote c))
                       (rest text st) = length s + k).
  { rewrite Hr. change (fun c0 => negb (isDelimiterExceptSlash c0) && negb (isQuote c0))
      with isSymbolCharacter.
    rewrite (span_app_all _ _ _ Ha). f_equal. now apply span_within. }
  assert (Hkw : k <= length w) by apply span_le.
  cbn [parseUnquotedString]. rewrite Hspan, advance_eq. cbn [i].
  replace (i st <? i st + (length s + k)) with true
    by (symmetry; apply Nat.ltb_lt; destruct s; [congruence|cbn [length]; lia]).
  set (st1 := {| i := i st + (length s + k); output := output st; rewinds := rewinds st |}).
  assert (Hr1 : rest text st1 = skipn k (w ++ tail)).
  { unfold rest, st1. cbn [i]. rewrite Nat.add_comm, <- skipn_skipn. fold (rest text st).
    rewrite Hr, Nat.add_comm, <- skipn_skipn, skipn_length_app. reflexivity. }
  assert (Hp : is_code codeOpenParenthesis (cur text st1) = false).
  { rewrite cur_rest, Hr1. apply whitespace_tail_head; auto.
    - intros x Hx. chars.
    - destruct tail as [|x tail]; [reflexivity|]. cbn [closes] in Ht. cbn [hd_error test]. chars. }
  rewrite Hp. cbn [andb].
  assert (Htrim : trimmedEnd text (i st + (length s + k)) = i st + length s).
  { rewrite Nat.add_assoc.
    apply (trimmedEnd_back text st s w tail k Hr He); [|exact Hkw].
    now apply whitespace_firstn. }
  rewrite Htrim.
  set (st2 := set_i Unquoted (i st + length s) st1).
  assert (Hi2 : i st2 = i st + length s) by reflexivity.
  assert (Ho2 : output st2 = output st) by reflexivity.
  rewrite Hi2, slice_ahead, Hr, firstn_length_app.
  fold (symbolOutput s).
  assert (Hq : is_code codeDoubleQuote (cur text (emit (symbolOutput s) st2)) = false).
  { unfold cur, emit, set_output. cbn [i]. rewrite Hi2, charCodeAt_ahead, Hr.
    rewrite nth_error_app2 by lia. rewrite Nat.sub_diag.
    destruct w as [|x w].
    - destruct tail as [|x tail]; [reflexivity|]. cbn [closes] in Ht. cbn [app nth_error]. chars.
    - cbn [app nth_error]. cbn [whitespace forallb] in Hw. apply andb_true_iff in Hw as [Hx _].
      chars. }
  rewrite Hq. eexists. split; [reflexivity|].
  split; [exact Hi2|]. unfold emit, set_output. cbn [output]. now rewrite Ho2.
Qed.


Lemma parseUnquotedString_symbol text st s w tail n :
  isSymbol s = true -> rest text st = s ++ w ++ tail ->
  whitespace w = true -> closes tail = true ->
  exists st', parseUnquotedString text (S n) st = Ret true st'
              /\ reaches st st' (length s) (symbolOutput s).
Proof.
  intros Hs. destruct (symbol_parts s Hs) as [c [s' [E [Hc [Ha [He Hk]]]]]].
  apply parseUnquotedString_run; auto. rewrite E. discriminate.
Qed.

(** [parseValue] around a value that one of its alternatives repairs. *)
Lemma parseValue_reaches text n st w0 v o w tail st2 :
  rest text st = w0 ++ v ++ w ++ tail -> whitespace w0 = true ->
  test blank (hd_error (v ++ w ++ tail)) = false ->
  valueChain text n (copy w0 st) = Ret true st2 ->
  reaches (copy w0 st) st2 (length v) o ->
  whitespace w = true -> closes tail = true ->
  exists st', parseValue text (S n) st = Ret true st'
              /\ reaches st st' (length (w0 ++ v ++ w)) (w0 ++ o ++ w).
Proof.
  intros Hr Hw0 Hv Hc Hs Hw Ht.
  assert (Hr1 : rest text (copy w0 st) = v ++ w ++ tail) by now apply rest_copy.
  assert (Hr2 : rest text st2 = w ++ tail) by apply (reaches_rest_app text _ _ _ _ _ Hs Hr1).
  exists (copy w st2). split.
  - apply (parseValue_around text n st w0 (v ++ w ++ tail) w tail st2); auto.
    now apply closes_not_blank.
  - eapply reaches_eq.
    + eapply reaches_trans; [apply (reaches_forward st (length w0) w0)|].
      eapply reaches_trans; [exact Hs|apply reaches_forward].
    + lens.
    + reflexivity.
Qed.

Lemma symbolStart_facts c :
  isSymbolStart c = true ->
  blank c = false /\ isDigit c = false /\ numericSymbol c = false
  /\ (c =? codeBackslash)%N = false /\ isQuote c = false
  /\ isDelimiterExceptSlash c = false.
Proof.
  unfold isSymbolStart, isSymbolCharacter. intros H.
  repeat (apply andb_true_iff in H as [H ?]).
  repeat match goal with H : negb _ = true |- _ => apply negb_true_iff in H end.
  repeat split; assumption.
Qed.

Lemma repaired_symbol s : isSymbol s = true -> properRepair s (symbolOutput s).
Proof.
  intros Hs. destruct (symbol_parts s Hs) as [c [s' [E [Hc [Ha [He Hk]]]]]].
  destruct (symbolStart_facts c Hc) as [Hb [Hd [Hn [Hbs [Hq Hde]]]]].
  split; [|split].
  - exists 3. intros text st w0 w tail m Hr Hw0 Hw Ht Hm.
    destruct m as [|[|n]]; try lia.
    assert (Hr1 : rest text (copy w0 st) = s ++ w ++ tail) by now apply rest_copy.
    assert (Hr1' : rest text (copy w0 st) = c :: s' ++ w ++ tail) by now rewrite Hr1, E.
    destruct (parseUnquotedString_symbol text (copy w0 st) s w tail n Hs Hr1 Hw Ht)
      as [st2 [Hu Hs2]].
    apply (parseValue_reaches text (S n) st w0 s (symbolOutput s) w tail st2); auto.
    + rewrite E. cbn [app hd_error test]. exact Hb.
    + apply chain_unquoted; try (rewrite (cur_cons _ _ _ _ Hr1'); unfold is_code; cbn [test]).
      * unfold isDelimiterExceptSlash in Hde. chars.
      * unfold isDelimiterExceptSlash in Hde. chars.
      * now rewrite N.eqb_sym.
      * exact Hq.
      * apply (parseNumber_other text _ c _ Hr1' Hd Hn).
      * apply (parseKeywords_other text _ s (w ++ tail) Hr1 Hk).
        destruct w as [|x w]; cbn [app hd_error test].
        -- destruct tail as [|x tail]; [reflexivity|]. cbn [closes] in Ht. cbn [hd_error test].
           chars.
        -- cbn [whitespace forallb] in Hw. apply andb_true_iff in Hw as [Hx _]. chars.
      * exact Hu.
  - rewrite E. cbn [hd_error test]. unfold startsElement. rewrite Hb. cbn [negb andb].
    unfold isDelimiterExceptSlash in Hde. chars.
  - unfold symbolOutput. destruct (eqb_jsstring s (lit "undefined")).
    + exists (lit "nul"), 0x6c%N. split; reflexivity.
    + exists (dquote ++ quoteCharacters s), codeDoubleQuote. split; [|reflexivity].
      unfold JSON_stringify, dquote. now rewrite <- app_assoc.
Qed.

(** X5: an unquoted symbol is written as a JSON string, and the symbol
    [undefined] as [null]; the whitespace around it is kept outside the
    quotes. *)
Theorem unquoted_symbol_quoted s w0 w :
  isSymbol s = true -> whitespace w0 = true -> whitespace w = true ->
  repairs_to (w0 ++ s ++ w) (w0 ++ symbolOutput s ++ w).
Proof.
  intros Hs Hw0 Hw. destruct (repaired_symbol s Hs) as [Hr _].
  now apply repaired_root.
Qed.

Lemma unquoted_symbol_quoted_witness :
  repairs_to (lit " hello world/1 ") (lit " " ++ quoted (lit "hello world/1") ++ lit " ")
  /\ repairs_to (lit "undefined") (lit "null").
Proof.
  split.
  - apply (unquoted_symbol_quoted (lit "hello world/1") (lit " ") (lit " ")); reflexivity.
  - apply (unquoted_symbol_quoted (lit "undefined") [] []); reflexivity.
Defined.

(** ** The keywords *)

Lemma parseKeyword_found text st name value r :
  rest text st = name ++ r ->
  parseKeyword text name value st = (true, forward (length name) value st).
Proof.
  intros Hr. unfold parseKeyword. rewrite slice_ahead, Hr, firstn_length_app.
  rewrite eqb_jsstring_refl, advance_forward, emit_forward, forward_forward.
  f_equal. same_state.
Qed.

Lemma parseKeywords_found text st name value r :
  In (name, value) keywords -> rest text st = name ++ r ->
  parseKeywords text st = (true, forward (length name) value st).
Proof.
  intros Hin Hr. unfold parseKeywords. cbn [keywords In] in Hin.
  repeat (destruct Hin as [[= <- <-]|Hin];
          [repeat (first [ rewrite (parseKeyword_found text st _ _ r Hr); reflexivity
                         | rewrite parseKeyword_other
                             by (rewrite Hr; reflexivity); cbn [orElse] ])|]).
  destruct Hin.
Qed.

Lemma repaired_keyword name value :
  In (name, value) keywords -> properRepair name value.
Proof.
  intros Hin.
  assert (Hc : exists c r, name = c :: r /\ isDigit c = false /\ numericSymbol c = false
                           /\ isWordCharacter c = true).
  { cbn [keywords In] in Hin.
    repeat (destruct Hin as [[= <- <-]|Hin]; [eexists _, _; repeat split; reflexivity|]).
    destruct Hin. }
  destruct Hc as [c [r [E [Hd [Hn Hw]]]]].
  split; [|split].
  - exists 2. intros text st w0 w tail m Hr Hw0 Hw' Ht Hm.
    destruct m as [|[|n]]; try lia.
    assert (Hr1 : rest text (copy w0 st) = name ++ w ++ tail) by now apply rest_copy.
    assert (Hr1' : rest text (copy w0 st) = c :: r ++ w ++ tail) by now rewrite Hr1, E.
    apply (parseValue_reaches text (S n) st w0 name value w tail
             (forward (length name) value (copy w0 st))); auto.
    + rewrite E. cbn [app hd_error test]. chars.
    + unfold valueChain.
      rewrite parseObject_other by (rewrite (cur_cons _ _ _ _ Hr1'); chars).
      cbn [orElseM bind].
      rewrite parseArray_other by (rewrite (cur_cons _ _ _ _ Hr1'); chars).
      cbn [orElseM bind].
      rewrite parseString_other by (rewrite (cur_cons _ _ _ _ Hr1'); chars).
      cbn [orElseM bind].
      rewrite (parseNumber_other text _ c _ Hr1' Hd Hn). cbn [lift fst snd orElseM bind].
      rewrite (parseKeywords_found text _ name value _ Hin Hr1). reflexivity.
    + apply reaches_forward.
  - rewrite E. cbn [hd_error test]. unfold startsElement. chars.
  - cbn [keywords In] in Hin.
    repeat (destruct Hin as [[= <- <-]|Hin];
            [first [ exists (lit "tru"), 0x65%N; split; reflexivity
                   | exists (lit "fals"), 0x65%N; split; reflexivity
                   | exists (lit "nul"), 0x6c%N; split; reflexivity ]|]).
    destruct Hin.
Qed.

(** X6: each name that [parseKeywords] knows, the JSON keywords and the ones
    of Python, is written as its JSON value, with the whitespace around it. *)
Theorem keywords_written name value w0 w :
  In (name, value) keywords -> whitespace w0 = true -> whitespace w = true ->
  repairs_to (w0 ++ name ++ w) (w0 ++ value ++ w).
Proof.
  intros Hin Hw0 Hw. destruct (repaired_keyword name value Hin) as [Hr _].
  now apply repaired_root.
Qed.

Lemma keywords_written_witness :
  repairs_to (lit " None" ++ newline) (lit " null" ++ newline).
Proof.
  apply (keywords_written (lit "None") (lit "null") (lit " ") newline);
    [cbn; tauto|reflexivity|reflexivity].
Defined.

(** ** Function calls *)

Lemma trimStart_none s : test isTrimSpace (hd_error s) = false -> trimStart s = s.
Proof.
  intros H. unfold trimStart. destruct s as [|c s]; [reflexivity|].
  cbn [hd_error test] in H. cbn [span]. now rewrite H.
Qed.

Lemma word_not_trimSpace c : isWordCharacter c = true -> isTrimSpace c = false.
Proof. intros H. unfold isTrimSpace. chars. Qed.

Lemma trim_word name : forallb isWordCharacter name = true -> trim name = name.
Proof.
  intros H. unfold trim.
  assert (H1 : trimStart name = name).
  { apply trimStart_none. destruct name as [|c s]; [reflexivity|]. cbn [forallb] in H.
    apply andb_true_iff in H as [H _]. cbn [hd_error test]. now apply word_not_trimSpace. }
  rewrite H1.
  assert (H2 : trimStart (rev name) = rev name).
  { apply trimStart_none. destruct (rev name) as [|c s] eqn:E; [reflexivity|].
    cbn [hd_error test]. apply word_not_trimSpace.
    rewrite forallb_forall in H. apply H. apply in_rev. rewrite E. now left. }
  rewrite H2. apply rev_involutive.
Qed.

Lemma word_symbolCharacter c : isWordCharacter c = true -> isSymbolCharacter c = true.
Proof. intros H. unfold isSymbolCharacter. chars. Qed.

Lemma callName_parts name :
  isCallName name = true ->
  exists c s, name = c :: s /\ forallb isWordCharacter name = true
              /\ isDigit c = false /\ isExponentMark c = false
              /\ forallb (fun kw => negb (startsWith (fst kw) name)) keywords = true.
Proof.
  unfold isCallName, isFunctionName. intros H.
  apply andb_true_iff in H as [H Hk]. apply andb_true_iff in H as [H Hc].
  apply andb_true_iff in H as [_ Hw].
  destruct name as [|c s]; [discriminate|]. cbn [hd_error test] in Hc.
  apply andb_true_iff in Hc as [Hd He]. apply negb_true_iff in Hd, He.
  exists c, s. repeat split; auto.
Qed.

Lemma parseUnquotedString_call text st name w0 v o w1 semi r k n :
  isCallName name = true -> repairedWithin k v o ->
  whitespace w0 = true -> whitespace w1 = true ->
  rest text st = name ++ [codeOpenParenthesis] ++ w0 ++ v ++ w1
                 ++ [codeCloseParenthesis] ++ semi ++ r ->
  (semi = [] /\ is_code codeSemicolon (hd_error r) = false) \/ semi = [codeSemicolon] ->
  k <= n ->
  exists st', parseUnquotedString text (S n) st = Ret true st'
              /\ reaches st st'
                   (length (name ++ [codeOpenParenthesis] ++ w0 ++ v ++ w1
                            ++ [codeCloseParenthesis] ++ semi))
                   (w0 ++ o ++ w1).
Proof.
  intros Hn Hk Hw0 Hw1 Hr Hsemi Hkn.
  destruct (callName_parts name Hn) as [c [s [E [Hw [Hd [He Hkw]]]]]].
  assert (Ha : forallb isSymbolCharacter name = true).
  { rewrite forallb_forall in *. intros x Hx. apply word_symbolCharacter. now apply Hw. }
  assert (Hspan : span (fun c => negb (isDelimiterExceptSlash c) && negb (isQuote c))
                       (rest text st) = length name).
  { rewrite Hr. change (fun c0 => negb (isDelimiterExceptSlash c0) && negb (isQuote c0))
      with isSymbolCharacter.
    rewrite (span_app_all _ _ _ Ha). cbn [app span].
    replace (isSymbolCharacter codeOpenParenthesis) with false by reflexivity. lia. }
  cbn [parseUnquotedString]. rewrite Hspan, advance_forward.
  change (i (forward (length name) [] st)) with (i st + length name).
  replace (i st <? i st + length name) with true
    by (symmetry; apply Nat.ltb_lt; rewrite E; cbn [length]; lia).
  set (st1 := forward (length name) [] st).
  assert (Hr1 : rest text st1 = [codeOpenParenthesis] ++ w0 ++ v ++ w1
                                ++ [codeCloseParenthesis] ++ semi ++ r).
  { unfold st1. rewrite rest_forward, Hr. apply skipn_length_app. }
  rewrite (cur_cons _ _ _ _ Hr1).
  replace (is_code codeOpenParenthesis (Some codeOpenParenthesis)) with true by reflexivity.
  rewrite slice_ahead, Hr, firstn_length_app, (trim_word name Hw).
  replace (isFunctionName name) with true
    by (symmetry; unfold isFunctionName; rewrite Hw, E; reflexivity).
  cbn [andb]. rewrite advance_forward.
  set (st2 := forward 1 [] st1).
  assert (Hr2 : rest text st2 = w0 ++ v ++ w1 ++ ([codeCloseParenthesis] ++ semi ++ r)).
  { unfold st2. rewrite rest_forward, Hr1. reflexivity. }
  destruct (Hk text st2 w0 w1 _ n Hr2 Hw0 Hw1 eq_refl Hkn) as [st3 [Hv Hs3]].
  rewrite Hv. cbn [bind].
  assert (Hr3 : rest text st3 = [codeCloseParenthesis] ++ semi ++ r).
  { rewrite (reaches_rest text _ _ _ _ Hs3), Hr2.
    rewrite !app_assoc, <- (app_assoc _ semi r), <- !app_assoc.
    replace (w0 ++ v ++ w1 ++ [codeCloseParenthesis] ++ semi ++ r)
      with ((w0 ++ v ++ w1) ++ [codeCloseParenthesis] ++ semi ++ r) by lists.
    apply skipn_length_app. }
  rewrite (cur_cons _ _ _ _ Hr3).
  replace (is_code codeCloseParenthesis (Some codeCloseParenthesis)) with true by reflexivity.
  rewrite advance_forward.
  set (st4 := forward 1 [] st3).
  assert (Hr4 : rest text st4 = semi ++ r).
  { unfold st4. rewrite rest_forward, Hr3. reflexivity. }
  assert (H14 : reaches st st4 (length (name ++ [codeOpenParenthesis] ++ w0 ++ v ++ w1
                                        ++ [codeCloseParenthesis]))
                        (w0 ++ o ++ w1)).
  { eapply reaches_eq.
    - eapply reaches_trans; [apply (reaches_forward st (length name) [])|].
      eapply reaches_trans; [apply (reaches_forward st1 1 [])|].
      eapply reaches_trans; [exact Hs3|apply (reaches_forward st3 1 [])].
    - lens.
    - cbn [app]. now rewrite app_nil_r. }
  destruct Hsemi as [[-> Hs]| ->].
  - rewrite cur_rest, Hr4. cbn [app]. rewrite Hs. eexists. split; [reflexivity|].
    eapply reaches_eq; [exact H14|lens|reflexivity].
  - rewrite (cur_cons _ _ _ _ Hr4).
    replace (is_code codeSemicolon (Some codeSemicolon)) with true by reflexivity.
    rewrite advance_forward. eexists. split; [reflexivity|].
    eapply reaches_eq.
    + eapply reaches_trans; [exact H14|apply (reaches_forward st4 1 [])].
    + lens.
    + now rewrite app_nil_r.
Qed.

Lemma repaired_call name w0 v o w1 semi :
  isCallName name = true -> repaired v o ->
  whitespace w0 = true -> whitespace w1 = true ->
  semi = [] \/ semi = [codeSemicolon] ->
  repaired (name ++ [codeOpenParenthesis] ++ w0 ++ v ++ w1 ++ [codeCloseParenthesis] ++ semi)
           (w0 ++ o ++ w1).
Proof.
  intros Hn [k Hk] Hw0 Hw1 Hsemi.
  destruct (callName_parts name Hn) as [c [s [E [Hw [Hd [He Hkw]]]]]].
  assert (Hc : isWordCharacter c = true).
  { rewrite E in Hw. cbn [forallb] in Hw. now apply andb_true_iff in Hw as [Hw _]. }
  exists (k + 3). intros text st W0 W tail m Hr HW0 HW Ht Hm.
  destruct m as [|[|n]]; try lia.
  set (call := name ++ [codeOpenParenthesis] ++ w0 ++ v ++ w1 ++ [codeCloseParenthesis] ++ semi)
    in *.
  assert (Hr1 : rest text (copy W0 st) = call ++ W ++ tail) by now apply rest_copy.
  assert (Hr1' : rest text (copy W0 st)
                 = name ++ [codeOpenParenthesis] ++ w0 ++ v ++ w1
                   ++ [codeCloseParenthesis] ++ semi ++ W ++ tail).
  { rewrite Hr1. unfold call. lists. }
  assert (Hr1'' : rest text (copy W0 st)
                  = c :: s ++ [codeOpenParenthesis] ++ w0 ++ v ++ w1
                    ++ [codeCloseParenthesis] ++ semi ++ W ++ tail).
  { rewrite Hr1', E. reflexivity. }
  assert (Hsemi' : (semi = [] /\ is_code codeSemicolon (hd_error (W ++ tail)) = false)
                   \/ semi = [codeSemicolon]).
  { destruct Hsemi as [->| ->]; [left|now right]. split; [reflexivity|].
    destruct W as [|x W]; cbn [app hd_error].
    - destruct tail as [|x tail]; [reflexivity|]. cbn [closes] in Ht. cbn [hd_error]. chars.
    - cbn [whitespace forallb] in HW. apply andb_true_iff in HW as [Hx _]. chars. }
  destruct (parseUnquotedString_call text (copy W0 st) name w0 v o w1 semi (W ++ tail) k n
              Hn Hk Hw0 Hw1 Hr1' Hsemi' ltac:(lia)) as [st2 [Hu Hs2]].
  apply (parseValue_reaches text (S n) st W0 call (w0 ++ o ++ w1) W tail st2); auto.
  - unfold call. rewrite E. cbn [app hd_error test]. chars.
  - apply chain_unquoted; try (rewrite (cur_cons _ _ _ _ Hr1''); chars).
    + apply (parseNumber_other text _ c _ Hr1'' Hd). chars.
    + apply (parseKeywords_other text _ name _ Hr1' Hkw). reflexivity.
    + exact Hu.
Qed.

(** X7: a function call around a value, as MongoDB and JSONP have them, is
    replaced by the repair of the value with the whitespace inside the
    parentheses: the name, the parentheses and a semicolon behind them are
    left out. *)
Theorem function_call_unwrapped name w0 v o w1 semi :
  isCallName name = true -> repaired v o ->
  whitespace w0 = true -> whitespace w1 = true ->
  semi = [] \/ semi = [codeSemicolon] ->
  repairs_to (name ++ [codeOpenParenthesis] ++ w0 ++ v ++ w1 ++ [codeCloseParenthesis] ++ semi)
             (w0 ++ o ++ w1).
Proof.
  intros Hn Hv Hw0 Hw1 Hsemi.
  pose proof (repaired_call name w0 v o w1 semi Hn Hv Hw0 Hw1 Hsemi) as Hr.
  pose proof (repaired_root _ _ [] [] Hr eq_refl eq_refl) as H.
  cbn [app] in H. now rewrite !app_nil_r in H.
Qed.

Lemma function_call_unwrapped_witness :
  repairs_to (lit "callback( " ++ (codeQuote :: lit "ok" ++ [codeQuote]) ++ lit ");")
             (lit " " ++ quoted (lit "ok")).
Proof.
  apply (function_call_unwrapped (lit "callback") (lit " ")
           (codeQuote :: lit "ok" ++ [codeQuote]) (quoted (lit "ok")) [] [codeSemicolon]);
    try reflexivity.
  - apply (repaired_string codeQuote codeQuote (lit "ok")); reflexivity.
  - now right.
Defined.

(** ** Arrays of repaired values *)

Lemma startsElement_facts l :
  test startsElement (hd_error l) = true ->
  exists c r, l = c :: r /\ blank c = false /\ (c =? codeComma)%N = false
              /\ (c =? codeDot)%N = false /\ (c =? codeClosingBracket)%N = false
              /\ (c =? codeClosingBrace)%N = false.
Proof.
  destruct l as [|c r]; [discriminate|]. cbn [hd_error test]. unfold startsElement. intros H.
  repeat (apply andb_true_iff in H as [H ?]).
  repeat match goal with H : negb _ = true |- _ => apply negb_true_iff in H end.
  exists c, r. repeat split; assumption.
Qed.

Lemma reaches_written st w k s : reaches st (advance w k (emit s st)) k s.
Proof.
  rewrite emit_forward, advance_forward, forward_forward.
  eapply reaches_eq; [apply reaches_forward|lia|now rewrite app_nil_r].
Qed.

Lemma reaches_copy st l : reaches st (copy l st) (length l) l.
Proof. apply reaches_forward. Qed.

Lemma reaches_set_output st st' k o o' :
  reaches st st' k o -> reaches st (set_output (output st ++ o') st') k o'.
Proof. intros [H _]. split; [exact H|reflexivity]. Qed.

(** At a character that closes, [parseValue] finds no value and leaves
    the state as it is. *)
Lemma parseValue_closing text n st c r :
  rest text st = c :: r -> closes (c :: r) = true ->
  parseValue text (S (S n)) st = Ret false st.
Proof.
  intros Hr Hc. cbn [closes] in Hc.
  assert (Hb : test blank (hd_error (rest text st)) = false) by (rewrite Hr; cbn; chars).
  rewrite parseValue_chain, (parseWSC_none _ _ Hb). unfold valueChain.
  rewrite parseObject_other by (rewrite (cur_cons _ _ _ _ Hr); chars). cbn [orElseM bind].
  rewrite parseArray_other by (rewrite (cur_cons _ _ _ _ Hr); chars). cbn [orElseM bind].
  rewrite parseString_other by (rewrite (cur_cons _ _ _ _ Hr); chars). cbn [orElseM bind].
  rewrite (parseNumber_other text st c r Hr) by chars. cbn [lift fst snd orElseM bind].
  rewrite (parseKeywords_other text st [] (c :: r) Hr eq_refl)
    by (cbn [hd_error test]; chars).
  cbn [lift fst snd orElseM bind].
  cbn [parseUnquotedString]. rewrite Hr. cbn [span].
  replace (negb (isDelimiterExceptSlash c) && negb (isQuote c)) with false
    by (symmetry; unfold isDelimiterExceptSlash; chars).
  rewrite advance_0, Nat.ltb_irrefl. cbn [bind].
  now rewrite (parseWSC_none _ _ Hb).
Qed.

Lemma skipEllipsis_copy text st w l :
  rest text st = w ++ l -> whitespace w = true ->
  test blank (hd_error l) = false -> is_code codeDot (hd_error l) = false ->
  skipEllipsis text st = (false, copy w st).
Proof.
  intros Hr Hw Hb Hd. unfold skipEllipsis.
  rewrite (parseWSC_copy text st w l Hr Hw Hb).
  rewrite cur_rest, (rest_copy text w l st Hr), Hd. reflexivity.
Qed.

Lemma arrayLoop_first text m st l :
  rest text st = l -> test startsElement (hd_error l) = true ->
  arrayLoop text (S m) true st
  = let* (processedValue, st) := parseValue text m st in
    if negb processedValue
    then Ret tt (set_output (stripLastOccurrence (output st) codeComma false) st)
    else arrayLoop text m false st.
Proof.
  intros Hr Hl. destruct (startsElement_facts l Hl) as [c [r [E [Hb [Hc [Hd [Hk Hk']]]]]]].
  rewrite E in Hr. cbn [arrayLoop]. rewrite (atEnd_cons _ _ _ _ Hr), (cur_cons _ _ _ _ Hr).
  replace (is_code codeClosingBracket (Some c)) with false
    by (symmetry; unfold is_code; cbn [test]; now rewrite N.eqb_sym).
  cbn [negb andb].
  rewrite skipEllipsis_none; [reflexivity| |];
    rewrite (cur_cons _ _ _ _ Hr); cbn [test]; [exact Hb|].
  unfold is_code. cbn [test]. now rewrite N.eqb_sym.
Qed.

Lemma arrayLoop_more text m st wb l :
  rest text st = comma ++ wb ++ l -> whitespace wb = true ->
  test blank (hd_error l) = false -> is_code codeDot (hd_error l) = false ->
  arrayLoop text (S m) false st
  = let* (processedValue, st) := parseValue text m (copy (comma ++ wb) st) in
    if negb processedValue
    then Ret tt (set_output (stripLastOccurrence (output st) codeComma false) st)
    else arrayLoop text m false st.
Proof.
  intros Hr Hw Hb Hd.
  unfold comma in Hr. cbn [app] in Hr.
  cbn [arrayLoop]. rewrite (atEnd_cons _ _ _ _ Hr), (cur_cons _ _ _ _ Hr).
  replace (is_code codeClosingBracket (Some codeComma)) with false by reflexivity.
  cbn [negb andb]. rewrite (parseCharacter_copy _ _ _ _ Hr). cbn [negb].
  assert (Hr1 : rest text (copy [codeComma] st) = wb ++ l) by now apply (rest_copy text [codeComma]).
  rewrite (skipEllipsis_copy text _ wb l Hr1 Hw Hb Hd). now rewrite copy_copy.
Qed.

Lemma startsElement_not_dot l :
  test startsElement (hd_error l) = true -> is_code codeDot (hd_error l) = false.
Proof.
  intros H. destruct (startsElement_facts l H) as [c [r [-> [_ [_ [Hd _]]]]]].
  unfold is_code. cbn [hd_error test]. now rewrite N.eqb_sym.
Qed.

Lemma moreInput_closes l tail : closes tail = true -> closes (moreInput l ++ tail) = true.
Proof. intros H. destruct l; [exact H|reflexivity]. Qed.

Lemma properRepair_head v o r :
  properRepair v o -> test startsElement (hd_error (v ++ r)) = true.
Proof.
  intros [_ [H _]]. destruct v as [|c v]; [discriminate|exact H].
Qed.

(** The elements behind the first one. *)
Lemma arrayLoop_elements k l :
  Forall elementOk l -> withinAll k l ->
  forall text st tail m,
    rest text st = moreInput l ++ tail -> closes tail = true -> k <= m ->
    exists st', arrayLoop text (length l + m) false st = arrayLoop text m false st'
                /\ reaches st st' (length (moreInput l)) (moreOutput l).
Proof.
  induction l as [|e l IH]; intros Hok Hin text st tail m Hr Ht Hm.
  - exists st. split; [reflexivity|apply reaches_refl].
  - inversion Hok as [|? ? [Hwb [Hwa Hp]] Hok']. subst.
    inversion Hin as [|? ? Hk Hin']. subst.
    cbn [moreInput] in Hr. rewrite <- !app_assoc in Hr.
    cbn [length Nat.add].
    rewrite (arrayLoop_more text _ st (el_before e) _ Hr Hwb
               (startsElement_not_blank _ (properRepair_head _ _ _ Hp))
               (startsElement_not_dot _ (properRepair_head _ _ _ Hp))).
    assert (Hr1 : rest text (copy (comma ++ el_before e) st)
                  = [] ++ el_in e ++ el_after e ++ moreInput l ++ tail).
    { apply rest_copy. rewrite Hr. lists. }
    destruct (Hk text _ [] (el_after e) (moreInput l ++ tail) (length l + m) Hr1 eq_refl Hwa
                (moreInput_closes l tail Ht) ltac:(lia)) as [st1 [Hv Hs1]].
    rewrite Hv. cbn [bind negb].
    assert (Hr2 : rest text st1 = moreInput l ++ tail).
    { rewrite (reaches_rest text _ _ _ _ Hs1), Hr1. cbn [app].
      rewrite app_assoc. apply skipn_length_app. }
    destruct (IH Hok' Hin' text st1 tail m Hr2 Ht Hm) as [st2 [Hl Hs2]].
    exists st2. split; [exact Hl|].
    eapply reaches_eq.
    + eapply reaches_trans; [apply reaches_copy|].
      eapply reaches_trans; [exact Hs1|exact Hs2].
    + cbn [moreInput]. lens.
    + cbn [moreOutput]. lists.
Qed.

Lemma stripLastOccurrence_comma o w :
  whitespace w = true -> stripLastOccurrence (o ++ comma ++ w) codeComma false = o ++ w.
Proof.
  intros Hw. unfold stripLastOccurrence, comma. cbn [app].
  rewrite lastIndexOf_app.
  - unfold substring0. rewrite firstn_length_app.
    replace (o ++ codeComma :: w) with ((o ++ [codeComma]) ++ w) by lists.
    rewrite skipn_app_exact by lens. reflexivity.
  - apply lastIndexOf_none. unfold whitespace in Hw. rewrite forallb_forall in *.
    intros x Hx. specialize (Hw x Hx). chars.
Qed.

(** A comma before the closing bracket is taken out again. *)
Lemma arrayLoop_trailing text m st w tail :
  rest text st = comma ++ w ++ rbracket ++ tail -> whitespace w = true ->
  exists st', arrayLoop text (S (S (S m))) false st = Ret tt st'
              /\ reaches st st' (length (comma ++ w)) w.
Proof.
  intros Hr Hw.
  rewrite (arrayLoop_more text _ st w (rbracket ++ tail) Hr Hw eq_refl eq_refl).
  assert (Hr1 : rest text (copy (comma ++ w) st) = codeClosingBracket :: tail).
  { apply rest_copy. rewrite Hr. lists. }
  rewrite (parseValue_closing text m _ _ _ Hr1 eq_refl). cbn [bind negb].
  eexists. split; [reflexivity|].
  split; [reflexivity|]. cbn [set_output output copy forward].
  now rewrite stripLastOccurrence_comma.
Qed.

Lemma arrayLoop_end text m st t w tail :
  trailingComma t w -> rest text st = t ++ rbracket ++ tail ->
  exists st', arrayLoop text (S (S (S m))) false st = Ret tt st'
              /\ reaches st st' (length t) w.
Proof.
  intros [[-> ->]|[-> Hw]] Hr.
  - exists st. split; [|apply reaches_refl]. apply (arrayLoop_stop text _ false st tail Hr).
  - now apply (arrayLoop_trailing text m st w tail).
Qed.

(** An opening bracket and elements: [parseArray] up to the end of the
    elements. *)
Lemma parseArray_body text n st k e l tail :
  elementOk e -> repairedWithin k (el_in e) (el_out e) ->
  Forall elementOk l -> withinAll k l -> closes tail = true ->
  rest text st = lbracket ++ elementsInput e l ++ tail ->
  k + length l <= n ->
  exists st4,
    parseArray text (S (S n)) st
    = (let* (_u, st) := arrayLoop text (n - length l) false st4 in
       if is_code codeClosingBracket (cur text st)
       then Ret true (advance Array 1 (emit rbracket st))
       else Ret true (set_output (insertBeforeLastWhitespace (output st) rbracket) st))
    /\ reaches st st4 (length (lbracket ++ elementsInput e l)) (lbracket ++ elementsOutput e l)
    /\ rest text st4 = tail.
Proof.
  intros [Hwb [Hwa Hp]] Hk Hok Hin Hcl Hr Hn.
  unfold elementsInput in Hr. unfold lbracket in Hr. cbn [app] in Hr.
  cbn [parseArray]. rewrite (cur_cons _ _ _ _ Hr).
  replace (is_code codeOpeningBracket (Some codeOpeningBracket)) with true by reflexivity.
  replace (advance Array 1 (emit lbracket st)) with (copy lbracket st)
    by (rewrite emit_forward, advance_forward; same_state).
  assert (Hr1 : rest text (copy lbracket st)
                = el_before e ++ (el_in e ++ el_after e ++ moreInput l) ++ tail).
  { apply (rest_copy text lbracket). rewrite Hr. unfold lbracket. lists. }
  pose proof (properRepair_head _ _ ((el_after e ++ moreInput l) ++ tail) Hp) as Hh.
  replace (el_in e ++ (el_after e ++ moreInput l) ++ tail)
    with ((el_in e ++ el_after e ++ moreInput l) ++ tail) in Hh by lists.
  rewrite (parseWSC_copy text _ _ _ Hr1 Hwb (startsElement_not_blank _ Hh)).
  rewrite copy_copy.
  set (st2 := copy (lbracket ++ el_before e) st).
  assert (Hr2 : rest text st2 = (el_in e ++ el_after e ++ moreInput l) ++ tail).
  { unfold st2. rewrite <- copy_copy. now apply rest_copy. }
  destruct (startsElement_facts _ Hh) as [c [r [E [_ [Hc _]]]]].
  rewrite skipCharacter_other
    by (rewrite cur_rest, Hr2, E; unfold is_code; cbn [hd_error test]; now rewrite N.eqb_sym).
  rewrite (arrayLoop_first text n st2 _ Hr2 Hh).
  assert (Hr2' : rest text st2 = [] ++ el_in e ++ el_after e ++ (moreInput l ++ tail)).
  { rewrite Hr2. lists. }
  destruct (Hk text st2 [] (el_after e) _ n Hr2' eq_refl Hwa
              (moreInput_closes l _ Hcl) ltac:(lia)) as [st3 [Hv Hs3]].
  rewrite Hv. cbn [bind negb].
  assert (Hr3 : rest text st3 = moreInput l ++ tail).
  { rewrite (reaches_rest text _ _ _ _ Hs3), Hr2'. cbn [app].
    rewrite app_assoc. apply skipn_length_app. }
  destruct (arrayLoop_elements k l Hok Hin text st3 _ (n - length l) Hr3 Hcl ltac:(lia))
    as [st4 [Hl Hs4]].
  replace (length l + (n - length l)) with n in Hl by lia.
  rewrite Hl. exists st4. split; [reflexivity|]. split.
  - eapply reaches_eq.
    + eapply reaches_trans; [apply (reaches_copy st (lbracket ++ el_before e))|]. fold st2.
      eapply reaches_trans; [exact Hs3|exact Hs4].
    + unfold elementsInput. lens.
    + unfold elementsOutput. lists.
  - apply (reaches_rest_app text _ _ _ _ _ Hs4 Hr3).
Qed.

Lemma parseArray_elements text n st k e l t w tail :
  elementOk e -> repairedWithin k (el_in e) (el_out e) ->
  Forall elementOk l -> withinAll k l -> trailingComma t w ->
  rest text st = lbracket ++ elementsInput e l ++ t ++ rbracket ++ tail ->
  k + length l + 5 <= n ->
  exists st', parseArray text n st = Ret true st'
              /\ reaches st st' (length (lbracket ++ elementsInput e l ++ t ++ rbracket))
                         (lbracket ++ elementsOutput e l ++ w ++ rbracket).
Proof.
  intros He Hk Hok Hin Ht Hr Hn.
  destruct n as [|[|n]]; try lia.
  assert (Hcl : closes (t ++ rbracket ++ tail) = true).
  { destruct Ht as [[-> _]|[-> _]]; reflexivity. }
  destruct (parseArray_body text n st k e l _ He Hk Hok Hin Hcl Hr ltac:(lia))
    as [st4 [Hp [Hs4 Hr4]]].
  rewrite Hp.
  destruct (n - length l) as [|[|[|m]]] eqn:Em; try lia.
  destruct (arrayLoop_end text m st4 t w tail Ht Hr4) as [st5 [He5 Hs5]].
  rewrite He5. cbn [bind].
  assert (Hr5 : rest text st5 = codeClosingBracket :: tail)
    by apply (reaches_rest_app text _ _ _ _ _ Hs5 Hr4).
  rewrite (cur_cons _ _ _ _ Hr5).
  replace (is_code codeClosingBracket (Some codeClosingBracket)) with true by reflexivity.
  eexists. split; [reflexivity|].
  eapply reaches_eq.
  - eapply reaches_trans; [exact Hs4|].
    eapply reaches_trans; [exact Hs5|apply reaches_written].
  - lens.
  - lists.
Qed.

Lemma repairedWithin_more k k' v o : repairedWithin k v o -> k <= k' -> repairedWithin k' v o.
Proof.
  intros H Hk text st w0 w tail m Hr Hw0 Hw Ht Hm. apply (H text st w0 w tail m); auto. lia.
Qed.

Lemma elements_within l :
  Forall elementOk l -> exists k, withinAll k l.
Proof.
  induction 1 as [|e l [_ [_ [[k Hk] _]]] _ [k' IH]].
  - exists 0. constructor.
  - exists (k + k'). constructor.
    + apply (repairedWithin_more k); [exact Hk|lia].
    + eapply Forall_impl; [|exact IH]. intros a Ha. cbv beta in Ha.
      apply (repairedWithin_more k'); [exact Ha|lia].
Qed.

Lemma repaired_array e l t w :
  elementOk e -> Forall elementOk l -> trailingComma t w ->
  properRepair (lbracket ++ elementsInput e l ++ t ++ rbracket)
               (lbracket ++ elementsOutput e l ++ w ++ rbracket).
Proof.
  intros He Hl Ht. split; [|split].
  - destruct (elements_within (e :: l) (Forall_cons _ He Hl)) as [k Hk].
    inversion Hk as [|? ? Hke Hkl]. subst.
    exists (k + length l + 7). intros text st w0 w1 tail m Hr Hw0 Hw1 Hc Hm.
    destruct m as [|[|n]]; try lia.
    set (arr := lbracket ++ elementsInput e l ++ t ++ rbracket) in *.
    assert (Hr1 : rest text (copy w0 st) = arr ++ w1 ++ tail) by now apply rest_copy.
    assert (Hr1' : rest text (copy w0 st)
                   = lbracket ++ elementsInput e l ++ t ++ rbracket ++ w1 ++ tail).
    { rewrite Hr1. unfold arr. lists. }
    destruct (parseArray_elements text (S n) (copy w0 st) k e l t w (w1 ++ tail)
                He Hke Hl Hkl Ht Hr1' ltac:(lia)) as [st2 [Hp Hs2]].
    apply (parseValue_reaches text (S n) st w0 arr _ w1 tail st2); auto.
    apply chain_array; [|exact Hp]. rewrite cur_rest, Hr1. reflexivity.
  - reflexivity.
  - exists (lbracket ++ elementsOutput e l ++ w), codeClosingBracket. split; [|reflexivity].
    unfold rbracket. lists.
Qed.

(** X8: repairs compose over arrays. An array of elements that are each
    repaired, with a comma between them, is repaired to the array of the
    repaired elements, wherever it stands and as the whole input; a comma
    before the closing bracket is taken out, and the whitespace stays. *)
Theorem array_of_repaired_elements e l t w :
  elementOk e -> Forall elementOk l -> trailingComma t w ->
  properRepair (lbracket ++ elementsInput e l ++ t ++ rbracket)
               (lbracket ++ elementsOutput e l ++ w ++ rbracket)
  /\ repairs_to (lbracket ++ elementsInput e l ++ t ++ rbracket)
                (lbracket ++ elementsOutput e l ++ w ++ rbracket).
Proof.
  intros He Hl Ht. pose proof (repaired_array e l t w He Hl Ht) as Hp.
  split; [exact Hp|]. destruct Hp as [Hr _].
  pose proof (repaired_root _ _ [] [] Hr eq_refl eq_refl) as H.
  cbn [app] in H. now rewrite !app_nil_r in H.
Qed.

Lemma array_of_repaired_elements_witness :
  repairs_to (lit "[" ++ (codeQuote :: lit "a" ++ [codeQuote]) ++ lit ", True , ]")
             (lit "[" ++ quoted (lit "a") ++ lit ", true  ]").
Proof.
  apply (array_of_repaired_elements
           {| el_before := []; el_in := codeQuote :: lit "a" ++ [codeQuote];
              el_out := quoted (lit "a"); el_after := [] |}
           [ {| el_before := lit " "; el_in := lit "True"; el_out := lit "true";
                el_after := lit " " |} ]
           (comma ++ lit " ") (lit " ")).
  - split; [reflexivity|split; [reflexivity|]].
    apply (repaired_string codeQuote codeQuote (lit "a")); reflexivity.
  - constructor; [|constructor]. split; [reflexivity|split; [reflexivity|]].
    apply (repaired_keyword (lit "True") (lit "true")). cbn. tauto.
  - right. split; reflexivity.
Defined.

(** ** Arrays cut off *)

Lemma arrayLoop_at_end text m initial st :
  rest text st = [] -> arrayLoop text (S m) initial st = Ret tt st.
Proof. intros Hr. cbn [arrayLoop]. now rewrite (atEnd_nil _ _ Hr). Qed.

Lemma parseValue_at_nothing text n st :
  rest text st = [] -> parseValue text (S (S n)) st = Ret false st.
Proof.
  intros Hr.
  assert (Hw : parseWhitespaceAndSkipComments text st = (false, st))
    by (apply parseWSC_none; now rewrite Hr).
  pose proof (parseValue_nothing text n st) as H. rewrite Hw in H. cbn [snd] in H.
  apply H. now apply atEnd_nil.
Qed.

Lemma arrayLoop_end_open text m st t w :
  trailingComma t w -> rest text st = t ->
  exists st', arrayLoop text (S (S (S m))) false st = Ret tt st'
              /\ reaches st st' (length t) w /\ rest text st' = [].
Proof.
  intros [[-> ->]|[-> Hw]] Hr.
  - exists st. split; [now apply arrayLoop_at_end|]. split; [apply reaches_refl|exact Hr].
  - assert (Hr' : rest text st = comma ++ w ++ []) by now rewrite app_nil_r.
    rewrite (arrayLoop_more text _ st w [] Hr' Hw eq_refl eq_refl).
    assert (Hr1 : rest text (copy (comma ++ w) st) = []).
    { apply rest_copy. now rewrite app_nil_r. }
    rewrite (parseValue_at_nothing text m _ Hr1). cbn [bind negb].
    eexists. split; [reflexivity|]. split; [|exact Hr1].
    split; [reflexivity|]. cbn [set_output output copy forward].
    now rewrite stripLastOccurrence_comma.
Qed.

(** X9: an array that the end of the input cuts off, behind an element or
    behind a comma, is closed: the comma is taken out, and the closing bracket
    is inserted before the trailing whitespace of the output. *)
Theorem truncated_array_closed e l t w w0 :
  elementOk e -> Forall elementOk l -> trailingComma t w -> whitespace w0 = true ->
  repairs_to (w0 ++ lbracket ++ elementsInput e l ++ t)
             (insertBeforeLastWhitespace (w0 ++ lbracket ++ elementsOutput e l ++ w) rbracket).
Proof.
  intros He Hl Ht Hw0.
  destruct (elements_within (e :: l) (Forall_cons _ He Hl)) as [k Hk].
  inversion Hk as [|? ? Hke Hkl]. subst.
  exists (k + length l + 6). intros n Hn.
  destruct n as [|[|[|n]]]; try lia.
  set (text := w0 ++ lbracket ++ elementsInput e l ++ t).
  assert (Hr0 : rest text initialState = w0 ++ lbracket ++ elementsInput e l ++ t) by reflexivity.
  assert (Hr1 : rest text (copy w0 initialState) = lbracket ++ elementsInput e l ++ t)
    by now apply rest_copy.
  assert (Hcl : closes t = true) by (destruct Ht as [[-> _]|[-> _]]; reflexivity).
  destruct (parseArray_body text n (copy w0 initialState) k e l t He Hke Hl Hkl Hcl Hr1
              ltac:(lia)) as [st4 [Hp [Hs4 Hr4]]].
  destruct (n - length l) as [|[|[|m]]] eqn:Em; try lia.
  destruct (arrayLoop_end_open text m st4 t w Ht Hr4) as [st5 [He5 [Hs5 Hr5]]].
  rewrite He5 in Hp. cbn [bind] in Hp.
  rewrite cur_rest, Hr5 in Hp. cbn [hd_error is_code test] in Hp.
  assert (Hv : parseValue text (S (S (S n))) initialState
               = Ret true (set_output (insertBeforeLastWhitespace (output st5) rbracket) st5)).
  { rewrite <- (copy_nil (set_output _ st5)).
    apply (parseValue_around text (S (S n)) initialState w0
             (lbracket ++ elementsInput e l ++ t) [] []); auto.
    apply chain_array; [|exact Hp]. rewrite cur_rest, Hr1. reflexivity. }
  rewrite (run_root_only text _ _ Hv); [|exact Hr5].
  cbn [set_output output]. f_equal.
  assert (Hs : reaches initialState st5 (length (w0 ++ lbracket ++ elementsInput e l ++ t))
                       (w0 ++ lbracket ++ elementsOutput e l ++ w)).
  { eapply reaches_eq.
    - eapply reaches_trans; [apply (reaches_copy initialState w0)|].
      eapply reaches_trans; [exact Hs4|exact Hs5].
    - lens.
    - lists. }
  destruct Hs as [_ ->]. reflexivity.
Qed.

Lemma truncated_array_closed_witness :
  repairs_to (lit "[1, 2, ") (lit "[1, 2] ").
Proof.
  apply (truncated_array_closed
           {| el_before := []; el_in := lit "1"; el_out := lit "1"; el_after := [] |}
           [ {| el_before := lit " "; el_in := lit "2"; el_out := lit "2"; el_after := [] |} ]
           (comma ++ lit " ") (lit " ") []).
  - split; [reflexivity|split; [reflexivity|]].
    apply kept_repaired. now apply isJSONValue_valueText.
  - constructor; [|constructor]. split; [reflexivity|split; [reflexivity|]].
    apply kept_repaired. now apply isJSONValue_valueText.
  - right. split; reflexivity.
  - reflexivity.
Defined.

(** ** Objects of repaired members *)

Lemma keySymbol_parts s :
  isKeySymbol s = true ->
  exists c s', s = c :: s' /\ startsElement c = true /\ (c =? codeBackslash)%N = false
               /\ forallb isSymbolCharacter s = true /\ endsNonWhitespace s.
Proof.
  unfold isKeySymbol. intros H.
  apply andb_true_iff in H as [H Hl]. apply andb_true_iff in H as [Hs Hc].
  apply negb_true_iff in Hl.
  destruct s as [|c s']; [discriminate|]. cbn [hd_error test] in Hs.
  apply andb_true_iff in Hs as [Hs Hb]. apply negb_true_iff in Hb.
  exists c, s'. repeat split; auto.
  apply last_nonwhitespace; [discriminate|exact Hl].
Qed.

Lemma keyRepair_head key out r :
  keyRepair key out -> test startsElement (hd_error (key ++ r)) = true.
Proof.
  intros [[body [_ [-> _]]]|[[q [q' [body [Hq [_ [_ [-> _]]]]]]]|[Hs _]]].
  - reflexivity.
  - cbn [app hd_error test]. unfold startsElement. chars.
  - destruct (keySymbol_parts key Hs) as [c [s' [-> [Hc _]]]]. exact Hc.
Qed.

(** The key of a member and the whitespace behind it. *)
Lemma key_read text st key out wk tail m :
  keyRepair key out -> rest text st = key ++ wk ++ tail -> closes tail = true ->
  whitespace wk = true -> length key + 4 <= m ->
  exists st1,
    orElseM (parseString text m false st) (fun st => parseUnquotedString text m st)
    = Ret true st1
    /\ reaches st (snd (parseWhitespaceAndSkipComments text st1))
               (length (key ++ wk)) (out ++ wk)
    /\ rest text (snd (parseWhitespaceAndSkipComments text st1)) = tail.
Proof.
  intros Hk Hr Ht Hw Hm.
  pose proof (closes_follow _ Ht) as Hf.
  pose proof (closes_not_blank _ Ht) as Hnb.
  destruct Hk as [[body [Hb [-> ->]]]|[[q [q' [body [Hq [Hq' [Hb [-> ->]]]]]]]|[Hs ->]]].
  - rewrite (parseString_kept text body st m wk tail Hb Hr Hw Hf)
      by (unfold quoted in Hm; rewrite !length_app in Hm; cbn [length dquote] in Hm; lia).
    cbn [orElseM bind]. eexists. split; [reflexivity|].
    assert (Hr1 : rest text (copy (quoted body ++ wk) st) = tail).
    { apply rest_copy. rewrite Hr. lists. }
    rewrite parseWSC_none by now rewrite Hr1. cbn [snd].
    split; [apply reaches_copy|exact Hr1].
  - assert (Hr' : rest text st = q :: body ++ q' :: wk ++ tail).
    { rewrite Hr. lists. }
    rewrite (parseString_ordinary text q q' body st m wk tail Hq Hq' Hb Hr' Hw Hf)
      by (cbn [length] in Hm; rewrite length_app in Hm; cbn [length] in Hm; lia).
    cbn [orElseM bind]. eexists. split; [reflexivity|].
    set (st1 := forward _ _ st).
    assert (Hs1 : reaches st st1 (length ((q :: body ++ [q']) ++ wk))
                          (quoted (escapeChars body) ++ wk)).
    { unfold st1. eapply reaches_eq; [apply reaches_forward|lens|reflexivity]. }
    assert (Hr1 : rest text st1 = tail).
    { apply (reaches_rest_app text _ _ _ _ _ Hs1). rewrite Hr. lists. }
    rewrite parseWSC_none by now rewrite Hr1. cbn [snd]. split; [exact Hs1|exact Hr1].
  - destruct (keySymbol_parts key Hs) as [c [s' [E [Hc [Hbs [Ha He]]]]]].
    assert (Hr' : rest text st = c :: s' ++ wk ++ tail) by now rewrite Hr, E.
    destruct m as [|m]; [lia|].
    rewrite parseString_other.
    2: { rewrite (cur_cons _ _ _ _ Hr'). unfold is_code. cbn [test]. now rewrite N.eqb_sym. }
    2: { rewrite (cur_cons _ _ _ _ Hr'). cbn [test].
         rewrite E in Ha. cbn [forallb] in Ha. apply andb_true_iff in Ha as [Ha _].
         unfold isSymbolCharacter in Ha. apply andb_true_iff in Ha as [_ Ha].
         now apply negb_true_iff in Ha. }
    cbn [orElseM bind].
    destruct (parseUnquotedString_run text st key wk tail m
                ltac:(rewrite E; discriminate) Ha He Hr Hw Ht) as [st1 [Hu Hs1]].
    rewrite Hu. eexists. split; [reflexivity|].
    assert (Hr1 : rest text st1 = wk ++ tail)
      by apply (reaches_rest_app text _ _ _ _ _ Hs1 Hr).
    rewrite (parseWSC_copy text st1 wk tail Hr1 Hw Hnb). cbn [snd].
    split.
    + eapply reaches_eq; [eapply reaches_trans; [exact Hs1|apply reaches_copy]|lens|reflexivity].
    + now apply rest_copy.
Qed.

(** Behind whitespace and before what closes, no value is found. *)
Lemma parseValue_skip text n st w tail :
  rest text st = w ++ tail -> whitespace w = true -> test blank (hd_error tail) = false ->
  parseValue text (S n) st = parseValue text (S n) (copy w st).
Proof.
  intros Hr Hw Hb. rewrite !parseValue_chain.
  rewrite (parseWSC_copy text st w tail Hr Hw Hb).
  rewrite (parseWSC_none text (copy w st)); [reflexivity|].
  now rewrite (rest_copy text w tail st Hr).
Qed.

Lemma parseValue_none text n st w tail :
  rest text st = w ++ tail -> whitespace w = true -> closes tail = true ->
  parseValue text (S (S n)) st = Ret false (copy w st).
Proof.
  intros Hr Hw Hc.
  rewrite (parseValue_skip text _ st w tail Hr Hw (closes_not_blank _ Hc)).
  pose proof (rest_copy text w tail st Hr) as Hr1.
  destruct tail as [|c r].
  - now apply parseValue_at_nothing.
  - now apply (parseValue_closing text n _ c r).
Qed.

Lemma objectLoop_member text m0 initial st pre wb mem tail k :
  (initial = true /\ pre = []) \/ (initial = false /\ pre = comma) ->
  whitespace wb = true -> keyRepair (m_key mem) (m_key_out mem) ->
  whitespace (m_wk mem) = true -> whitespace (m_wc mem) = true ->
  memberValueWithin k (m_in mem) (m_out mem) (m_after mem) ->
  whitespace (m_after mem) = true ->
  rest text st = pre ++ wb ++ memberInput mem ++ tail -> closes tail = true ->
  k <= m0 -> length (m_key mem) + 4 <= m0 ->
  exists st', objectLoop text (S m0) initial st = objectLoop text m0 false st'
              /\ reaches st st' (length (pre ++ wb ++ memberInput mem))
                         (pre ++ wb ++ memberOutput mem).
Proof.
  intros Hi Hwb Hkey Hwk Hwc Hv Hwa Hr Ht Hk Hm.
  unfold memberInput in Hr. rewrite <- !app_assoc in Hr.
  pose proof (keyRepair_head _ _ (m_wk mem ++ colon ++ m_wc mem ++ m_in mem ++ m_after mem ++ tail)
                Hkey) as Hh.
  destruct (startsElement_facts _ Hh) as [c [r0 [E [Hb [_ [Hd [_ Hcb]]]]]]].
  assert (Hcur : exists x r1, rest text st = x :: r1 /\ (x =? codeClosingBrace)%N = false).
  { rewrite Hr. destruct Hi as [[_ ->]|[_ ->]].
    - destruct wb as [|x wb]; cbn [app].
      + rewrite E. now exists c, r0.
      + eexists x, _. split; [reflexivity|].
        cbn [whitespace forallb] in Hwb. apply andb_true_iff in Hwb as [Hx _]. chars.
    - eexists codeComma, _. split; reflexivity. }
  destruct Hcur as [x [r1 [Hrx Hx]]].
  cbn [objectLoop]. rewrite (atEnd_cons _ _ _ _ Hrx), (cur_cons _ _ _ _ Hrx).
  replace (is_code codeClosingBrace (Some x)) with false
    by (symmetry; unfold is_code; cbn [test]; now rewrite N.eqb_sym).
  cbn [negb andb].
  set (l := m_key mem ++ m_wk mem ++ colon ++ m_wc mem ++ m_in mem ++ m_after mem ++ tail) in *.
  assert (Hdot : is_code codeDot (hd_error l) = false).
  { rewrite E. unfold is_code. cbn [hd_error test]. now rewrite N.eqb_sym. }
  assert (Hnb : test blank (hd_error l) = false) by (rewrite E; exact Hb).
  assert (Hstep :
    (let '(_, st0) :=
       skipEllipsis text
         (if negb initial
          then let '(processedComma, st0) := parseCharacter text codeComma st in
               snd (parseWhitespaceAndSkipComments text
                      (if negb processedComma
                       then set_output (insertBeforeLastWhitespace (output st0) comma) st0
                       else st0))
          else st) in st0) = copy (pre ++ wb) st).
  { destruct Hi as [[-> ->]|[-> ->]]; cbn [negb app] in *.
    - now rewrite (skipEllipsis_copy text st wb l Hr Hwb Hnb Hdot).
    - unfold comma in Hr. cbn [app] in Hr.
      rewrite (parseCharacter_copy _ _ _ _ Hr). cbn [negb].
      assert (Hr1 : rest text (copy [codeComma] st) = wb ++ l)
        by now apply (rest_copy text [codeComma]).
      rewrite (parseWSC_copy text _ wb l Hr1 Hwb Hnb). cbn [snd].
      assert (Hr2 : rest text (copy wb (copy [codeComma] st)) = [] ++ l) by now apply rest_copy.
      rewrite (skipEllipsis_copy text _ [] l Hr2 eq_refl Hnb Hdot).
      now rewrite copy_nil, copy_copy. }
  destruct (skipEllipsis text _) as [be sE]. cbv beta iota in Hstep. subst sE.
  assert (HrE : rest text (copy (pre ++ wb) st) = l).
  { apply rest_copy. rewrite Hr. lists. }
  destruct (key_read text _ (m_key mem) (m_key_out mem) (m_wk mem)
              (colon ++ m_wc mem ++ m_in mem ++ m_after mem ++ tail) m0 Hkey HrE eq_refl Hwk Hm)
    as [st1 [Hkr [Hs1 Hr1]]].
  rewrite Hkr. cbn [bind negb].
  destruct (parseWhitespaceAndSkipComments text st1) as [b1 st2]. cbn [snd] in *.
  unfold colon in Hr1. cbn [app] in Hr1.
  rewrite (parseCharacter_copy _ _ _ _ Hr1). cbn [negb bind].
  assert (Hr3 : rest text (copy [codeColon] st2)
                = m_wc mem ++ m_in mem ++ m_after mem ++ tail)
    by now apply (rest_copy text [codeColon]).
  destruct Hv as [Hv|[Hin [Hout Haft]]].
  - destruct (Hv text _ (m_wc mem) (m_after mem) tail m0 Hr3 Hwc Hwa Ht Hk)
      as [st4 [Hpv Hs4]].
    rewrite Hpv. cbn [bind negb].
    exists st4. split; [reflexivity|].
    eapply reaches_eq.
    + eapply reaches_trans; [apply (reaches_copy st (pre ++ wb))|].
      eapply reaches_trans; [exact Hs1|].
      eapply reaches_trans; [apply (reaches_copy st2 [codeColon])|exact Hs4].
    + unfold memberInput. lens.
    + unfold memberOutput, colon. lists.
  - rewrite Hin, Haft in Hr3. cbn [app] in Hr3.
    destruct m0 as [|[|m1]]; try lia.
    rewrite (parseValue_none text m1 _ (m_wc mem) tail Hr3 Hwc Ht).
    cbn [bind negb orb].
    eexists. split; [reflexivity|].
    eapply reaches_eq.
    + eapply reaches_trans; [apply (reaches_copy st (pre ++ wb))|].
      eapply reaches_trans; [exact Hs1|].
      eapply reaches_trans; [apply (reaches_copy st2 [codeColon])|].
      eapply reaches_trans; [apply (reaches_copy _ (m_wc mem))|].
      rewrite emit_forward. apply reaches_forward.
    + unfold memberInput. rewrite Hin, Haft. lens.
    + unfold memberOutput, colon. rewrite Hout, Haft. lists.
Qed.

Lemma moreMembersInput_closes l tail :
  closes tail = true -> closes (moreMembersInput l ++ tail) = true.
Proof. intros H. destruct l; [exact H|reflexivity]. Qed.

(** The members behind the first one. *)
Lemma objectLoop_members k l :
  Forall memberOk l -> membersWithin k l ->
  forall text st tail m,
    rest text st = moreMembersInput l ++ tail -> closes tail = true -> k <= m ->
    exists st', objectLoop text (length l + m) false st = objectLoop text m false st'
                /\ reaches st st' (length (moreMembersInput l)) (moreMembersOutput l).
Proof.
  induction l as [|mem l IH]; intros Hok Hin text st tail m Hr Ht Hm.
  - exists st. split; [reflexivity|apply reaches_refl].
  - inversion Hok as [|? ? [Hwb [Hkey [Hwk [Hwc [_ Hwa]]]]] Hok']. subst.
    inversion Hin as [|? ? [Hk Hkk] Hin']. subst.
    cbn [moreMembersInput] in Hr. rewrite <- !app_assoc in Hr.
    cbn [length Nat.add].
    destruct (objectLoop_member text (length l + m) false st comma (m_before mem) mem
                (moreMembersInput l ++ tail) k (or_intror (conj eq_refl eq_refl))
                Hwb Hkey Hwk Hwc Hk Hwa Hr (moreMembersInput_closes l tail Ht)
                ltac:(lia) ltac:(lia)) as [st1 [Hl Hs1]].
    rewrite Hl.
    assert (Hr1 : rest text st1 = moreMembersInput l ++ tail).
    { apply (reaches_rest_app text _ _ _ _ _ Hs1). rewrite Hr. lists. }
    destruct (IH Hok' Hin' text st1 tail m Hr1 Ht Hm) as [st2 [Hl2 Hs2]].
    exists st2. split; [exact Hl2|].
    eapply reaches_eq; [eapply reaches_trans; [exact Hs1|exact Hs2]| |].
    + cbn [moreMembersInput]. lens.
    + cbn [moreMembersOutput]. lists.
Qed.

Lemma parseUnquotedString_nothing text n st :
  test isSymbolCharacter (hd_error (rest text st)) = false ->
  parseUnquotedString text (S n) st = Ret false st.
Proof.
  intros H. cbn [parseUnquotedString].
  assert (Hs : span (fun c => negb (isDelimiterExceptSlash c) && negb (isQuote c))
                    (rest text st) = 0).
  { destruct (rest text st) as [|c r]; [reflexivity|]. cbn [hd_error test] in H.
    unfold isSymbolCharacter in H. cbn [span]. now rewrite H. }
  now rewrite Hs, advance_0, Nat.ltb_irrefl.
Qed.

(** A comma before the closing brace is taken out again. *)
Lemma objectLoop_trailing text m st w tail :
  rest text st = comma ++ w ++ rbrace ++ tail -> whitespace w = true ->
  exists st', objectLoop text (S (S m)) false st = Ret tt st'
              /\ reaches st st' (length (comma ++ w)) w.
Proof.
  intros Hr Hw. unfold comma in Hr. cbn [app] in Hr.
  remember (S m) as n eqn:En.
  cbn [objectLoop]. rewrite (atEnd_cons _ _ _ _ Hr), (cur_cons _ _ _ _ Hr).
  replace (is_code codeClosingBrace (Some codeComma)) with false by reflexivity.
  cbn [negb andb]. rewrite (parseCharacter_copy _ _ _ _ Hr). cbn [negb].
  assert (Hr1 : rest text (copy [codeComma] st) = w ++ rbrace ++ tail)
    by now apply (rest_copy text [codeComma]).
  rewrite (parseWSC_copy text _ w _ Hr1 Hw eq_refl). cbn [snd]. rewrite copy_copy.
  set (st2 := copy ([codeComma] ++ w) st).
  assert (Hr2 : rest text st2 = codeClosingBrace :: tail).
  { unfold st2. apply rest_copy. rewrite Hr. lists. }
  rewrite skipEllipsis_none by (rewrite (cur_cons _ _ _ _ Hr2); reflexivity).
  assert (Hk : orElseM (parseString text n false st2)
                       (fun st => parseUnquotedString text n st) = Ret false st2).
  { subst n.
    rewrite parseString_other by (rewrite (cur_cons _ _ _ _ Hr2); reflexivity).
    cbn [orElseM bind].
    now rewrite parseUnquotedString_nothing by (rewrite Hr2; reflexivity). }
  rewrite Hk. cbn [bind].
  cbn [negb]. rewrite (cur_cons _ _ _ _ Hr2).
  replace (is_code codeClosingBrace (Some codeClosingBrace)) with true by reflexivity.
  cbn [orb]. eexists. split; [reflexivity|].
  split; [reflexivity|]. unfold st2. cbn [set_output output copy forward app].
  change (output st ++ codeComma :: w) with (output st ++ comma ++ w).
  now rewrite stripLastOccurrence_comma.
Qed.

Lemma objectLoop_end text m st t w tail :
  trailingComma t w -> rest text st = t ++ rbrace ++ tail ->
  exists st', objectLoop text (S (S m)) false st = Ret tt st'
              /\ reaches st st' (length t) w.
Proof.
  intros [[-> ->]|[-> Hw]] Hr.
  - exists st. split; [|apply reaches_refl]. apply (objectLoop_stop text _ false st tail Hr).
  - now apply (objectLoop_trailing text m st w tail).
Qed.

(** An opening brace and members: [parseObject] up to the end of the
    members. *)
Lemma parseObject_body text n st k mem l tail :
  memberOk mem -> membersWithin k (mem :: l) -> Forall memberOk l -> closes tail = true ->
  rest text st = lbrace ++ membersInput mem l ++ tail ->
  k + length l <= n ->
  exists st4,
    parseObject text (S (S n)) st
    = (let* (_u, st) := objectLoop text (n - length l) false st4 in
       if is_code codeClosingBrace (cur text st)
       then Ret true (advance Object 1 (emit rbrace st))
       else Ret true (set_output (insertBeforeLastWhitespace (output st) rbrace) st))
    /\ reaches st st4 (length (lbrace ++ membersInput mem l)) (lbrace ++ membersOutput mem l)
    /\ rest text st4 = tail.
Proof.
  intros [Hwb [Hkey [Hwk [Hwc [_ Hwa]]]]] Hin Hok Hcl Hr Hn.
  inversion Hin as [|? ? [Hk Hkk] Hin']. subst.
  unfold membersInput in Hr. rewrite <- !app_assoc in Hr.
  unfold lbrace in Hr. cbn [app] in Hr.
  cbn [parseObject]. rewrite (cur_cons _ _ _ _ Hr).
  replace (is_code codeOpeningBrace (Some codeOpeningBrace)) with true by reflexivity.
  replace (advance Object 1 (emit lbrace st)) with (copy lbrace st)
    by (rewrite emit_forward, advance_forward; same_state).
  assert (Hr1 : rest text (copy lbrace st)
                = m_before mem ++ memberInput mem ++ moreMembersInput l ++ tail).
  { apply (rest_copy text lbrace). rewrite Hr. unfold lbrace. lists. }
  pose proof (keyRepair_head _ _ (m_wk mem ++ colon ++ m_wc mem ++ m_in mem ++ m_after mem
                                  ++ moreMembersInput l ++ tail) Hkey) as Hh.
  assert (Hh' : test startsElement
                     (hd_error (memberInput mem ++ moreMembersInput l ++ tail))
                = true).
  { unfold memberInput. rewrite <- !app_assoc. exact Hh. }
  rewrite (parseWSC_copy text _ _ _ Hr1 Hwb (startsElement_not_blank _ Hh')).
  rewrite copy_copy.
  set (st2 := copy (lbrace ++ m_before mem) st).
  assert (Hr2 : rest text st2
                = [] ++ [] ++ memberInput mem ++ moreMembersInput l ++ tail).
  { unfold st2. rewrite <- copy_copy. now apply rest_copy. }
  destruct (startsElement_facts _ Hh') as [c [r [E [_ [Hc _]]]]].
  rewrite skipCharacter_other
    by (rewrite cur_rest, Hr2; cbn [app]; rewrite E; unfold is_code; cbn [hd_error test];
        now rewrite N.eqb_sym).
  destruct (objectLoop_member text n true st2 [] [] mem _ k
              (or_introl (conj eq_refl eq_refl)) eq_refl Hkey Hwk Hwc Hk Hwa Hr2
              (moreMembersInput_closes l _ Hcl) ltac:(lia) ltac:(lia)) as [st3 [Hl Hs3]].
  rewrite Hl.
  assert (Hr3 : rest text st3 = moreMembersInput l ++ tail)
    by apply (reaches_rest_app text _ _ _ _ _ Hs3 Hr2).
  destruct (objectLoop_members k l Hok Hin' text st3 _ (n - length l) Hr3 Hcl ltac:(lia))
    as [st4 [Hl4 Hs4]].
  replace (length l + (n - length l)) with n in Hl4 by lia.
  rewrite Hl4. exists st4. split; [reflexivity|]. split.
  - eapply reaches_eq.
    + eapply reaches_trans; [apply (reaches_copy st (lbrace ++ m_before mem))|]. fold st2.
      eapply reaches_trans; [exact Hs3|exact Hs4].
    + unfold membersInput. lens.
    + unfold membersOutput. lists.
  - apply (reaches_rest_app text _ _ _ _ _ Hs4 Hr3).
Qed.

Lemma parseObject_members text n st k mem l t w tail :
  memberOk mem -> membersWithin k (mem :: l) -> Forall memberOk l -> trailingComma t w ->
  rest text st = lbrace ++ membersInput mem l ++ t ++ rbrace ++ tail ->
  k + length l + 4 <= n ->
  exists st', parseObject text n st = Ret true st'
              /\ reaches st st' (length (lbrace ++ membersInput mem l ++ t ++ rbrace))
                         (lbrace ++ membersOutput mem l ++ w ++ rbrace).
Proof.
  intros He Hin Hok Ht Hr Hn.
  destruct n as [|[|n]]; try lia.
  assert (Hcl : closes (t ++ rbrace ++ tail) = true).
  { destruct Ht as [[-> _]|[-> _]]; reflexivity. }
  destruct (parseObject_body text n st k mem l _ He Hin Hok Hcl Hr ltac:(lia))
    as [st4 [Hp [Hs4 Hr4]]].
  rewrite Hp.
  destruct (n - length l) as [|[|m]] eqn:Em; try lia.
  destruct (objectLoop_end text m st4 t w tail Ht Hr4) as [st5 [He5 Hs5]].
  rewrite He5. cbn [bind].
  assert (Hr5 : rest text st5 = codeClosingBrace :: tail)
    by apply (reaches_rest_app text _ _ _ _ _ Hs5 Hr4).
  rewrite (cur_cons _ _ _ _ Hr5).
  replace (is_code codeClosingBrace (Some codeClosingBrace)) with true by reflexivity.
  eexists. split; [reflexivity|].
  eapply reaches_eq.
  - eapply reaches_trans; [exact Hs4|].
    eapply reaches_trans; [exact Hs5|apply reaches_written].
  - lens.
  - lists.
Qed.

Lemma members_within l : Forall memberOk l -> exists k, membersWithin k l.
Proof.
  induction 1 as [|mem l [_ [_ [_ [_ [Hv _]]]]] _ [k' IH]].
  - exists 0. constructor.
  - assert (Hk : exists k, memberValueWithin k (m_in mem) (m_out mem) (m_after mem)).
    { destruct Hv as [[k Hk]|Hn]; [exists k; now left|exists 0; now right]. }
    destruct Hk as [k Hk].
    exists (k + k' + length (m_key mem) + 4). constructor.
    + split; [|lia]. destruct Hk as [Hk|Hn]; [left|now right].
      apply (repairedWithin_more k); [exact Hk|lia].
    + eapply Forall_impl; [|exact IH]. intros a [Ha Hb]. split; [|lia].
      destruct Ha as [Ha|Hn]; [left|now right].
      apply (repairedWithin_more k'); [exact Ha|lia].
Qed.

Lemma repaired_object mem l t w :
  memberOk mem -> Forall memberOk l -> trailingComma t w ->
  properRepair (lbrace ++ membersInput mem l ++ t ++ rbrace)
               (lbrace ++ membersOutput mem l ++ w ++ rbrace).
Proof.
  intros He Hl Ht. split; [|split].
  - destruct (members_within (mem :: l) (Forall_cons _ He Hl)) as [k Hk].
    exists (k + length l + 6). intros text st w0 w1 tail m Hr Hw0 Hw1 Hc Hm.
    destruct m as [|[|n]]; try lia.
    set (obj := lbrace ++ membersInput mem l ++ t ++ rbrace) in *.
    assert (Hr1 : rest text (copy w0 st) = obj ++ w1 ++ tail) by now apply rest_copy.
    assert (Hr1' : rest text (copy w0 st)
                   = lbrace ++ membersInput mem l ++ t ++ rbrace ++ w1 ++ tail).
    { rewrite Hr1. unfold obj. lists. }
    destruct (parseObject_members text (S n) (copy w0 st) k mem l t w (w1 ++ tail)
                He Hk Hl Ht Hr1' ltac:(lia)) as [st2 [Hp Hs2]].
    apply (parseValue_reaches text (S n) st w0 obj _ w1 tail st2); auto.
    now apply chain_object.
  - reflexivity.
  - exists (lbrace ++ membersOutput mem l ++ w), codeClosingBrace. split; [|reflexivity].
    unfold rbrace. lists.
Qed.

(** X10: repairs compose over objects. An object of members, each a key (a
    JSON string, a string in other quotes or an unquoted key), a colon and a
    value that is repaired, with a comma between the members, is repaired to
    the object of the keys in double quotes and the repaired values, wherever
    it stands and as the whole input; a member with no value behind its colon
    gets [null], and a comma before the closing brace is taken out. *)
Theorem object_of_repaired_members mem l t w :
  memberOk mem -> Forall memberOk l -> trailingComma t w ->
  properRepair (lbrace ++ membersInput mem l ++ t ++ rbrace)
               (lbrace ++ membersOutput mem l ++ w ++ rbrace)
  /\ repairs_to (lbrace ++ membersInput mem l ++ t ++ rbrace)
                (lbrace ++ membersOutput mem l ++ w ++ rbrace).
Proof.
  intros He Hl Ht. pose proof (repaired_object mem l t w He Hl Ht) as Hp.
  split; [exact Hp|]. destruct Hp as [Hr _].
  pose proof (repaired_root _ _ [] [] Hr eq_refl eq_refl) as H.
  cbn [app] in H. now rewrite !app_nil_r in H.
Qed.

Lemma object_of_repaired_members_witness :
  repairs_to (lit "{name: " ++ (codeQuote :: lit "John" ++ [codeQuote]) ++ lit ", age: }")
             (lit "{" ++ quoted (lit "name") ++ lit ": " ++ quoted (lit "John")
              ++ lit ", " ++ quoted (lit "age") ++ lit ": null}").
Proof.
  apply (object_of_repaired_members
           {| m_before := []; m_key := lit "name"; m_key_out := quoted (lit "name");
              m_wk := []; m_wc := lit " ";
              m_in := codeQuote :: lit "John" ++ [codeQuote];
              m_out := quoted (lit "John"); m_after := [] |}
           [ {| m_before := lit " "; m_key := lit "age"; m_key_out := quoted (lit "age");
                m_wk := []; m_wc := lit " ";
                m_in := []; m_out := lit "null"; m_after := [] |} ]
           [] []).
  - split; [reflexivity|]. split; [right; right; split; reflexivity|].
    split; [reflexivity|]. split; [reflexivity|]. split; [left|reflexivity].
    apply (repaired_string codeQuote codeQuote (lit "John")); reflexivity.
  - constructor; [|constructor].
    split; [reflexivity|]. split; [right; right; split; reflexivity|].
    split; [reflexivity|]. split; [reflexivity|]. split; [right|reflexivity].
    repeat split.
  - left. split; reflexivity.
Defined.

(** ** Objects cut off *)

Lemma objectLoop_at_end text m initial st :
  rest text st = [] -> objectLoop text (S m) initial st = Ret tt st.
Proof. intros Hr. cbn [objectLoop]. now rewrite (atEnd_nil _ _ Hr). Qed.

Lemma parseString_nothing text n b st : rest text st = [] -> parseString text (S n) b st = Ret false st.
Proof.
  intros Hr. apply parseString_other; now rewrite cur_rest, Hr.
Qed.

Lemma objectLoop_end_open text m st t w :
  trailingComma t w -> rest text st = t ->
  exists st', objectLoop text (S (S m)) false st = Ret tt st'
              /\ reaches st st' (length t) w /\ rest text st' = [].
Proof.
  intros [[-> ->]|[-> Hw]] Hr.
  - exists st. split; [now apply objectLoop_at_end|]. split; [apply reaches_refl|exact Hr].
  - unfold comma in Hr. cbn [app] in Hr.
    remember (S m) as n eqn:En.
    cbn [objectLoop]. rewrite (atEnd_cons _ _ _ _ Hr), (cur_cons _ _ _ _ Hr).
    replace (is_code codeClosingBrace (Some codeComma)) with false by reflexivity.
    cbn [negb andb]. rewrite (parseCharacter_copy _ _ _ _ Hr). cbn [negb].
    assert (Hr1 : rest text (copy [codeComma] st) = w ++ [])
      by (rewrite app_nil_r; now apply (rest_copy text [codeComma])).
    rewrite (parseWSC_copy text _ w _ Hr1 Hw eq_refl). cbn [snd]. rewrite copy_copy.
    remember (copy ([codeComma] ++ w) st) as st2 eqn:Est2.
    assert (Hr2 : rest text st2 = []).
    { subst st2. rewrite <- copy_copy. now apply rest_copy. }
    assert (Hc2 : cur text st2 = None) by now rewrite cur_rest, Hr2.
    assert (Hsk : skipEllipsis text st2 = (false, st2))
      by (apply skipEllipsis_none; rewrite Hc2; reflexivity).
    rewrite Hsk.
    subst n. rewrite (parseString_nothing text m false st2 Hr2). cbn [orElseM bind].
    rewrite parseUnquotedString_nothing by (rewrite Hr2; reflexivity).
    cbn [bind negb]. rewrite Hc2, (atEnd_nil _ _ Hr2). cbn [is_code test orb].
    eexists. split; [reflexivity|]. split; [|exact Hr2].
    subst st2. split; [reflexivity|]. cbn [set_output output copy forward app].
    change (output st ++ codeComma :: w) with (output st ++ comma ++ w).
    now rewrite stripLastOccurrence_comma.
Qed.

(** X11: an object that the end of the input cuts off, behind a member or
    behind a comma, is closed: the comma is taken out, and the closing brace
    is inserted before the trailing whitespace of the output. *)
Theorem truncated_object_closed mem l t w w0 :
  memberOk mem -> Forall memberOk l -> trailingComma t w -> whitespace w0 = true ->
  repairs_to (w0 ++ lbrace ++ membersInput mem l ++ t)
             (insertBeforeLastWhitespace (w0 ++ lbrace ++ membersOutput mem l ++ w) rbrace).
Proof.
  intros He Hl Ht Hw0.
  destruct (members_within (mem :: l) (Forall_cons _ He Hl)) as [k Hk].
  exists (k + length l + 5). intros n Hn.
  destruct n as [|[|[|n]]]; try lia.
  set (text := w0 ++ lbrace ++ membersInput mem l ++ t).
  assert (Hr0 : rest text initialState = w0 ++ lbrace ++ membersInput mem l ++ t) by reflexivity.
  assert (Hr1 : rest text (copy w0 initialState) = lbrace ++ membersInput mem l ++ t)
    by now apply rest_copy.
  assert (Hcl : closes t = true) by (destruct Ht as [[-> _]|[-> _]]; reflexivity).
  destruct (parseObject_body text n (copy w0 initialState) k mem l t He Hk Hl Hcl Hr1
              ltac:(lia)) as [st4 [Hp [Hs4 Hr4]]].
  destruct (n - length l) as [|[|m]] eqn:Em; try lia.
  destruct (objectLoop_end_open text m st4 t w Ht Hr4) as [st5 [He5 [Hs5 Hr5]]].
  rewrite He5 in Hp. cbn [bind] in Hp.
  rewrite cur_rest, Hr5 in Hp. cbn [hd_error is_code test] in Hp.
  assert (Hv : parseValue text (S (S (S n))) initialState
               = Ret true (set_output (insertBeforeLastWhitespace (output st5) rbrace) st5)).
  { rewrite <- (copy_nil (set_output _ st5)).
    apply (parseValue_around text (S (S n)) initialState w0
             (lbrace ++ membersInput mem l ++ t) [] []); auto.
    now apply chain_object. }
  rewrite (run_root_only text _ _ Hv); [|exact Hr5].
  cbn [set_output output]. f_equal.
  assert (Hs : reaches initialState st5 (length (w0 ++ lbrace ++ membersInput mem l ++ t))
                       (w0 ++ lbrace ++ membersOutput mem l ++ w)).
  { eapply reaches_eq.
    - eapply reaches_trans; [apply (reaches_copy initialState w0)|].
      eapply reaches_trans; [exact Hs4|exact Hs5].
    - lens.
    - lists. }
  destruct Hs as [_ ->]. reflexivity.
Qed.

Lemma truncated_object_closed_witness :
  repairs_to (lit "{a: 1 ") (lit "{" ++ quoted (lit "a") ++ lit ": 1} ").
Proof.
  apply (truncated_object_closed
           {| m_before := []; m_key := lit "a"; m_key_out := quoted (lit "a");
              m_wk := []; m_wc := lit " "; m_in := lit "1"; m_out := lit "1";
              m_after := lit " " |}
           [] [] [] []).
  - split; [reflexivity|]. split; [right; right; split; reflexivity|].
    split; [reflexivity|]. split; [reflexivity|]. split; [left|reflexivity].
    apply kept_repaired. now apply isJSONValue_valueText.
  - constructor.
  - left. split; reflexivity.
  - reflexivity.
Defined.

(** ** Ellipses and leading commas *)

Lemma skipEllipsis_dots text st w1 w2 l :
  rest text st = w1 ++ dots ++ w2 ++ l -> whitespace w1 = true -> whitespace w2 = true ->
  test blank (hd_error l) = false -> is_code codeComma (hd_error l) = false ->
  skipEllipsis text st = (true, forward (length (w1 ++ dots ++ w2)) (w1 ++ w2) st).
Proof.
  intros Hr Hw1 Hw2 Hb Hc. unfold skipEllipsis.
  rewrite (parseWSC_copy text st w1 (dots ++ w2 ++ l) Hr Hw1 eq_refl).
  assert (Hr1 : rest text (copy w1 st) = codeDot :: codeDot :: codeDot :: w2 ++ l)
    by now apply rest_copy.
  rewrite (cur_cons _ _ _ _ Hr1), !charCodeAt_ahead, Hr1. cbn [nth_error is_code test].
  rewrite N.eqb_refl. cbn [andb].
  assert (Hr2 : rest text (advance Ellipsis 3 (copy w1 st)) = w2 ++ l)
    by now rewrite advance_forward, rest_forward, Hr1.
  rewrite (parseWSC_copy text _ w2 l Hr2 Hw2 Hb).
  rewrite skipCharacter_other by (rewrite cur_rest, (rest_copy text w2 l _ Hr2); exact Hc).
  f_equal. unfold copy. rewrite advance_forward, !forward_forward.
  apply forward_eq; [unfold dots; lens|lists].
Qed.

Lemma arrayLoop_ellipsis text m st w1 w2 tail :
  rest text st = comma ++ w1 ++ dots ++ w2 ++ rbracket ++ tail ->
  whitespace w1 = true -> whitespace w2 = true ->
  exists st', arrayLoop text (S (S (S m))) false st = Ret tt st'
              /\ reaches st st' (length (comma ++ w1 ++ dots ++ w2)) (w1 ++ w2).
Proof.
  intros Hr Hw1 Hw2. unfold comma in Hr. cbn [app] in Hr.
  remember (S (S m)) as n eqn:En.
  cbn [arrayLoop]. rewrite (atEnd_cons _ _ _ _ Hr), (cur_cons _ _ _ _ Hr).
  replace (is_code codeClosingBracket (Some codeComma)) with false by reflexivity.
  cbn [negb andb]. rewrite (parseCharacter_copy _ _ _ _ Hr). cbn [negb].
  assert (Hr1 : rest text (copy [codeComma] st) = w1 ++ dots ++ w2 ++ rbracket ++ tail)
    by now apply (rest_copy text [codeComma]).
  rewrite (skipEllipsis_dots text _ w1 w2 _ Hr1 Hw1 Hw2 eq_refl eq_refl).
  set (st2 := forward (length (w1 ++ dots ++ w2)) (w1 ++ w2) (copy [codeComma] st)).
  assert (Hr2 : rest text st2 = codeClosingBracket :: tail).
  { unfold st2. rewrite rest_forward, Hr1.
    replace (w1 ++ dots ++ w2 ++ rbracket ++ tail)
      with ((w1 ++ dots ++ w2) ++ rbracket ++ tail) by lists.
    apply skipn_length_app. }
  subst n. rewrite (parseValue_closing text m _ _ _ Hr2 eq_refl). cbn [bind negb].
  eexists. split; [reflexivity|]. split.
  - unfold st2. cbn [i set_output forward copy]. unfold comma. lens.
  - unfold st2. cbn [set_output output copy forward].
    replace ((output st ++ [codeComma]) ++ w1 ++ w2) with (output st ++ comma ++ (w1 ++ w2))
      by (unfold comma; lists).
    rewrite stripLastOccurrence_comma; [reflexivity|].
    unfold whitespace in *. rewrite forallb_app. now rewrite Hw1, Hw2.
Qed.

(** The elements of an array, from the first one on. *)
Lemma arrayLoop_body text n st k e l tail :
  elementOk e -> repairedWithin k (el_in e) (el_out e) ->
  Forall elementOk l -> withinAll k l -> closes tail = true ->
  rest text st = el_in e ++ el_after e ++ moreInput l ++ tail ->
  k + length l <= n ->
  exists st4,
    arrayLoop text (S n) true st = arrayLoop text (n - length l) false st4
    /\ reaches st st4 (length (el_in e ++ el_after e ++ moreInput l))
               (el_out e ++ el_after e ++ moreOutput l)
    /\ rest text st4 = tail.
Proof.
  intros [Hwb [Hwa Hp]] Hk Hok Hin Hcl Hr Hn.
  pose proof (properRepair_head _ _ (el_after e ++ moreInput l ++ tail) Hp) as Hh.
  rewrite (arrayLoop_first text n st _ Hr Hh).
  assert (Hr' : rest text st = [] ++ el_in e ++ el_after e ++ (moreInput l ++ tail))
    by exact Hr.
  destruct (Hk text st [] (el_after e) _ n Hr' eq_refl Hwa
              (moreInput_closes l _ Hcl) ltac:(lia)) as [st3 [Hv Hs3]].
  rewrite Hv. cbn [bind negb].
  assert (Hr3 : rest text st3 = moreInput l ++ tail).
  { rewrite (reaches_rest text _ _ _ _ Hs3), Hr'. cbn [app].
    rewrite app_assoc. apply skipn_length_app. }
  destruct (arrayLoop_elements k l Hok Hin text st3 _ (n - length l) Hr3 Hcl ltac:(lia))
    as [st4 [Hl Hs4]].
  replace (length l + (n - length l)) with n in Hl by lia.
  rewrite Hl. exists st4. split; [reflexivity|]. split.
  - eapply reaches_eq; [eapply reaches_trans; [exact Hs3|exact Hs4]|lens|lists].
  - apply (reaches_rest_app text _ _ _ _ _ Hs4 Hr3).
Qed.

(** An array with what may stand before its first element and before its
    closing bracket. *)
Lemma parseArray_general text n st k lead lw e l t w tail :
  leadingComma lead lw ->
  elementOk e -> repairedWithin k (el_in e) (el_out e) ->
  Forall elementOk l -> withinAll k l ->
  closes (t ++ rbracket ++ tail) = true ->
  (forall m st4, rest text st4 = t ++ rbracket ++ tail ->
     exists st', arrayLoop text (S (S (S m))) false st4 = Ret tt st'
                 /\ reaches st4 st' (length t) w) ->
  rest text st = lbracket ++ lead ++ elementsInput e l ++ t ++ rbracket ++ tail ->
  k + length l + 5 <= n ->
  exists st', parseArray text n st = Ret true st'
              /\ reaches st st'
                   (length (lbracket ++ lead ++ elementsInput e l ++ t ++ rbracket))
                   (lbracket ++ lw ++ elementsOutput e l ++ w ++ rbracket).
Proof.
  intros Hlead He Hk Hok Hin Hcl Hend Hr Hn.
  destruct n as [|[|n]]; try lia.
  pose proof He as [Hwb [Hwa Hp]].
  unfold elementsInput in Hr. unfold lbracket in Hr. cbn [app] in Hr.
  remember (S n) as n1 eqn:En1.
  cbn [parseArray]. rewrite (cur_cons _ _ _ _ Hr).
  replace (is_code codeOpeningBracket (Some codeOpeningBracket)) with true by reflexivity.
  replace (advance Array 1 (emit lbracket st)) with (copy lbracket st)
    by (rewrite emit_forward, advance_forward; same_state).
  pose proof (properRepair_head _ _ (el_after e ++ moreInput l ++ t ++ rbracket ++ tail) Hp)
    as Hh.
  assert (Hbody : exists st2,
             (let st := snd (parseWhitespaceAndSkipComments text (copy lbracket st)) in
              let '(skipped, st1) := skipCharacter text codeComma st in
              if skipped then snd (parseWhitespaceAndSkipComments text st1) else st1) = st2
             /\ reaches st st2 (length (lbracket ++ lead ++ el_before e))
                               (lbracket ++ lw ++ el_before e)
             /\ rest text st2
                = el_in e ++ el_after e ++ moreInput l ++ t ++ rbracket ++ tail).
  { destruct Hlead as [[-> ->]|[-> Hlw]].
    - cbn [app] in Hr.
      assert (Hr1 : rest text (copy lbracket st)
                    = el_before e ++ el_in e ++ el_after e ++ moreInput l
                      ++ t ++ rbracket ++ tail).
      { apply (rest_copy text lbracket). rewrite Hr. unfold lbracket. lists. }
      rewrite (parseWSC_copy text _ _ _ Hr1 Hwb (startsElement_not_blank _ Hh)).
      cbn [snd]. rewrite copy_copy.
      assert (Hr2 : rest text (copy (lbracket ++ el_before e) st)
                    = el_in e ++ el_after e ++ moreInput l ++ t ++ rbracket ++ tail).
      { rewrite <- copy_copy. now apply rest_copy. }
      destruct (startsElement_facts _ Hh) as [c [r [E [_ [Hc _]]]]].
      rewrite skipCharacter_other
        by (rewrite cur_rest, Hr2, E; unfold is_code; cbn [hd_error test];
            now rewrite N.eqb_sym).
      eexists. split; [reflexivity|]. split; [|exact Hr2].
      eapply reaches_eq; [apply reaches_copy|lens|lists].
    - assert (Hr1 : rest text (copy lbracket st)
                    = lw ++ codeComma :: el_before e ++ el_in e ++ el_after e ++ moreInput l
                      ++ t ++ rbracket ++ tail).
      { apply (rest_copy text lbracket). rewrite Hr. unfold lbracket, comma. lists. }
      rewrite (parseWSC_copy text _ _ _ Hr1 Hlw eq_refl).
      cbn [snd]. rewrite copy_copy.
      assert (Hr2 : rest text (copy (lbracket ++ lw) st)
                    = codeComma :: el_before e ++ el_in e ++ el_after e ++ moreInput l
                      ++ t ++ rbracket ++ tail).
      { rewrite <- copy_copy. now apply rest_copy. }
      unfold skipCharacter. rewrite (cur_cons _ _ _ _ Hr2).
      replace (is_code codeComma (Some codeComma)) with true by reflexivity.
      assert (Hr3 : rest text (advance Character 1 (copy (lbracket ++ lw) st))
                    = el_before e ++ el_in e ++ el_after e ++ moreInput l
                      ++ t ++ rbracket ++ tail)
        by now rewrite advance_forward, rest_forward, Hr2.
      rewrite (parseWSC_copy text _ _ _ Hr3 Hwb (startsElement_not_blank _ Hh)).
      cbn [snd]. eexists. split; [reflexivity|]. split; [|now apply rest_copy].
      unfold copy. rewrite advance_forward, !forward_forward.
      eapply reaches_eq; [apply reaches_forward|unfold comma; lens|lists]. }
  cbv zeta in Hbody. destruct Hbody as [st2 [Hb2 [Hs2 Hr2]]].
  destruct (parseWhitespaceAndSkipComments text (copy lbracket st)) as [b0 s0].
  cbn [snd] in Hb2. rewrite Hb2. subst n1.
  destruct (arrayLoop_body text n st2 k e l _ He Hk Hok Hin Hcl Hr2 ltac:(lia))
    as [st4 [Hl [Hs4 Hr4]]].
  rewrite Hl.
  destruct (n - length l) as [|[|[|m]]] eqn:Em; try lia.
  destruct (Hend m st4 Hr4) as [st5 [He5 Hs5]].
  rewrite He5. cbn [bind].
  assert (Hr5 : rest text st5 = codeClosingBracket :: tail)
    by apply (reaches_rest_app text _ _ _ _ _ Hs5 Hr4).
  rewrite (cur_cons _ _ _ _ Hr5).
  replace (is_code codeClosingBracket (Some codeClosingBracket)) with true by reflexivity.
  eexists. split; [reflexivity|].
  eapply reaches_eq.
  - eapply reaches_trans; [exact Hs2|].
    eapply reaches_trans; [exact Hs4|].
    eapply reaches_trans; [exact Hs5|apply reaches_written].
  - unfold elementsInput. lens.
  - unfold elementsOutput. lists.
Qed.

Lemma repaired_array_general lead lw e l t w :
  leadingComma lead lw -> elementOk e -> Forall elementOk l ->
  (forall tail, closes (t ++ rbracket ++ tail) = true) ->
  (forall text tail m st4, rest text st4 = t ++ rbracket ++ tail ->
     exists st', arrayLoop text (S (S (S m))) false st4 = Ret tt st'
                 /\ reaches st4 st' (length t) w) ->
  properRepair (lbracket ++ lead ++ elementsInput e l ++ t ++ rbracket)
               (lbracket ++ lw ++ elementsOutput e l ++ w ++ rbracket).
Proof.
  intros Hlead He Hl Hcl Hend. split; [|split].
  - destruct (elements_within (e :: l) (Forall_cons _ He Hl)) as [k Hk].
    inversion Hk as [|? ? Hke Hkl]. subst.
    exists (k + length l + 7). intros text st w0 w1 tail m Hr Hw0 Hw1 Hc Hm.
    destruct m as [|[|n]]; try lia.
    set (arr := lbracket ++ lead ++ elementsInput e l ++ t ++ rbracket) in *.
    assert (Hr1 : rest text (copy w0 st) = arr ++ w1 ++ tail) by now apply rest_copy.
    assert (Hr1' : rest text (copy w0 st)
                   = lbracket ++ lead ++ elementsInput e l ++ t ++ rbracket ++ w1 ++ tail).
    { rewrite Hr1. unfold arr. lists. }
    destruct (parseArray_general text (S n) (copy w0 st) k lead lw e l t w (w1 ++ tail)
                Hlead He Hke Hl Hkl (Hcl _) (Hend text _) Hr1' ltac:(lia)) as [st2 [Hp Hs2]].
    apply (parseValue_reaches text (S n) st w0 arr _ w1 tail st2); auto.
    apply chain_array; [|exact Hp]. rewrite cur_rest, Hr1. reflexivity.
  - reflexivity.
  - exists (lbracket ++ lw ++ elementsOutput e l ++ w), codeClosingBracket.
    split; [|reflexivity]. unfold rbracket. lists.
Qed.

Lemma whitespace_app w1 w2 :
  whitespace w1 = true -> whitespace w2 = true -> whitespace (w1 ++ w2) = true.
Proof. unfold whitespace. intros H1 H2. now rewrite forallb_app, H1, H2. Qed.

(** X12: an ellipsis behind the last element of an array is taken out with the
    comma before it; the whitespace before and behind the dots stays. *)
Theorem array_ellipsis_removed e l w1 w2 :
  elementOk e -> Forall elementOk l -> whitespace w1 = true -> whitespace w2 = true ->
  properRepair (lbracket ++ elementsInput e l ++ comma ++ w1 ++ dots ++ w2 ++ rbracket)
               (lbracket ++ elementsOutput e l ++ w1 ++ w2 ++ rbracket)
  /\ repairs_to (lbracket ++ elementsInput e l ++ comma ++ w1 ++ dots ++ w2 ++ rbracket)
                (lbracket ++ elementsOutput e l ++ w1 ++ w2 ++ rbracket).
Proof.
  intros He Hl Hw1 Hw2.
  assert (Hp : properRepair
                 (lbracket ++ elementsInput e l ++ comma ++ w1 ++ dots ++ w2 ++ rbracket)
                 (lbracket ++ elementsOutput e l ++ w1 ++ w2 ++ rbracket)).
  { pose proof (repaired_array_general [] [] e l (comma ++ w1 ++ dots ++ w2) (w1 ++ w2)
                  (or_introl (conj eq_refl eq_refl)) He Hl) as H.
    cbn [app] in H. rewrite <- !app_assoc in H. apply H.
    - reflexivity.
    - intros text tail m st4 Hr.
      apply (arrayLoop_ellipsis text m st4 w1 w2 tail); auto. rewrite Hr. lists. }
  split; [exact Hp|]. destruct Hp as [Hr _].
  pose proof (repaired_root _ _ [] [] Hr eq_refl eq_refl) as H.
  cbn [app] in H. now rewrite !app_nil_r in H.
Qed.

Lemma array_ellipsis_removed_witness :
  repairs_to (lit "[true, null, ...]") (lit "[true, null ]").
Proof.
  apply (array_ellipsis_removed
           {| el_before := []; el_in := lit "true"; el_out := lit "true"; el_after := [] |}
           [ {| el_before := lit " "; el_in := lit "null"; el_out := lit "null";
                el_after := [] |} ]
           (lit " ") []).
  - split; [reflexivity|split; [reflexivity|]].
    apply (repaired_keyword (lit "true") (lit "true")). cbn. tauto.
  - constructor; [|constructor]. split; [reflexivity|split; [reflexivity|]].
    apply (repaired_keyword (lit "null") (lit "null")). cbn. tauto.
  - reflexivity.
  - reflexivity.
Defined.

(** X13: a comma before the first element of an array is left out of the
    output, and the whitespace around it is written. *)
Theorem array_leading_comma_skipped lw e l t w :
  whitespace lw = true -> elementOk e -> Forall elementOk l -> trailingComma t w ->
  properRepair (lbracket ++ lw ++ comma ++ elementsInput e l ++ t ++ rbracket)
               (lbracket ++ lw ++ elementsOutput e l ++ w ++ rbracket)
  /\ repairs_to (lbracket ++ lw ++ comma ++ elementsInput e l ++ t ++ rbracket)
                (lbracket ++ lw ++ elementsOutput e l ++ w ++ rbracket).
Proof.
  intros Hlw He Hl Ht.
  assert (Hp : properRepair
                 (lbracket ++ lw ++ comma ++ elementsInput e l ++ t ++ rbracket)
                 (lbracket ++ lw ++ elementsOutput e l ++ w ++ rbracket)).
  { pose proof (repaired_array_general (lw ++ comma) lw e l t w
                  (or_intror (conj eq_refl Hlw)) He Hl) as H.
    rewrite <- !app_assoc in H. apply H.
    - intros tail. destruct Ht as [[-> _]|[-> _]]; reflexivity.
    - intros text tail m st4 Hr. now apply (arrayLoop_end text m st4 t w tail). }
  split; [exact Hp|]. destruct Hp as [Hr _].
  pose proof (repaired_root _ _ [] [] Hr eq_refl eq_refl) as H.
  cbn [app] in H. now rewrite !app_nil_r in H.
Qed.

Lemma array_leading_comma_skipped_witness :
  repairs_to (lit "[ , true,null]") (lit "[  true,null]").
Proof.
  apply (array_leading_comma_skipped (lit " ")
           {| el_before := lit " "; el_in := lit "true"; el_out := lit "true";
              el_after := [] |}
           [ {| el_before := []; el_in := lit "null"; el_out := lit "null";
                el_after := [] |} ]
           [] []).
  - reflexivity.
  - split; [reflexivity|split; [reflexivity|]].
    apply (repaired_keyword (lit "true") (lit "true")). cbn. tauto.
  - constructor; [|constructor]. split; [reflexivity|split; [reflexivity|]].
    apply (repaired_keyword (lit "null") (lit "null")). cbn. tauto.
  - left. split; reflexivity.
Defined.

Lemma objectLoop_ellipsis text m st w1 w2 tail :
  rest text st = comma ++ w1 ++ dots ++ w2 ++ rbrace ++ tail ->
  whitespace w1 = true -> whitespace w2 = true ->
  exists st', objectLoop text (S (S m)) false st = Ret tt st'
              /\ reaches st st' (length (comma ++ w1 ++ dots ++ w2)) (w1 ++ w2).
Proof.
  intros Hr Hw1 Hw2. unfold comma in Hr. cbn [app] in Hr.
  remember (S m) as n eqn:En.
  cbn [objectLoop]. rewrite (atEnd_cons _ _ _ _ Hr), (cur_cons _ _ _ _ Hr).
  replace (is_code codeClosingBrace (Some codeComma)) with false by reflexivity.
  cbn [negb andb]. rewrite (parseCharacter_copy _ _ _ _ Hr). cbn [negb].
  assert (Hr1 : rest text (copy [codeComma] st) = w1 ++ dots ++ w2 ++ rbrace ++ tail)
    by now apply (rest_copy text [codeComma]).
  rewrite (parseWSC_copy text _ w1 _ Hr1 Hw1 eq_refl). cbn [snd]. rewrite copy_copy.
  assert (Hr2 : rest text (copy ([codeComma] ++ w1) st)
                = [] ++ dots ++ w2 ++ rbrace ++ tail).
  { apply rest_copy. rewrite Hr. lists. }
  rewrite (skipEllipsis_dots text _ [] w2 _ Hr2 eq_refl Hw2 eq_refl eq_refl).
  set (st2 := forward (length ([] ++ dots ++ w2)) ([] ++ w2) (copy ([codeComma] ++ w1) st)).
  assert (Hr3 : rest text st2 = codeClosingBrace :: tail).
  { unfold st2. rewrite rest_forward, Hr2. cbn [app].
    replace (dots ++ w2 ++ rbrace ++ tail) with ((dots ++ w2) ++ rbrace ++ tail) by lists.
    apply skipn_length_app. }
  assert (Hk : orElseM (parseString text n false st2)
                       (fun st => parseUnquotedString text n st) = Ret false st2).
  { subst n.
    rewrite parseString_other by (rewrite (cur_cons _ _ _ _ Hr3); reflexivity).
    cbn [orElseM bind].
    now rewrite parseUnquotedString_nothing by (rewrite Hr3; reflexivity). }
  rewrite Hk. cbn [bind].
  cbn [negb]. rewrite (cur_cons _ _ _ _ Hr3).
  replace (is_code codeClosingBrace (Some codeClosingBrace)) with true by reflexivity.
  cbn [orb]. eexists. split; [reflexivity|]. split.
  - unfold st2. cbn [i set_output forward copy]. unfold comma, dots. lens.
  - unfold st2. cbn [set_output output copy forward app].
    replace ((output st ++ codeComma :: w1) ++ w2) with (output st ++ comma ++ (w1 ++ w2))
      by (unfold comma; lists).
    rewrite stripLastOccurrence_comma; [reflexivity|now apply whitespace_app].
Qed.

(** An object with what may stand before its first member and before its
    closing brace. *)
Lemma parseObject_general text n st k lead lw mem l t w tail :
  leadingComma lead lw ->
  memberOk mem -> membersWithin k (mem :: l) -> Forall memberOk l ->
  closes (t ++ rbrace ++ tail) = true ->
  (forall m st4, rest text st4 = t ++ rbrace ++ tail ->
     exists st', objectLoop text (S (S m)) false st4 = Ret tt st'
                 /\ reaches st4 st' (length t) w) ->
  rest text st = lbrace ++ lead ++ membersInput mem l ++ t ++ rbrace ++ tail ->
  k + length l + 4 <= n ->
  exists st', parseObject text n st = Ret true st'
              /\ reaches st st'
                   (length (lbrace ++ lead ++ membersInput mem l ++ t ++ rbrace))
                   (lbrace ++ lw ++ membersOutput mem l ++ w ++ rbrace).
Proof.
  intros Hlead He Hin Hok Hcl Hend Hr Hn.
  destruct n as [|[|n]]; try lia.
  pose proof He as [Hwb [Hkey [Hwk [Hwc [_ Hwa]]]]].
  inversion Hin as [|? ? [Hk Hkk] Hin']. subst.
  unfold membersInput in Hr. rewrite <- !app_assoc in Hr.
  unfold lbrace in Hr. cbn [app] in Hr.
  remember (S n) as n1 eqn:En1.
  cbn [parseObject]. rewrite (cur_cons _ _ _ _ Hr).
  replace (is_code codeOpeningBrace (Some codeOpeningBrace)) with true by reflexivity.
  replace (advance Object 1 (emit lbrace st)) with (copy lbrace st)
    by (rewrite emit_forward, advance_forward; same_state).
  pose proof (keyRepair_head _ _ (m_wk mem ++ colon ++ m_wc mem ++ m_in mem ++ m_after mem
                                  ++ moreMembersInput l ++ t ++ rbrace ++ tail) Hkey) as Hh.
  assert (Hh' : test startsElement
                     (hd_error (memberInput mem ++ moreMembersInput l ++ t ++ rbrace ++ tail))
                = true).
  { unfold memberInput. rewrite <- !app_assoc. exact Hh. }
  assert (Hbody : exists st2,
             (let st := snd (parseWhitespaceAndSkipComments text (copy lbrace st)) in
              let '(skipped, st1) := skipCharacter text codeComma st in
              if skipped then snd (parseWhitespaceAndSkipComments text st1) else st1) = st2
             /\ reaches st st2 (length (lbrace ++ lead ++ m_before mem))
                               (lbrace ++ lw ++ m_before mem)
             /\ rest text st2
                = [] ++ [] ++ memberInput mem ++ moreMembersInput l ++ t ++ rbrace ++ tail).
  { destruct Hlead as [[-> ->]|[-> Hlw]].
    - cbn [app] in Hr.
      assert (Hr1 : rest text (copy lbrace st)
                    = m_before mem ++ memberInput mem ++ moreMembersInput l
                      ++ t ++ rbrace ++ tail).
      { apply (rest_copy text lbrace). rewrite Hr. unfold lbrace, memberInput. lists. }
      rewrite (parseWSC_copy text _ _ _ Hr1 Hwb (startsElement_not_blank _ Hh')).
      cbn [snd]. rewrite copy_copy.
      assert (Hr2 : rest text (copy (lbrace ++ m_before mem) st)
                    = memberInput mem ++ moreMembersInput l ++ t ++ rbrace ++ tail).
      { rewrite <- copy_copy. now apply rest_copy. }
      destruct (startsElement_facts _ Hh') as [c [r [E [_ [Hc _]]]]].
      rewrite skipCharacter_other
        by (rewrite cur_rest, Hr2, E; unfold is_code; cbn [hd_error test];
            now rewrite N.eqb_sym).
      eexists. split; [reflexivity|]. split; [|exact Hr2].
      eapply reaches_eq; [apply reaches_copy|lens|lists].
    - assert (Hr1 : rest text (copy lbrace st)
                    = lw ++ codeComma :: m_before mem ++ memberInput mem
                      ++ moreMembersInput l ++ t ++ rbrace ++ tail).
      { apply (rest_copy text lbrace). rewrite Hr. unfold lbrace, comma, memberInput. lists. }
      rewrite (parseWSC_copy text _ _ _ Hr1 Hlw eq_refl).
      cbn [snd]. rewrite copy_copy.
      assert (Hr2 : rest text (copy (lbrace ++ lw) st)
                    = codeComma :: m_before mem ++ memberInput mem
                      ++ moreMembersInput l ++ t ++ rbrace ++ tail).
      { rewrite <- copy_copy. now apply rest_copy. }
      unfold skipCharacter. rewrite (cur_cons _ _ _ _ Hr2).
      replace (is_code codeComma (Some codeComma)) with true by reflexivity.
      assert (Hr3 : rest text (advance Character 1 (copy (lbrace ++ lw) st))
                    = m_before mem ++ memberInput mem ++ moreMembersInput l
                      ++ t ++ rbrace ++ tail)
        by now rewrite advance_forward, rest_forward, Hr2.
      rewrite (parseWSC_copy text _ _ _ Hr3 Hwb (startsElement_not_blank _ Hh')).
      cbn [snd]. eexists. split; [reflexivity|]. split; [|now apply rest_copy].
      unfold copy. rewrite advance_forward, !forward_forward.
      eapply reaches_eq; [apply reaches_forward|unfold comma; lens|lists]. }
  cbv zeta in Hbody. destruct Hbody as [st2 [Hb2 [Hs2 Hr2]]].
  destruct (parseWhitespaceAndSkipComments text (copy lbrace st)) as [b0 s0].
  cbn [snd] in Hb2. rewrite Hb2. subst n1.
  assert (Hcl' : closes (moreMembersInput l ++ t ++ rbrace ++ tail) = true)
    by now apply moreMembersInput_closes.
  destruct (objectLoop_member text n true st2 [] [] mem _ k
              (or_introl (conj eq_refl eq_refl)) eq_refl Hkey Hwk Hwc Hk Hwa Hr2
              Hcl' ltac:(lia) ltac:(lia)) as [st3 [Hl Hs3]].
  rewrite Hl.
  assert (Hr3 : rest text st3 = moreMembersInput l ++ t ++ rbrace ++ tail)
    by apply (reaches_rest_app text _ _ _ _ _ Hs3 Hr2).
  destruct (objectLoop_members k l Hok Hin' text st3 _ (n - length l) Hr3 Hcl ltac:(lia))
    as [st4 [Hl4 Hs4]].
  replace (length l + (n - length l)) with n in Hl4 by lia.
  rewrite Hl4.
  assert (Hr4 : rest text st4 = t ++ rbrace ++ tail)
    by apply (reaches_rest_app text _ _ _ _ _ Hs4 Hr3).
  destruct (n - length l) as [|[|m]] eqn:Em; try lia.
  destruct (Hend m st4 Hr4) as [st5 [He5 Hs5]].
  rewrite He5. cbn [bind].
  assert (Hr5 : rest text st5 = codeClosingBrace :: tail)
    by apply (reaches_rest_app text _ _ _ _ _ Hs5 Hr4).
  rewrite (cur_cons _ _ _ _ Hr5).
  replace (is_code codeClosingBrace (Some codeClosingBrace)) with true by reflexivity.
  eexists. split; [reflexivity|].
  eapply reaches_eq.
  - eapply reaches_trans; [exact Hs2|].
    eapply reaches_trans; [exact Hs3|].
    eapply reaches_trans; [exact Hs4|].
    eapply reaches_trans; [exact Hs5|apply reaches_written].
  - unfold membersInput. lens.
  - unfold membersOutput. lists.
Qed.

Lemma repaired_object_general lead lw mem l t w :
  leadingComma lead lw -> memberOk mem -> Forall memberOk l ->
  (forall tail, closes (t ++ rbrace ++ tail) = true) ->
  (forall text tail m st4, rest text st4 = t ++ rbrace ++ tail ->
     exists st', objectLoop text (S (S m)) false st4 = Ret tt st'
                 /\ reaches st4 st' (length t) w) ->
  properRepair (lbrace ++ lead ++ membersInput mem l ++ t ++ rbrace)
               (lbrace ++ lw ++ membersOutput mem l ++ w ++ rbrace).
Proof.
  intros Hlead He Hl Hcl Hend. split; [|split].
  - destruct (members_within (mem :: l) (Forall_cons _ He Hl)) as [k Hk].
    exists (k + length l + 6). intros text st w0 w1 tail m Hr Hw0 Hw1 Hc Hm.
    destruct m as [|[|n]]; try lia.
    set (obj := lbrace ++ lead ++ membersInput mem l ++ t ++ rbrace) in *.
    assert (Hr1 : rest text (copy w0 st) = obj ++ w1 ++ tail) by now apply rest_copy.
    assert (Hr1' : rest text (copy w0 st)
                   = lbrace ++ lead ++ membersInput mem l ++ t ++ rbrace ++ w1 ++ tail).
    { rewrite Hr1. unfold obj. lists. }
    destruct (parseObject_general text (S n) (copy w0 st) k lead lw mem l t w (w1 ++ tail)
                Hlead He Hk Hl (Hcl _) (Hend text _) Hr1' ltac:(lia)) as [st2 [Hp Hs2]].
    apply (parseValue_reaches text (S n) st w0 obj _ w1 tail st2); auto.
    now apply chain_object.
  - reflexivity.
  - exists (lbrace ++ lw ++ membersOutput mem l ++ w), codeClosingBrace.
    split; [|reflexivity]. unfold rbrace. lists.
Qed.

(** X14: an ellipsis behind the last member of an object is taken out with the
    comma before it; the whitespace before and behind the dots stays. *)
Theorem object_ellipsis_removed mem l w1 w2 :
  memberOk mem -> Forall memberOk l -> whitespace w1 = true -> whitespace w2 = true ->
  properRepair (lbrace ++ membersInput mem l ++ comma ++ w1 ++ dots ++ w2 ++ rbrace)
               (lbrace ++ membersOutput mem l ++ w1 ++ w2 ++ rbrace)
  /\ repairs_to (lbrace ++ membersInput mem l ++ comma ++ w1 ++ dots ++ w2 ++ rbrace)
                (lbrace ++ membersOutput mem l ++ w1 ++ w2 ++ rbrace).
Proof.
  intros He Hl Hw1 Hw2.
  assert (Hp : properRepair
                 (lbrace ++ membersInput mem l ++ comma ++ w1 ++ dots ++ w2 ++ rbrace)
                 (lbrace ++ membersOutput mem l ++ w1 ++ w2 ++ rbrace)).
  { pose proof (repaired_object_general [] [] mem l (comma ++ w1 ++ dots ++ w2) (w1 ++ w2)
                  (or_introl (conj eq_refl eq_refl)) He Hl) as H.
    cbn [app] in H. rewrite <- !app_assoc in H. apply H.
    - reflexivity.
    - intros text tail m st4 Hr.
      apply (objectLoop_ellipsis text m st4 w1 w2 tail); auto. rewrite Hr. lists. }
  split; [exact Hp|]. destruct Hp as [Hr _].
  pose proof (repaired_root _ _ [] [] Hr eq_refl eq_refl) as H.
  cbn [app] in H. now rewrite !app_nil_r in H.
Qed.

Lemma object_ellipsis_removed_witness :
  repairs_to (lit "{a: true, ...}")
             (lit "{" ++ quoted (lit "a") ++ lit ": true }").
Proof.
  apply (object_ellipsis_removed
           {| m_before := []; m_key := lit "a"; m_key_out := quoted (lit "a");
              m_wk := []; m_wc := lit " ";
              m_in := lit "true"; m_out := lit "true"; m_after := [] |}
           [] (lit " ") []).
  - split; [reflexivity|]. split; [right; right; split; reflexivity|].
    split; [reflexivity|]. split; [reflexivity|]. split; [left|reflexivity].
    apply (repaired_keyword (lit "true") (lit "true")). cbn. tauto.
  - constructor.
  - reflexivity.
  - reflexivity.
Defined.

(** X15: a comma before the first member of an object is left out of the
    output, and the whitespace around it is written. *)
Theorem object_leading_comma_skipped lw mem l t w :
  whitespace lw = true -> memberOk mem -> Forall memberOk l -> trailingComma t w ->
  properRepair (lbrace ++ lw ++ comma ++ membersInput mem l ++ t ++ rbrace)
               (lbrace ++ lw ++ membersOutput mem l ++ w ++ rbrace)
  /\ repairs_to (lbrace ++ lw ++ comma ++ membersInput mem l ++ t ++ rbrace)
                (lbrace ++ lw ++ membersOutput mem l ++ w ++ rbrace).
Proof.
  intros Hlw He Hl Ht.
  assert (Hp : properRepair
                 (lbrace ++ lw ++ comma ++ membersInput mem l ++ t ++ rbrace)
                 (lbrace ++ lw ++ membersOutput mem l ++ w ++ rbrace)).
  { pose proof (repaired_object_general (lw ++ comma) lw mem l t w
                  (or_intror (conj eq_refl Hlw)) He Hl) as H.
    rewrite <- !app_assoc in H. apply H.
    - intros tail. destruct Ht as [[-> _]|[-> _]]; reflexivity.
    - intros text tail m st4 Hr. now apply (objectLoop_end text m st4 t w tail). }
  split; [exact Hp|]. destruct Hp as [Hr _].
  pose proof (repaired_root _ _ [] [] Hr eq_refl eq_refl) as H.
  cbn [app] in H. now rewrite !app_nil_r in H.
Qed.

Lemma object_leading_comma_skipped_witness :
  repairs_to (lit "{, a: true}")
             (lit "{ " ++ quoted (lit "a") ++ lit ": true}").
Proof.
  apply (object_leading_comma_skipped []
           {| m_before := lit " "; m_key := lit "a"; m_key_out := quoted (lit "a");
              m_wk := []; m_wc := lit " ";
              m_in := lit "true"; m_out := lit "true"; m_after := [] |}
           [] [] []).
  - reflexivity.
  - split; [reflexivity|]. split; [right; right; split; reflexivity|].
    split; [reflexivity|]. split; [reflexivity|]. split; [left|reflexivity].
    apply (repaired_keyword (lit "true") (lit "true")). cbn. tauto.
  - constructor.
  - left. split; reflexivity.
Defined.

(** ** Behind the root value *)

Lemma closersInput_head l :
  closersOk l = true ->
  is_code codeComma (hd_error (closersInput l)) = false
  /\ test isStartOfValue (hd_error (closersInput l)) = false
  /\ test blank (hd_error (closersInput l)) = false.
Proof.
  destruct l as [|[c w] l]; [repeat split|]. cbn [closersOk forallb fst snd closersInput].
  intros H. apply andb_true_iff in H as [H _]. apply andb_true_iff in H as [H _].
  unfold isCloser in H. cbn [hd_error]. repeat split; chars.
Qed.

Lemma skipRedundantEnds_closers text l :
  closersOk l = true ->
  forall k st, rest text st = closersInput l -> length l <= k ->
  skipRedundantEnds text k st = forward (length (closersInput l)) (closersOutput l) st.
Proof.
  induction l as [|[c w] l IH]; intros Hl k st Hr Hk.
  - cbn [closersInput closersOutput length]. rewrite forward_0_nil.
    apply skipRedundantEnds_at_end. now rewrite cur_rest, Hr.
  - cbn [closersOk forallb fst snd] in Hl. apply andb_true_iff in Hl as [Hc Hl].
    apply andb_true_iff in Hc as [Hc Hw]. cbn [closersInput] in Hr.
    destruct k as [|k]; [cbn [length] in Hk; lia|]. cbn [length] in Hk.
    cbn [skipRedundantEnds]. rewrite (cur_cons _ _ _ _ Hr).
    replace (is_code codeClosingBrace (Some c) || is_code codeClosingBracket (Some c)) with true
      by (symmetry; unfold isCloser in Hc; chars).
    rewrite advance_forward.
    assert (Hr1 : rest text (forward 1 [] st) = w ++ closersInput l)
      by now rewrite rest_forward, Hr.
    destruct (closersInput_head l Hl) as [_ [_ Hb]].
    rewrite (parseWSC_copy text _ w _ Hr1 Hw Hb). cbn [snd].
    rewrite (IH Hl k); [|now apply rest_copy|lia].
    cbn [closersInput closersOutput]. same_state.
Qed.

Lemma rest_length text st : length (rest text st) <= length text.
Proof. unfold rest. rewrite length_skipn. lia. Qed.

Lemma closersInput_length l : length l <= length (closersInput l).
Proof.
  induction l as [|[c w] l IH]; [reflexivity|]. cbn [closersInput length].
  rewrite length_app. lia.
Qed.

(** The run after a root value that closing braces and brackets follow. *)
Lemma run_closers text n st l :
  parseValue text n initialState = Ret true st ->
  closersOk l = true -> rest text st = closersInput l ->
  jsonrepair n text = Repaired (output st ++ closersOutput l).
Proof.
  intros Hv Hl Hr. unfold jsonrepair, run. rewrite Hv. cbn [bind negb].
  destruct (closersInput_head l Hl) as [Hc [Hs Hb]].
  rewrite parseCharacter_other by now rewrite cur_rest, Hr.
  rewrite cur_rest, Hr, Hs. cbn [andb bind].
  rewrite (skipRedundantEnds_closers text l Hl _ st Hr).
  - rewrite atEnd_nil; [reflexivity|].
    rewrite rest_forward, Hr. apply skipn_all.
  - pose proof (rest_length text st) as H. rewrite Hr in H.
    pose proof (closersInput_length l). lia.
Qed.

(** X16: the closing braces and brackets that stand behind the root value are
    left out of the output, and the whitespace behind each of them is written. *)
Theorem redundant_closers_dropped v o w0 w l :
  repaired v o -> whitespace w0 = true -> whitespace w = true -> closersOk l = true ->
  repairs_to (w0 ++ v ++ w ++ closersInput l) (w0 ++ o ++ w ++ closersOutput l).
Proof.
  intros [k Hk] Hw0 Hw Hl. exists k. intros n Hn.
  assert (Hc : closes (closersInput l) = true).
  { destruct l as [|[c x] l]; [reflexivity|]. cbn [closersOk forallb fst] in Hl.
    apply andb_true_iff in Hl as [Hl _]. apply andb_true_iff in Hl as [Hl _].
    unfold isCloser in Hl. cbn [closersInput closes]. chars. }
  destruct (Hk (w0 ++ v ++ w ++ closersInput l) initialState w0 w (closersInput l) n
              eq_refl Hw0 Hw Hc Hn) as [st [Hv Hs]].
  rewrite (run_closers _ n st l Hv Hl).
  - destruct Hs as [_ ->]. cbn [output initialState app]. now rewrite <- !app_assoc.
  - apply (reaches_rest_app _ _ _ _ _ _ Hs). cbn [rest initialState i skipn]. lists.
Qed.

Lemma redundant_closers_dropped_witness :
  repairs_to (lit "[1, 2] ]}" ++ newline) (lit "[1, 2] " ++ newline).
Proof.
  apply (redundant_closers_dropped (lit "[1, 2]") (lit "[1, 2]") [] (lit " ")
           [(codeClosingBracket, []); (codeClosingBrace, newline)]); try reflexivity.
  apply kept_repaired. now apply isJSONValue_valueText.
Defined.

(** X17: a comma behind the root value, with nothing but whitespace behind it,
    is taken out of the output again. *)
Theorem root_trailing_comma_removed v o w0 w w' :
  repaired v o -> whitespace w0 = true -> whitespace w = true -> whitespace w' = true ->
  repairs_to (w0 ++ v ++ w ++ comma ++ w') (w0 ++ o ++ w ++ w').
Proof.
  intros [k Hk] Hw0 Hw Hw'. exists k. intros n Hn.
  set (text := w0 ++ v ++ w ++ comma ++ w').
  destruct (Hk text initialState w0 w (comma ++ w') n eq_refl Hw0 Hw eq_refl Hn)
    as [st [Hv Hs]].
  assert (Hr : rest text st = codeComma :: w').
  { apply (reaches_rest_app text _ _ _ _ _ Hs). cbn [rest initialState i skipn].
    unfold text. lists. }
  unfold jsonrepair, run. rewrite Hv. cbn [bind negb].
  rewrite (parseCharacter_copy _ _ _ _ Hr).
  assert (Hr1 : rest text (copy [codeComma] st) = w' ++ [])
    by (rewrite app_nil_r; now apply (rest_copy text [codeComma])).
  rewrite (parseWSC_copy text _ w' [] Hr1 Hw' eq_refl). cbn [snd].
  assert (Hr2 : rest text (copy w' (copy [codeComma] st)) = []) by now apply rest_copy.
  assert (Hc2 : cur text (copy w' (copy [codeComma] st)) = None) by now rewrite cur_rest, Hr2.
  rewrite Hc2. cbn [test andb bind].
  rewrite skipRedundantEnds_at_end by exact Hc2.
  cbn [set_output]. rewrite atEnd_nil by exact Hr2. cbn [output copy forward].
  destruct Hs as [_ ->]. cbn [output initialState app].
  rewrite <- !app_assoc.
  change (w0 ++ o ++ w ++ [codeComma] ++ w') with (w0 ++ o ++ w ++ comma ++ w').
  replace (w0 ++ o ++ w ++ comma ++ w') with ((w0 ++ o ++ w) ++ comma ++ w') by lists.
  rewrite stripLastOccurrence_comma by exact Hw'. f_equal. lists.
Qed.

Lemma root_trailing_comma_removed_witness :
  repairs_to (lit "[1, 2] , ") (lit "[1, 2]  ").
Proof.
  apply (root_trailing_comma_removed (lit "[1, 2]") (lit "[1, 2]") [] (lit " ") (lit " "));
    try reflexivity.
  apply kept_repaired. now apply isJSONValue_valueText.
Defined.

(** X18: a colon or a closing parenthesis behind the root value makes
    [jsonrepair] throw [Unexpected character], with the character and its
    position. *)
Theorem unexpected_character_after_root v o w0 w c r :
  repaired v o -> whitespace w0 = true -> whitespace w = true ->
  (c =? codeColon)%N || (c =? codeCloseParenthesis)%N = true ->
  fails_with (w0 ++ v ++ w ++ c :: r)
             {| err_message := UnexpectedCharacter (Some c);
                position := length (w0 ++ v ++ w) |}.
Proof.
  intros [k Hk] Hw0 Hw Hc. exists k. intros n Hn.
  set (text := w0 ++ v ++ w ++ c :: r).
  assert (Hcl : closes (c :: r) = true) by (cbn [closes]; chars).
  destruct (Hk text initialState w0 w (c :: r) n eq_refl Hw0 Hw Hcl Hn) as [st [Hv Hs]].
  assert (Hr : rest text st = c :: r).
  { apply (reaches_rest_app text _ _ _ _ _ Hs). cbn [rest initialState i skipn].
    unfold text. lists. }
  unfold jsonrepair, run. rewrite Hv. cbn [bind negb].
  rewrite parseCharacter_other by (rewrite (cur_cons _ _ _ _ Hr); chars).
  rewrite (cur_cons _ _ _ _ Hr).
  replace (test isStartOfValue (Some c)) with false by (symmetry; chars).
  cbn [andb bind].
  assert (Hk0 : skipRedundantEnds text (length text) st = st).
  { destruct (length text); cbn [skipRedundantEnds]; [reflexivity|].
    rewrite (cur_cons _ _ _ _ Hr).
    replace (is_code codeClosingBrace (Some c) || is_code codeClosingBracket (Some c))
      with false by (symmetry; chars).
    reflexivity. }
  rewrite Hk0, (atEnd_cons _ _ _ _ Hr), (cur_cons _ _ _ _ Hr).
  unfold throw. destruct Hs as [-> _]. cbn [i initialState Nat.add]. reflexivity.
Qed.

Lemma unexpected_character_after_root_witness :
  fails_with (lit "[1, 2] : 3")
             {| err_message := UnexpectedCharacter (Some codeColon); position := 7 |}.
Proof.
  apply (unexpected_character_after_root (lit "[1, 2]") (lit "[1, 2]") [] (lit " ")
           codeColon (lit " 3")); try reflexivity.
  apply kept_repaired. now apply isJSONValue_valueText.
Defined.

(** ** Errors *)

Lemma parseValue_throws text n st w0 l e st' :
  rest text st = w0 ++ l -> whitespace w0 = true -> test blank (hd_error l) = false ->
  valueChain text n (copy w0 st) = Throw e st' ->
  parseValue text (S n) st = Throw e st'.
Proof.
  intros Hr Hw0 Hl Hc. rewrite parseValue_chain.
  now rewrite (parseWSC_copy text st w0 l Hr Hw0 Hl), Hc.
Qed.

Lemma run_throws text n e st :
  parseValue text n initialState = Throw e st -> jsonrepair n text = Failed e.
Proof. intros H. unfold jsonrepair, run. now rewrite H. Qed.

(** X19: an object that begins with a colon, a parenthesis or a plus sign
    where its first key should stand makes [jsonrepair] throw [Object key
    expected] at the position of that character. *)
Theorem object_key_expected w0 w c r :
  whitespace w0 = true -> whitespace w = true ->
  (c =? codeColon)%N || (c =? codeOpenParenthesis)%N || (c =? codeCloseParenthesis)%N
  || (c =? codePlus)%N = true ->
  fails_with (w0 ++ lbrace ++ w ++ c :: r)
             {| err_message := ObjectKeyExpected; position := length (w0 ++ lbrace ++ w) |}.
Proof.
  intros Hw0 Hw Hc. exists 4. intros n Hn.
  destruct n as [|[|[|[|n]]]]; try lia.
  set (text := w0 ++ lbrace ++ w ++ c :: r).
  assert (Hr0 : rest text initialState = w0 ++ lbrace ++ w ++ c :: r) by reflexivity.
  set (st1 := copy w0 initialState).
  assert (Hr1 : rest text st1 = codeOpeningBrace :: w ++ c :: r) by now apply rest_copy.
  set (st2 := copy (lbrace ++ w) st1).
  assert (Hr2 : rest text st2 = c :: r) by (apply rest_copy; rewrite Hr1; lists).
  assert (Ho : parseObject text (S (S (S n))) st1
               = Throw {| err_message := ObjectKeyExpected; position := i st2 |} st2).
  { cbn [parseObject]. rewrite (cur_cons _ _ _ _ Hr1).
    replace (is_code codeOpeningBrace (Some codeOpeningBrace)) with true by reflexivity.
    replace (advance Object 1 (emit lbrace st1)) with (copy lbrace st1)
      by (rewrite emit_forward, advance_forward; same_state).
    assert (Hr1' : rest text (copy lbrace st1) = w ++ c :: r)
      by now apply (rest_copy text lbrace).
    rewrite (parseWSC_copy text _ w _ Hr1' Hw) by (cbn [hd_error test]; chars).
    rewrite copy_copy. fold st2.
    rewrite skipCharacter_other by (rewrite (cur_cons _ _ _ _ Hr2); chars).
    remember (S n) as n1 eqn:En. cbn [objectLoop].
    rewrite (atEnd_cons _ _ _ _ Hr2), (cur_cons _ _ _ _ Hr2).
    replace (is_code codeClosingBrace (Some c)) with false by (symmetry; chars).
    cbn [negb andb].
    rewrite skipEllipsis_none by (rewrite (cur_cons _ _ _ _ Hr2); chars).
    subst n1.
    rewrite parseString_other by (rewrite (cur_cons _ _ _ _ Hr2); chars).
    cbn [orElseM bind].
    rewrite parseUnquotedString_nothing
      by (rewrite Hr2; cbn [hd_error test]; unfold isSymbolCharacter, isDelimiterExceptSlash;
          chars).
    cbn [negb bind]. rewrite (atEnd_cons _ _ _ _ Hr2), (cur_cons _ _ _ _ Hr2).
    replace (is_code codeClosingBrace (Some c) || is_code codeOpeningBrace (Some c)
             || is_code codeClosingBracket (Some c) || is_code codeOpeningBracket (Some c)
             || false) with false by (symmetry; chars).
    reflexivity. }
  rewrite (run_throws text _ {| err_message := ObjectKeyExpected; position := i st2 |} st2).
  - unfold st2, st1, copy, forward. cbn [i initialState]. do 2 f_equal. lens.
  - apply (parseValue_throws text _ initialState w0 _ _ _ Hr0 Hw0); [reflexivity|].
    fold st1. unfold valueChain. now rewrite Ho.
Qed.

Lemma object_key_expected_witness :
  fails_with (lit " { : 1}") {| err_message := ObjectKeyExpected; position := 3 |}.
Proof.
  apply (object_key_expected (lit " ") (lit " ") codeColon (lit " 1}")); reflexivity.
Defined.

(** X20: a key of an object that a comma, a closing bracket, a closing brace
    or a closing parenthesis follows where the colon should stand makes
    [jsonrepair] throw [Colon expected] at the position of that character. *)
Theorem colon_expected w0 wb key out wk c r :
  whitespace w0 = true -> whitespace wb = true -> keyRepair key out ->
  whitespace wk = true ->
  (c =? codeComma)%N || (c =? codeClosingBracket)%N || (c =? codeClosingBrace)%N
  || (c =? codeCloseParenthesis)%N = true ->
  fails_with (w0 ++ lbrace ++ wb ++ key ++ wk ++ c :: r)
             {| err_message := ColonExpected;
                position := length (w0 ++ lbrace ++ wb ++ key ++ wk) |}.
Proof.
  intros Hw0 Hwb Hkey Hwk Hc. exists (length key + 7). intros n Hn.
  destruct n as [|[|[|n]]]; try lia.
  set (text := w0 ++ lbrace ++ wb ++ key ++ wk ++ c :: r).
  assert (Hr0 : rest text initialState = w0 ++ lbrace ++ wb ++ key ++ wk ++ c :: r)
    by reflexivity.
  set (st1 := copy w0 initialState).
  assert (Hr1 : rest text st1 = codeOpeningBrace :: wb ++ key ++ wk ++ c :: r)
    by now apply rest_copy.
  set (st2 := copy (lbrace ++ wb) st1).
  assert (Hr2 : rest text st2 = key ++ wk ++ c :: r) by (apply rest_copy; rewrite Hr1; lists).
  pose proof (keyRepair_head _ _ (wk ++ c :: r) Hkey) as Hh.
  destruct (startsElement_facts _ Hh) as [x [r0 [E [Hb [Hx [Hd [_ Hcb]]]]]]].
  assert (Hcl : closes (c :: r) = true) by (cbn [closes]; chars).
  destruct (key_read text st2 key out wk (c :: r) n Hkey Hr2 Hcl Hwk ltac:(lia))
    as [st3 [Hkr [Hs3 Hr3]]].
  assert (Ho : exists st4,
             parseObject text (S (S n)) st1
             = Throw {| err_message := ColonExpected;
                        position := i st2 + length (key ++ wk) |} st4).
  { cbn [parseObject]. rewrite (cur_cons _ _ _ _ Hr1).
    replace (is_code codeOpeningBrace (Some codeOpeningBrace)) with true by reflexivity.
    replace (advance Object 1 (emit lbrace st1)) with (copy lbrace st1)
      by (rewrite emit_forward, advance_forward; same_state).
    assert (Hr1' : rest text (copy lbrace st1) = wb ++ key ++ wk ++ c :: r)
      by now apply (rest_copy text lbrace).
    rewrite (parseWSC_copy text _ wb _ Hr1' Hwb (startsElement_not_blank _ Hh)).
    rewrite copy_copy. fold st2.
    rewrite skipCharacter_other
      by (rewrite cur_rest, Hr2, E; unfold is_code; cbn [hd_error test]; now rewrite N.eqb_sym).
    cbn [objectLoop].
    assert (Hcur : cur text st2 = Some x) by (rewrite cur_rest, Hr2, E; reflexivity).
    assert (He : atEnd text st2 = false) by (rewrite atEnd_rest, Hr2, E; reflexivity).
    rewrite He, Hcur.
    replace (is_code codeClosingBrace (Some x)) with false
      by (symmetry; unfold is_code; cbn [test]; now rewrite N.eqb_sym).
    cbn [negb andb].
    rewrite skipEllipsis_none;
      [|rewrite Hcur; exact Hb
       |rewrite Hcur; unfold is_code; cbn [test]; now rewrite N.eqb_sym].
    rewrite Hkr. cbn [bind negb].
    destruct (parseWhitespaceAndSkipComments text st3) as [b3 st4]. cbn [snd] in *.
    rewrite parseCharacter_other by (rewrite (cur_cons _ _ _ _ Hr3); chars).
    cbn [negb]. rewrite (atEnd_cons _ _ _ _ Hr3), (cur_cons _ _ _ _ Hr3).
    replace (test isStartOfValue (Some c)) with false by (symmetry; chars).
    cbn [orb bind]. unfold throw. destruct Hs3 as [-> _]. eexists. reflexivity. }
  destruct Ho as [st4 Ho].
  rewrite (run_throws text _ {| err_message := ColonExpected;
                                position := i st2 + length (key ++ wk) |} st4).
  - unfold st2, st1, copy, forward. cbn [i initialState]. do 2 f_equal. lens.
  - apply (parseValue_throws text _ initialState w0 _ _ _ Hr0 Hw0); [reflexivity|].
    fold st1. unfold valueChain. now rewrite Ho.
Qed.

Lemma colon_expected_witness :
  fails_with (lit "{" ++ quoted (lit "a") ++ lit " }")
             {| err_message := ColonExpected; position := 5 |}.
Proof.
  apply (colon_expected [] [] (quoted (lit "a")) (quoted (lit "a")) (lit " ")
           codeClosingBrace []); try reflexivity.
  left. exists (lit "a"). split; [|split; reflexivity].
  apply chars_plain; try reflexivity. constructor.
Defined.

(** Ordinary characters at the head of what the string loop reads. *)
Lemma stringLoop_prefix text isEndQuote body :
  forallb (ordinary isEndQuote) body = true ->
  forall st n iBefore oBefore str r,
    rest text st = body ++ r ->
    is_code codeBackslash (charCodeBefore text (i st)) = false ->
    stringLoop text (length body + n) false false isEndQuote iBefore oBefore str st
    = stringLoop text n false false isEndQuote iBefore oBefore (str ++ escapeChars body)
                 (forward (length body) [] st)
    /\ (body <> [] ->
        is_code codeBackslash (charCodeBefore text (i st + length body)) = false).
Proof.
  induction body as [|c s IH]; intros Hb st n iB oB str r Hr Hp.
  - cbn [length Nat.add escapeChars flat_map]. rewrite app_nil_r, forward_0_nil.
    split; [reflexivity|congruence].
  - cbn [forallb] in Hb. apply andb_true_iff in Hb as [Hc Hs].
    unfold ordinary in Hc. apply andb_true_iff in Hc as [Hc Hv].
    apply andb_true_iff in Hc as [He Hbs].
    apply negb_true_iff in He, Hbs. cbn [app] in Hr.
    assert (Hr1 : rest text (advance StringR 1 st) = s ++ r)
      by now rewrite advance_forward, rest_forward, Hr.
    assert (Hp1 : is_code codeBackslash (charCodeBefore text (i (advance StringR 1 st))) = false).
    { rewrite advance_eq. cbn [i]. rewrite charCodeBefore_next.
      change (charCodeAt text (i st)) with (cur text st). rewrite (cur_cons _ _ _ _ Hr).
      unfold is_code. cbn [test]. now rewrite (N.eqb_sym codeBackslash). }
    split.
    + cbn [length Nat.add stringLoop].
      rewrite (atEnd_cons _ _ _ _ Hr), (cur_cons _ _ _ _ Hr).
      cbn [test]. rewrite He. cbn [andb].
      unfold is_code at 1. cbn [test]. rewrite (N.eqb_sym codeBackslash), Hbs.
      rewrite Hp. cbn [negb]. rewrite andb_true_r.
      assert (Hnext : forall str',
                 stringLoop text (length s + n) false false isEndQuote iB oB str'
                            (advance StringR 1 st)
                 = stringLoop text n false false isEndQuote iB oB (str' ++ escapeChars s)
                              (forward (length (c :: s)) [] st)).
      { intros str'. rewrite (proj1 (IH Hs _ n iB oB str' r Hr1 Hp1)).
        rewrite advance_forward, forward_forward. reflexivity. }
      cbn [escapeChars flat_map]. fold (escapeChars s). unfold escapeChar.
      destruct (c =? codeDoubleQuote)%N eqn:Eq.
      * apply N.eqb_eq in Eq. subst c. rewrite Hnext. f_equal. lists.
      * destruct (isControlCharacter c) eqn:Ec.
        -- destruct (controlCharacters_some c Ec) as [e Ee]. rewrite Ee.
           unfold appendOrUndefined. rewrite Hnext. f_equal. lists.
        -- rewrite (controlCharacters_none c Ec). rewrite orb_false_r in Hv. rewrite Hv.
           cbn [negb]. rewrite Hnext. f_equal. lists.
    + intros _. destruct s as [|x s].
      * cbn [length]. rewrite advance_eq in Hp1. exact Hp1.
      * pose proof (proj2 (IH Hs _ n iB oB str r Hr1 Hp1) ltac:(discriminate)) as H.
        rewrite advance_eq in H. cbn [i] in H. cbn [length] in *.
        replace (i st + S (S (length s))) with (i st + 1 + S (length s)) by lia. exact H.
Qed.

Lemma endQuote_isQuote q c : endQuoteOf (Some q) c = true -> isQuote c = true.
Proof.
  unfold endQuoteOf. cbn [test].
  destruct (isDoubleQuote q); [intros H; chars|].
  destruct (isSingleQuote q); [intros H; chars|].
  destruct (isSingleQuoteLike q); intros H; unfold isQuote; rewrite H; auto using orb_true_r.
Qed.

Lemma parseString_prefix text q body st n r :
  isQuote q = true -> forallb (ordinary (endQuoteOf (Some q))) body = true ->
  rest text st = q :: body ++ r ->
  parseString text (S (length body + n)) false st
  = stringLoop text n false false (endQuoteOf (Some q)) (i st) (length (output st))
               (dquote ++ escapeChars body) (forward (S (length body)) [] st).
Proof.
  intros Hq Hb Hr. cbn [parseString]. rewrite (cur_cons _ _ _ _ Hr).
  replace (is_code codeBackslash (Some q)) with false by (symmetry; chars).
  cbv iota. rewrite (cur_cons _ _ _ _ Hr). cbn [test]. rewrite Hq.
  rewrite (proj1 (stringLoop_prefix text _ body Hb (advance StringR 1 st) n _ _ dquote r
                    ltac:(now rewrite advance_forward, rest_forward, Hr)
                    ltac:(rewrite advance_eq; cbn [i]; rewrite charCodeBefore_next;
                          change (charCodeAt text (i st)) with (cur text st);
                          rewrite (cur_cons _ _ _ _ Hr); chars))).
  now rewrite advance_forward, forward_forward.
Qed.

(** The root value is a string, and the string recognizer throws. *)
Lemma run_string_throws text n w0 q l e st' :
  whitespace w0 = true -> isQuote q = true -> text = w0 ++ q :: l ->
  parseString text (S n) false (copy w0 initialState) = Throw e st' ->
  jsonrepair (S (S n)) text = Failed e.
Proof.
  intros Hw0 Hq -> Hs. apply (run_throws _ _ _ st').
  apply (parseValue_throws _ _ initialState w0 (q :: l) _ _ eq_refl Hw0);
    [cbn [hd_error test]; chars|].
  assert (Hr1 : rest (w0 ++ q :: l) (copy w0 initialState) = q :: l) by now apply rest_copy.
  unfold valueChain.
  rewrite parseObject_other by (rewrite (cur_cons _ _ _ _ Hr1); chars). cbn [orElseM bind].
  rewrite parseArray_other by (rewrite (cur_cons _ _ _ _ Hr1); chars). cbn [orElseM bind].
  now rewrite Hs.
Qed.

(** X21: a character below U+0020 inside a string that is none of the control
    characters with an escape makes [jsonrepair] throw [Invalid character],
    with the character and its position. *)
Theorem invalid_character_in_string w0 q body c r :
  whitespace w0 = true -> isQuote q = true ->
  forallb (ordinary (endQuoteOf (Some q))) body = true ->
  (c <? 0x20)%N && negb (isControlCharacter c) = true ->
  fails_with (w0 ++ q :: body ++ c :: r)
             {| err_message := InvalidCharacter (Some c);
                position := length (w0 ++ q :: body) |}.
Proof.
  intros Hw0 Hq Hb Hc. apply andb_true_iff in Hc as [Hc Hcc]. apply negb_true_iff in Hcc.
  exists (length body + 4). intros n Hn.
  destruct n as [|[|n]]; try lia.
  set (text := w0 ++ q :: body ++ c :: r).
  set (st1 := copy w0 initialState).
  assert (Hr1 : rest text st1 = q :: body ++ c :: r) by now apply rest_copy.
  apply (run_string_throws text n w0 q (body ++ c :: r) _
           (forward (S (length body)) [] st1) Hw0 Hq eq_refl).
  fold st1. replace n with (length body + (n - length body)) by lia.
  rewrite (parseString_prefix text q body st1 _ (c :: r) Hq Hb Hr1).
  destruct (n - length body) as [|m] eqn:Em; [lia|].
  set (st2 := forward (S (length body)) [] st1).
  assert (Hr2 : rest text st2 = c :: r).
  { unfold st2. rewrite rest_forward, Hr1. cbn [skipn]. apply skipn_length_app. }
  cbn [stringLoop]. rewrite (atEnd_cons _ _ _ _ Hr2), (cur_cons _ _ _ _ Hr2).
  assert (He : endQuoteOf (Some q) c = false).
  { destruct (endQuoteOf (Some q) c) eqn:E; [|reflexivity].
    apply endQuote_isQuote in E. chars. }
  cbn [test]. rewrite He. cbn [andb].
  replace (is_code codeBackslash (Some c)) with false by (symmetry; chars).
  replace (c =? codeDoubleQuote)%N with false by (symmetry; chars).
  cbn [andb]. rewrite Hcc.
  replace (isValidStringCharacter c) with false by (symmetry; chars).
  cbn [negb]. unfold throw. do 2 f_equal.
  unfold st2, st1, copy, forward. cbn [i initialState]. lens.
Qed.

Lemma invalid_character_in_string_witness :
  fails_with (lit " " ++ quoted (lit "ab" ++ [0x1%N] ++ lit "c"))
             {| err_message := InvalidCharacter (Some 0x1%N); position := 4 |}.
Proof.
  apply (invalid_character_in_string (lit " ") codeDoubleQuote (lit "ab") 0x1%N
           (lit "c" ++ dquote)); reflexivity.
Defined.

Lemma rest_text_length text st l :
  rest text st = l -> l <> [] -> length text = i st + length l.
Proof.
  intros Hr Hl. unfold rest in Hr. rewrite <- Hr, length_skipn.
  destruct (Nat.le_gt_cases (length text) (i st)) as [H|H]; [|lia].
  rewrite skipn_all2 in Hr by exact H. congruence.
Qed.

(** X22: inside a string, a backslash and [u] with fewer than four hex digits
    and then another character make [jsonrepair] throw [Invalid unicode
    character], with the characters from the backslash on (six at most) and
    the position of the backslash. *)
Theorem invalid_unicode_escape w0 q body hex x r :
  whitespace w0 = true -> isQuote q = true ->
  forallb (ordinary (endQuoteOf (Some q))) body = true ->
  forallb isHex hex = true -> length hex < 4 -> isHex x = false ->
  fails_with (w0 ++ q :: body ++ codeBackslash :: codeLowercaseU :: hex ++ x :: r)
             {| err_message :=
                  InvalidUnicodeCharacter
                    (codeBackslash :: codeLowercaseU :: firstn 4 (hex ++ x :: r));
                position := length (w0 ++ q :: body) |}.
Proof.
  intros Hw0 Hq Hb Hh Hl Hx.
  exists (length body + 4). intros n Hn.
  destruct n as [|[|n]]; try lia.
  set (tail := codeBackslash :: codeLowercaseU :: hex ++ x :: r).
  set (text := w0 ++ q :: body ++ tail).
  set (st1 := copy w0 initialState).
  assert (Hr1 : rest text st1 = q :: body ++ tail) by now apply rest_copy.
  apply (run_string_throws text n w0 q (body ++ tail) _
           (forward (S (length body)) [] st1) Hw0 Hq eq_refl).
  fold st1. replace n with (length body + (n - length body)) by lia.
  rewrite (parseString_prefix text q body st1 _ tail Hq Hb Hr1).
  destruct (n - length body) as [|m] eqn:Em; [lia|].
  set (st2 := forward (S (length body)) [] st1).
  assert (Hr2 : rest text st2 = tail).
  { unfold st2. rewrite rest_forward, Hr1. cbn [skipn]. apply skipn_length_app. }
  unfold tail in Hr2.
  cbn [stringLoop]. rewrite (atEnd_cons _ _ _ _ Hr2), (cur_cons _ _ _ _ Hr2).
  assert (He : endQuoteOf (Some q) codeBackslash = false).
  { destruct (endQuoteOf (Some q) codeBackslash) eqn:E; [|reflexivity].
    apply endQuote_isQuote in E. discriminate. }
  cbn [test]. rewrite He. cbn [andb].
  replace (is_code codeBackslash (Some codeBackslash)) with true by reflexivity.
  rewrite charCodeAt_ahead, Hr2. cbn [nth_error test].
  replace (isEscapeCharacter codeLowercaseU) with false by reflexivity.
  replace (is_code codeLowercaseU (Some codeLowercaseU)) with true by reflexivity.
  assert (Hrun : hexRun text st2 = length hex).
  { unfold hexRun. change (skipn (i st2 + 2) text) with (rest text (forward 2 [] st2)).
    rewrite rest_forward, Hr2. cbn [skipn].
    rewrite firstn_app, (@firstn_all2 _ 4 hex) by lia.
    replace (4 - length hex) with (S (3 - length hex)) by lia. cbn [firstn].
    rewrite span_app_all by exact Hh. cbn [span]. rewrite Hx. lia. }
  rewrite Hrun.
  replace (2 + length hex =? 6) with false by (symmetry; apply Nat.eqb_neq; lia).
  rewrite (rest_text_length text st2 _ Hr2) by discriminate.
  replace (i st2 + length (codeBackslash :: codeLowercaseU :: hex ++ x :: r)
             <=? i st2 + (2 + length hex)) with false
    by (symmetry; apply Nat.leb_gt; cbn [length]; rewrite length_app; cbn [length]; lia).
  rewrite slice_ahead, Hr2. unfold throw. do 2 f_equal.
  unfold st2, st1, copy, forward. cbn [i initialState]. lens.
Qed.

Lemma invalid_unicode_escape_witness :
  fails_with (quoted (lit "a\u12x"))
             {| err_message := InvalidUnicodeCharacter (lit "\u12x" ++ dquote); position := 2 |}.
Proof.
  apply (invalid_unicode_escape [] codeDoubleQuote (lit "a") (lit "12") 0x78%N dquote);
    try reflexivity.
  cbn. lia.
Defined.

(** ** Numbers with leading zeros *)

Lemma parseNumber_digits text st sign int frac exp r :
  (sign = [] \/ sign = [codeMinus]) -> int <> [] -> forallb isDigit int = true ->
  fraction frac -> exponentPart exp ->
  rest text st = (sign ++ int ++ frac ++ exp) ++ r -> endOfNumber r = true ->
  parseNumber text st
  = (true, forward (length (sign ++ int ++ frac ++ exp))
                   (if hasInvalidLeadingZero (sign ++ int ++ frac ++ exp)
                    then quoted (sign ++ int ++ frac ++ exp)
                    else sign ++ int ++ frac ++ exp) st).
Proof.
  intros Hs Hne Hd Hf He Hr Hn.
  rewrite <- !app_assoc in Hr. unfold parseNumber.
  assert (Hx : test isDigit (hd_error (exp ++ r)) = false
               /\ is_code codeDot (hd_error (exp ++ r)) = false).
  { destruct He as [->|[e [sg [d [ds [-> [He _]]]]]]]; cbn [app hd_error].
    - destruct r; cbn [hd_error]; split; chars.
    - split; chars. }
  destruct Hx as [Hx1 Hx2].
  assert (Hfx : test isDigit (hd_error (frac ++ exp ++ r)) = false).
  { destruct Hf as [->|[d [ds [-> _]]]]; [exact Hx1|reflexivity]. }
  rewrite (number_sign_digits text (i st) st sign int (frac ++ exp ++ r) Hr); auto.
  2: { destruct Hs as [->| ->]; [now left|right; split; auto]. }
  2: { intros E. now destruct Hne. }
  cbn [andThen].
  assert (Hr1 : rest text (forward (length (sign ++ int)) [] st) = frac ++ exp ++ r).
  { rewrite rest_forward, Hr. now peel. }
  rewrite (number_fraction text (i st) _ frac (exp ++ r) Hr1 Hf (fun _ => Hx2) Hx1).
  cbn [andThen]. rewrite forward_forward. cbn [app].
  assert (Hr2 : rest text (forward (length (sign ++ int) + length frac) [] st) = exp ++ r).
  { rewrite rest_forward, Hr. now peel. }
  assert (Hexp : numberExponent text (i st)
                   (forward (length (sign ++ int) + length frac) [] st)
                 = inr (forward (length (sign ++ int ++ frac ++ exp)) [] st)).
  { destruct He as [->|[e [sg [d [ds [-> [He [Hsg Hds]]]]]]]].
    - rewrite numberExponent_none.
      + f_equal. rewrite <- (forward_0_nil (forward _ _ st)). same_state.
      + rewrite cur_rest, Hr2. cbn [app]. destruct r; cbn [hd_error]; chars.
    - cbn [app] in Hr2. rewrite <- app_assoc in Hr2.
      rewrite (numberExponent_digits text (i st) _ e sg d ds r Hr2 He); auto.
      + f_equal. same_state.
      + destruct Hsg as [->|[s [-> Hsg]]]; [left|right].
        * split; [reflexivity|]. cbn [forallb] in Hds. cbn [app hd_error]. chars.
        * exists s. now split.
      + destruct r; cbn [hd_error]; chars. }
  rewrite Hexp. unfold numberEnd.
  rewrite atEndOfNumber_rest, rest_forward, Hr.
  replace (skipn (length (sign ++ int ++ frac ++ exp)) (sign ++ int ++ frac ++ exp ++ r))
    with r by (now peel).
  rewrite Hn. cbn [negb].
  change (i (forward (length (sign ++ int ++ frac ++ exp)) [] st))
    with (i st + length (sign ++ int ++ frac ++ exp)).
  replace (i st <? i st + length (sign ++ int ++ frac ++ exp)) with true.
  2: { symmetry. apply Nat.ltb_lt. destruct int; [congruence|]. lens. }
  rewrite slice_ahead, Hr.
  replace (firstn (length (sign ++ int ++ frac ++ exp)) (sign ++ int ++ frac ++ exp ++ r))
    with (sign ++ int ++ frac ++ exp) by (now peel).
  f_equal. rewrite emit_forward. unfold quoted, dquote.
  destruct (hasInvalidLeadingZero (sign ++ int ++ frac ++ exp)); same_state.
Qed.

Lemma repaired_leading_zero d ds frac exp :
  forallb isDigit (d :: ds) = true -> fraction frac -> exponentPart exp ->
  properRepair ((codeZero :: d :: ds) ++ frac ++ exp)
               (quoted ((codeZero :: d :: ds) ++ frac ++ exp)).
Proof.
  intros Hd Hf He. set (num := (codeZero :: d :: ds) ++ frac ++ exp).
  assert (Hz : hasInvalidLeadingZero num = true).
  { unfold num. cbn [app hasInvalidLeadingZero]. cbn [forallb] in Hd.
    apply andb_true_iff in Hd as [-> _]. reflexivity. }
  split; [|split].
  - exists 2. intros text st w0 w tail m Hr Hw0 Hw Ht Hm.
    destruct m as [|[|n]]; try lia.
    assert (Hr1 : rest text (copy w0 st) = num ++ w ++ tail) by now apply rest_copy.
    assert (Hr1' : rest text (copy w0 st)
                   = ([] ++ (codeZero :: d :: ds) ++ frac ++ exp) ++ w ++ tail) by exact Hr1.
    pose proof (parseNumber_digits text _ [] (codeZero :: d :: ds) frac exp (w ++ tail)
                  (or_introl eq_refl) ltac:(discriminate)
                  ltac:(cbn [forallb] in *; now rewrite Hd) Hf He Hr1'
                  (follow_endOfNumber w tail Hw (closes_follow _ Ht))) as Hp.
    change ([] ++ (codeZero :: d :: ds) ++ frac ++ exp) with num in Hp. rewrite Hz in Hp.
    apply (parseValue_reaches text (S n) st w0 num (quoted num) w tail
             (forward (length num) (quoted num) (copy w0 st)) Hr Hw0);
      [reflexivity| |apply reaches_forward|exact Hw|exact Ht].
    apply chain_number; try (rewrite cur_rest, Hr1; reflexivity). exact Hp.
  - reflexivity.
  - exists (dquote ++ num), codeDoubleQuote. split; [|reflexivity]. unfold quoted. lists.
Qed.

(** X23: a number that begins with a zero and another digit is written between
    double quotes, with its fraction and its exponent. *)
Theorem leading_zero_number_quoted d ds frac exp w0 w :
  forallb isDigit (d :: ds) = true -> fraction frac -> exponentPart exp ->
  whitespace w0 = true -> whitespace w = true ->
  repairs_to (w0 ++ ((codeZero :: d :: ds) ++ frac ++ exp) ++ w)
             (w0 ++ quoted ((codeZero :: d :: ds) ++ frac ++ exp) ++ w).
Proof.
  intros Hd Hf He Hw0 Hw. destruct (repaired_leading_zero d ds frac exp Hd Hf He) as [Hr _].
  now apply repaired_root.
Qed.

Lemma leading_zero_number_quoted_witness :
  repairs_to (lit " 007.5 ") (lit " " ++ quoted (lit "007.5") ++ lit " ").
Proof.
  apply (leading_zero_number_quoted 0x30%N (lit "7") (lit ".5") [] (lit " ") (lit " "));
    try reflexivity.
  - right. exists 0x35%N, []. split; reflexivity.
  - now left.
Defined.

(** ** A text that begins with a stray delimiter *)

(** [chars] with [stray] unfolded. *)
Ltac stray_chars := unfold stray in *; chars.

Lemma parseNumber_stray text st c r :
  rest text st = c :: r -> stray c = true -> parseNumber text st = (false, st).
Proof.
  intros Hr Hc. unfold parseNumber.
  rewrite numberSign_none by (rewrite (cur_cons _ _ _ _ Hr); stray_chars).
  cbn [andThen].
  assert (Hs : skipDigits text st = st).
  { unfold skipDigits. rewrite Hr. cbn [span].
    replace (isDigit c) with false by (symmetry; stray_chars). apply advance_0. }
  rewrite Hs.
  rewrite numberFraction_none by (rewrite (cur_cons _ _ _ _ Hr); stray_chars).
  cbn [andThen].
  rewrite numberExponent_none by (rewrite (cur_cons _ _ _ _ Hr); stray_chars).
  unfold numberEnd. destruct (atEndOfNumber text st); cbn [negb].
  - now rewrite Nat.ltb_irrefl.
  - now rewrite set_i_same.
Qed.

Lemma parseValue_stray text n st w c r :
  rest text st = w ++ c :: r -> forallb blank w = true -> stray c = true ->
  exists st', parseValue text (S (S n)) st = Ret false st'.
Proof.
  intros Hr Hw Hc. rewrite parseValue_chain.
  assert (Hr1 : rest text (snd (parseWhitespaceAndSkipComments text st)) = c :: r).
  { unfold rest. rewrite parseWSC_i, Nat.add_comm, <- skipn_skipn. fold (rest text st).
    rewrite Hr, (span_app_stop blank w (c :: r) Hw) by (cbn [hd_error test]; stray_chars).
    apply skipn_length_app. }
  destruct (parseWhitespaceAndSkipComments text st) as [b st1]. cbn [snd] in Hr1.
  unfold valueChain.
  rewrite parseObject_other by (rewrite (cur_cons _ _ _ _ Hr1); stray_chars).
  cbn [orElseM bind].
  rewrite parseArray_other by (rewrite (cur_cons _ _ _ _ Hr1); stray_chars).
  cbn [orElseM bind].
  rewrite parseString_other by (rewrite (cur_cons _ _ _ _ Hr1); stray_chars).
  cbn [orElseM bind].
  rewrite (parseNumber_stray text st1 c r Hr1 Hc). cbn [lift fst snd orElseM bind].
  rewrite (parseKeywords_other text st1 [] (c :: r) Hr1 eq_refl)
    by (cbn [hd_error test]; stray_chars).
  cbn [lift fst snd orElseM bind].
  rewrite parseUnquotedString_nothing
    by (rewrite Hr1; cbn [hd_error test]; unfold isSymbolCharacter; stray_chars).
  cbn [bind].
  destruct (parseWhitespaceAndSkipComments text st1) as [b2 st2]. now exists st2.
Qed.

(** X24: a text that begins, after whitespace, with a comma, a colon, a
    closing bracket or brace, a parenthesis or a plus sign has no root value:
    [jsonrepair] throws the unexpected end, at the length of the text,
    whatever stands behind that character. *)
Theorem stray_delimiter_unexpected_end (w : jsstring) (c : N) (r : jsstring) :
  forallb blank w = true -> stray c = true ->
  fails_with (w ++ c :: r)
    {| err_message := UnexpectedEnd; position := length (w ++ c :: r) |}.
Proof.
  intros Hw Hc. exists 2. intros n Hn. destruct n as [|[|n]]; try lia.
  unfold jsonrepair, run.
  destruct (parseValue_stray (w ++ c :: r) n initialState w c r eq_refl Hw Hc) as [st' H].
  rewrite H. reflexivity.
Qed.

Lemma stray_delimiter_unexpected_end_witness :
  fails_with (lit " ]x") {| err_message := UnexpectedEnd; position := 3 |}.
Proof.
  apply (stray_delimiter_unexpected_end (lit " ") codeClosingBracket (lit "x")); reflexivity.
Defined.

(** ** A string that a delimiter ends *)

(** The first run of [parseString] over a text without an end quote: at the
    end of the text, behind a delimiter, it starts again and stops at the
    first delimiter. *)
Lemma stringLoop_to_end text isEndQuote body :
  forallb (ordinary isEndQuote) body = true ->
  forall st n iBefore oBefore str,
    rest text st = body ->
    is_code codeBackslash (charCodeBefore text (i st)) = false ->
    test isDelimiter
         (charCodeAt text (prevNonWhitespaceIndex text (i st + length body - 1))) = true ->
    stringLoop text (length body + S n) false false isEndQuote iBefore oBefore str st
    = parseString text n true (restart iBefore oBefore (forward (length body) [] st)).
Proof.
  induction body as [|c s IH]; intros Hb st n iB oB str Hr Hp Hd; cbn [length Nat.add].
  - cbn [stringLoop]. rewrite (atEnd_nil _ _ Hr). cbn [length] in Hd.
    rewrite Nat.add_0_r in Hd. rewrite Hd. cbn [negb andb]. now rewrite forward_0_nil.
  - remember (length s + S n) as m eqn:Em. cbn [stringLoop].
    rewrite (atEnd_cons _ _ _ _ Hr), (cur_cons _ _ _ _ Hr).
    cbn [forallb] in Hb. apply andb_true_iff in Hb as [Hc Hs].
    unfold ordinary in Hc. apply andb_true_iff in Hc as [Hc Hv].
    apply andb_true_iff in Hc as [He Hbs].
    apply negb_true_iff in He, Hbs.
    cbn [test]. rewrite He. cbn [andb].
    unfold is_code at 1. cbn [test]. rewrite (N.eqb_sym codeBackslash), Hbs.
    rewrite Hp. cbn [negb]. rewrite andb_true_r.
    assert (Hnext : forall str',
               stringLoop text m false false isEndQuote iB oB str' (advance StringR 1 st)
               = parseString text n true (restart iB oB (forward (S (length s)) [] st))).
    { intros str'. subst m. rewrite (IH Hs (advance StringR 1 st) n iB oB str').
      - f_equal. f_equal. rewrite advance_forward, forward_forward. reflexivity.
      - now rewrite advance_forward, rest_forward, Hr.
      - rewrite advance_eq. cbn [i]. rewrite charCodeBefore_next.
        change (charCodeAt text (i st)) with (cur text st). rewrite (cur_cons _ _ _ _ Hr).
        unfold is_code. cbn [test]. now rewrite (N.eqb_sym codeBackslash).
      - rewrite advance_eq. cbn [i]. cbn [length] in Hd.
        replace (i st + 1 + length s - 1) with (i st + S (length s) - 1) by lia. exact Hd. }
    destruct (c =? codeDoubleQuote)%N; [apply Hnext|].
    destruct (isControlCharacter c); [apply Hnext|].
    rewrite orb_false_r in Hv. rewrite Hv. cbn [negb]. apply Hnext.
Qed.

(** The second run: it stops at the first delimiter and closes the
    string there. *)
Lemma stringLoop_stop text isEndQuote body d r :
  forallb (fun c => ordinary isEndQuote c && negb (isDelimiter c)) body = true ->
  isDelimiter d = true -> isEndQuote d = false -> follow (d :: r) = true ->
  forall st n iBefore oBefore str,
    rest text st = body ++ d :: r ->
    is_code codeBackslash (charCodeBefore text (i st)) = false ->
    stringLoop text (length body + S (S (S n))) true false isEndQuote iBefore oBefore str st
    = Ret true (forward (length body)
                        (insertBeforeLastWhitespace (str ++ escapeChars body) dquote) st).
Proof.
  intros Hb Hd Hq Hf. induction body as [|c s IH]; intros st n iB oB str Hr Hp;
    cbn [length Nat.add app] in *.
  - remember (S (S n)) as m eqn:Em. cbn [stringLoop].
    rewrite (atEnd_cons _ _ _ _ Hr), (cur_cons _ _ _ _ Hr). cbn [test].
    rewrite Hq, Hd. cbn [andb]. subst m.
    rewrite parseConcatenatedString_none
      by (unfold emit; now rewrite rest_set_output, Hr).
    cbn [bind]. rewrite emit_forward. cbn [escapeChars flat_map]. now rewrite app_nil_r.
  - remember (length s + S (S (S n))) as m eqn:Em. cbn [stringLoop].
    rewrite (atEnd_cons _ _ _ _ Hr), (cur_cons _ _ _ _ Hr).
    cbn [forallb] in Hb. apply andb_true_iff in Hb as [Hc Hs].
    apply andb_true_iff in Hc as [Hc Hnd]. apply negb_true_iff in Hnd.
    unfold ordinary in Hc. apply andb_true_iff in Hc as [Hc Hv].
    apply andb_true_iff in Hc as [He Hbs].
    apply negb_true_iff in He, Hbs.
    cbn [test]. rewrite He, Hnd. cbn [andb].
    unfold is_code at 1. cbn [test]. rewrite (N.eqb_sym codeBackslash), Hbs.
    rewrite Hp. cbn [negb]. rewrite andb_true_r.
    assert (Hnext : forall str',
               stringLoop text m true false isEndQuote iB oB str' (advance StringR 1 st)
               = Ret true (forward (length s)
                             (insertBeforeLastWhitespace (str' ++ escapeChars s) dquote)
                             (advance StringR 1 st))).
    { intros str'. subst m. apply (IH Hs).
      - now rewrite advance_forward, rest_forward, Hr.
      - rewrite advance_eq. cbn [i]. rewrite charCodeBefore_next.
        change (charCodeAt text (i st)) with (cur text st). rewrite (cur_cons _ _ _ _ Hr).
        unfold is_code. cbn [test]. now rewrite (N.eqb_sym codeBackslash). }
    cbn [escapeChars flat_map]. fold (escapeChars s). unfold escapeChar.
    destruct (c =? codeDoubleQuote)%N eqn:Eq.
    + apply N.eqb_eq in Eq. subst c. rewrite Hnext, advance_forward. f_equal. same_state.
    + destruct (isControlCharacter c) eqn:Ec.
      * destruct (controlCharacters_some c Ec) as [e Ee]. rewrite Ee. unfold appendOrUndefined.
        rewrite Hnext, advance_forward. f_equal. same_state.
      * rewrite (controlCharacters_none c Ec). rewrite orb_false_r in Hv. rewrite Hv. cbn [negb].
        rewrite Hnext, advance_forward. f_equal. same_state.
Qed.

Lemma forallb_and {A : Type} (p q : A -> bool) l :
  forallb p l = true -> forallb q l = true -> forallb (fun c => p c && q c) l = true.
Proof.
  intros Hp Hq. rewrite forallb_forall in *. intros x Hx. now rewrite (Hp x Hx), (Hq x Hx).
Qed.

(** A string without an end quote, in a text that ends behind a delimiter:
    it is closed before the first delimiter behind its opening quote. *)
Lemma parseString_stopped text q body d r st n :
  isQuote q = true ->
  forallb (ordinary (endQuoteOf (Some q))) (body ++ d :: r) = true ->
  forallb (fun c => negb (isDelimiter c)) body = true ->
  isDelimiter d = true -> follow (d :: r) = true ->
  rest text st = q :: body ++ d :: r ->
  test isDelimiter (charCodeAt text (prevNonWhitespaceIndex text (length text - 1))) = true ->
  length (body ++ d :: r) + length body + 6 <= n ->
  exists st', parseString text n false st = Ret true st'
              /\ reaches st st' (S (length body))
                   (insertBeforeLastWhitespace (dquote ++ escapeChars body) dquote)
              /\ rest text st' = d :: r.
Proof.
  intros Hq Hb Hnd Hd Hf Hr Hlast Hn.
  pose proof (rest_text_length text st _ Hr ltac:(discriminate)) as Hlen. cbn [length] in Hlen.
  set (tl := body ++ d :: r) in *.
  replace n with (S (length tl + S (S (length body + S (S (S (n - length tl - length body - 6)))))))
    by lia.
  set (n' := n - length tl - length body - 6).
  remember (length tl + S (S (length body + S (S (S n'))))) as m eqn:Em.
  cbn [parseString]. rewrite (cur_cons _ _ _ _ Hr).
  replace (is_code codeBackslash (Some q)) with false by (symmetry; chars).
  cbv iota. rewrite (cur_cons _ _ _ _ Hr). cbn [test]. rewrite Hq. subst m.
  assert (Hr1 : rest text (advance StringR 1 st) = tl)
    by now rewrite advance_forward, rest_forward, Hr.
  assert (Hp1 : is_code codeBackslash (charCodeBefore text (i (advance StringR 1 st))) = false).
  { rewrite advance_eq. cbn [i]. rewrite charCodeBefore_next.
    change (charCodeAt text (i st)) with (cur text st). rewrite (cur_cons _ _ _ _ Hr). chars. }
  rewrite (stringLoop_to_end text (endQuoteOf (Some q)) tl Hb (advance StringR 1 st)
             (S (length body + S (S (S n')))) (i st) (length (output st)) dquote Hr1 Hp1).
  2: { rewrite advance_eq. cbn [i].
       replace (i st + 1 + length tl - 1) with (length text - 1) by lia. exact Hlast. }
  set (s' := restart (i st) (length (output st)) (forward (length tl) [] (advance StringR 1 st))).
  assert (Hi : i s' = i st) by reflexivity.
  assert (Ho : output s' = output st).
  { unfold s', restart. cbn [output set_output set_i forward]. rewrite advance_eq.
    cbn [output]. rewrite app_nil_r. unfold substring0. apply firstn_all. }
  assert (Hr' : rest text s' = q :: tl) by (unfold rest; rewrite Hi; exact Hr).
  remember (length body + S (S (S n'))) as m eqn:Em.
  cbn [parseString]. rewrite (cur_cons _ _ _ _ Hr').
  replace (is_code codeBackslash (Some q)) with false by (symmetry; chars).
  cbv iota. rewrite (cur_cons _ _ _ _ Hr'). cbn [test]. rewrite Hq. subst m.
  assert (Hbd : forallb (ordinary (endQuoteOf (Some q))) body = true
                /\ ordinary (endQuoteOf (Some q)) d = true).
  { unfold tl in Hb. rewrite forallb_app in Hb. apply andb_true_iff in Hb as [H1 H2].
    cbn [forallb] in H2. apply andb_true_iff in H2 as [H2 _]. now split. }
  destruct Hbd as [Hbody Hdo].
  assert (Hqd : endQuoteOf (Some q) d = false).
  { unfold ordinary in Hdo. apply andb_true_iff in Hdo as [Hdo _].
    apply andb_true_iff in Hdo as [Hdo _]. now apply negb_true_iff in Hdo. }
  rewrite (stringLoop_stop text (endQuoteOf (Some q)) body d r
             (forallb_and _ _ _ Hbody Hnd) Hd Hqd Hf (advance StringR 1 s') n').
  - eexists. split; [reflexivity|]. split.
    + split.
      * cbn [i forward]. rewrite advance_eq. cbn [i]. rewrite Hi. lia.
      * cbn [output forward]. rewrite advance_eq. cbn [output]. now rewrite Ho.
    + rewrite rest_forward, advance_forward, rest_forward, Hr'. cbn [skipn].
      unfold tl. apply skipn_length_app.
  - now rewrite advance_forward, rest_forward, Hr'.
  - rewrite advance_eq. cbn [i]. rewrite charCodeBefore_next.
    change (charCodeAt text (i s')) with (cur text s'). rewrite (cur_cons _ _ _ _ Hr'). chars.
Qed.

Lemma escapeChars_app a b : escapeChars (a ++ b) = escapeChars a ++ escapeChars b.
Proof. unfold escapeChars. apply flat_map_app. Qed.

Lemma escapeChars_spaces sp :
  forallb (fun c => (c =? codeSpace)%N) sp = true -> escapeChars sp = sp.
Proof.
  induction sp as [|c sp IH]; [reflexivity|]. cbn [forallb]. intros H.
  apply andb_true_iff in H as [Hc Hs]. apply N.eqb_eq in Hc. subst c.
  cbn [escapeChars flat_map]. fold (escapeChars sp). now rewrite (IH Hs).
Qed.

Lemma spaces_whitespace sp :
  forallb (fun c => (c =? codeSpace)%N) sp = true -> whitespace sp = true.
Proof.
  unfold whitespace. rewrite !forallb_forall. intros H x Hx. specialize (H x Hx). chars.
Qed.

Lemma spaces_ordinary isEndQuote sp :
  (forall c, isEndQuote c = true -> isQuote c = true) ->
  forallb (fun c => (c =? codeSpace)%N) sp = true ->
  forallb (fun c => ordinary isEndQuote c && negb (isDelimiter c)) sp = true.
Proof.
  intros He. rewrite !forallb_forall. intros H x Hx. specialize (H x Hx).
  apply N.eqb_eq in H. subst x. unfold ordinary.
  destruct (isEndQuote codeSpace) eqn:E; [apply He in E; discriminate E|reflexivity].
Qed.

Lemma whitespace_ordinary isEndQuote w :
  (forall c, isEndQuote c = true -> isQuote c = true) ->
  whitespace w = true -> forallb (ordinary isEndQuote) w = true.
Proof.
  intros He. unfold whitespace. rewrite !forallb_forall. intros H x Hx. specialize (H x Hx).
  unfold ordinary. destruct (isEndQuote x) eqn:E.
  - apply He in E. exfalso. chars.
  - cbn [negb andb]. chars.
Qed.

(** What is written for the characters of a string ends on a character that
    is no whitespace when the characters do. *)
Lemma escaped_end body :
  negb (test isWhitespace (hd_error (rev body))) = true ->
  endsNonWhitespace (dquote ++ escapeChars body).
Proof.
  intros H. destruct body as [|x body'] using rev_ind.
  - exists [], codeDoubleQuote. now split.
  - rewrite rev_app_distr in H. cbn [rev app hd_error test] in H. apply negb_true_iff in H.
    rewrite escapeChars_app. cbn [escapeChars flat_map]. rewrite app_nil_r.
    unfold escapeChar. destruct (x =? codeDoubleQuote)%N.
    + exists (dquote ++ escapeChars body' ++ [codeBackslash]), codeDoubleQuote.
      split; [lists|reflexivity].
    + unfold controlCharacters.
      repeat match goal with
      | |- context [if (x =? ?c)%N then _ else _] => destruct (x =? c)%N
      end;
      try (eexists (dquote ++ escapeChars body' ++ [codeBackslash]), _;
           split; [lists|reflexivity]).
      exists (dquote ++ escapeChars body'), x. split; [lists|exact H].
Qed.

(** X25: a string without its end quote that stands alone in an array, made of
    characters that are no delimiters and ending on one that is no whitespace,
    gets its end quote in front of the spaces before the closing bracket:
    [parseString] runs to the end of the text, starts again and stops at the
    bracket. *)
Theorem unterminated_string_closed_before_bracket q body sp w0 w1 w2 :
  isQuote q = true ->
  forallb (fun c => ordinary (endQuoteOf (Some q)) c && negb (isDelimiter c)) body = true ->
  negb (test isWhitespace (hd_error (rev body))) = true ->
  forallb (fun c => (c =? codeSpace)%N) sp = true ->
  whitespace w0 = true -> whitespace w1 = true -> whitespace w2 = true ->
  repairs_to (w0 ++ lbracket ++ w1 ++ (q :: body) ++ sp ++ rbracket ++ w2)
             (w0 ++ lbracket ++ w1 ++ quoted (escapeChars body) ++ sp ++ rbracket ++ w2).
Proof.
  intros Hq Hb Hlast Hsp Hw0 Hw1 Hw2.
  pose proof (endQuote_isQuote q) as Heq.
  set (body' := body ++ sp).
  assert (Hb' : forallb (fun c => ordinary (endQuoteOf (Some q)) c && negb (isDelimiter c))
                        body' = true).
  { unfold body'. rewrite forallb_app, Hb. now rewrite (spaces_ordinary _ sp Heq Hsp). }
  assert (Hord : forallb (ordinary (endQuoteOf (Some q))) (body' ++ codeClosingBracket :: w2)
                 = true).
  { rewrite forallb_app. apply andb_true_iff. split.
    - rewrite forallb_forall in *. intros x Hx. specialize (Hb' x Hx).
      now apply andb_true_iff in Hb' as [Hb' _].
    - cbn [forallb]. rewrite (whitespace_ordinary _ w2 Heq Hw2), andb_true_r.
      unfold ordinary. destruct (endQuoteOf (Some q) codeClosingBracket) eqn:E;
        [apply Heq in E; discriminate E|reflexivity]. }
  assert (Hnd : forallb (fun c => negb (isDelimiter c)) body' = true).
  { rewrite forallb_forall in *. intros x Hx. specialize (Hb' x Hx).
    now apply andb_true_iff in Hb' as [_ Hb']. }
  set (text := w0 ++ lbracket ++ w1 ++ (q :: body) ++ sp ++ rbracket ++ w2).
  assert (Ht : text = (w0 ++ lbracket ++ w1 ++ q :: body') ++ codeClosingBracket :: w2 ++ []).
  { unfold text, body', lbracket, rbracket. lists. }
  assert (Hend : test isDelimiter
                   (charCodeAt text (prevNonWhitespaceIndex text (length text - 1))) = true).
  { replace (length text - 1) with (length (w0 ++ lbracket ++ w1 ++ q :: body') + length w2)
      by (rewrite Ht; lens).
    rewrite Ht, (prevNonWhitespaceIndex_back _ codeClosingBracket w2 [] eq_refl Hw2).
    unfold charCodeAt. rewrite nth_error_app2 by lia. rewrite Nat.sub_diag. reflexivity. }
  exists (length (body' ++ codeClosingBracket :: w2) + length body' + 12). intros n Hn.
  destruct n as [|[|[|[|[|n]]]]]; try lia.
  assert (Hr0 : rest text initialState
                = w0 ++ (lbracket ++ w1 ++ q :: body' ++ rbracket ++ w2)).
  { unfold text, body', rest. cbn [i initialState skipn]. lists. }
  assert (Hr1 : rest text (copy w0 initialState)
                = codeOpeningBracket :: w1 ++ q :: body' ++ rbracket ++ w2)
    by now apply rest_copy.
  set (st1 := copy w0 initialState) in *.
  (* the array *)
  assert (Ha : exists st5,
             parseArray text (S (S (S (S n)))) st1 = Ret true st5
             /\ reaches st1 st5 (length (lbracket ++ w1 ++ q :: body' ++ rbracket))
                  (lbracket ++ w1 ++ quoted (escapeChars body) ++ sp ++ rbracket)
             /\ rest text st5 = w2).
  { remember (S (S (S n))) as n3 eqn:En3.
    cbn [parseArray]. rewrite (cur_cons _ _ _ _ Hr1).
    replace (is_code codeOpeningBracket (Some codeOpeningBracket)) with true by reflexivity.
    replace (advance Array 1 (emit lbracket st1)) with (copy lbracket st1)
      by (rewrite emit_forward, advance_forward; same_state).
    assert (Hr2 : rest text (copy lbracket st1) = w1 ++ q :: body' ++ rbracket ++ w2)
      by now apply (rest_copy text lbracket).
    rewrite (parseWSC_copy text _ w1 _ Hr2 Hw1) by (cbn [hd_error test]; chars).
    rewrite copy_copy.
    set (st2 := copy (lbracket ++ w1) st1).
    assert (Hr3 : rest text st2 = q :: body' ++ codeClosingBracket :: w2).
    { unfold st2. rewrite <- copy_copy. now apply rest_copy. }
    rewrite skipCharacter_other by (rewrite (cur_cons _ _ _ _ Hr3); chars).
    subst n3.
    rewrite (arrayLoop_first text (S (S n)) st2 _ Hr3)
      by (cbn [hd_error test]; unfold startsElement; chars).
    destruct (parseString_stopped text q body' codeClosingBracket w2 st2 (S n)
                Hq Hord Hnd eq_refl eq_refl Hr3 Hend ltac:(lia)) as [st3 [Hs [Hs3 Hr4]]].
    assert (Hv : parseValue text (S (S n)) st2 = Ret true st3).
    { rewrite <- (copy_nil st3).
      apply (parseValue_around text (S n) st2 [] (q :: body' ++ codeClosingBracket :: w2)
               [] (codeClosingBracket :: w2)); auto.
      - cbn [hd_error test]. chars.
      - rewrite copy_nil.
        apply chain_string; [rewrite (cur_cons _ _ _ _ Hr3); chars..|exact Hs]. }
    rewrite Hv. cbn [bind negb].
    rewrite (arrayLoop_stop text _ false st3 w2 Hr4). cbn [bind].
    rewrite (cur_cons _ _ _ _ Hr4).
    replace (is_code codeClosingBracket (Some codeClosingBracket)) with true by reflexivity.
    eexists. split; [reflexivity|]. split.
    - eapply reaches_eq.
      + eapply reaches_trans; [apply (reaches_copy st1 (lbracket ++ w1))|]. fold st2.
        eapply reaches_trans; [exact Hs3|apply reaches_written].
      + unfold lbracket, rbracket. lens.
      + unfold body'. rewrite escapeChars_app, (escapeChars_spaces sp Hsp).
        rewrite <- (app_nil_l (dquote ++ escapeChars body ++ sp)).
        replace ([] ++ dquote ++ escapeChars body ++ sp)
          with ([] ++ (dquote ++ escapeChars body) ++ sp) by lists.
        rewrite (insertBeforeLastWhitespace_end _ dquote (escaped_end body Hlast) []
                   sp (spaces_whitespace sp Hsp)).
        unfold quoted. lists.
    - rewrite advance_forward, emit_forward, forward_forward, rest_forward, Hr4.
      reflexivity. }
  destruct Ha as [st5 [Hpa [Hs5 Hr5]]].
  assert (Hv : parseValue text (S (S (S (S (S n))))) initialState = Ret true (copy w2 st5)).
  { apply (parseValue_around text (S (S (S (S n)))) initialState w0
             (lbracket ++ w1 ++ q :: body' ++ rbracket ++ w2) w2 []).
    - exact Hr0.
    - exact Hw0.
    - reflexivity.
    - fold st1. apply chain_array; [rewrite (cur_cons _ _ _ _ Hr1); reflexivity|exact Hpa].
    - now rewrite app_nil_r.
    - exact Hw2.
    - reflexivity. }
  rewrite (run_root_only text _ _ Hv).
  - f_equal. destruct Hs5 as [_ Ho]. cbn [copy forward output]. rewrite Ho.
    unfold st1. cbn [copy forward output initialState app]. lists.
  - rewrite <- (app_nil_r w2) in Hr5. now apply (rest_copy text w2 []).
Qed.

Lemma unterminated_string_closed_before_bracket_witness :
  repairs_to (lit "[" ++ (codeDoubleQuote :: lit "hello") ++ lit " ]")
             (lit "[" ++ quoted (lit "hello") ++ lit " ]").
Proof.
  apply (unterminated_string_closed_before_bracket codeDoubleQuote (lit "hello") (lit " ")
           [] [] []); reflexivity.
Defined.

(** ** Missing commas *)

(** A round of [objectLoop] that finds no comma puts one into the output
    and goes on as a first round does. *)
Lemma objectLoop_no_comma text m st :
  negb (atEnd text st) && negb (is_code codeClosingBrace (cur text st)) = true ->
  is_code codeComma (cur text st) = false -> test blank (cur text st) = false ->
  objectLoop text (S m) false st
  = objectLoop text (S m) true
      (set_output (insertBeforeLastWhitespace (output st) comma) st).
Proof.
  intros Ha Hc Hb. cbn [objectLoop negb].
  change (atEnd text (set_output (insertBeforeLastWhitespace (output st) comma) st))
    with (atEnd text st).
  change (cur text (set_output (insertBeforeLastWhitespace (output st) comma) st))
    with (cur text st).
  rewrite Ha.
  rewrite (parseCharacter_other _ _ _ Hc). cbn [negb].
  rewrite parseWSC_none by (rewrite rest_set_output, <- cur_rest; exact Hb).
  reflexivity.
Qed.

Lemma arrayLoop_no_comma text m st :
  negb (atEnd text st) && negb (is_code codeClosingBracket (cur text st)) = true ->
  is_code codeComma (cur text st) = false ->
  arrayLoop text (S m) false st
  = arrayLoop text (S m) true
      (set_output (insertBeforeLastWhitespace (output st) comma) st).
Proof.
  intros Ha Hc. cbn [arrayLoop negb].
  change (atEnd text (set_output (insertBeforeLastWhitespace (output st) comma) st))
    with (atEnd text st).
  change (cur text (set_output (insertBeforeLastWhitespace (output st) comma) st))
    with (cur text st).
  rewrite Ha.
  now rewrite (parseCharacter_other _ _ _ Hc).
Qed.

Lemma gluedPairs_follow l tail : follow (gluedPairs l ++ rbrace ++ tail) = true.
Proof. destruct l as [|p l]; reflexivity. Qed.

Lemma pairs_within l : Forall pairOk l -> exists k, Forall (pairWithin k) l.
Proof.
  induction 1 as [|p l [_ [_ [_ [Hv _]]]] _ [k' IH]].
  - exists 0. constructor.
  - destruct (isJSONValue_valueText _ Hv) as [[k Hk] _].
    exists (k + k' + length (p_key p) + 4). constructor.
    + split; [|lia]. apply (keptWithin_more k); [exact Hk|lia].
    + eapply Forall_impl; [|exact IH]. intros a [Ha Hb]. split; [|lia].
      apply (keptWithin_more k'); [exact Ha|lia].
Qed.

(** The members behind the first one, each found without a comma. *)
Lemma objectLoop_glued text k l :
  Forall pairOk l -> Forall (pairWithin k) l ->
  forall st o v wv tail m,
    output st = o ++ v ++ wv -> endsNonWhitespace v -> whitespace wv = true ->
    rest text st = gluedPairs l ++ rbrace ++ tail -> k + length l + 1 <= m ->
    exists st', objectLoop text m false st = Ret tt st'
                /\ i st' = i st + length (gluedPairs l)
                /\ output st' = o ++ v ++ separatedPairs wv l
                /\ rest text st' = rbrace ++ tail.
Proof.
  induction l as [|p l IH]; intros Hok Hin st o v wv tail m Ho He Hwv Hr Hm.
  - cbn [gluedPairs separatedPairs length app] in *. destruct m as [|m]; [lia|].
    exists st. split; [apply (objectLoop_stop text m false st tail Hr)|].
    split; [lia|]. split; [exact Ho|exact Hr].
  - inversion Hok as [|? ? [Hkey [Hwk [Hwc [Hv Hwa]]]] Hok']. subst.
    inversion Hin as [|? ? [Hk Hkk] Hin']. subst.
    cbn [gluedPairs separatedPairs length] in *. unfold pairText in Hr.
    rewrite <- !app_assoc in Hr.
    destruct m as [|[|m]]; try lia.
    assert (Hcur : cur text st = Some codeDoubleQuote)
      by (rewrite cur_rest, Hr; reflexivity).
    rewrite objectLoop_no_comma
      by (rewrite ?atEnd_rest, ?Hcur, ?Hr; reflexivity).
    rewrite Ho, (insertBeforeLastWhitespace_end v comma He o wv Hwv).
    set (st2 := set_output (o ++ v ++ comma ++ wv) st).
    assert (Hr2 : rest text st2
                  = [] ++ memberText (p_key p) (p_wk p) (p_wc p) (p_value p) (p_after p)
                    ++ gluedPairs l ++ rbrace ++ tail).
    { unfold st2. rewrite rest_set_output, Hr. unfold memberText. lists. }
    pose proof (isJSONValue_valueText _ Hv) as Hvt.
    rewrite (objectLoop_step text (S m) true st2 [] _ _ _ _ _ _ k Hr2 eq_refl Hkey Hwk Hwc Hwa
               (valueText_head _ Hvt) Hk (gluedPairs_follow l tail) ltac:(lia) ltac:(lia)).
    cbn [app].
    set (st3 := copy (memberText (p_key p) (p_wk p) (p_wc p) (p_value p) (p_after p)) st2).
    destruct Hvt as [_ [_ Hev]].
    destruct (IH Hok' Hin' st3 (o ++ v ++ comma ++ wv ++ quoted (p_key p) ++ p_wk p
                                 ++ colon ++ p_wc p)
                (p_value p) (p_after p) tail (S m)) as [st' [Hl [Hi [Ho' Hr']]]].
    + unfold st3, st2, memberText. cbn [output copy forward set_output]. lists.
    + exact Hev.
    + exact Hwa.
    + unfold st3. apply rest_copy. rewrite Hr2. cbn [app]. lists.
    + lia.
    + exists st'. split; [exact Hl|]. split; [|split; [|exact Hr']].
      * rewrite Hi. unfold st3, st2, memberText, pairText.
        cbn [i copy forward set_output]. lens.
      * rewrite Ho'. unfold pairText. lists.
Qed.

Lemma parseObject_glued text k w p l tail st n :
  whitespace w = true -> pairOk p -> Forall pairOk l -> Forall (pairWithin k) (p :: l) ->
  rest text st = lbrace ++ w ++ gluedPairs (p :: l) ++ rbrace ++ tail ->
  k + length l + 3 <= n ->
  exists st', parseObject text (S n) st = Ret true st'
              /\ reaches st st' (length (lbrace ++ w ++ gluedPairs (p :: l) ++ rbrace))
                   (lbrace ++ w ++ pairText p ++ separatedPairs (p_after p) l ++ rbrace).
Proof.
  intros Hw [Hkey [Hwk [Hwc [Hv Hwa]]]] Hl Hin Hr Hn.
  inversion Hin as [|? ? [Hk Hkk] Hin']. subst.
  cbn [parseObject]. unfold lbrace in Hr. cbn [app] in Hr.
  rewrite (cur_cons _ _ _ _ Hr).
  replace (is_code codeOpeningBrace (Some codeOpeningBrace)) with true by reflexivity.
  replace (advance Object 1 (emit lbrace st)) with (copy lbrace st)
    by (rewrite emit_forward, advance_forward; same_state).
  assert (Hr1 : rest text (copy lbrace st) = w ++ gluedPairs (p :: l) ++ rbrace ++ tail)
    by now apply (rest_copy text lbrace).
  rewrite (parseWSC_copy text _ w _ Hr1 Hw) by reflexivity.
  rewrite copy_copy.
  assert (Hr2 : rest text (copy (lbrace ++ w) st)
                = [] ++ memberText (p_key p) (p_wk p) (p_wc p) (p_value p) (p_after p)
                  ++ gluedPairs l ++ rbrace ++ tail).
  { apply rest_copy. rewrite Hr. cbn [gluedPairs]. unfold pairText, memberText. lists. }
  rewrite skipCharacter_other by (rewrite cur_rest, Hr2; reflexivity).
  destruct n as [|n]; [lia|].
  pose proof (isJSONValue_valueText _ Hv) as Hvt.
  rewrite (objectLoop_step text n true _ [] _ _ _ _ _ _ k Hr2 eq_refl Hkey Hwk Hwc Hwa
             (valueText_head _ Hvt) Hk (gluedPairs_follow l tail) ltac:(lia) ltac:(lia)).
  cbn [app]. rewrite copy_copy.
  set (st3 := copy ((lbrace ++ w) ++ memberText (p_key p) (p_wk p) (p_wc p) (p_value p)
                                      (p_after p)) st).
  destruct Hvt as [_ [_ Hev]].
  destruct (objectLoop_glued text k l Hl Hin' st3
              (output st ++ lbrace ++ w ++ quoted (p_key p) ++ p_wk p ++ colon ++ p_wc p)
              (p_value p) (p_after p) tail n) as [st' [Hloop [Hi [Ho Hr']]]].
  - unfold st3, memberText. cbn [output copy forward]. lists.
  - exact Hev.
  - exact Hwa.
  - unfold st3. apply rest_copy. rewrite Hr. cbn [gluedPairs]. unfold pairText, memberText.
    lists.
  - lia.
  - rewrite Hloop. cbn [bind]. rewrite (cur_cons _ _ _ _ Hr').
    replace (is_code codeClosingBrace (Some codeClosingBrace)) with true by reflexivity.
    eexists. split; [reflexivity|]. split.
    + rewrite advance_forward, emit_forward. cbn [i forward]. rewrite Hi.
      unfold st3, memberText, pairText.
      cbn [i copy forward gluedPairs]. unfold pairText. lens.
    + rewrite advance_forward, emit_forward. cbn [output forward]. rewrite Ho.
      unfold pairText. lists.
Qed.

Lemma repaired_glued_object w p l :
  whitespace w = true -> Forall pairOk (p :: l) ->
  properRepair (lbrace ++ w ++ gluedPairs (p :: l) ++ rbrace)
               (lbrace ++ w ++ pairText p ++ separatedPairs (p_after p) l ++ rbrace).
Proof.
  intros Hw Hpl. split; [|split].
  - destruct (pairs_within _ Hpl) as [k Hk]. inversion Hpl as [|? ? Hp Hl]. subst.
    exists (k + length l + 5). intros text st w0 w1 tail m Hr Hw0 Hw1 Hc Hm.
    destruct m as [|[|n]]; try lia.
    set (obj := lbrace ++ w ++ gluedPairs (p :: l) ++ rbrace) in *.
    assert (Hr1 : rest text (copy w0 st) = obj ++ w1 ++ tail) by now apply rest_copy.
    assert (Hr1' : rest text (copy w0 st)
                   = lbrace ++ w ++ gluedPairs (p :: l) ++ rbrace ++ w1 ++ tail).
    { rewrite Hr1. unfold obj. lists. }
    destruct (parseObject_glued text k w p l (w1 ++ tail) (copy w0 st) n Hw Hp Hl Hk Hr1'
                ltac:(lia)) as [st2 [Hp2 Hs2]].
    apply (parseValue_reaches text (S n) st w0 obj _ w1 tail st2); auto.
    now apply chain_object.
  - reflexivity.
  - exists (lbrace ++ w ++ pairText p ++ separatedPairs (p_after p) l), codeClosingBrace.
    split; [|reflexivity]. unfold rbrace. lists.
Qed.

(** X26: members with JSON string keys and JSON values that follow one another
    in an object without commas get their commas: each comma is written right
    behind the value of the member before, in front of the whitespace behind
    that value, and the rest is kept as it is. *)
Theorem object_missing_commas w p l :
  whitespace w = true -> Forall pairOk (p :: l) ->
  properRepair (lbrace ++ w ++ gluedPairs (p :: l) ++ rbrace)
               (lbrace ++ w ++ pairText p ++ separatedPairs (p_after p) l ++ rbrace)
  /\ repairs_to (lbrace ++ w ++ gluedPairs (p :: l) ++ rbrace)
                (lbrace ++ w ++ pairText p ++ separatedPairs (p_after p) l ++ rbrace).
Proof.
  intros Hw Hpl. pose proof (repaired_glued_object w p l Hw Hpl) as Hp.
  split; [exact Hp|]. destruct Hp as [Hr _].
  pose proof (repaired_root _ _ [] [] Hr eq_refl eq_refl) as H.
  cbn [app] in H. now rewrite !app_nil_r in H.
Qed.

Lemma object_missing_commas_witness :
  repairs_to (lit "{" ++ quoted (lit "a") ++ lit ": 1 " ++ quoted (lit "b") ++ lit ": [2]"
              ++ newline ++ quoted (lit "c") ++ lit ":null}")
             (lit "{" ++ quoted (lit "a") ++ lit ": 1, " ++ quoted (lit "b") ++ lit ": [2],"
              ++ newline ++ quoted (lit "c") ++ lit ":null}").
Proof.
  apply (object_missing_commas []
           {| p_key := lit "a"; p_wk := []; p_wc := lit " "; p_value := lit "1";
              p_after := lit " " |}
           [ {| p_key := lit "b"; p_wk := []; p_wc := lit " "; p_value := lit "[2]";
                p_after := newline |};
             {| p_key := lit "c"; p_wk := []; p_wc := []; p_value := lit "null";
                p_after := [] |} ]).
  - reflexivity.
  - repeat constructor; try (intros c [Hc|[]]; subst c; vm_compute; repeat split; congruence).
Defined.

(** An item that may follow a value without a comma: a JSON value that
    begins with a delimiter, with whitespace behind it. *)
Lemma gluedItems_follow l tail :
  Forall (fun it : jsstring * jsstring => isLine (fst it) = true) l ->
  follow (gluedItems l ++ rbracket ++ tail) = true.
Proof.
  intros [|[v w] l' Hv _]; [reflexivity|]. cbn [gluedItems fst] in *.
  unfold isLine in Hv. apply andb_true_iff in Hv as [H1 H2].
  rewrite <- app_assoc. apply line_follow; [exact H2|].
  apply valueText_head. now apply isJSONValue_valueText.
Qed.

Lemma items_within (l : list (jsstring * jsstring)) :
  Forall (fun it => isJSONValue (fst it) = true) l ->
  exists k, Forall (fun it => keptWithin k (fst it)) l.
Proof.
  induction 1 as [|it l Hv _ [k' IH]].
  - exists 0. constructor.
  - destruct (isJSONValue_valueText _ Hv) as [[k Hk] _].
    exists (k + k'). constructor.
    + apply (keptWithin_more k); [exact Hk|lia].
    + eapply Forall_impl; [|exact IH]. intros a Ha.
      apply (keptWithin_more k'); [exact Ha|lia].
Qed.

(** The items behind the first one, each found without a comma. *)
Lemma arrayLoop_glued text k l :
  Forall (fun it : jsstring * jsstring => isLine (fst it) = true) l ->
  Forall (fun it : jsstring * jsstring => whitespace (snd it) = true) l ->
  Forall (fun it => keptWithin k (fst it)) l ->
  forall st o v wv tail m,
    output st = o ++ v ++ wv -> endsNonWhitespace v -> whitespace wv = true ->
    rest text st = gluedItems l ++ rbracket ++ tail -> k + length l + 1 <= m ->
    exists st', arrayLoop text m false st = Ret tt st'
                /\ i st' = i st + length (gluedItems l)
                /\ output st' = o ++ v ++ separatedItems wv l
                /\ rest text st' = rbracket ++ tail.
Proof.
  induction l as [|[x wx] l IH]; intros Hline Hws Hin st o v wv tail m Ho He Hwv Hr Hm.
  - cbn [gluedItems separatedItems length app] in *. destruct m as [|m]; [lia|].
    exists st. split; [apply (arrayLoop_stop text m false st tail Hr)|].
    split; [lia|]. split; [exact Ho|exact Hr].
  - inversion Hline as [|? ? Hx Hline']. subst.
    inversion Hws as [|? ? Hwx Hws']. subst.
    inversion Hin as [|? ? Hk Hin']. subst.
    cbn [fst snd] in *. cbn [gluedItems separatedItems length] in *.
    unfold isLine in Hx. apply andb_true_iff in Hx as [Hj Hd].
    pose proof (isJSONValue_valueText _ Hj) as Hvt.
    pose proof (valueText_head _ Hvt) as Hh.
    rewrite <- !app_assoc in Hr.
    destruct m as [|[|m]]; try lia.
    assert (Hcur : exists c r, rest text st = c :: r /\ isValueStart c = true).
    { destruct Hvt as [_ [[c [x' [-> Hc]]] _]]. exists c. eexists. split; [exact Hr|exact Hc]. }
    destruct Hcur as [c [r [Hcr Hc]]].
    rewrite arrayLoop_no_comma.
    2: { rewrite atEnd_rest, Hcr, (cur_cons _ _ _ _ Hcr). cbn [negb andb]. chars. }
    2: { rewrite (cur_cons _ _ _ _ Hcr). chars. }
    rewrite Ho, (insertBeforeLastWhitespace_end v comma He o wv Hwv).
    set (st2 := set_output (o ++ v ++ comma ++ wv) st).
    assert (Hr2 : rest text st2 = [] ++ x ++ wx ++ gluedItems l ++ rbracket ++ tail)
      by (unfold st2; rewrite rest_set_output; exact Hr).
    rewrite (arrayLoop_step text (S m) true st2 [] _ Hr2 eq_refl)
      by (cbn [app]; destruct x; [discriminate|exact Hh]).
    rewrite copy_nil.
    rewrite (Hk text st2 [] wx _ (S m) Hr2 eq_refl Hwx (gluedItems_follow l tail Hline'))
      by lia.
    cbn [bind negb app].
    set (st3 := copy (x ++ wx) st2).
    destruct Hvt as [_ [_ Hev]].
    destruct (IH Hline' Hws' Hin' st3 (o ++ v ++ comma ++ wv) x wx tail (S m))
      as [st' [Hl [Hi [Ho' Hr']]]].
    + unfold st3, st2. cbn [output copy forward set_output]. lists.
    + exact Hev.
    + exact Hwx.
    + unfold st3. apply rest_copy. rewrite Hr2. cbn [app]. lists.
    + lia.
    + exists st'. split; [exact Hl|]. split; [|split; [|exact Hr']].
      * rewrite Hi. unfold st3, st2. cbn [i copy forward set_output]. lens.
      * rewrite Ho'. lists.
Qed.

Lemma parseArray_glued text k w v wv l tail st n :
  whitespace w = true -> isJSONValue v = true -> whitespace wv = true ->
  keptWithin k v ->
  Forall (fun it : jsstring * jsstring => isLine (fst it) = true) l ->
  Forall (fun it : jsstring * jsstring => whitespace (snd it) = true) l ->
  Forall (fun it => keptWithin k (fst it)) l ->
  rest text st = lbracket ++ w ++ v ++ wv ++ gluedItems l ++ rbracket ++ tail ->
  k + length l + 3 <= n ->
  exists st', parseArray text (S n) st = Ret true st'
              /\ reaches st st' (length (lbracket ++ w ++ v ++ wv ++ gluedItems l ++ rbracket))
                   (lbracket ++ w ++ v ++ separatedItems wv l ++ rbracket).
Proof.
  intros Hw Hv Hwv Hk Hline Hws Hin Hr Hn.
  pose proof (isJSONValue_valueText _ Hv) as Hvt.
  pose proof (valueText_head _ Hvt) as Hh.
  cbn [parseArray]. unfold lbracket in Hr. cbn [app] in Hr.
  rewrite (cur_cons _ _ _ _ Hr).
  replace (is_code codeOpeningBracket (Some codeOpeningBracket)) with true by reflexivity.
  replace (advance Array 1 (emit lbracket st)) with (copy lbracket st)
    by (rewrite emit_forward, advance_forward; same_state).
  assert (Hr1 : rest text (copy lbracket st)
                = w ++ v ++ wv ++ gluedItems l ++ rbracket ++ tail)
    by now apply (rest_copy text lbracket).
  assert (Hc : exists c r, v = c :: r /\ isValueStart c = true).
  { destruct Hvt as [_ [[c [x' [-> Hc]]] _]]. now exists c, x'. }
  destruct Hc as [c [r [Hcr Hc]]].
  rewrite (parseWSC_copy text _ w _ Hr1 Hw) by (rewrite Hcr; cbn [app hd_error]; chars).
  rewrite copy_copy.
  assert (Hr2 : rest text (copy (lbracket ++ w) st)
                = [] ++ v ++ wv ++ gluedItems l ++ rbracket ++ tail).
  { apply rest_copy. rewrite Hr. lists. }
  rewrite skipCharacter_other
    by (rewrite cur_rest, Hr2, Hcr; cbn [app hd_error]; chars).
  destruct n as [|n]; [lia|].
  rewrite (arrayLoop_step text n true _ [] _ Hr2 eq_refl)
    by (rewrite Hcr; cbn [app hd_error test]; exact Hc).
  rewrite copy_nil.
  rewrite (Hk text _ [] wv _ n Hr2 eq_refl Hwv (gluedItems_follow l tail Hline)) by lia.
  cbn [bind negb app]. rewrite copy_copy.
  set (st3 := copy ((lbracket ++ w) ++ v ++ wv) st).
  destruct Hvt as [_ [_ Hev]].
  destruct (arrayLoop_glued text k l Hline Hws Hin st3 (output st ++ lbracket ++ w)
              v wv tail n) as [st' [Hloop [Hi [Ho Hr']]]].
  - unfold st3. cbn [output copy forward]. lists.
  - exact Hev.
  - exact Hwv.
  - unfold st3. apply rest_copy. rewrite Hr. lists.
  - lia.
  - rewrite Hloop. cbn [bind]. rewrite (cur_cons _ _ _ _ Hr').
    replace (is_code codeClosingBracket (Some codeClosingBracket)) with true by reflexivity.
    eexists. split; [reflexivity|]. split.
    + rewrite advance_forward, emit_forward. cbn [i forward]. rewrite Hi.
      unfold st3. cbn [i copy forward]. lens.
    + rewrite advance_forward, emit_forward. cbn [output forward]. rewrite Ho. lists.
Qed.

Lemma repaired_glued_array w v wv l :
  whitespace w = true -> isJSONValue v = true -> whitespace wv = true ->
  Forall (fun it : jsstring * jsstring => isLine (fst it) = true) l ->
  Forall (fun it : jsstring * jsstring => whitespace (snd it) = true) l ->
  properRepair (lbracket ++ w ++ v ++ wv ++ gluedItems l ++ rbracket)
               (lbracket ++ w ++ v ++ separatedItems wv l ++ rbracket).
Proof.
  intros Hw Hv Hwv Hline Hws. split; [|split].
  - assert (Hj : Forall (fun it : jsstring * jsstring => isJSONValue (fst it) = true)
                   ((v, wv) :: l)).
    { constructor; [exact Hv|]. eapply Forall_impl; [|exact Hline].
      intros a Ha. unfold isLine in Ha. now apply andb_true_iff in Ha as [Ha _]. }
    destruct (items_within _ Hj) as [k Hk]. inversion Hk as [|? ? Hkv Hkl]. subst.
    cbn [fst] in Hkv.
    exists (k + length l + 5). intros text st w0 w1 tail m Hr Hw0 Hw1 Hc Hm.
    destruct m as [|[|n]]; try lia.
    set (arr := lbracket ++ w ++ v ++ wv ++ gluedItems l ++ rbracket) in *.
    assert (Hr1 : rest text (copy w0 st) = arr ++ w1 ++ tail) by now apply rest_copy.
    assert (Hr1' : rest text (copy w0 st)
                   = lbracket ++ w ++ v ++ wv ++ gluedItems l ++ rbracket ++ w1 ++ tail).
    { rewrite Hr1. unfold arr. lists. }
    destruct (parseArray_glued text k w v wv l (w1 ++ tail) (copy w0 st) n Hw Hv Hwv Hkv
                Hline Hws Hkl Hr1' ltac:(lia)) as [st2 [Hp2 Hs2]].
    apply (parseValue_reaches text (S n) st w0 arr _ w1 tail st2); auto.
    apply chain_array; [|exact Hp2]. now rewrite cur_rest, Hr1.
  - reflexivity.
  - exists (lbracket ++ w ++ v ++ separatedItems wv l), codeClosingBracket.
    split; [|reflexivity]. unfold rbracket. lists.
Qed.

(** X27: JSON strings, arrays and objects that follow a first JSON value in an
    array without commas get their commas: each comma is written right behind
    the element before, in front of the whitespace behind that element, and
    the rest is kept as it is. *)
Theorem array_missing_commas w v wv l :
  whitespace w = true -> isJSONValue v = true -> whitespace wv = true ->
  Forall (fun it : jsstring * jsstring => isLine (fst it) = true) l ->
  Forall (fun it : jsstring * jsstring => whitespace (snd it) = true) l ->
  properRepair (lbracket ++ w ++ v ++ wv ++ gluedItems l ++ rbracket)
               (lbracket ++ w ++ v ++ separatedItems wv l ++ rbracket)
  /\ repairs_to (lbracket ++ w ++ v ++ wv ++ gluedItems l ++ rbracket)
                (lbracket ++ w ++ v ++ separatedItems wv l ++ rbracket).
Proof.
  intros Hw Hv Hwv Hline Hws.
  pose proof (repaired_glued_array w v wv l Hw Hv Hwv Hline Hws) as Hp.
  split; [exact Hp|]. destruct Hp as [Hr _].
  pose proof (repaired_root _ _ [] [] Hr eq_refl eq_refl) as H.
  cbn [app] in H. now rewrite !app_nil_r in H.
Qed.

Lemma array_missing_commas_witness :
  repairs_to (lit "[1 " ++ quoted (lit "a") ++ lit "[2] {}]")
             (lit "[1, " ++ quoted (lit "a") ++ lit ",[2], {}]").
Proof.
  apply (array_missing_commas [] (lit "1") (lit " ")
           [ (quoted (lit "a"), []); (lit "[2]", lit " "); (lit "{}", []) ]).
  - reflexivity.
  - reflexivity.
  - reflexivity.
  - repeat constructor.
  - repeat constructor.
Defined.

(** ** Missing colons *)

Lemma rest_forward_app text st k s l r :
  rest text st = l ++ r -> k = length l -> rest text (forward k s st) = r.
Proof. intros Hr ->. rewrite rest_forward, Hr. apply skipn_length_app. Qed.

(** A round of [objectLoop] over a member without its colon. *)
Lemma objectLoop_bare text m initial st pre key gap v wv tail k :
  rest text st = pre ++ quoted key ++ gap ++ v ++ wv ++ tail ->
  separator initial pre -> stringChars key ->
  whitespace gap = true -> whitespace wv = true ->
  test isValueStart (hd_error v) = true -> test isDelimiter (hd_error v) = true ->
  keptWithin k v -> follow tail = true -> k <= m -> length key + 4 <= m ->
  objectLoop text (S m) initial st
  = objectLoop text m false
      (forward (length (pre ++ quoted key ++ gap ++ v ++ wv))
               (pre ++ quoted key ++ colon ++ gap ++ v ++ wv) st).
Proof.
  intros Hr Hs Hkey Hgap Hwv Hv Hd Hk Hf Hkm Hm.
  assert (Hq : test isValueStart (hd_error (quoted key ++ gap ++ v ++ wv ++ tail)) = true)
    by reflexivity.
  cbn [objectLoop].
  assert (Hh : exists c, hd_error (pre ++ quoted key ++ gap ++ v ++ wv ++ tail) = Some c)
    by (destruct pre; eexists; reflexivity).
  destruct Hh as [c Hc]. pose proof (separator_head _ _ _ _ Hs Hq Hc) as Hcs.
  rewrite atEnd_rest, cur_rest, Hr.
  destruct (pre ++ quoted key ++ gap ++ v ++ wv ++ tail) as [|c' pl] eqn:E; [discriminate|].
  cbn [hd_error] in Hc |- *. injection Hc as ->.
  replace (is_code codeClosingBrace (Some c)) with false by (symmetry; chars).
  cbn [negb andb]. rewrite <- E in Hr. clear E pl Hcs c.
  rewrite (object_comma_read text initial pre _ st Hr Hs Hq).
  assert (Hr1 : rest text (copy pre st) = [] ++ quoted key ++ gap ++ v ++ wv ++ tail)
    by now apply rest_copy.
  rewrite (skipEllipsis_ws text _ [] _ Hr1) by auto. rewrite copy_nil. cbn [app] in Hr1.
  assert (Hfv : follow (v ++ wv ++ tail) = true) by now apply line_follow.
  rewrite (parseString_kept text key _ m gap (v ++ wv ++ tail) Hkey Hr1) by (auto; lia).
  cbn [orElseM bind negb]. rewrite copy_copy.
  set (st1 := copy (pre ++ quoted key ++ gap) st).
  assert (Hr2 : rest text st1 = [] ++ v ++ wv ++ tail).
  { apply rest_copy. rewrite Hr. lists. }
  destruct v as [|c v']; [discriminate|]. cbn [hd_error test] in Hv, Hd.
  cbn [app] in Hr2.
  rewrite (parseWSC_none text st1)
    by (rewrite Hr2; cbn [hd_error test]; now apply valueStart_not_blank).
  rewrite (parseCharacter_other text st1 codeColon)
    by (rewrite (cur_cons _ _ _ _ Hr2); chars).
  cbn [negb]. rewrite (cur_cons _ _ _ _ Hr2).
  replace (test isStartOfValue (Some c)) with true by (symmetry; chars).
  cbn [orb bind].
  replace (output st1) with ((output st ++ pre) ++ quoted key ++ gap)
    by (unfold st1; cbn [output copy forward]; lists).
  assert (He : endsNonWhitespace (quoted key)).
  { exists (dquote ++ key), codeDoubleQuote. split; [unfold quoted, dquote; lists|reflexivity]. }
  rewrite (insertBeforeLastWhitespace_end (quoted key) colon He _ gap Hgap).
  set (st2 := set_output ((output st ++ pre) ++ quoted key ++ colon ++ gap) st1).
  assert (Hr3 : rest text st2 = [] ++ (c :: v') ++ wv ++ tail) by exact Hr2.
  rewrite (Hk text st2 [] wv tail m Hr3 eq_refl Hwv Hf Hkm).
  cbn [bind negb]. f_equal. unfold st2, st1, copy, forward, set_output.
  cbn [i output rewinds app]. f_equal; [lens|lists].
Qed.

Lemma bares_within l : Forall bareOk l -> exists k, Forall (bareWithin k) l.
Proof.
  induction 1 as [|b l [_ [_ [_ [Hv _]]]] _ [k' IH]].
  - exists 0. constructor.
  - unfold isLine in Hv. apply andb_true_iff in Hv as [Hv _].
    destruct (isJSONValue_valueText _ Hv) as [[k Hk] _].
    exists (k + k' + length (b_key b) + 4). constructor.
    + split; [|lia]. apply (keptWithin_more k); [exact Hk|lia].
    + eapply Forall_impl; [|exact IH]. intros a [Ha Hb]. split; [|lia].
      apply (keptWithin_more k'); [exact Ha|lia].
Qed.

Lemma baresInput_follow l tail : follow (baresInput l ++ rbrace ++ tail) = true.
Proof. destruct l; reflexivity. Qed.

Lemma objectLoop_bares text k l :
  Forall bareOk l -> Forall (bareWithin k) l ->
  forall st tail m,
    rest text st = baresInput l ++ rbrace ++ tail -> k + length l + 1 <= m ->
    objectLoop text m false st
    = Ret tt (forward (length (baresInput l)) (baresOutput l) st).
Proof.
  induction l as [|b l IH]; intros Hok Hin st tail m Hr Hm.
  - cbn [baresInput baresOutput map concat length app] in *. destruct m as [|m]; [lia|].
    rewrite (objectLoop_stop text m false st tail Hr). now rewrite forward_0_nil.
  - inversion Hok as [|? ? [Hwb [Hkey [Hgap [Hline Hwa]]]] Hok']. subst.
    inversion Hin as [|? ? [Hk Hkk] Hin']. subst.
    unfold isLine in Hline. apply andb_true_iff in Hline as [Hj Hd].
    pose proof (valueText_head _ (isJSONValue_valueText _ Hj)) as Hh.
    unfold baresInput, baresOutput in *. cbn [map concat length] in *.
    fold (baresInput l) in *. fold (baresOutput l) in *.
    unfold bareInput in Hr. rewrite <- !app_assoc in Hr.
    destruct m as [|m]; [lia|].
    assert (Hr' : rest text st
                  = (comma ++ b_before b) ++ quoted (b_key b) ++ b_gap b ++ b_value b
                    ++ b_after b ++ baresInput l ++ rbrace ++ tail)
      by (rewrite Hr; lists).
    rewrite (objectLoop_bare text m false st (comma ++ b_before b) _ _ _ _ _ k Hr'
               (ex_intro _ (b_before b) (conj eq_refl Hwb)) Hkey Hgap Hwa Hh Hd Hk
               (baresInput_follow l tail) ltac:(lia) ltac:(lia)).
    rewrite (IH Hok' Hin' _ tail m).
    + f_equal. rewrite forward_forward. apply forward_eq.
      * unfold bareInput. lens.
      * unfold bareOutput. lists.
    + apply (rest_forward_app text st _ _
               ((comma ++ b_before b) ++ quoted (b_key b) ++ b_gap b ++ b_value b
                ++ b_after b)); [rewrite Hr'; lists|reflexivity].
    + lia.
Qed.

Lemma parseObject_bares text k b l tail st n :
  bareOk b -> Forall bareOk l -> Forall (bareWithin k) (b :: l) ->
  rest text st = lbrace ++ bareInput b ++ baresInput l ++ rbrace ++ tail ->
  k + length l + 3 <= n ->
  parseObject text (S n) st
  = Ret true (forward (length (lbrace ++ bareInput b ++ baresInput l ++ rbrace))
                      (lbrace ++ bareOutput b ++ baresOutput l ++ rbrace) st).
Proof.
  intros [Hwb [Hkey [Hgap [Hline Hwa]]]] Hl Hin Hr Hn.
  inversion Hin as [|? ? [Hk Hkk] Hin']. subst.
  unfold isLine in Hline. apply andb_true_iff in Hline as [Hj Hd].
  pose proof (valueText_head _ (isJSONValue_valueText _ Hj)) as Hh.
  cbn [parseObject]. unfold lbrace in Hr. cbn [app] in Hr.
  rewrite (cur_cons _ _ _ _ Hr).
  replace (is_code codeOpeningBrace (Some codeOpeningBrace)) with true by reflexivity.
  replace (advance Object 1 (emit lbrace st)) with (copy lbrace st)
    by (rewrite emit_forward, advance_forward; same_state).
  unfold bareInput in Hr. rewrite <- !app_assoc in Hr.
  assert (Hr1 : rest text (copy lbrace st)
                = b_before b ++ quoted (b_key b) ++ b_gap b ++ b_value b ++ b_after b
                  ++ baresInput l ++ rbrace ++ tail)
    by now apply (rest_copy text lbrace).
  rewrite (parseWSC_copy text _ (b_before b) _ Hr1 Hwb) by reflexivity.
  rewrite copy_copy.
  assert (Hr2 : rest text (copy (lbrace ++ b_before b) st)
                = [] ++ quoted (b_key b) ++ b_gap b ++ b_value b ++ b_after b
                  ++ baresInput l ++ rbrace ++ tail).
  { apply rest_copy. rewrite Hr. lists. }
  rewrite skipCharacter_other by (rewrite cur_rest, Hr2; reflexivity).
  destruct n as [|n]; [lia|].
  rewrite (objectLoop_bare text n true _ [] _ _ _ _ _ k Hr2 eq_refl Hkey Hgap Hwa Hh Hd Hk
             (baresInput_follow l tail) ltac:(lia) ltac:(lia)).
  rewrite (objectLoop_bares text k l Hl Hin' _ tail n).
  - cbn [bind]. unfold copy. rewrite !forward_forward.
    set (st' := forward _ _ st).
    assert (Hr' : rest text st' = rbrace ++ tail).
    { unfold st'.
      apply (rest_forward_app text st _ _
               (lbrace ++ b_before b ++ quoted (b_key b) ++ b_gap b ++ b_value b
                ++ b_after b ++ baresInput l)); [rewrite Hr; unfold lbrace; lists|lens]. }
    rewrite (cur_cons _ _ _ _ Hr').
    replace (is_code codeClosingBrace (Some codeClosingBrace)) with true by reflexivity.
    rewrite emit_forward, advance_forward. unfold st'. rewrite !forward_forward.
    f_equal. apply forward_eq.
    + unfold bareInput. lens.
    + unfold bareOutput. lists.
  - unfold copy. rewrite !forward_forward.
    apply (rest_forward_app text st _ _
             (lbrace ++ b_before b ++ quoted (b_key b) ++ b_gap b ++ b_value b
              ++ b_after b)); [rewrite Hr; unfold lbrace; lists|lens].
  - lia.
Qed.

Lemma repaired_bares b l :
  Forall bareOk (b :: l) ->
  properRepair (lbrace ++ bareInput b ++ baresInput l ++ rbrace)
               (lbrace ++ bareOutput b ++ baresOutput l ++ rbrace).
Proof.
  intros Hbl. split; [|split].
  - destruct (bares_within _ Hbl) as [k Hk]. inversion Hbl as [|? ? Hb Hl]. subst.
    exists (k + length l + 5). intros text st w0 w1 tail m Hr Hw0 Hw1 Hc Hm.
    destruct m as [|[|n]]; try lia.
    set (obj := lbrace ++ bareInput b ++ baresInput l ++ rbrace) in *.
    assert (Hr1 : rest text (copy w0 st) = obj ++ w1 ++ tail) by now apply rest_copy.
    assert (Hr1' : rest text (copy w0 st)
                   = lbrace ++ bareInput b ++ baresInput l ++ rbrace ++ w1 ++ tail).
    { rewrite Hr1. unfold obj. lists. }
    pose proof (parseObject_bares text k b l (w1 ++ tail) (copy w0 st) n Hb Hl Hk Hr1'
                  ltac:(lia)) as Hp.
    apply (parseValue_reaches text (S n) st w0 obj _ w1 tail _ Hr Hw0 eq_refl
             (chain_object _ _ _ _ Hp)); auto.
    split; reflexivity.
  - reflexivity.
  - exists (lbrace ++ bareOutput b ++ baresOutput l), codeClosingBrace.
    split; [|reflexivity]. unfold rbrace. lists.
Qed.

(** X28: members of an object that have a JSON string key and, without a
    colon, a JSON value that begins with a quote, a bracket or a brace get
    their colons: each colon is written right behind the key, in front of the
    whitespace between key and value, and the rest is kept as it is. *)
Theorem object_missing_colons b l :
  Forall bareOk (b :: l) ->
  properRepair (lbrace ++ bareInput b ++ baresInput l ++ rbrace)
               (lbrace ++ bareOutput b ++ baresOutput l ++ rbrace)
  /\ repairs_to (lbrace ++ bareInput b ++ baresInput l ++ rbrace)
                (lbrace ++ bareOutput b ++ baresOutput l ++ rbrace).
Proof.
  intros Hbl. pose proof (repaired_bares b l Hbl) as Hp.
  split; [exact Hp|]. destruct Hp as [Hr _].
  pose proof (repaired_root _ _ [] [] Hr eq_refl eq_refl) as H.
  cbn [app] in H. now rewrite !app_nil_r in H.
Qed.

Lemma object_missing_colons_witness :
  repairs_to (lit "{" ++ quoted (lit "a") ++ lit " " ++ quoted (lit "b") ++ lit ", "
              ++ quoted (lit "c") ++ lit "[1] }")
             (lit "{" ++ quoted (lit "a") ++ lit ": " ++ quoted (lit "b") ++ lit ", "
              ++ quoted (lit "c") ++ lit ":[1] }").
Proof.
  apply (object_missing_colons
           {| b_before := []; b_key := lit "a"; b_gap := lit " ";
              b_value := quoted (lit "b"); b_after := [] |}
           [ {| b_before := lit " "; b_key := lit "c"; b_gap := [];
                b_value := lit "[1]"; b_after := lit " " |} ]).
  repeat constructor; try (intros c [Hc|[]]; subst c; vm_compute; repeat split; congruence).
Defined.
(** ** Every call ends *)

Lemma settles_ret {A : Type} (r : result A) (P : result A -> Prop) :
  P r -> settles (fun _ => r) P.
Proof. intros H. exists r, 0. split; [exact H|reflexivity]. Qed.

Lemma settles_step {A : Type} (f g : nat -> result A) P :
  (forall n, f (S n) = g n) -> settles g P -> settles f P.
Proof.
  intros Hs [r [n0 [HP H]]]. exists r, (S n0). split; [exact HP|].
  intros [|n] Hn; [lia|]. rewrite Hs. apply H. lia.
Qed.

Lemma settles_weaken {A : Type} (f : nat -> result A) (P Q : result A -> Prop) :
  settles f P -> (forall r, P r -> Q r) -> settles f Q.
Proof. intros [r [n0 [HP H]]] HQ. exists r, n0. auto. Qed.

Lemma settles_bind {A B : Type} (m : nat -> result A) (k : nat -> A -> State -> result B)
    (Q : result A -> Prop) (P : result B -> Prop) :
  settles m Q ->
  (forall r, Q r ->
     match r with
     | Ret a st => settles (fun n => k n a st) P
     | Throw e st => P (Throw e st)
     | OutOfFuel => False
     end) ->
  settles (fun n => bind (m n) (k n)) P.
Proof.
  intros [r [n0 [HQ H]]] Hk. specialize (Hk r HQ). destruct r as [a st|e st|].
  - destruct Hk as [r' [n1 [HP H1]]]. exists r', (n0 + n1). split; [exact HP|].
    intros n Hn. rewrite H by lia. cbn [bind]. apply H1. lia.
  - exists (Throw e st), n0. split; [exact Hk|]. intros n Hn. now rewrite H by lia.
  - destruct Hk.
Qed.

Lemma settles_orElseM (m : nat -> result bool) (k : nat -> State -> result bool)
    (Q P : result bool -> Prop) :
  settles m Q ->
  (forall r, Q r ->
     match r with
     | Ret true st => P (Ret true st)
     | Ret false st => settles (fun n => k n st) P
     | Throw e st => P (Throw e st)
     | OutOfFuel => False
     end) ->
  settles (fun n => orElseM (m n) (k n)) P.
Proof.
  intros Hm Hk. unfold orElseM. apply (settles_bind m _ Q P Hm).
  intros r Hr. specialize (Hk r Hr). destruct r as [[|] st|e st|]; auto.
  now apply settles_ret.
Qed.

(** *** Where the cursor is *)

Lemma i_advance w k st : i (advance w k st) = i st + k.
Proof. now rewrite advance_eq. Qed.

Lemma i_set_i w j st : i (set_i w j st) = j.
Proof. reflexivity. Qed.

Lemma i_set_output o st : i (set_output o st) = i st.
Proof. reflexivity. Qed.

Lemma i_emit s st : i (emit s st) = i st.
Proof. reflexivity. Qed.

Lemma i_restart a b st : i (restart a b st) = a.
Proof. reflexivity. Qed.

Lemma cur_set_output text o st : cur text (set_output o st) = cur text st.
Proof. reflexivity. Qed.

Lemma cur_emit text s st : cur text (emit s st) = cur text st.
Proof. reflexivity. Qed.

Lemma atEnd_set_output text o st : atEnd text (set_output o st) = atEnd text st.
Proof. reflexivity. Qed.

Lemma atEnd_emit text s st : atEnd text (emit s st) = atEnd text st.
Proof. reflexivity. Qed.

Lemma cur_some text st c : cur text st = Some c -> i st < length text.
Proof. unfold cur, charCodeAt. intros H. apply nth_error_Some. congruence. Qed.

Lemma test_some text p st : test p (cur text st) = true -> i st < length text.
Proof.
  destruct (cur text st) as [c|] eqn:E; [intros _; exact (cur_some _ _ _ E)|discriminate].
Qed.

Lemma is_code_some text c st : is_code c (cur text st) = true -> i st < length text.
Proof. apply test_some. Qed.

Lemma atEnd_false text st : atEnd text st = false -> i st < length text.
Proof. unfold atEnd. intros H. apply Nat.leb_gt in H. exact H. Qed.

Lemma atEnd_true text st : atEnd text st = true -> length text <= i st.
Proof. unfold atEnd. intros H. now apply Nat.leb_le in H. Qed.

Lemma parseWSC_forward text st :
  i st <= i (snd (parseWhitespaceAndSkipComments text st))
  /\ test isWhitespace (cur text (snd (parseWhitespaceAndSkipComments text st))) = false.
Proof.
  split; [rewrite parseWSC_i; lia|].
  assert (H : test blank (cur text (snd (parseWhitespaceAndSkipComments text st))) = false).
  { rewrite cur_rest. unfold rest. rewrite parseWSC_i.
    rewrite Nat.add_comm, <- skipn_skipn. apply span_stop. }
  destruct (cur text _) as [c|]; [|reflexivity]. cbn [test] in *. unfold blank in H.
  now apply orb_false_iff in H as [H _].
Qed.

Lemma parseCharacter_forward text c st :
  i st <= i (snd (parseCharacter text c st))
  /\ (fst (parseCharacter text c st) = true ->
      is_code c (cur text st) = true /\ i (snd (parseCharacter text c st)) = i st + 1)
  /\ (fst (parseCharacter text c st) = false -> snd (parseCharacter text c st) = st).
Proof.
  unfold parseCharacter, is_code. destruct (cur text st) as [x|]; cbn [fst snd test].
  - rewrite (N.eqb_sym c x). destruct (x =? c)%N; cbn [fst snd]; rewrite ?i_advance, ?i_emit.
    + repeat split; intros; try lia; try discriminate; reflexivity.
    + repeat split; intros; try lia; try discriminate; reflexivity.
  - repeat split; intros; try lia; try discriminate; reflexivity.
Qed.

Lemma skipCharacter_forward text c st :
  i st <= i (snd (skipCharacter text c st))
  /\ (fst (skipCharacter text c st) = true ->
      is_code c (cur text st) = true /\ snd (skipCharacter text c st) = advance Character 1 st)
  /\ (fst (skipCharacter text c st) = false -> snd (skipCharacter text c st) = st).
Proof.
  unfold skipCharacter. destruct (is_code c (cur text st)); cbn [fst snd]; rewrite ?i_advance.
  - repeat split; intros; try lia; try discriminate; reflexivity.
  - repeat split; intros; try lia; try discriminate; reflexivity.
Qed.

(** The whitespace recognizer is looked at with what it does to the cursor. *)
Ltac ws_facts :=
  repeat match goal with
  | |- context [parseWhitespaceAndSkipComments ?t ?s] =>
      let H := fresh "Hw" in
      pose proof (parseWSC_forward t s) as H;
      destruct (parseWhitespaceAndSkipComments t s) as [? ?];
      cbn [fst snd i advance set_i emit set_output restart] in H
  end.

Ltac unstep f := eapply settles_step; [intro; cbn [f]; reflexivity|].

Lemma moved_never {A : Type} text st (a : A) st' : i st <= i st' -> moved text st never (Ret a st').
Proof. intros H. split; [exact H|discriminate]. Qed.

(** *** The string recognizers *)

Lemma concatenationLoop_settles text m :
  (forall flag st, length text - i st < m ->
     settles (fun n => parseString text n flag st) (stringDone text st)) ->
  forall k p st, length text - i st = k -> k <= m ->
    settles (fun n => concatenationLoop text n p st) (moved text st never).
Proof.
  intros IH k. induction k as [k IHk] using lt_wf_ind. intros p st Hk Hm.
  unstep concatenationLoop.
  destruct (is_code codePlus (cur text st)) eqn:Ec.
  2: { apply settles_ret. apply moved_never. lia. }
  apply is_code_some in Ec. ws_facts. destruct Hw as [Hw _].
  eapply settles_bind; [apply (IH false); cbn [i set_output]; lia|].
  intros [ok st3|e st3|] [Hr Hr']; cbn [moved] in Hr; [|exact Hr|exact Hr].
  cbn [i set_output] in Hr. destruct Hr as [Hr _].
  destruct ok;
    (eapply settles_weaken;
     [eapply IHk; [|reflexivity|]; cbn [i set_output]; lia
     |intros [a st4|e st4|]; cbn [moved i set_output]; try tauto;
      intros [H1 _]; (split; [lia|discriminate])]).
Qed.

Lemma parseConcatenatedString_settles text m :
  (forall flag st, length text - i st < m ->
     settles (fun n => parseString text n flag st) (stringDone text st)) ->
  forall st, length text - i st <= m ->
    settles (fun n => parseConcatenatedString text n st) (moved text st never).
Proof.
  intros IH st Hm. unstep parseConcatenatedString. ws_facts. destruct Hw as [Hw _].
  eapply settles_weaken.
  - eapply (concatenationLoop_settles text m IH); [reflexivity|lia].
  - intros [a st4|e st4|]; cbn [moved]; try tauto. intros [H1 _]. split; [lia|discriminate].
Qed.

Lemma within_at text m st :
  i st < length text -> m <> UnexpectedEnd ->
  within text {| err_message := m; position := i st |}.
Proof. intros H1 H2. split; assumption. Qed.

Lemma stringLoop_settles text flag skip q iBefore oBefore :
  (forall st, iBefore < i st ->
     settles (fun n => parseConcatenatedString text n st) (moved text st never)) ->
  (flag = false -> forall st, i st = iBefore ->
     settles (fun n => parseString text n true st) (loopDone text iBefore)) ->
  forall k str st, length text - i st = k -> iBefore < i st ->
    settles (fun n => stringLoop text n flag skip q iBefore oBefore str st)
            (loopDone text iBefore).
Proof.
  intros H1 H2 k. induction k as [k IHk] using lt_wf_ind. intros str st Hk Hb.
  assert (Hnext : forall str' st', i st < i st' -> i st < length text ->
            settles (fun n => stringLoop text n flag skip q iBefore oBefore str'
                                (if skip then snd (skipEscapeCharacter text st') else st'))
                    (loopDone text iBefore)).
  { intros str' st' Hi Hl.
    assert (Hs : i st' <= i (if skip then snd (skipEscapeCharacter text st') else st')).
    { destruct skip; [apply skipCharacter_forward|lia]. }
    eapply IHk; [|reflexivity|]; lia. }
  unstep stringLoop.
  destruct (atEnd text st) eqn:Ee.
  { destruct (negb flag && _) eqn:Ef.
    - apply H2; [|reflexivity]. destruct flag; [discriminate|reflexivity].
    - apply settles_ret. cbn. split; [reflexivity|exact Hb]. }
  apply atEnd_false in Ee.
  destruct (test q (cur text st)) eqn:Eq.
  { ws_facts. destruct Hw as [Hw _].
    destruct (flag || _ || _ || _ || _) eqn:Ef.
    - eapply settles_bind; [apply H1; lia|].
      intros [a st2|e st2|]; cbn [moved]; try tauto. intros [Hr _].
      apply settles_ret. cbn. split; [reflexivity|lia].
    - destruct (test isDelimiter (charCodeAt text _)) eqn:Ed.
      + apply H2; [|reflexivity]. destruct flag; [discriminate|reflexivity].
      + apply Hnext; [cbn [i set_i]; lia|exact Ee]. }
  destruct (flag && _) eqn:Ef.
  { eapply settles_bind; [apply H1; cbn [i emit set_output]; lia|].
    intros [a st2|e st2|]; cbn [moved]; try tauto. intros [Hr _].
    apply settles_ret. cbn. split; [reflexivity|]. cbn [i emit set_output] in Hr. lia. }
  destruct (is_code codeBackslash (cur text st)) eqn:Eb.
  { destruct (test isEscapeCharacter _) eqn:Ex.
    - apply Hnext; [rewrite i_advance; lia|exact Ee].
    - destruct (is_code codeLowercaseU _) eqn:Eu.
      + destruct (2 + hexRun text st =? 6) eqn:E6.
        * apply Hnext; [rewrite i_advance; lia|exact Ee].
        * destruct (length text <=? i st + (2 + hexRun text st)) eqn:El.
          -- apply Hnext; [cbn [i set_i]; lia|exact Ee].
          -- apply settles_ret. apply within_at; [exact Ee|discriminate].
      + apply Hnext; [rewrite i_advance; lia|exact Ee]. }
  destruct (cur text st) as [code|] eqn:Ec.
  2: { apply settles_ret. apply within_at; [exact Ee|discriminate]. }
  destruct ((code =? codeDoubleQuote)%N && _).
  { apply Hnext; [rewrite i_advance; lia|exact Ee]. }
  destruct (isControlCharacter code).
  { apply Hnext; [rewrite i_advance; lia|exact Ee]. }
  destruct (negb (isValidStringCharacter code)).
  { apply settles_ret. apply within_at; [exact Ee|discriminate]. }
  apply Hnext; [rewrite i_advance; lia|exact Ee].
Qed.

Lemma quote_not_backslash c : test isQuote c = true -> is_code codeBackslash c = false.
Proof.
  destruct c as [c|]; [|reflexivity]. cbn [test is_code]. intros H.
  destruct (N.eqb_spec codeBackslash c) as [<-|]; [discriminate H|reflexivity].
Qed.

Lemma skipped_forward text st :
  i st <= i (skipped text st)
  /\ (test isWhitespace (cur text (skipped text st)) = false
      \/ test isWhitespace (charCodeBefore text (i (skipped text st))) = false
      \/ skipped text st = st).
Proof.
  unfold skipped. destruct (is_code codeBackslash (cur text st)) eqn:E.
  - rewrite i_advance. split; [lia|]. right. left.
    replace (i st + 1) with (S (i st)) by lia. cbn [charCodeBefore].
    unfold cur, charCodeAt in E. destruct (nth_error text (i st)) as [c|]; [|discriminate].
    cbn [is_code test] in *. apply N.eqb_eq in E. now subst c.
  - split; [lia|]. now right; right.
Qed.

Lemma parseString_from text m flag st :
  (forall st', i (skipped text st) < i st' ->
     settles (fun n => parseConcatenatedString text n st') (moved text st' never)) ->
  (flag = false -> forall st', i st' = i (skipped text st) ->
     settles (fun n => parseString text n true st') (stringDone text st')) ->
  length text - i st < S m ->
  settles (fun n => parseString text n flag st) (stringDone text st).
Proof.
  intros H1 H2 Hm. unstep parseString.
  change (if is_code codeBackslash (cur text st) then advance StringR 1 st else st)
    with (skipped text st).
  pose proof (skipped_forward text st) as [Hs _].
  destruct (test isQuote (cur text (skipped text st))) eqn:Eq.
  2: { apply settles_ret. split; [split; [exact Hs|discriminate]|]. now split. }
  pose proof (test_some _ _ _ Eq) as Hl.
  eapply settles_weaken.
  - eapply (stringLoop_settles text flag _ _ (i (skipped text st))); [exact H1| |reflexivity|].
    + intros Hf st' Hi. eapply settles_weaken; [apply (H2 Hf st' Hi)|].
      intros [[|] st2|e st2|] [Hr Hr']; cbn [moved loopDone] in *; try tauto.
      * split; [reflexivity|]. destruct Hr as [_ Hr]. specialize (Hr eq_refl). lia.
      * exfalso. destruct Hr' as [Hr1 Hr2].
        assert (Hc : cur text st' = cur text (skipped text st)) by (unfold cur; now rewrite Hi).
        unfold skipped in Hr1 at 1. rewrite Hc, (quote_not_backslash _ Eq) in Hr1.
        subst st2. rewrite Hc in Hr2. congruence.
    + rewrite i_advance. lia.
  - intros [b st2|e st2|]; unfold stringDone; cbn [loopDone moved]; try tauto.
    intros [-> Hi]. split; [|exact I]. split; [lia|]. intros _. lia.
Qed.

Lemma parseString_settles text m :
  forall flag st, length text - i st < m ->
    settles (fun n => parseString text n flag st) (stringDone text st).
Proof.
  induction m as [|m IH]; intros flag st Hm; [lia|].
  assert (Hc : forall s, length text - i s <= m ->
             settles (fun n => parseConcatenatedString text n s) (moved text s never))
    by (intros s Hs; now apply (parseConcatenatedString_settles text m IH)).
  assert (Ht : forall s, length text - i s < S m ->
             settles (fun n => parseString text n true s) (stringDone text s)).
  { intros s Hs. apply (parseString_from text m true); [|discriminate|exact Hs].
    intros s' Hi. apply Hc. pose proof (skipped_forward text s) as [H _]. lia. }
  pose proof (skipped_forward text st) as [H _].
  apply (parseString_from text m flag); [| |exact Hm].
  - intros s' Hi. apply Hc. lia.
  - intros _ s' Hi. apply Ht. lia.
Qed.

(** [parseString] ends on every input, and so does
    [parseConcatenatedString]. *)
Lemma parseString_ends text flag st :
  settles (fun n => parseString text n flag st) (stringDone text st).
Proof. apply (parseString_settles text (S (length text))). lia. Qed.

Lemma parseConcatenatedString_ends text st :
  settles (fun n => parseConcatenatedString text n st) (moved text st never).
Proof.
  apply (parseConcatenatedString_settles text (length text)); [|lia].
  intros flag s _. apply parseString_ends.
Qed.

(** *** The recognizers that call no other *)

Lemma numberSign_yes text st0 st :
  i st0 <= i st ->
  match numberSign text (i st0) st with
  | inl r => fst r = true -> i st0 < i (snd r)
  | inr _ => True
  end.
Proof.
  intros H. unfold numberSign, repairNumberEndingWithNumericSymbol.
  destruct (is_code codeMinus (cur text st)); [|exact I].
  destruct (atEndOfNumber text _); [cbn [fst snd i emit set_output]; rewrite i_advance; lia|].
  destruct (negb _); [discriminate|exact I].
Qed.

Lemma numberFraction_yes text st0 st :
  i st0 <= i st ->
  match numberFraction text (i st0) st with
  | inl r => fst r = true -> i st0 < i (snd r)
  | inr _ => True
  end.
Proof.
  intros H. unfold numberFraction, repairNumberEndingWithNumericSymbol.
  destruct (is_code codeDot (cur text st)); [|exact I].
  destruct (atEndOfNumber text _); [cbn [fst snd i emit set_output]; rewrite i_advance; lia|].
  destruct (negb _); [discriminate|exact I].
Qed.

Lemma numberExponent_yes text st0 st :
  i st0 <= i st ->
  match numberExponent text (i st0) st with
  | inl r => fst r = true -> i st0 < i (snd r)
  | inr _ => True
  end.
Proof.
  intros H. unfold numberExponent, repairNumberEndingWithNumericSymbol.
  destruct (_ || _); [|exact I].
  destruct (atEndOfNumber text _).
  - cbn [fst snd i emit set_output]. destruct (_ || _); rewrite ?i_advance; lia.
  - destruct (negb _); [discriminate|exact I].
Qed.

Lemma numberEnd_yes text st0 st :
  fst (numberEnd text (i st0) st) = true -> i st0 < i (snd (numberEnd text (i st0) st)).
Proof.
  unfold numberEnd. destruct (negb _); [discriminate|].
  destruct (Nat.ltb_spec (i st0) (i st)); [|discriminate].
  intros _. exact H.
Qed.

Lemma parseNumber_forward text st :
  i st <= i (snd (parseNumber text st))
  /\ (fst (parseNumber text st) = true ->
      i st < i (snd (parseNumber text st)) /\ i st < length text)
  /\ (fst (parseNumber text st) = false -> i (snd (parseNumber text st)) = i st).
Proof.
  pose proof (parseNumber_cursor text st) as [H1 [H2 _]].
  split; [exact H1|]. split; [|exact H2]. intros Ht. split.
  - revert Ht. clear H1 H2. unfold parseNumber.
    assert (H0 : passed st st) by (unfold passed; auto).
    pose proof (numberSign_cursor text st st H0) as H1.
    pose proof (numberSign_yes text st st (Nat.le_refl _)) as Y1.
    destruct (numberSign text (i st) st) as [r1|st1]; cbn [andThen]; [exact Y1|].
    pose proof (numberFraction_cursor text st _ (passed_skipDigits text st st1 H1)) as H2.
    pose proof (numberFraction_yes text st _ (proj1 (passed_skipDigits text st st1 H1))) as Y2.
    destruct (numberFraction text (i st) (skipDigits text st1)) as [r2|st2];
      cbn [andThen]; [exact Y2|].
    pose proof (numberExponent_yes text st st2 (proj1 H2)) as Y3.
    destruct (numberExponent text (i st) st2) as [r3|st3]; [exact Y3|].
    apply numberEnd_yes.
  - destruct (atEnd text st) eqn:E; [|now apply atEnd_false].
    rewrite (parseNumber_at_end text st E) in Ht. discriminate.
Qed.

Lemma parseKeyword_forward text name value st :
  name <> [] ->
  i st <= i (snd (parseKeyword text name value st))
  /\ (fst (parseKeyword text name value st) = true ->
      i st < i (snd (parseKeyword text name value st)))
  /\ (fst (parseKeyword text name value st) = false ->
      snd (parseKeyword text name value st) = st).
Proof.
  intros Hn. unfold parseKeyword. destruct (eqb_jsstring _ _); cbn [fst snd].
  - rewrite i_advance, i_emit. destruct name; [congruence|]. cbn [length].
    repeat split; intros; try lia; discriminate.
  - repeat split; intros; try lia; try discriminate; reflexivity.
Qed.

Lemma parseKeywords_forward text st :
  i st <= i (snd (parseKeywords text st))
  /\ (fst (parseKeywords text st) = true ->
      i st < i (snd (parseKeywords text st)) /\ i st < length text)
  /\ (fst (parseKeywords text st) = false -> snd (parseKeywords text st) = st).
Proof.
  assert (H : i st <= i (snd (parseKeywords text st))
              /\ (fst (parseKeywords text st) = true -> i st < i (snd (parseKeywords text st)))
              /\ (fst (parseKeywords text st) = false -> snd (parseKeywords text st) = st)).
  { unfold parseKeywords, orElse.
    repeat match goal with
    | |- context [parseKeyword text ?a ?b st] =>
        let H := fresh "Hk" in
        pose proof (parseKeyword_forward text a b st ltac:(discriminate)) as H;
        destruct (parseKeyword text a b st) as [[|] ?]; cbn [fst snd] in H;
        [exact H|destruct H as [_ [_ H]]; specialize (H eq_refl); subst]
    end.
    cbn [fst snd]. repeat split; intros; try lia; try discriminate; reflexivity. }
  destruct H as [H1 [H2 H3]]. split; [exact H1|]. split; [|exact H3].
  intros Ht. split; [now apply H2|].
  destruct (atEnd text st) eqn:E; [|now apply atEnd_false].
  rewrite (parseKeywords_at_end text st E) in Ht. discriminate.
Qed.

Lemma anchored_same text st st' : i st' = i st -> anchored text st -> anchored text st'.
Proof. unfold anchored, cur. intros ->. auto. Qed.

Lemma skipEllipsis_forward text st :
  i st <= i (snd (skipEllipsis text st))
  /\ anchored text (snd (skipEllipsis text st))
  /\ (test isWhitespace (cur text (snd (skipEllipsis text st))) = false
      \/ i st < i (snd (skipEllipsis text st))).
Proof.
  unfold skipEllipsis. ws_facts. destruct Hw as [Hw Hc].
  destruct (_ && _ && _); cbn [snd].
  2: { split; [exact Hw|]. split; [now left|now left]. }
  ws_facts. destruct Hw0 as [Hw0 Hc0].
  pose proof (skipCharacter_forward text codeComma s0) as [Hs1 [Hs2 Hs3]].
  destruct (skipCharacter text codeComma s0) as [[|] s1]; cbn [fst snd] in *.
  - destruct (Hs2 eq_refl) as [Hcomma ->]. rewrite i_advance.
    split; [lia|]. split; [|right; lia]. right. rewrite i_advance, charCodeBefore_next.
    fold (cur text s0). destruct (cur text s0) as [c|]; [|reflexivity].
    cbn [is_code test] in *. apply N.eqb_eq in Hcomma. now subst c.
  - rewrite (Hs3 eq_refl). split; [lia|]. split; [now left|now left].
Qed.

Lemma trimmedEnd_le text k : trimmedEnd text k <= k.
Proof. induction k as [|k IH]; cbn [trimmedEnd]; [lia|]. destruct (test _ _); lia. Qed.

(** The symbol is not trimmed to before a character that is no whitespace. *)
Lemma trimmedEnd_stop text j k :
  j <= k -> test isWhitespace (charCodeBefore text j) = false -> j <= trimmedEnd text k.
Proof.
  intros Hjk Hj. induction k as [|k IH]; cbn [trimmedEnd]; [lia|].
  destruct (test isWhitespace (charCodeAt text k)) eqn:E; [|lia].
  destruct (Nat.eq_dec j (S k)) as [->|Hne]; [|apply IH; lia].
  cbn [charCodeBefore] in Hj. unfold charCodeAt in E. congruence.
Qed.

Lemma trimmedEnd_anchored text st k :
  anchored text st -> i st < k ->
  i st <= trimmedEnd text k
  /\ (test isWhitespace (cur text st) = false -> i st < trimmedEnd text k).
Proof.
  intros Ha Hk. split.
  - destruct Ha as [Ha|Ha].
    + pose proof (trimmedEnd_stop text (S (i st)) k ltac:(lia) Ha). lia.
    + apply trimmedEnd_stop; [lia|exact Ha].
  - intros Hc. pose proof (trimmedEnd_stop text (S (i st)) k ltac:(lia) Hc). lia.
Qed.

(** A character a value starts with, the brackets, the braces and the quotes
    apart, is a character of a symbol. *)
Lemma startOfValue_symbol c :
  isStartOfValue c = true ->
  (c =? codeOpeningBracket)%N = false -> (c =? codeOpeningBrace)%N = false ->
  isQuote c = false ->
  isSymbolCharacter c = true.
Proof.
  unfold isStartOfValue, isSymbolCharacter, isDelimiterExceptSlash, isDelimiter.
  intros H H1 H2 H3. rewrite H1, H2, H3 in *. cbn [orb negb andb] in *.
  rewrite andb_true_r. apply negb_true_iff. apply andb_false_iff.
  destruct (N.eqb_spec c codeSlash) as [->|Hs]; [now right|left].
  unfold isWordCharacter, isDigit, between in H.
  repeat match goal with
  | |- context [(c =? ?x)%N] => destruct (N.eqb_spec c x) as [->|?]; [exfalso; revert H; vm_compute; discriminate|]
  end.
  reflexivity.
Qed.

(** *** The recognizers of values *)

Lemma span_none (p : N -> bool) l : span p l = 0 -> test p (hd_error l) = false.
Proof. destruct l as [|c l]; [reflexivity|]. cbn [span hd_error test]. now destruct (p c). Qed.

Lemma span_rest text p st : 0 < span p (rest text st) -> i st < length text.
Proof.
  intros H. pose proof (span_le p (rest text st)) as Hl.
  unfold rest in *. rewrite length_skipn in Hl. lia.
Qed.

Lemma parseUnquotedString_from text st :
  (forall s, length text - i s < length text - i st ->
     settles (fun n => parseValue text n s) (valueDone text s)) ->
  anchored text st ->
  settles (fun n => parseUnquotedString text n st) (unquotedDone text st).
Proof.
  intros Hv Ha. unstep parseUnquotedString.
  change (fun c => negb (isDelimiterExceptSlash c) && negb (isQuote c)) with isSymbolCharacter.
  rewrite i_advance.
  destruct (Nat.ltb_spec (i st) (i st + span isSymbolCharacter (rest text st))) as [Hk|Hk].
  2: { assert (E : span isSymbolCharacter (rest text st) = 0) by lia.
       rewrite E, advance_0. apply settles_ret. cbn [unquotedDone].
       split; [lia|]. split; [discriminate|]. intros _. split; [reflexivity|].
       rewrite cur_rest. now apply span_none. }
  assert (Hl : i st < length text) by (apply (span_rest text isSymbolCharacter); lia).
  destruct (_ && _).
  - eapply settles_bind; [apply Hv; rewrite !i_advance; lia|].
    intros [b st2|e st2|] [Hr _]; cbn [moved] in Hr; try tauto.
    rewrite !i_advance in Hr. destruct Hr as [Hr _].
    apply settles_ret. cbn [unquotedDone].
    assert (Hi : i st2 <= i (if is_code codeCloseParenthesis (cur text st2)
                             then if is_code codeSemicolon (cur text (advance Unquoted 1 st2))
                                  then advance Unquoted 1 (advance Unquoted 1 st2)
                                  else advance Unquoted 1 st2
                             else st2))
      by (repeat destruct (is_code _ _); rewrite ?i_advance; lia).
    split; [lia|]. split; [intros _; split; [exact Hl|intros _; lia]|discriminate].
  - apply settles_ret. cbn [unquotedDone].
    pose proof (trimmedEnd_anchored text st _ Ha Hk) as [Ht1 Ht2].
    match goal with
    | |- i st <= i ?s /\ _ =>
        assert (Hi : trimmedEnd text (i st + span isSymbolCharacter (rest text st)) <= i s)
          by (destruct (is_code codeDoubleQuote _);
              rewrite ?i_advance; cbn [i emit set_output set_i]; lia)
    end.
    split; [lia|]. split; [intros _; split; [exact Hl|intros Hc; specialize (Ht2 Hc); lia]
                          |discriminate].
Qed.

Ltac skip_facts :=
  match goal with
  | |- context [skipCharacter ?t ?c ?s] =>
      let H := fresh "Hs" in
      pose proof (skipCharacter_forward t c s) as [H _];
      destruct (skipCharacter t c s) as [[|] ?]; cbn [fst snd] in H |- *
  end.

Ltac char_facts :=
  match goal with
  | |- context [parseCharacter ?t ?c ?s] =>
      let H := fresh "Hp" in
      pose proof (parseCharacter_forward t c s) as [H _];
      destruct (parseCharacter t c s) as [[|] ?]; cbn [fst snd negb] in H |- *
  end.

Lemma parseObject_from text st :
  (forall b s, length text - i s < length text - i st ->
     settles (fun n => objectLoop text n b s) (moved text s never)) ->
  settles (fun n => parseObject text n st) (openedDone text codeOpeningBrace st).
Proof.
  intros Hl. unstep parseObject. destruct (is_code codeOpeningBrace (cur text st)) eqn:E.
  2: { apply settles_ret. split; [split; [lia|discriminate]|now split]. }
  apply is_code_some in E. ws_facts. destruct Hw as [Hw _].
  skip_facts; ws_facts; try destruct Hw0 as [Hw0 _]; cbn [snd].
  all: eapply settles_bind; [apply Hl; lia|].
  all: intros [u st4|e st4|] Hr; cbn [moved] in Hr;
    [destruct Hr as [Hr _]|split; [exact Hr|exact I]|destruct Hr].
  all: destruct (is_code codeClosingBrace (cur text st4)); apply settles_ret.
  all: (split; [|exact I]); cbn [moved i set_output emit]; rewrite ?i_advance;
    cbn [i emit set_output]; (split; [lia|intros _; lia]).
Qed.

Lemma parseArray_from text st :
  (forall b s, length text - i s < length text - i st ->
     settles (fun n => arrayLoop text n b s) (moved text s never)) ->
  settles (fun n => parseArray text n st) (openedDone text codeOpeningBracket st).
Proof.
  intros Hl. unstep parseArray. destruct (is_code codeOpeningBracket (cur text st)) eqn:E.
  2: { apply settles_ret. split; [split; [lia|discriminate]|now split]. }
  apply is_code_some in E. ws_facts. destruct Hw as [Hw _].
  skip_facts; ws_facts; try destruct Hw0 as [Hw0 _]; cbn [snd].
  all: eapply settles_bind; [apply Hl; lia|].
  all: intros [u st4|e st4|] Hr; cbn [moved] in Hr;
    [destruct Hr as [Hr _]|split; [exact Hr|exact I]|destruct Hr].
  all: destruct (is_code codeClosingBracket (cur text st4)); apply settles_ret.
  all: (split; [|exact I]); cbn [moved i set_output emit]; rewrite ?i_advance;
    cbn [i emit set_output]; (split; [lia|intros _; lia]).
Qed.

Lemma is_code_sym c x : is_code c (Some x) = (x =? c)%N.
Proof. cbn [is_code test]. apply N.eqb_sym. Qed.

(** Where no recognizer finds a value, no character that starts one stands. *)
Lemma no_value_start text s1 s6 :
  is_code codeOpeningBrace (cur text s1) = false ->
  is_code codeOpeningBracket (cur text s1) = false ->
  test isQuote (cur text (skipped text s1)) = false ->
  i s6 = i (skipped text s1) ->
  test isSymbolCharacter (cur text s6) = false ->
  test isStartOfValue (cur text s1) = false.
Proof.
  intros H1 H2 H3 H4 H5.
  destruct (test isStartOfValue (cur text s1)) eqn:Es; [exfalso|reflexivity].
  assert (Hc : cur text s6 = cur text (skipped text s1)) by (unfold cur; now rewrite H4).
  rewrite Hc in H5. clear Hc H4. unfold skipped in *.
  destruct (cur text s1) as [c|] eqn:Ec; [|discriminate]. cbn [test] in Es.
  rewrite is_code_sym in *.
  destruct (N.eqb_spec c codeBackslash) as [->|Hb]; [discriminate Es|].
  rewrite Ec in *. cbn [test] in *.
  rewrite (startOfValue_symbol c Es H2 H1 H3) in H5. discriminate.
Qed.

Lemma parseValue_from text st :
  (forall s, length text - i s <= length text - i st ->
     settles (fun n => parseObject text n s) (openedDone text codeOpeningBrace s)) ->
  (forall s, length text - i s <= length text - i st ->
     settles (fun n => parseArray text n s) (openedDone text codeOpeningBracket s)) ->
  (forall s, length text - i s <= length text - i st -> anchored text s ->
     settles (fun n => parseUnquotedString text n s) (unquotedDone text s)) ->
  settles (fun n => parseValue text n st) (valueDone text st).
Proof.
  intros Ho Ha Hu. unstep parseValue. unfold valueDone.
  ws_facts. cbn [snd]. destruct Hw as [Hw Hc].
  apply (settles_bind _ _
           (fun r => moved text s (fun b => b) r
                     /\ match r with
                        | Ret false _ => test isStartOfValue (cur text s) = false
                        | _ => True
                        end)).
  2: { intros [ok s2|e s2|] [Hr Hr']; cbn [moved] in Hr; [|now split|destruct Hr].
       ws_facts. destruct Hw0 as [Hw0 _]. apply settles_ret.
       split; [|destruct ok; [exact I|exact Hr']].
       cbn [moved]. split; [lia|]. intros Hok. destruct Hr as [_ Hr]. specialize (Hr Hok). lia. }
  eapply settles_orElseM; [apply Ho; lia|].
  intros [[|] s2|e s2|] [Hr Hr']; cbn [moved] in Hr; [now split|
    destruct Hr' as [-> Hbrace]; clear Hr|now split|destruct Hr].
  eapply settles_orElseM; [apply Ha; lia|].
  intros [[|] s2|e s2|] [Hr Hr']; cbn [moved] in Hr; [now split|
    destruct Hr' as [-> Hbracket]; clear Hr|now split|destruct Hr].
  eapply settles_orElseM; [apply parseString_ends|].
  intros [[|] s2|e s2|] [Hr Hr']; cbn [moved] in Hr; [now split|
    destruct Hr' as [-> Hquote]; clear Hr|now split|destruct Hr].
  pose proof (skipped_forward text s) as [Hk Hanchor].
  unfold lift, orElseM at 1. cbn [bind].
  pose proof (parseNumber_forward text (skipped text s)) as [Hn1 [Hn2 Hn3]].
  destruct (parseNumber text (skipped text s)) as [[|] s5]; cbn [fst snd] in *.
  { apply settles_ret. split; [|exact I]. split; [lia|]. intros _.
    specialize (Hn2 eq_refl). split; lia. }
  specialize (Hn3 eq_refl). clear Hn1 Hn2.
  unfold orElseM at 1. cbn [bind].
  pose proof (parseKeywords_forward text s5) as [Hk1 [Hk2 Hk3]].
  destruct (parseKeywords text s5) as [[|] s6]; cbn [fst snd] in *.
  { apply settles_ret. split; [|exact I]. split; [lia|]. intros _.
    specialize (Hk2 eq_refl). split; lia. }
  specialize (Hk3 eq_refl). subst s6. clear Hk1 Hk2.
  eapply settles_weaken.
  - apply Hu; [lia|]. apply (anchored_same text (skipped text s)); [exact Hn3|].
    destruct Hanchor as [H|[H|H]]; [now left|now right|]. rewrite H. now left.
  - intros [[|] s7|e s7|]; cbn [unquotedDone moved]; try tauto.
    + intros [H1 [H2 _]]. specialize (H2 eq_refl). split; [|exact I].
      split; [lia|]. intros _. split; [|lia].
      destruct H2 as [H2 H3]. 
      destruct Hanchor as [H|[H|H]].
      *         assert (Hc5 : cur text s5 = cur text (skipped text s)) by (unfold cur; now rewrite Hn3).
        rewrite Hc5 in H3. specialize (H3 H). lia.
      * unfold skipped in *. destruct (is_code codeBackslash (cur text s)) eqn:Eb.
        -- rewrite i_advance in *. lia.
        -- assert (Hc5 : cur text s5 = cur text s) by (unfold cur; now rewrite Hn3).
           rewrite Hc5 in H3. specialize (H3 Hc). lia.
      * rewrite H in *.
        assert (Hc5 : cur text s5 = cur text s) by (unfold cur; now rewrite Hn3).
        rewrite Hc5 in H3. specialize (H3 Hc). lia.
    + intros [H1 [_ H2]]. destruct (H2 eq_refl) as [-> H3]. split; [split; [lia|discriminate]|].
      now apply (no_value_start text s s5).
Qed.

Ltac ellipsis_facts :=
  match goal with
  | |- context [skipEllipsis ?t ?s] =>
      let H := fresh "He" in
      pose proof (skipEllipsis_forward t s) as H;
      destruct (skipEllipsis t s) as [? ?]; cbn [fst snd] in H
  end.

Lemma moved_on {A : Type} text st s (r : result A) :
  i st <= i s -> moved text s never r -> moved text st never r.
Proof.
  intros H. destruct r as [a st'|e st'|]; cbn [moved]; try tauto.
  intros [H1 _]. split; [lia|discriminate].
Qed.

Lemma arrayLoop_from text st :
  (forall s, length text - i s <= length text - i st ->
     settles (fun n => parseValue text n s) (valueDone text s)) ->
  (forall b s, length text - i s < length text - i st ->
     settles (fun n => arrayLoop text n b s) (moved text s never)) ->
  forall initial, settles (fun n => arrayLoop text n initial st) (moved text st never).
Proof.
  intros Hv Hl initial. unstep arrayLoop.
  destruct (atEnd text st) eqn:Ee; cbn [negb andb].
  { apply settles_ret. apply moved_never. lia. }
  apply atEnd_false in Ee.
  destruct (negb (is_code codeClosingBracket (cur text st))).
  2: { apply settles_ret. apply moved_never. lia. }
  assert (Hfrom : forall s1, i st <= i s1 ->
            settles (fun n => let '(_, st0) := skipEllipsis text s1 in
                              bind (parseValue text n st0)
                                (fun processedValue st1 =>
                                   if negb processedValue
                                   then Ret tt (set_output
                                          (stripLastOccurrence (output st1) codeComma false) st1)
                                   else arrayLoop text n false st1))
                    (moved text st never)).
  { intros s1 H1. ellipsis_facts. destruct He as [He _].
    eapply settles_bind; [apply Hv; lia|].
    intros [[|] s3|e s3|] [Hr _]; cbn [moved] in Hr; cbn [negb];
      [|apply settles_ret; apply moved_never; cbn [i set_output]; lia|exact Hr|destruct Hr].
    destruct Hr as [_ Hr]. specialize (Hr eq_refl).
    eapply settles_weaken; [apply Hl; lia|]. intros r. apply moved_on. lia. }
  destruct initial; cbn [negb].
  - apply Hfrom. lia.
  - char_facts; apply Hfrom; cbn [i set_output]; lia.
Qed.

Lemma newlineDelimitedLoop_from text st :
  (forall s, length text - i s <= length text - i st ->
     settles (fun n => parseValue text n s) (valueDone text s)) ->
  (forall b s, length text - i s < length text - i st ->
     settles (fun n => newlineDelimitedLoop text n b s) (moved text s never)) ->
  forall initial, settles (fun n => newlineDelimitedLoop text n initial st) (moved text st never).
Proof.
  intros Hv Hl initial. unstep newlineDelimitedLoop.
  assert (Hfrom : forall s1, i st <= i s1 ->
            settles (fun n => bind (parseValue text n s1)
                                (fun processedValue st1 =>
                                   if processedValue
                                   then newlineDelimitedLoop text n false st1
                                   else Ret tt st1))
                    (moved text st never)).
  { intros s1 H1.
    eapply settles_bind; [apply Hv; lia|].
    intros [[|] s3|e s3|] [Hr _]; cbn [moved] in Hr;
      [|apply settles_ret; apply moved_never; lia|exact Hr|destruct Hr].
    destruct Hr as [_ Hr]. specialize (Hr eq_refl).
    eapply settles_weaken; [apply Hl; lia|]. intros r. apply moved_on. lia. }
  destruct initial; cbn [negb].
  - apply Hfrom. lia.
  - char_facts; apply Hfrom; cbn [i set_output]; lia.
Qed.

Lemma parseWSC_stop text st :
  test blank (cur text (snd (parseWhitespaceAndSkipComments text st))) = false.
Proof.
  rewrite cur_rest. unfold rest. rewrite parseWSC_i.
  rewrite Nat.add_comm, <- skipn_skipn. apply span_stop.
Qed.

Lemma span_zero (p : N -> bool) l : test p (hd_error l) = false -> span p l = 0.
Proof. destruct l as [|c l]; [reflexivity|]. cbn [span hd_error test]. now intros ->. Qed.

(** Behind whitespace that was read, a value is looked for where the cursor
    stands. *)
Lemma parseWSC_at text o s :
  test blank (cur text s) = false ->
  cur text (snd (parseWhitespaceAndSkipComments text (set_output o s))) = cur text s.
Proof.
  intros H. unfold cur at 1. rewrite parseWSC_i, rest_set_output.
  rewrite cur_rest in H. rewrite (span_zero _ _ H). cbn [i set_output].
  now rewrite Nat.add_0_r.
Qed.

Lemma set_output_same st : set_output (output st) st = st.
Proof. now destruct st. Qed.

Ltac ellipsis_as s H :=
  match goal with
  | |- context [skipEllipsis ?t ?s0] =>
      pose proof (skipEllipsis_forward t s0) as H;
      destruct (skipEllipsis t s0) as [? s]; cbn [fst snd] in H
  end.

Ltac ws_as s H :=
  match goal with
  | |- context [parseWhitespaceAndSkipComments ?t ?s0] =>
      pose proof (parseWSC_forward t s0) as [H _];
      destruct (parseWhitespaceAndSkipComments t s0) as [? s];
      cbn [fst snd i advance set_i emit set_output restart] in H
  end.

Lemma objectLoop_from text st :
  (forall s, length text - i s <= length text - i st -> anchored text s ->
     settles (fun n => parseUnquotedString text n s) (unquotedDone text s)) ->
  (forall s, length text - i s <= length text - i st ->
     settles (fun n => parseValue text n s) (valueDone text s)) ->
  (forall b s, length text - i s < length text - i st ->
     settles (fun n => objectLoop text n b s) (moved text s never)) ->
  forall initial, settles (fun n => objectLoop text n initial st) (moved text st never).
Proof.
  intros Hu Hv Hl initial. unstep objectLoop.
  destruct (atEnd text st) eqn:Ee; cbn [negb andb].
  { apply settles_ret. apply moved_never. lia. }
  apply atEnd_false in Ee.
  destruct (negb (is_code codeClosingBrace (cur text st))).
  2: { apply settles_ret. apply moved_never. lia. }
  (* the rest of a round, from the state behind the comma *)
  match goal with
  | |- settles (fun n => let '(_, st0) := skipEllipsis text ?s1 in @?body n st0) _ =>
      assert (Hfrom : forall s, i st <= i s ->
                settles (fun n => let '(_, st0) := skipEllipsis text s in body n st0)
                        (moved text st never));
      [|cbv beta in Hfrom; apply Hfrom;
        destruct initial; cbn [negb]; [lia|];
        char_facts; ws_facts; cbn [snd]; destruct Hw as [Hw _];
        cbn [i set_output] in Hw; lia]
  end.
  cbv beta. intros s1 H1. ellipsis_as s0 He. destruct He as [He [Hanch Hprog]].
  (* the key *)
  apply (settles_bind _ _
           (fun r => match r with
                     | Ret ok s3 => i s0 <= i s3 /\ (ok = true -> i st < i s3)
                     | Throw e _ => within text e
                     | OutOfFuel => False
                     end)).
  { eapply settles_orElseM; [apply parseString_ends|].
    intros [[|] s3|e s3|] [Hr Hr']; cbn [moved] in Hr; [|destruct Hr' as [-> Hq]|exact Hr|destruct Hr].
    - destruct Hr as [Hr1 Hr2]. specialize (Hr2 eq_refl). split; [lia|intros _; lia].
    - pose proof (skipped_forward text s0) as [Hk Hanchor].
      eapply settles_weaken.
      + apply Hu; [lia|]. destruct Hanchor as [H|[H|H]]; [now left|now right|now rewrite H].
      + intros [ok s4|e s4|]; cbn [unquotedDone]; try tauto.
        intros [H2 [H3 H4]]. split; [lia|]. intros ->. destruct (H3 eq_refl) as [_ H5].
        unfold skipped in *. destruct (is_code codeBackslash (cur text s0)) eqn:Eb.
        * rewrite i_advance in *. lia.
        * destruct Hprog as [Hc|Hp]; [specialize (H5 Hc)|]; lia. }
  intros [[|] s3|e s3|] Hr; [destruct Hr as [Hr1 Hr2]; specialize (Hr2 eq_refl)
                            |destruct Hr as [Hr1 _]|exact Hr|destruct Hr]; cbn [negb].
  2: { (* no key *)
       destruct (atEnd text s3) eqn:E3.
       - rewrite !orb_true_r. apply settles_ret. apply moved_never. cbn [i set_output]. lia.
       - rewrite orb_false_r. destruct (_ || _ || _ || _); apply settles_ret.
         + apply moved_never. cbn [i set_output]. lia.
         + apply within_at; [now apply atEnd_false|discriminate]. }
  (* a key: the colon and the value *)
  pose proof (parseWSC_stop text s3) as Hblank.
  ws_as s2 Hw. cbn [snd] in Hblank.
  pose proof (parseCharacter_forward text codeColon s2) as [Hp1 [Hp2 Hp3]].
  destruct (parseCharacter text codeColon s2) as [[|] s5]; cbn [fst snd negb] in *.
  - (* with its colon *)
    cbn [bind orb].
    eapply settles_bind; [apply Hv; lia|].
    intros [ok s7|e s7|] [Hr _]; cbn [moved] in Hr; [|exact Hr|destruct Hr].
    destruct Hr as [Hr _].
    destruct ok; cbn [negb bind];
      (eapply settles_weaken; [apply Hl; cbn [i emit set_output]; lia|]);
      intros r; apply moved_on; cbn [i emit set_output]; lia.
  - (* without *)
    specialize (Hp3 eq_refl). subst s5. clear Hp1 Hp2.
    destruct (atEnd text s2) eqn:E2.
    + rewrite orb_true_r. cbn [bind].
      eapply settles_bind; [apply Hv; cbn [i set_output]; lia|].
      intros [ok s7|e s7|] [Hr _]; cbn [moved] in Hr; [|exact Hr|destruct Hr].
      destruct Hr as [Hr _]. cbn [i set_output] in Hr.
      destruct ok; cbn [negb bind orb];
        (eapply settles_weaken; [apply Hl; cbn [i emit set_output]; lia|]);
        intros r; apply moved_on; cbn [i emit set_output]; lia.
    + rewrite orb_false_r. apply atEnd_false in E2.
      destruct (test isStartOfValue (cur text s2)) eqn:Es; cbn [bind throw].
      2: { apply settles_ret. apply within_at; [exact E2|discriminate]. }
      eapply settles_bind; [apply Hv; cbn [i set_output]; lia|].
      intros [ok s7|e s7|] [Hr Hr']; cbn [moved] in Hr; [|exact Hr|destruct Hr].
      destruct Hr as [Hr _]. cbn [i set_output] in Hr.
      destruct ok; cbn [negb bind orb].
      * eapply settles_weaken; [apply Hl; lia|]. intros r. apply moved_on. lia.
      * exfalso. rewrite (parseWSC_at text _ s2 Hblank) in Hr'. congruence.
Qed.

Lemma values_settle text m :
  forall st, length text - i st < m ->
    (anchored text st ->
     settles (fun n => parseUnquotedString text n st) (unquotedDone text st))
    /\ settles (fun n => parseObject text n st) (openedDone text codeOpeningBrace st)
    /\ settles (fun n => parseArray text n st) (openedDone text codeOpeningBracket st)
    /\ settles (fun n => parseValue text n st) (valueDone text st)
    /\ (forall b, settles (fun n => arrayLoop text n b st) (moved text st never))
    /\ (forall b, settles (fun n => objectLoop text n b st) (moved text st never))
    /\ (forall b, settles (fun n => newlineDelimitedLoop text n b st) (moved text st never)).
Proof.
  induction m as [|m IH]; intros st Hm; [lia|].
  assert (Hu : forall s, length text - i s < S m -> anchored text s ->
             settles (fun n => parseUnquotedString text n s) (unquotedDone text s)).
  { intros s Hs Ha. apply parseUnquotedString_from; [|exact Ha].
    intros s' Hs'. apply IH. lia. }
  assert (Ho : forall s, length text - i s < S m ->
             settles (fun n => parseObject text n s) (openedDone text codeOpeningBrace s)).
  { intros s Hs. apply parseObject_from. intros b s' Hs'. apply IH. lia. }
  assert (Ha : forall s, length text - i s < S m ->
             settles (fun n => parseArray text n s) (openedDone text codeOpeningBracket s)).
  { intros s Hs. apply parseArray_from. intros b s' Hs'. apply IH. lia. }
  assert (Hv : forall s, length text - i s < S m ->
             settles (fun n => parseValue text n s) (valueDone text s)).
  { intros s Hs. apply parseValue_from; intros s' Hs'; [apply Ho|apply Ha|apply Hu]; lia. }
  split; [now apply Hu|]. split; [now apply Ho|]. split; [now apply Ha|].
  split; [now apply Hv|]. split; [|split].
  - apply arrayLoop_from; [intros s Hs; apply Hv; lia|intros b s Hs; apply IH; lia].
  - apply objectLoop_from;
      [intros s Hs; apply Hu; lia|intros s Hs; apply Hv; lia|intros b s Hs; apply IH; lia].
  - apply newlineDelimitedLoop_from;
      [intros s Hs; apply Hv; lia|intros b s Hs; apply IH; lia].
Qed.

(** [parseValue] ends on every input and in every state, and so does the
    loop of [parseNewlineDelimitedJSON]. *)
Lemma parseValue_ends text st :
  settles (fun n => parseValue text n st) (valueDone text st).
Proof. apply (values_settle text (S (length text))). lia. Qed.

Lemma newlineDelimitedLoop_ends text b st :
  settles (fun n => newlineDelimitedLoop text n b st) (moved text st never).
Proof. apply (values_settle text (S (length text))). lia. Qed.

Lemma run_ends text : settles (run text) (runDone text).
Proof.
  unfold run.
  eapply settles_bind; [apply parseValue_ends|].
  intros [[|] s1|e s1|] [Hr _]; cbn [moved] in Hr; cbn [negb];
    [| |destruct Hr as [H1 H2]|destruct Hr].
  2: { apply settles_ret. cbn. split; [lia|]. split; reflexivity. }
  2: { cbn [runDone]. split; [lia|]. split; [lia|intros H; now rewrite H in H2]. }
  destruct (parseCharacter text codeComma s1) as [processedComma s2].
  match goal with
  | |- settles (fun n => bind (if ?c then _ else _) _) _ => destruct c
  end.
  - unfold parseNewlineDelimitedJSON.
    apply (settles_bind _ _ (fun r => match r with
                                      | Ret _ _ => True
                                      | Throw e _ => within text e
                                      | OutOfFuel => False
                                      end)).
    + eapply settles_bind; [apply newlineDelimitedLoop_ends|].
      intros [u s3|e s3|] H; cbn [moved] in H; [|exact H|destruct H].
      apply settles_ret. exact I.
    + intros [u s3|e s3|] H; [|destruct H as [H1 H2]; cbn [runDone]; split; [lia|];
                               split; [lia|intros H3; now rewrite H3 in H2]|destruct H].
      destruct (atEnd text _) eqn:Ee; apply settles_ret; [exact I|].
      apply atEnd_false in Ee. cbn [runDone throw err_message position].
      split; [lia|]. split; [lia|discriminate].
  - match goal with
    | |- settles (fun n => bind ?m _) _ =>
        assert (Hm : exists s3, m = Ret tt s3) by (destruct processedComma; eexists; reflexivity)
    end.
    destruct Hm as [s3 ->]. cbn [bind].
    destruct (atEnd text _) eqn:Ee; apply settles_ret; [exact I|].
    apply atEnd_false in Ee. cbn [runDone throw err_message position].
    split; [lia|]. split; [lia|discriminate].
Qed.

(** X29: [jsonrepair] ends on every input: it returns a repaired text or it
    throws an error. No loop of a recognizer and no chain of calls among them
    goes on for ever, whatever the text. *)
Theorem jsonrepair_ends (text : jsstring) :
  (exists out, repairs_to text out) \/ (exists e, fails_with text e).
Proof.
  destruct (run_ends text) as [[out st|e st|] [n0 [HP H]]]; [left|right|destruct HP].
  - exists out, n0. intros n Hn. unfold jsonrepair. now rewrite H.
  - exists e, n0. intros n Hn. unfold jsonrepair. now rewrite H.
Qed.

(** X30: the position of an error that [jsonrepair] throws is at most the
    length of the text, and it is the length of the text for the unexpected
    end and for no other error: every other error points at a character of the
    text. *)
Theorem error_position_in_text (text : jsstring) (e : JSONRepairError) :
  fails_with text e ->
  position e <= length text
  /\ (position e = length text <-> err_message e = UnexpectedEnd).
Proof.
  intros [n1 H1]. destruct (run_ends text) as [r [n0 [HP H]]].
  specialize (H1 (n0 + n1) ltac:(lia)). specialize (H (n0 + n1) ltac:(lia)).
  unfold jsonrepair in H1. rewrite H in H1.
  destruct r as [out st|e' st|]; [discriminate|injection H1 as ->; exact HP|destruct HP].
Qed.

Lemma error_position_in_text_witness :
  fails_with (lit "{:") {| err_message := ObjectKeyExpected; position := 1 |}
  /\ 1 <= 2 /\ (1 = 2 <-> ObjectKeyExpected = UnexpectedEnd).
Proof.
  assert (H : fails_with (lit "{:") {| err_message := ObjectKeyExpected; position := 1 |})
    by run_with 6.
  split; [exact H|].
  exact (error_position_in_text (lit "{:") _ H).
Defined.

(** ** Newline-delimited JSON, whatever begins the next value *)

(** *** A JSON value before the start of another value *)









(** *** The lines *)












(** ** Where the cursor moves backward *)

Section Extends.

Variable P : rewind -> Prop.

Lemma extends_refl st : extends P st st.
Proof. exists []. split; [now rewrite app_nil_r|constructor]. Qed.

Lemma extends_trans st0 st1 st2 :
  extends P st0 st1 -> extends P st1 st2 -> extends P st0 st2.
Proof.
  intros [l1 [H1 F1]] [l2 [H2 F2]]. exists (l1 ++ l2). split.
  - now rewrite H2, H1, app_assoc.
  - apply Forall_app. now split.
Qed.

Lemma extends_same st0 st st' :
  rewinds st' = rewinds st -> extends P st0 st -> extends P st0 st'.
Proof. intros E [l [H F]]. exists l. split; [now rewrite E|exact F]. Qed.

Lemma extends_advance st0 w k st : extends P st0 st -> extends P st0 (advance w k st).
Proof. apply extends_same. now rewrite advance_eq. Qed.

Lemma extends_set_output st0 o st : extends P st0 st -> extends P st0 (set_output o st).
Proof. now apply extends_same. Qed.

Lemma extends_emit st0 s st : extends P st0 st -> extends P st0 (emit s st).
Proof. now apply extends_same. Qed.

(** A write of the cursor: forward, or backward with a rewind that [P]
    holds of. *)
Lemma extends_set_i st0 w j st :
  (j < i st -> P {| rw_who := w; rw_from := i st; rw_to := j |}) ->
  extends P st0 st -> extends P st0 (set_i w j st).
Proof.
  intros Hw H. apply (extends_trans _ st); [exact H|]. unfold extends, set_i. cbn [rewinds].
  destruct (Nat.ltb_spec j (i st)) as [Hlt|Hge].
  - eexists. split; [reflexivity|]. constructor; [now apply Hw|constructor].
  - exists []. split; [now rewrite app_nil_r|constructor].
Qed.

Lemma extends_parseWhitespace text st0 st :
  extends P st0 st -> extends P st0 (snd (parseWhitespace text st)).
Proof.
  intros H. unfold parseWhitespace.
  destruct (0 <? length (whitespaceRun (rest text st))); cbn [snd];
    auto using extends_advance, extends_emit.
Qed.

Lemma extends_parseWSC text st0 st :
  extends P st0 st -> extends P st0 (snd (parseWhitespaceAndSkipComments text st)).
Proof.
  intros H. unfold parseWhitespaceAndSkipComments.
  pose proof (extends_parseWhitespace text st0 st H) as H1.
  destruct (parseWhitespace text st). exact H1.
Qed.

Lemma extends_parseCharacter text st0 c st :
  extends P st0 st -> extends P st0 (snd (parseCharacter text c st)).
Proof.
  intros H. unfold parseCharacter. destruct (cur text st) as [x|]; [|exact H].
  destruct (x =? c)%N; cbn [snd]; auto using extends_advance, extends_emit.
Qed.

Lemma extends_skipCharacter text st0 c st :
  extends P st0 st -> extends P st0 (snd (skipCharacter text c st)).
Proof.
  intros H. unfold skipCharacter. destruct (is_code c (cur text st)); cbn [snd];
    auto using extends_advance.
Qed.

Lemma extends_skipEllipsis text st0 st :
  extends P st0 st -> extends P st0 (snd (skipEllipsis text st)).
Proof.
  intros H. unfold skipEllipsis.
  pose proof (extends_parseWSC text st0 st H) as H1.
  destruct (parseWhitespaceAndSkipComments text st) as [b st1]. cbn [snd] in H1.
  destruct (_ && _); [|exact H1].
  pose proof (extends_parseWSC text st0 (advance Ellipsis 3 st1)
                (extends_advance _ _ _ _ H1)) as H2.
  destruct (parseWhitespaceAndSkipComments text (advance Ellipsis 3 st1)) as [b2 st2].
  cbn [snd] in H2.
  pose proof (extends_skipCharacter text st0 codeComma st2 H2) as H3.
  destruct (skipCharacter text codeComma st2). exact H3.
Qed.

Lemma extends_parseKeyword text st0 name value st :
  extends P st0 st -> extends P st0 (snd (parseKeyword text name value st)).
Proof.
  intros H. unfold parseKeyword. destruct (eqb_jsstring _ _); cbn [snd];
    auto using extends_advance, extends_emit.
Qed.

Lemma extends_orElse st0 r k :
  extends P st0 (snd r) -> (forall st, extends P st0 st -> extends P st0 (snd (k st))) ->
  extends P st0 (snd (orElse r k)).
Proof. intros H Hk. destruct r as [[|] st]; cbn [orElse snd] in *; auto. Qed.

Lemma extends_parseKeywords text st0 st :
  extends P st0 st -> extends P st0 (snd (parseKeywords text st)).
Proof.
  intros H. unfold parseKeywords.
  repeat (apply extends_orElse; [now apply extends_parseKeyword|]; intros ? ?).
  now apply extends_parseKeyword.
Qed.

Lemma result_ok_bind {A B : Type} st0 (m : result A) (k : A -> State -> result B) :
  result_ok P st0 m -> (forall a st, extends P st0 st -> result_ok P st0 (k a st)) ->
  result_ok P st0 (bind m k).
Proof. intros Hm Hk. destruct m; cbn [bind result_ok] in *; auto. Qed.

Lemma result_ok_orElseM st0 m k :
  result_ok P st0 m -> (forall st, extends P st0 st -> result_ok P st0 (k st)) ->
  result_ok P st0 (orElseM m k).
Proof.
  intros Hm Hk. unfold orElseM. apply result_ok_bind; [exact Hm|].
  intros [|] st H; cbn [result_ok]; auto.
Qed.

End Extends.

Lemma extends_weaken (P Q : rewind -> Prop) st0 st :
  (forall r, P r -> Q r) -> extends P st0 st -> extends Q st0 st.
Proof.
  intros HPQ [l [E F]]. exists l. split; [exact E|].
  eapply Forall_impl; [exact HPQ|exact F].
Qed.

(** *** The number recognizer *)

Lemma extends_parseNumber text st0 st :
  extends (allowedRewind text) st0 st ->
  extends (allowedRewind text) st0 (snd (parseNumber text st)).
Proof.
  assert (Hback : forall j s, extends (allowedRewind text) st0 s ->
                              extends (allowedRewind text) st0 (set_i Number j s)).
  { intros j s. apply extends_set_i. intros Hj. split; [exact Hj|exact I]. }
  intros H. unfold parseNumber, numberSign, numberFraction, numberExponent, numberEnd,
    skipDigits, repairNumberEndingWithNumericSymbol.
  repeat (match goal with
          | |- context [if ?c then _ else _] => destruct c
          end; cbn [andThen snd]);
    auto 20 using extends_advance, extends_emit.
Qed.

(** *** The string recognizers *)

Lemma string_ok_bind {A B : Type} text ib0 lo st0 (m : result A)
    (k : A -> State -> result B) :
  string_ok text ib0 lo st0 m ->
  (forall a st, extends (stringRewind text ib0 lo) st0 st -> lo <= i st ->
                string_ok text ib0 lo st0 (k a st)) ->
  string_ok text ib0 lo st0 (bind m k).
Proof.
  intros Hm Hk. destruct m; cbn [bind string_ok] in *; auto. destruct Hm. auto.
Qed.

(** The whitespace that [parseWhitespaceAndSkipComments] has passed. *)
Lemma parseWSC_passed text st :
  forallb blank
    (slice text (i st) (i (snd (parseWhitespaceAndSkipComments text st)))) = true.
Proof.
  rewrite parseWSC_i, slice_ahead. apply span_split.
Qed.

Lemma skipEscape_forward text st :
  i st <= i (snd (skipEscapeCharacter text st)).
Proof.
  unfold skipEscapeCharacter, skipCharacter. destruct (is_code _ _); cbn [snd];
    rewrite ?advance_eq; cbn [i]; lia.
Qed.

Lemma quote_no_backslash c : isQuote c = true -> (codeBackslash =? c)%N = false.
Proof. intros H. chars. Qed.

(** The string behind a plus sign begins at a checkpoint. *)
Lemma behindPlus_skipped text p st :
  charCodeAt text p = Some codePlus -> p + 1 <= i st ->
  forallb blank (slice text (p + 1) (i st)) = true ->
  behindPlus text (i (skipped text st)).
Proof.
  intros Hp Hi Hb. exists p. unfold skipped.
  destruct (is_code codeBackslash (cur text st)) eqn:E.
  - rewrite advance_eq. cbn [i]. split; [lia|]. split; [exact Hp|].
    unfold is_code, cur in E. destruct (charCodeAt text (i st)) as [c|] eqn:Ec; [|discriminate].
    cbn [test] in E. apply N.eqb_eq in E. subst c.
    rewrite (slice_snoc text _ (i st + 1) codeBackslash)
      by (rewrite ?charCodeBefore_next; auto; lia).
    replace (i st + 1 - 1) with (i st) by lia.
    rewrite forallb_app. cbn [forallb]. rewrite N.eqb_refl, orb_true_r, !andb_true_r.
    rewrite forallb_forall in *. intros x Hx. now rewrite (Hb x Hx).
  - split; [lia|]. split; [exact Hp|].
    rewrite forallb_forall in *. intros x Hx. now rewrite (Hb x Hx).
Qed.

(** The rewinds of a call of [parseString]: back to a checkpoint [iBefore],
    where an opening quote stands, or to [iQuote + 1], over the whitespace
    behind a quote. *)
Lemma strings_rewinds text ib0 n :
  (forall b lo st0 st,
     extends (stringRewind text ib0 lo) st0 st -> lo <= i st ->
     checkpoint text ib0 (i (skipped text st)) ->
     string_ok text ib0 lo st0 (parseString text n b st))
  /\ (forall b1 b2 q ib ob str lo st0 st,
        extends (stringRewind text ib0 lo) st0 st -> lo <= ib -> ib < i st ->
        checkpoint text ib0 ib ->
        test isQuote (charCodeAt text ib) = true ->
        (forall c, q c = true -> isQuote c = true) ->
        string_ok text ib0 lo st0 (stringLoop text n b1 b2 q ib ob str st))
  /\ (forall lo st0 st,
        extends (stringRewind text ib0 lo) st0 st -> lo <= i st ->
        string_ok text ib0 lo st0 (parseConcatenatedString text n st))
  /\ (forall p lo st0 st,
        extends (stringRewind text ib0 lo) st0 st -> lo <= i st ->
        string_ok text ib0 lo st0 (concatenationLoop text n p st)).
Proof.
  induction n as [|n [IH1 [IH2 [IH3 IH4]]]]; [repeat split; intros; exact I|].
  split; [|split; [|split]].
  - (* parseString *)
    intros b lo st0 st H Hlo Hcp. cbn [parseString]. fold (skipped text st).
    set (st1 := skipped text st) in *.
    assert (H1 : extends (stringRewind text ib0 lo) st0 st1)
      by (unfold st1, skipped; destruct (is_code _ _); auto using extends_advance).
    assert (Hi1 : lo <= i st1)
      by (unfold st1, skipped; destruct (is_code _ _); rewrite ?advance_eq; cbn [i]; lia).
    destruct (test isQuote (cur text st1)) eqn:Eq; [|cbn [string_ok]; now split].
    apply IH2; auto using extends_advance.
    + rewrite advance_eq. cbn [i]. lia.
    + intros c Hc. destruct (cur text st1) as [q|]; [|discriminate].
      now apply (endQuote_isQuote q).
  - (* the loop *)
    intros b1 b2 q ib ob str lo st0 st H Hlo Hib Hcp Hq Hend. cbn [stringLoop].
    assert (Hnext : forall str' s, extends (stringRewind text ib0 lo) st0 s -> ib < i s ->
              string_ok text ib0 lo st0
                (stringLoop text n b1 b2 q ib ob str'
                   (if b2 then snd (skipEscapeCharacter text s) else s))).
    { intros str' s Hs Hi. apply IH2; auto.
      - destruct b2; [now apply extends_skipCharacter|exact Hs].
      - destruct b2; [|exact Hi]. pose proof (skipEscape_forward text s). lia. }
    assert (Hrestart : forall s, extends (stringRewind text ib0 lo) st0 s -> ib < i s ->
              string_ok text ib0 lo st0 (parseString text n true (restart ib ob s))).
    { intros s Hs Hi.
      assert (Hsk : skipped text (restart ib ob s) = restart ib ob s).
      { unfold skipped, is_code, cur. cbn [restart set_output set_i i].
        destruct (charCodeAt text ib) as [c|]; [|reflexivity]. cbn [test] in *.
        now rewrite (quote_no_backslash c Hq). }
      apply IH1; [|cbn [restart set_output set_i i]; lia|rewrite Hsk; exact Hcp].
      unfold restart. apply extends_set_output, extends_set_i; [|exact Hs].
      intros _. repeat split; cbn [rw_who rw_to rw_from]; auto. }
    destruct (atEnd text st) eqn:Eend.
    { destruct (negb b1 && _); [now apply Hrestart|].
      cbn [string_ok]. split; [now apply extends_emit|]. cbn [emit set_output i]. lia. }
    destruct (test q (cur text st)) eqn:Equote.
    { (* a quote that may end the string *)
      set (st1 := emit (str ++ dquote) (advance StringR 1 st)).
      assert (H1 : extends (stringRewind text ib0 lo) st0 st1)
        by (unfold st1; auto using extends_emit, extends_advance).
      assert (Hi1 : i st1 = i st + 1) by (unfold st1; now rewrite advance_eq).
      pose proof (extends_parseWSC _ text st0 st1 H1) as H2.
      pose proof (parseWSC_i text st1) as Hi2.
      pose proof (parseWSC_passed text st1) as Hb2.
      destruct (parseWhitespaceAndSkipComments text st1) as [b st2]. cbn [snd] in *.
      destruct (_ || _).
      { apply string_ok_bind; [apply IH3; [exact H2|lia]|].
        intros a s Hs Hi. cbn [string_ok]. now split. }
      destruct (test isDelimiter _); [apply Hrestart; [exact H2|lia]|].
      apply Hnext; [|cbn [set_i i]; lia].
      apply extends_set_i; [|now apply extends_set_output].
      cbn [set_output i]. intros Hlt. repeat split; cbn [rw_who rw_to rw_from]; try lia.
      right. split.
      - rewrite charCodeBefore_next. fold (cur text st).
        destruct (cur text st) as [c|]; [|discriminate]. now apply Hend.
      - rewrite <- Hi1. exact Hb2. }
    destruct (b1 && test isDelimiter (cur text st)).
    { apply string_ok_bind; [apply IH3; [now apply extends_emit|cbn [emit set_output i]; lia]|].
      intros a s Hs Hi. cbn [string_ok]. now split. }
    assert (Hadv : forall str' k, string_ok text ib0 lo st0
              (stringLoop text n b1 b2 q ib ob str'
                 (if b2 then snd (skipEscapeCharacter text (advance StringR k st))
                  else advance StringR k st))).
    { intros str' k. apply Hnext; [now apply extends_advance|].
      rewrite advance_eq. cbn [i]. lia. }
    destruct (is_code codeBackslash (cur text st)).
    { destruct (test isEscapeCharacter _); [apply Hadv|].
      destruct (is_code codeLowercaseU _); [|apply Hadv].
      destruct (_ =? 6); [apply Hadv|].
      destruct (length text <=? _); [|cbn [throw string_ok]; exact H].
      apply Hnext.
      - apply extends_set_i; [|exact H]. intros Hlt.
        apply Nat.leb_gt in Eend. lia.
      - cbn [set_i i]. apply Nat.leb_gt in Eend. lia. }
    destruct (cur text st) as [code|]; [|cbn [throw string_ok]; exact H].
    destruct (_ && _); [apply Hadv|].
    destruct (isControlCharacter code); [apply Hadv|].
    destruct (negb _); [cbn [throw string_ok]; exact H|apply Hadv].
  - (* parseConcatenatedString *)
    intros lo st0 st H Hlo. cbn [parseConcatenatedString].
    pose proof (extends_parseWSC _ text st0 st H) as H1.
    pose proof (parseWSC_i text st) as Hi1.
    destruct (parseWhitespaceAndSkipComments text st) as [b st1]. cbn [snd] in *.
    apply IH4; [exact H1|lia].
  - (* the loop of parseConcatenatedString *)
    intros p lo st0 st H Hlo. cbn [concatenationLoop].
    destruct (is_code codePlus (cur text st)) eqn:Eplus; [|cbn [string_ok]; now split].
    assert (Hp : charCodeAt text (i st) = Some codePlus).
    { unfold is_code, cur in Eplus. destruct (charCodeAt text (i st)) as [c|]; [|discriminate].
      cbn [test] in Eplus. apply N.eqb_eq in Eplus. now subst c. }
    pose proof (extends_parseWSC _ text st0 (advance Concatenated 1 st)
                  (extends_advance _ _ _ _ _ H)) as H1.
    pose proof (parseWSC_i text (advance Concatenated 1 st)) as Hi1.
    pose proof (parseWSC_passed text (advance Concatenated 1 st)) as Hb1.
    destruct (parseWhitespaceAndSkipComments text (advance Concatenated 1 st)) as [b st1].
    cbn [snd] in *. rewrite advance_eq in Hi1, Hb1. cbn [i] in Hi1, Hb1.
    apply string_ok_bind.
    + apply IH1; [now apply extends_set_output|cbn [set_output i]; lia|].
      right. apply (behindPlus_skipped text (i st)); cbn [set_output i]; auto. lia.
    + intros a s Hs Hi. apply IH4.
      * destruct a; now apply extends_set_output.
      * destruct a; cbn [set_output i]; exact Hi.
Qed.

(** *** All the recognizers *)

(** A string attempt, seen from a caller outside the string recognizers. *)
Lemma parseString_allowed text n b st0 st :
  extends (allowedRewind text) st0 st ->
  result_ok (allowedRewind text) st0 (parseString text n b st).
Proof.
  intros H.
  pose proof (proj1 (strings_rewinds text (i (skipped text st)) n) b (i st) st st
                (extends_refl _ st) (le_n _) (or_introl eq_refl)) as Hs.
  assert (Hw : forall s, extends (stringRewind text (i (skipped text st)) (i st)) st s ->
                         extends (allowedRewind text) st0 s).
  { intros s Hx. apply (extends_trans _ _ st); [exact H|].
    apply (extends_weaken (stringRewind text (i (skipped text st)) (i st))); [|exact Hx].
    intros r [H1 [_ [H3 H4]]]. split; [exact H3|]. rewrite H1.
    destruct H4 as [[_ H4]|H4]; [now left|now right]. }
  destruct (parseString text n b st); cbn [string_ok result_ok] in *; auto.
  destruct Hs. auto.
Qed.

(** The whitespace that [parseUnquotedString] goes back over. *)
Lemma trimmedEnd_whitespace text k :
  forallb isWhitespace (slice text (trimmedEnd text k) k) = true.
Proof.
  induction k as [|k IH]; cbn [trimmedEnd]; [reflexivity|].
  destruct (charCodeAt text k) as [c|] eqn:Ec; cbn [test].
  - destruct (isWhitespace c) eqn:Ew.
    + pose proof (trimmedEnd_le text k) as Hle.
      rewrite (slice_snoc text _ (S k) c) by (cbn [charCodeBefore]; auto; lia).
      replace (S k - 1) with k by lia.
      rewrite forallb_app, IH. cbn [forallb]. now rewrite Ew.
    + unfold slice. now rewrite Nat.sub_diag.
  - unfold slice. now rewrite Nat.sub_diag.
Qed.

Lemma trimmedEnd_all text k :
  test isWhitespace (charCodeBefore text (trimmedEnd text k)) = false.
Proof.
  induction k as [|k IH]; cbn [trimmedEnd]; [reflexivity|].
  destruct (test isWhitespace (charCodeAt text k)) eqn:E; [exact IH|exact E].
Qed.

Lemma extends_trim text st0 st :
  extends (allowedRewind text) st0 st ->
  extends (allowedRewind text) st0 (set_i Unquoted (trimmedEnd text (i st)) st).
Proof.
  apply extends_set_i. intros Hlt. split; [exact Hlt|].
  cbn [rw_who]. split; [apply trimmedEnd_whitespace|apply trimmedEnd_all].
Qed.

(** [extends P st0 e] for a state [e] written with the cursor and output
    operations and the recognizers that call no other. *)
Ltac ext :=
  first
    [ assumption
    | apply extends_refl
    | lazymatch goal with
      | |- extends _ _ (advance _ _ _) => apply extends_advance; ext
      | |- extends _ _ (emit _ _) => apply extends_emit; ext
      | |- extends _ _ (set_output _ _) => apply extends_set_output; ext
      | |- extends _ _ (set_i Unquoted (trimmedEnd _ _) _) => apply extends_trim; ext
      | |- extends _ _ (snd (parseWhitespace _ _)) => apply extends_parseWhitespace; ext
      | |- extends _ _ (snd (parseWhitespaceAndSkipComments _ _)) =>
          apply extends_parseWSC; ext
      | |- extends _ _ (snd (parseCharacter _ _ _)) => apply extends_parseCharacter; ext
      | |- extends _ _ (snd (skipCharacter _ _ _)) => apply extends_skipCharacter; ext
      | |- extends _ _ (snd (skipEllipsis _ _)) => apply extends_skipEllipsis; ext
      | |- extends _ _ (snd (parseNumber _ _)) => apply extends_parseNumber; ext
      | |- extends _ _ (snd (parseKeywords _ _)) => apply extends_parseKeywords; ext
      | |- extends _ _ (if ?c then _ else _) => destruct c; ext
      | |- extends ?P ?s0 (match ?p with _ => _ end) =>
          let H := fresh "Hp" in
          assert (H : extends P s0 (snd p)) by ext;
          destruct p; cbn [snd] in H; ext
      end ].

(** One step through the body of a recognizer. *)
Ltac rw_step :=
  lazymatch goal with
  | |- result_ok _ _ OutOfFuel => exact I
  | |- result_ok _ _ (Ret _ _) => cbn [result_ok]; ext
  | |- result_ok _ _ (Throw _ _) => cbn [result_ok]; ext
  | |- result_ok _ _ (throw _ _ _) => unfold throw; cbn [result_ok]; ext
  | |- result_ok _ _ (lift _) => unfold lift; cbn [result_ok]; ext
  | |- result_ok _ _ (bind _ _) => apply result_ok_bind; [|intros ? ? ?]
  | |- result_ok _ _ (orElseM _ _) => apply result_ok_orElseM; [|intros ? ?]
  | |- result_ok _ _ (parseString _ _ _ _) => apply parseString_allowed; ext
  | |- result_ok _ _ (if ?c then _ else _) => destruct c
  | |- result_ok ?P ?s0 (match ?p with _ => _ end) =>
      lazymatch type of p with
      | prod _ State =>
          let H := fresh "Hp" in
          assert (H : extends P s0 (snd p)) by ext;
          destruct p; cbn [snd] in H
      | _ => destruct p
      end
  | |- result_ok _ _ _ =>
      match goal with
      | IH : forall _, _ |- _ => apply IH; ext
      end
  end.

Lemma values_ok text n :
  (forall st0 st, extends (allowedRewind text) st0 st ->
                  result_ok (allowedRewind text) st0 (parseValue text n st))
  /\ (forall st0 st, extends (allowedRewind text) st0 st ->
                     result_ok (allowedRewind text) st0 (parseObject text n st))
  /\ (forall b st0 st, extends (allowedRewind text) st0 st ->
                       result_ok (allowedRewind text) st0 (objectLoop text n b st))
  /\ (forall st0 st, extends (allowedRewind text) st0 st ->
                     result_ok (allowedRewind text) st0 (parseArray text n st))
  /\ (forall b st0 st, extends (allowedRewind text) st0 st ->
                       result_ok (allowedRewind text) st0 (arrayLoop text n b st))
  /\ (forall st0 st, extends (allowedRewind text) st0 st ->
                     result_ok (allowedRewind text) st0 (parseUnquotedString text n st)).
Proof.
  induction n as [|n [IH1 [IH2 [IH3 [IH4 [IH5 IH6]]]]]].
  - repeat split; intros; exact I.
  - repeat split; intros.
    + cbn [parseValue]. repeat rw_step.
    + cbn [parseObject]. repeat rw_step.
    + cbn [objectLoop]. repeat rw_step.
    + cbn [parseArray]. repeat rw_step.
    + cbn [arrayLoop]. repeat rw_step.
    + cbn [parseUnquotedString]. repeat rw_step.
Qed.

Lemma newlineDelimitedLoop_ok text n :
  forall b st0 st, extends (allowedRewind text) st0 st ->
                   result_ok (allowedRewind text) st0 (newlineDelimitedLoop text n b st).
Proof.
  induction n as [|n IH]; intros b st0 st H; [exact I|].
  pose proof (proj1 (values_ok text n)) as IHv.
  cbn [newlineDelimitedLoop]. repeat rw_step.
Qed.

Lemma skipRedundantEnds_ok text k :
  forall st0 st, extends (allowedRewind text) st0 st ->
                 extends (allowedRewind text) st0 (skipRedundantEnds text k st).
Proof.
  induction k as [|k IH]; intros st0 st H; cbn [skipRedundantEnds]; [exact H|].
  destruct (_ || _); [|exact H]. apply IH. ext.
Qed.

Lemma run_ok text n : result_ok (allowedRewind text) initialState (run text n).
Proof.
  pose proof (proj1 (values_ok text n)) as IHv.
  pose proof (newlineDelimitedLoop_ok text n) as IHl.
  unfold run, parseNewlineDelimitedJSON.
  apply result_ok_bind; [apply IHv; ext|]. intros processed st H.
  repeat rw_step; try (apply skipRedundantEnds_ok; ext).
Qed.

(** C7, as it holds. Whatever the input and the fuel, and whether the run
    returns or throws, every backward move of the cursor is made by the
    string, the number or the unquoted-string recognizer; all the other
    recognizers move the cursor forward only. A rewind of the string
    recognizer goes to a place where a quote stands or to the place behind a
    quote, over the whitespace behind that quote; a rewind of the
    unquoted-string recognizer goes back over the whitespace before the
    cursor, all of it. The number recognizer never leaves the cursor before
    the place where it started, leaves it there when it returns false, and
    records at most one rewind, which goes back to that place and comes with
    the result false. All the rewinds made during a call of [parseString]
    are rewinds of the string recognizer; none of them goes to before the
    place where the call began, and each goes to a checkpoint [iBefore], the
    place of the opening quote of the call or of a string added behind a plus
    sign, or to [iQuote + 1], the place behind a quote. *)
Theorem C7_cursor_rewinds :
  (forall text n, Forall (allowedRewind text) (rewindsOf (run text n)))
  /\ (forall text st b st', parseNumber text st = (b, st') ->
        i st <= i st'
        /\ (b = false -> i st' = i st)
        /\ (rewinds st' = rewinds st
            \/ b = false
               /\ exists j, rewinds st'
                            = rewinds st ++ [{| rw_who := Number; rw_from := j; rw_to := i st |}]))
  /\ (forall text n b st,
        result_ok (stringRewind text (i (skipped text st)) (i st)) st
                  (parseString text n b st)).
Proof.
  split; [|split].
  - intros text n. pose proof (run_ok text n) as H.
    destruct (run text n) as [a st|e st|]; cbn [result_ok rewindsOf] in *.
    + destruct H as [l [E F]]. rewrite E. exact F.
    + destruct H as [l [E F]]. rewrite E. exact F.
    + constructor.
  - intros text st b st' E. pose proof (parseNumber_cursor text st) as H.
    unfold numberReturn in H. rewrite E in H. exact H.
  - intros text n b st.
    pose proof (proj1 (strings_rewinds text (i (skipped text st)) n) b (i st) st st
                  (extends_refl _ st) (le_n _) (or_introl eq_refl)) as H.
    destruct (parseString text n b st); cbn [string_ok result_ok] in *; auto.
    now destruct H.
Qed.

(** C7 as the specification words it does not hold: on [1a] the number
    recognizer reads the digit and puts the cursor back from 1 to 0, and on
    a quoted [a] followed by a space, [b] and one more quote the string
    recognizer goes back from 4 to 3, the place after the inner quote, which
    is not the checkpoint 0 and holds no quote. *)
Lemma C7_rewind_outside_string :
  rewindsOf (run (lit "1a") 10) = [{| rw_who := Number; rw_from := 1; rw_to := 0 |}]
  /\ ~ rewindsInStringOnly (lit "1a") 10
  /\ rewindsOf (run (quoted (lit "a") ++ lit " b" ++ dquote) 20)
     = [{| rw_who := StringR; rw_from := 4; rw_to := 3 |}]
  /\ ~ rewindsInStringOnly (quoted (lit "a") ++ lit " b" ++ dquote) 20.
Proof.
  assert (E1 : rewindsOf (run (lit "1a") 10)
               = [{| rw_who := Number; rw_from := 1; rw_to := 0 |}]) by (vm_compute; reflexivity).
  assert (E2 : rewindsOf (run (quoted (lit "a") ++ lit " b" ++ dquote) 20)
               = [{| rw_who := StringR; rw_from := 4; rw_to := 3 |}])
    by (vm_compute; reflexivity).
  repeat split; try assumption.
  - unfold rewindsInStringOnly. rewrite E1. intros H.
    apply Forall_inv in H. destruct H as [H _]. discriminate H.
  - unfold rewindsInStringOnly. rewrite E2. intros H.
    apply Forall_inv in H. destruct H as [_ H]. vm_compute in H. discriminate H.
Qed.
